(** * nd: tiling / mosaicking and the Algorithm bridge

    A shallow embedding of [geo/tiling.py] ([tile], [auto_merge]) and of
    [nd/algorithm.py] ([Algorithm.parallel_apply], [extract_arguments],
    [wrap_algorithm]), and the properties of these functions that the
    specification states.

    Conventions.
    - Python exceptions are values of [exn]; a call that may raise returns a
      [result].
    - Python integers are [Z]; positions in an array are [nat].
    - A dataset is a list of named dimensions, each with its coordinate
      labels, and one payload indexed by position.  Coordinate labels are
      64-bit integers as numpy holds them ([int64]): comparisons are exact,
      arithmetic on labels wraps around ([wrap64]); every dimension carries
      a coordinate variable.
    - The file system is a finite map from path strings to nodes. *)

From Stdlib Require Import ZArith Lia Permutation Sorted.
From Stdlib Require Import Ascii String DecimalString DecimalZ.
From stdpp Require Import gmap strings list fin_maps sorting.

Local Open Scope string_scope.
Local Open Scope Z_scope.

(* ===================================================================== *)
(** * Exceptions and results *)
(* ===================================================================== *)

Inductive exn : Type :=
| ValueError (msg : string)
| TypeError (msg : string)
| KeyError (key : string)
| IndexError (msg : string)
| OSError (msg : string).

Inductive result (A : Type) : Type :=
| Ok (a : A)
| Raise (e : exn).
Arguments Ok {A} a.
Arguments Raise {A} e.

Definition bind {A B : Type} (r : result A) (k : A -> result B) : result B :=
  match r with
  | Ok a => k a
  | Raise e => Raise e
  end.

Notation "x <- r ;; k" := (bind r (fun x => k))
  (at level 100, r at next level, right associativity).

Fixpoint mapM {A B : Type} (f : A -> result B) (l : list A) : result (list B) :=
  match l with
  | [] => Ok []
  | a :: l' => b <- f a ;; bs <- mapM f l' ;; Ok (b :: bs)
  end.

Definition is_ok {A : Type} (r : result A) : bool :=
  match r with Ok _ => true | Raise _ => false end.

(* ===================================================================== *)
(** * Python helpers: dict lookup on ordered dicts, [str(int)], slices *)
(* ===================================================================== *)

(** An insertion-ordered [dict] with string keys. *)
Fixpoint assoc {A : Type} (k : string) (l : list (string * A)) : option A :=
  match l with
  | [] => None
  | (k', a) :: l' => if String.eqb k k' then Some a else assoc k l'
  end.

(** [str(n)] for a Python [int]. *)
Definition str_of_int (z : Z) : string := NilZero.string_of_int (Z.to_int z).

(** A [slice(start, stop)] object; the step is always [None] here. *)
Record slice : Type := Slice { slice_start : option Z; slice_stop : option Z }.

(** [f'{s.start}'] prints [None] for an omitted start. *)
Definition str_of_start (s : slice) : string :=
  match slice_start s with
  | Some z => str_of_int z
  | None => "None"
  end.

(** One bound of [slice.indices(n)] for step 1: a missing bound takes its
    default, a negative one counts from the end, and both are clipped to
    [0 .. n]. *)
Definition clip_index (n dflt : Z) (i : option Z) : Z :=
  match i with
  | None => dflt
  | Some i => if i <? 0 then Z.max (i + n) 0 else Z.min i n
  end.

Definition slice_indices (s : slice) (n : Z) : Z * Z :=
  (clip_index n 0 (slice_start s), clip_index n n (slice_stop s)).

Definition slice_lo (s : slice) (n : nat) : nat :=
  Z.to_nat (fst (slice_indices s (Z.of_nat n))).

Definition slice_len (s : slice) (n : nat) : nat :=
  Z.to_nat (snd (slice_indices s (Z.of_nat n)) - fst (slice_indices s (Z.of_nat n))).

(** [l[s]] for a list. *)
Definition py_slice {A : Type} (s : slice) (l : list A) : list A :=
  take (slice_len s (length l)) (drop (slice_lo s (length l)) l).

(** [l[-1]] *)
Definition py_last {A : Type} (l : list A) : result A :=
  match last l with
  | Some a => Ok a
  | None => Raise (IndexError "index -1 is out of bounds")
  end.

(** [l[0]] *)
Definition py_first {A : Type} (l : list A) : result A :=
  match l with
  | a :: _ => Ok a
  | [] => Raise (IndexError "index 0 is out of bounds")
  end.

(** [os.path.join(a, b)] (posixpath). *)
Definition starts_with_slash (s : string) : bool :=
  match s with
  | String c _ => Ascii.eqb c "/"%char
  | EmptyString => false
  end.

Fixpoint ends_with_slash (s : string) : bool :=
  match s with
  | EmptyString => false
  | String c EmptyString => Ascii.eqb c "/"%char
  | String _ s' => ends_with_slash s'
  end.

Definition path_join (a b : string) : string :=
  if starts_with_slash b then b
  else if (String.eqb a "" || ends_with_slash a)%bool then a +:+ b
  else a +:+ "/" +:+ b.

(* ===================================================================== *)
(** * Gridded datasets (the part of xarray the module relies on) *)
(* ===================================================================== *)

(** A dataset: its dimensions in iteration order, each with the values of
    its coordinate variable, and the payload as a function of the position
    along every dimension.  The payload is read at positions inside the
    shape only; [None] stands for a position that holds no value. *)
Record Dataset (V : Type) : Type := MkDataset {
  dims : list (string * list Z);
  vals : list nat -> option V
}.
Arguments MkDataset {V} dims vals.
Arguments dims {V} d.
Arguments vals {V} d p.

(** A dask-backed dataset: [chunks] is the value of [ds.chunks], the chunk
    lengths of every dimension that has a chunk structure.  The payload
    spans all dimensions, so that a dataset whose payload is held in chunks
    has a chunk structure along every dimension; [chunks] is empty for a
    dataset that is not dask-backed. *)
Record Chunked (V : Type) : Type := MkChunked {
  cdata : Dataset V;
  chunks : list (string * list Z)
}.
Arguments MkChunked {V} cdata chunks.
Arguments cdata {V} c.
Arguments chunks {V} c.

(** [ds[d].values] *)
Definition coord_values {V : Type} (ds : Dataset V) (d : string) : result (list Z) :=
  match assoc d (dims ds) with
  | Some c => Ok c
  | None => Raise (KeyError d)
  end.

(** [ds[d].values[0]] *)
Definition first_value {V : Type} (ds : Dataset V) (d : string) : result Z :=
  c <- coord_values ds d ;; py_first c.

(** The position at which the slice chosen for a dimension starts. *)
Definition dim_offset (idx : list (string * slice)) (dc : string * list Z) : nat :=
  match assoc (fst dc) idx with
  | Some s => slice_lo s (length (snd dc))
  | None => O
  end.

Definition dim_select (idx : list (string * slice)) (dc : string * list Z)
  : string * list Z :=
  match assoc (fst dc) idx with
  | Some s => (fst dc, py_slice s (snd dc))
  | None => dc
  end.

Fixpoint shift (offs p : list nat) : list nat :=
  match offs, p with
  | o :: offs', i :: p' => (o + i)%nat :: shift offs' p'
  | _, _ => p
  end.

(** [ds.isel(idx)] where every indexer is a slice.  Both call sites index
    by names taken from the dimensions of the dataset itself. *)
Definition isel {V : Type} (ds : Dataset V) (idx : list (string * slice)) : Dataset V :=
  {| dims := map (dim_select idx) (dims ds);
     vals := fun p => vals ds (shift (map (dim_offset idx) (dims ds)) p) |}.

(** Position of a dimension in the iteration order. *)
Fixpoint dim_index (d : string) (ds : list (string * list Z)) : option nat :=
  match ds with
  | [] => None
  | (d', _) :: ds' =>
      if String.eqb d d' then Some O else S <$> dim_index d ds'
  end.

Definition dim_length {V : Type} (ds : Dataset V) (d : string) : nat :=
  match assoc d (dims ds) with
  | Some c => length c
  | None => O
  end.

(** Payload of the concatenation along axis [k]: position [i] along the
    axis falls into the first member whose extent is not exhausted. *)
Fixpoint concat_vals {V : Type} (d : string) (k : nat) (group : list (Dataset V))
  (p : list nat) : option V :=
  match group with
  | [] => None
  | g :: rest =>
      match p !! k with
      | None => None
      | Some i =>
          if (i <? dim_length g d)%nat then vals g p
          else concat_vals d k rest (<[k := (i - dim_length g d)%nat]> p)
      end
  end.

(** Two members of a group can be concatenated along [d] without
    alignment: same dimensions in the same order and equal coordinates on
    every other dimension. *)
Definition same_grid (d : string) (a b : list (string * list Z)) : bool :=
  bool_decide (map fst a = map fst b) &&
  forallb (fun '(x, y) => String.eqb (fst x) d || bool_decide (snd x = snd y))
          (zip a b).

(** [xr.auto_combine(group, concat_dim=d)] for members that hold the same
    variables: the members are concatenated along [d] in the order given.
    Members that disagree on other coordinates would be aligned by an outer
    join, which is outside this model and reported as an error. *)
Definition auto_combine {V : Type} (group : list (Dataset V)) (d : string)
  : result (Dataset V) :=
  match group with
  | [] => Raise (ValueError "no datasets to combine")
  | g0 :: _ =>
      match dim_index d (dims g0) with
      | None => Raise (KeyError d)
      | Some k =>
          if forallb (fun g => same_grid d (dims g0) (dims g)) group then
            Ok {| dims :=
                    map (fun dc =>
                           if String.eqb (fst dc) d
                           then (fst dc, flat_map (fun g => default [] (assoc d (dims g))) group)
                           else dc)
                        (dims g0);
                  vals := concat_vals d k group |}
          else Raise (ValueError "members need alignment")
      end
  end.

(** [ds.chunk(spec)] for a specification that lists the chunk lengths of
    some dimensions explicitly (the normal form of every specification):
    the listed dimensions take the given lengths, the others keep their
    chunks or become one chunk. *)
Definition chunk {V : Type} (ds : Chunked V) (spec : list (string * list Z))
  : result (Chunked V) :=
  if forallb (fun '(d, lens) =>
                match assoc d (dims (cdata ds)) with
                | Some c => forallb (Z.leb 0) lens
                            && bool_decide (foldr Z.add 0 lens = Z.of_nat (length c))
                | None => false
                end) spec
  then Ok {| cdata := cdata ds;
             chunks := map (fun '(d, c) =>
                              (d, match assoc d spec with
                                  | Some lens => lens
                                  | None => default [Z.of_nat (length c)]
                                                    (assoc d (chunks ds))
                                  end))
                           (dims (cdata ds)) |}
  else Raise (ValueError "chunks do not add up to the shape").

(* ===================================================================== *)
(** * The file system and the I/O namespace *)
(* ===================================================================== *)

Inductive node (V : Type) : Type :=
| Dir
| File (d : Dataset V).
Arguments Dir {V}.
Arguments File {V} d.

Abbreviation FS V := (gmap string (node V)).

(** [os.path.isfile], [os.path.isdir] *)
Definition isfile {V : Type} (fs : FS V) (path : string) : bool :=
  match fs !! path with Some (File _) => true | _ => false end.

Definition isdir {V : Type} (fs : FS V) (path : string) : bool :=
  match fs !! path with Some Dir => true | _ => false end.

(** The proper ancestors of a path: its prefixes up to each separator. *)
Fixpoint ancestors_from (pre s : string) : list string :=
  match s with
  | EmptyString => []
  | String c s' =>
      ((if Ascii.eqb c "/"%char && negb (String.eqb pre "") then [pre] else [])
       ++ ancestors_from (pre +:+ String c EmptyString) s')%list
  end.

Definition ancestors (path : string) : list string := ancestors_from "" path.

Fixpoint mkdirs {V : Type} (ps : list string) (fs : FS V) : result unit * FS V :=
  match ps with
  | [] => (Ok tt, fs)
  | p :: ps' =>
      match fs !! p with
      | Some (File _) => (Raise (OSError "Not a directory"), fs)
      | _ => mkdirs ps' (<[p := Dir]> fs)
      end
  end.

(** [os.makedirs(path)]: missing ancestors are created from the top; an
    ancestor that is a regular file, or an existing [path], is an error,
    and so is the empty path, which [mkdir] cannot make. *)
Definition makedirs {V : Type} (fs : FS V) (path : string) : result unit * FS V :=
  if String.eqb path "" then (Raise (OSError "No such file or directory"), fs)
  else
    match mkdirs (ancestors path) fs with
    | (Ok _, fs1) =>
        match fs1 !! path with
        | Some _ => (Raise (OSError "File exists"), fs1)
        | None => (Ok tt, <[path := Dir]> fs1)
        end
    | r => r
    end.

(** Modelled from the spec: [satio.to_netcdf], the write operation of the
    I/O namespace, which is not part of the supplied source: it
    "serializes a dataset to the given path, overwriting any existing file
    at that path". *)
Definition to_netcdf {V : Type} (ds : Dataset V) (path : string) (fs : FS V) : FS V :=
  <[path := File ds]> fs.

(** [xr.open_dataset(path, chunks={})] *)
Definition open_dataset {V : Type} (fs : FS V) (path : string) : result (Dataset V) :=
  match fs !! path with
  | Some (File d) => Ok d
  | _ => Raise (OSError "No such file")
  end.

(** Modelled from the spec: [utils.dict_product], the Cartesian product of
    the utilities namespace, which is not part of the supplied source: it
    "enumerates every combination of one slice per dimension".  The
    combinations come in the order of [itertools.product], the last
    dimension varying fastest. *)
Fixpoint dict_product {A : Type} (d : list (string * list A))
  : list (list (string * A)) :=
  match d with
  | [] => [[]]
  | (k, xs) :: d' =>
      flat_map (fun x => map (fun rest => (k, x) :: rest) (dict_product d')) xs
  end.

(* ===================================================================== *)
(** * [tile] *)
(* ===================================================================== *)

(** The [buffer] argument: an [int], a [dict], the string ['auto'], or
    anything else. *)
Inductive buffer_t : Type :=
| BufAuto
| BufInt (b : Z)
| BufDict (m : gmap string Z)
| BufOther.

(** The [isinstance] cascade of [tile]; ['auto'] is neither an [int] nor a
    [dict] and falls through to 0. *)
Definition tile_buffer (buffer : buffer_t) (dim : string) : Z :=
  match buffer with
  | BufInt b => b
  | BufDict m => match m !! dim with Some b => b | None => 0 end
  | _ => 0
  end.

(** The loop over [chunk_lens]: [start] accumulates the chunk lengths and
    each slice is widened by the buffer, its start clipped at 0. *)
Fixpoint chunk_slices (buf start : Z) (chunk_lens : list Z) : list slice :=
  match chunk_lens with
  | [] => []
  | l :: rest =>
      Slice (Some (Z.max 0 (start - buf))) (Some (start + l + buf))
      :: chunk_slices buf (start + l) rest
  end.

Definition tile_slices (cks : list (string * list Z)) (buffer : buffer_t)
  : list (string * list slice) :=
  map (fun '(dim, chunk_lens) => (dim, chunk_slices (tile_buffer buffer dim) 0 chunk_lens))
      cks.

(** [f'{dim}_{s.start}'] *)
Definition name_component (ds : string * slice) : string :=
  fst ds +:+ "_" +:+ str_of_start (snd ds).

(** [f'{prefix}.{suffix}.nc'] *)
Definition tile_name (prefix : string) (slice_dict : list (string * slice)) : string :=
  prefix +:+ "." +:+ String.concat "." (map name_component slice_dict) +:+ ".nc".

Definition write_tile {V : Type} (chunked : Dataset V) (path prefix : string)
  (fs : FS V) (slice_dict : list (string * slice)) : FS V :=
  to_netcdf (isel chunked slice_dict) (path_join path (tile_name prefix slice_dict)) fs.

Definition tile {V : Type} (ds : Chunked V) (path prefix : string)
  (chunks_arg : option (list (string * list Z))) (buffer : buffer_t) (fs : FS V)
  : result unit * FS V :=
  if isfile fs path then (Raise (ValueError "`path` cannot be a file!"), fs)
  else
    match (if isdir fs path then (Ok tt, fs) else makedirs fs path) with
    | (Raise e, fs1) => (Raise e, fs1)
    | (Ok _, fs1) =>
        match (match chunks_arg with
               | None => Ok ds
               | Some spec => chunk ds spec
               end) with
        | Raise e => (Raise e, fs1)
        | Ok chunked =>
            (Ok tt,
             fold_left (write_tile (cdata chunked) path prefix)
                       (dict_product (tile_slices (chunks chunked) buffer)) fs1)
        end
    end.

(* ===================================================================== *)
(** * [auto_merge] *)
(* ===================================================================== *)

(** The [datasets] argument: a glob expression, a list of paths, or a list
    of open datasets. *)
Inductive merge_input (V : Type) : Type :=
| Pattern (pat : string)
| Paths (paths : list string)
| Datasets (dss : list (Dataset V)).
Arguments Pattern {V} pat.
Arguments Paths {V} paths.
Arguments Datasets {V} dss.

(** Comparison of two tuples of numbers, as [sorted] compares its keys. *)
Fixpoint tuple_leb (a b : list Z) : bool :=
  match a, b with
  | [], _ => true
  | _ :: _, [] => false
  | x :: a', y :: b' =>
      if x <? y then true else if y <? x then false else tuple_leb a' b'
  end.

(** [sorted(l, key=...)] on a list decorated with its keys: a stable
    sort. *)
Fixpoint insert_sorted {A : Type} (x : list Z * A) (l : list (list Z * A))
  : list (list Z * A) :=
  match l with
  | [] => [x]
  | y :: l' => if tuple_leb (fst x) (fst y) then x :: l else y :: insert_sorted x l'
  end.

Definition sorted_by_key {A : Type} (l : list (list Z * A)) : list (list Z * A) :=
  foldr insert_sorted [] l.

(** [itertools.groupby]: maximal runs of consecutive elements with equal
    keys. *)
Fixpoint groupby {A : Type} (l : list (list Z * A)) : list (list Z * list A) :=
  match l with
  | [] => []
  | (k, a) :: l' =>
      match groupby l' with
      | (k', g) :: gs =>
          if bool_decide (k = k') then (k, a :: g) :: gs
          else (k, [a]) :: (k', g) :: gs
      | [] => [(k, [a])]
      end
  end.

(** [len(np.unique(l))] *)
Definition n_unique (l : list Z) : nat := length (remove_dups l).

(** The dimensions on which the first coordinate values of the fragments
    differ, in the iteration order of the first fragment's dimensions. *)
Fixpoint filter_split {V : Type} (datasets : list (Dataset V)) (ds : list string)
  : result (list string) :=
  match ds with
  | [] => Ok []
  | d :: ds' =>
      firsts <- mapM (fun x => first_value x d) datasets ;;
      rest <- filter_split datasets ds' ;;
      Ok (if (1 <? n_unique firsts)%nat then d :: rest else rest)
  end.

Definition split_dims {V : Type} (datasets : list (Dataset V)) : result (list string) :=
  d0 <- py_first datasets ;;
  filter_split datasets (map fst (dims d0)).

(** [tuple(ds[d].values[0] for d in ds_names)] *)
Definition first_values {V : Type} (names : list string) (ds : Dataset V)
  : result (list Z) :=
  mapM (first_value ds) names.

(** [np.argmin]: the index of the first smallest element. *)
Fixpoint argmin_from (best : Z) (besti i : nat) (l : list Z) : nat :=
  match l with
  | [] => besti
  | x :: l' =>
      if x <? best then argmin_from x i (S i) l'
      else argmin_from best besti (S i) l'
  end.

Definition argmin (l : list Z) : result nat :=
  match l with
  | [] => Raise (ValueError "attempt to get argmin of an empty sequence")
  | x :: l' => Ok (argmin_from x 0 1 l')
  end.

(** Arithmetic on [int64] labels: the result is reduced into
    [-2^63 .. 2^63 - 1]. *)
Definition wrap64 (z : Z) : Z := (z + 2 ^ 63) mod 2 ^ 64 - 2 ^ 63.

(** [np.abs] on an [int64] array; the absolute value of [-2^63] wraps. *)
Definition np_abs (z : Z) : Z := wrap64 (Z.abs z).

(** The overlap inferred from the first two members of a group:
    [diff] is the array of the second member's labels minus the last label
    of the first, subtracted as [int64], and the overlap is
    [int((np.argmin(np.abs(diff)) + 1) / 2)]. *)
Definition infer_buffer {V : Type} (concat_dim : string) (group : list (Dataset V))
  : result Z :=
  match group !! 1%nat with
  | None => Raise (IndexError "list index out of range")
  | Some g1 =>
      c1 <- coord_values g1 concat_dim ;;
      g0 <- py_first group ;;
      c0 <- coord_values g0 concat_dim ;;
      lst <- py_last c0 ;;
      i <- argmin (map (fun x => np_abs (wrap64 (x - lst))) c1) ;;
      Ok (Z.quot (Z.of_nat i + 1) 2)
  end.

(** The buffer of one group.  The cache [buf_cache] exists for
    [buffer == 'auto'] only and is threaded through all groups and passes. *)
Definition resolve_buffer {V : Type} (buffer : buffer_t) (buf_cache : gmap string Z)
  (concat_dim : string) (group : list (Dataset V)) : result (Z * gmap string Z) :=
  match buffer with
  | BufAuto =>
      match buf_cache !! concat_dim with
      | Some b => Ok (b, buf_cache)
      | None =>
          b <- infer_buffer concat_dim group ;;
          Ok (b, <[concat_dim := b]> buf_cache)
      end
  | BufInt b => Ok (b, buf_cache)
  | BufDict m => Ok (match m !! concat_dim with Some b => b | None => 0 end, buf_cache)
  | BufOther => Ok (0, buf_cache)
  end.

(** The three trimming indexers and their application:
    [[group[0].isel(idx_first)] + [_.isel(idx_middle) for _ in group[1:-1]]
      + [group[-1].isel(idx_end)]]. *)
Definition idx_first (d : string) (b : Z) : list (string * slice) :=
  [(d, Slice None (Some (- b)))].
Definition idx_middle (d : string) (b : Z) : list (string * slice) :=
  [(d, Slice (Some b) (Some (- b)))].
Definition idx_end (d : string) (b : Z) : list (string * slice) :=
  [(d, Slice (Some b) None)].

Definition trim_group {V : Type} (d : string) (b : Z) (group : list (Dataset V))
  : result (list (Dataset V)) :=
  g0 <- py_first group ;;
  gl <- py_last group ;;
  Ok ([isel g0 (idx_first d b)]
      ++ map (fun g => isel g (idx_middle d b)) (removelast (tail group))
      ++ [isel gl (idx_end d b)])%list.

(** The body of the loop over groups. *)
Definition merge_group {V : Type} (buffer : buffer_t) (concat_dim : string)
  (buf_cache : gmap string Z) (group : list (Dataset V))
  : result (Dataset V * gmap string Z) :=
  bc <- resolve_buffer buffer buf_cache concat_dim group ;;
  trimmed <- (if 0 <? fst bc then trim_group concat_dim (fst bc) group else Ok group) ;;
  m <- auto_combine trimmed concat_dim ;;
  Ok (m, snd bc).

Fixpoint merge_groups {V : Type} (buffer : buffer_t) (concat_dim : string)
  (buf_cache : gmap string Z) (groups : list (list (Dataset V)))
  : result (list (Dataset V) * gmap string Z) :=
  match groups with
  | [] => Ok ([], buf_cache)
  | g :: gs =>
      mc <- merge_group buffer concat_dim buf_cache g ;;
      rest <- merge_groups buffer concat_dim (snd mc) gs ;;
      Ok (fst mc :: fst rest, snd rest)
  end.

(** [_combine_along_last_dim] *)
Definition combine_along_last_dim {V : Type} (buffer : buffer_t)
  (buf_cache : gmap string Z) (datasets : list (Dataset V))
  : result (list (Dataset V) * gmap string Z) :=
  sd <- split_dims datasets ;;
  concat_dim <- py_last sd ;;
  keys <- mapM (first_values sd) datasets ;;
  let sorted_ds := sorted_by_key (zip keys datasets) in
  let groups := groupby (map (fun kd => (removelast (fst kd), snd kd)) sorted_ds) in
  merge_groups buffer concat_dim buf_cache (map snd groups).

(** [while len(merged) > 1: merged = _combine_along_last_dim(merged)];
    [None] when the fuel runs out. *)
Fixpoint merge_loop {V : Type} (fuel : nat) (buffer : buffer_t)
  (buf_cache : gmap string Z) (merged : list (Dataset V))
  : option (result (list (Dataset V))) :=
  if (1 <? length merged)%nat then
    match fuel with
    | O => None
    | S fuel' =>
        match combine_along_last_dim buffer buf_cache merged with
        | Raise e => Some (Raise e)
        | Ok (merged', buf_cache') => merge_loop fuel' buffer buf_cache' merged'
        end
    end
  else Some (Ok merged).

(** The normalised [datasets]: paths (from the glob expression or as
    given) or open datasets. *)
Definition normalize {V : Type} (glob : string -> list string) (datasets : merge_input V)
  : list string + list (Dataset V) :=
  match datasets with
  | Pattern pat => inl (glob pat)
  | Paths paths => inl paths
  | Datasets dss => inr dss
  end.

Definition input_length {V : Type} (l : list string + list (Dataset V)) : nat :=
  match l with
  | inl paths => length paths
  | inr dss => length dss
  end.

Definition auto_merge {V : Type} (glob : string -> list string) (fs : FS V)
  (fuel : nat) (datasets : merge_input V) (buffer : buffer_t)
  : option (result (Dataset V)) :=
  let l := normalize glob datasets in
  if (input_length l =? 0)%nat then Some (Raise (ValueError "No files found!"))
  else
    match (match l with
           | inl paths => mapM (open_dataset fs) paths
           | inr dss => Ok dss
           end) with
    | Raise e => Some (Raise e)
    | Ok opened =>
        match merge_loop fuel buffer ∅ opened with
        | None => None
        | Some (Raise e) => Some (Raise e)
        | Some (Ok merged) => Some (py_first merged)
        end
    end.

(* ===================================================================== *)
(** * [inspect.Signature]: parameters, validation and binding *)
(* ===================================================================== *)

Inductive kind : Type :=
| POSITIONAL_ONLY
| POSITIONAL_OR_KEYWORD
| VAR_POSITIONAL
| KEYWORD_ONLY
| VAR_KEYWORD.

Definition kind_rank (k : kind) : nat :=
  match k with
  | POSITIONAL_ONLY => 0
  | POSITIONAL_OR_KEYWORD => 1
  | VAR_POSITIONAL => 2
  | KEYWORD_ONLY => 3
  | VAR_KEYWORD => 4
  end.

Definition kind_eqb (a b : kind) : bool := (kind_rank a =? kind_rank b)%nat.

(** A parameter: name, kind, and default ([None] for [Parameter.empty]). *)
Record Param (W : Type) : Type := MkParam {
  pname : string;
  pkind : kind;
  pdefault : option W
}.
Arguments MkParam {W} pname pkind pdefault.
Arguments pname {W} p.
Arguments pkind {W} p.
Arguments pdefault {W} p.

Definition has_default {W : Type} (p : Param W) : bool :=
  match pdefault p with Some _ => true | None => false end.

Definition positional_kind (k : kind) : bool :=
  match k with
  | POSITIONAL_ONLY | POSITIONAL_OR_KEYWORD => true
  | _ => false
  end.

Definition mem (k : string) (l : list string) : bool := existsb (String.eqb k) l.

(** The checks of [Signature.__init__] over the parameters in order:
    kinds must not decrease, a positional parameter without a default must
    not follow one with a default of the same kind, names are unique. *)
Fixpoint validate {W : Type} (top_kind : kind) (kind_defaults : bool)
  (seen : list string) (ps : list (Param W)) : result unit :=
  match ps with
  | [] => Ok tt
  | p :: ps' =>
      if (kind_rank (pkind p) <? kind_rank top_kind)%nat then
        Raise (ValueError "wrong parameter order")
      else
        let kind_defaults1 :=
          if (kind_rank top_kind <? kind_rank (pkind p))%nat then false
          else kind_defaults in
        if positional_kind (pkind p) && negb (has_default p) && kind_defaults1 then
          Raise (ValueError "non-default argument follows default argument")
        else
          let kind_defaults2 :=
            if positional_kind (pkind p) && has_default p then true
            else kind_defaults1 in
          if mem (pname p) seen then Raise (ValueError "duplicate parameter name")
          else validate (pkind p) kind_defaults2 (pname p :: seen) ps'
  end.

(** [sig.replace(parameters=ps)] *)
Definition make_signature {W : Type} (ps : list (Param W)) : result (list (Param W)) :=
  _ <- validate POSITIONAL_ONLY false [] ps ;; Ok ps.

(** A bound argument: one value, the tuple collected by a [*args]
    parameter, or the dict collected by a [**kwargs] parameter. *)
Inductive bound (W : Type) : Type :=
| Single (w : W)
| Star (ws : list W)
| StarStar (kw : list (string * W)).
Arguments Single {W} w.
Arguments Star {W} ws.
Arguments StarStar {W} kw.

(** [d[k] = v] on an ordered dict: an existing key keeps its place. *)
Fixpoint dict_set {A : Type} (k : string) (v : A) (d : list (string * A))
  : list (string * A) :=
  match d with
  | [] => [(k, v)]
  | (k', v') :: d' =>
      if String.eqb k k' then (k, v) :: d' else (k', v') :: dict_set k v d'
  end.

(** [d.pop(k)]: the dict without the key. *)
Fixpoint dict_remove {A : Type} (k : string) (d : list (string * A))
  : list (string * A) :=
  match d with
  | [] => []
  | (k', v') :: d' =>
      if String.eqb k k' then dict_remove k d' else (k', v') :: dict_remove k d'
  end.

(** The first loop of [Signature._bind]: positional arguments.  Returns
    the arguments bound so far and the parameters left for the second
    loop. *)
Fixpoint bind_positional {W : Type} (params : list (Param W)) (args : list W)
  (kwargs : list (string * W)) (arguments : list (string * bound W))
  : result (list (string * bound W) * list (Param W)) :=
  match args with
  | [] =>
      match params with
      | [] => Ok (arguments, [])
      | param :: rest =>
          if kind_eqb (pkind param) VAR_POSITIONAL then Ok (arguments, rest)
          else if mem (pname param) (map fst kwargs) then
            if kind_eqb (pkind param) POSITIONAL_ONLY then
              Raise (TypeError "parameter is positional only, but was passed as a keyword")
            else Ok (arguments, param :: rest)
          else if kind_eqb (pkind param) VAR_KEYWORD || has_default param then
            Ok (arguments, param :: rest)
          else Raise (TypeError "missing a required argument")
      end
  | arg_val :: args' =>
      match params with
      | [] => Raise (TypeError "too many positional arguments")
      | param :: rest =>
          if kind_eqb (pkind param) VAR_KEYWORD || kind_eqb (pkind param) KEYWORD_ONLY then
            Raise (TypeError "too many positional arguments")
          else if kind_eqb (pkind param) VAR_POSITIONAL then
            Ok (dict_set (pname param) (Star (arg_val :: args')) arguments, rest)
          else if mem (pname param) (map fst kwargs) then
            Raise (TypeError "multiple values for argument")
          else
            bind_positional rest args' kwargs
                            (dict_set (pname param) (Single arg_val) arguments)
      end
  end.

(** The second loop: keyword arguments.  Returns the arguments, the
    keywords not consumed, and the [**kwargs] parameter if one was met. *)
Fixpoint bind_keywords {W : Type} (params : list (Param W))
  (kwargs : list (string * W)) (kwargs_param : option (Param W))
  (arguments : list (string * bound W))
  : result (list (string * bound W) * list (string * W) * option (Param W)) :=
  match params with
  | [] => Ok (arguments, kwargs, kwargs_param)
  | param :: rest =>
      if kind_eqb (pkind param) VAR_KEYWORD then
        bind_keywords rest kwargs (Some param) arguments
      else if kind_eqb (pkind param) VAR_POSITIONAL then
        bind_keywords rest kwargs kwargs_param arguments
      else
        match assoc (pname param) kwargs with
        | None =>
            if has_default param then bind_keywords rest kwargs kwargs_param arguments
            else Raise (TypeError "missing a required argument")
        | Some arg_val =>
            if kind_eqb (pkind param) POSITIONAL_ONLY then
              Raise (TypeError "parameter is positional only, but was passed as a keyword")
            else
              bind_keywords rest (dict_remove (pname param) kwargs) kwargs_param
                            (dict_set (pname param) (Single arg_val) arguments)
        end
  end.

(** [sig.bind] of the call arguments, then [.arguments] *)
Definition sig_bind {W : Type} (sig : list (Param W)) (args : list W)
  (kwargs : list (string * W)) : result (list (string * bound W)) :=
  pr <- bind_positional sig args kwargs [] ;;
  kr <- bind_keywords (snd pr) kwargs None (fst pr) ;;
  match snd (fst kr) with
  | [] => Ok (fst (fst kr))
  | _ :: _ =>
      match snd kr with
      | Some kwargs_param =>
          Ok (dict_set (pname kwargs_param) (StarStar (snd (fst kr))) (fst (fst kr)))
      | None => Raise (TypeError "got an unexpected keyword argument")
      end
  end.

(* ===================================================================== *)
(** * [nd/algorithm.py] *)
(* ===================================================================== *)

(** The signature of the local function [_] with parameters [*args, **kwargs]. *)
Definition args_param {W : Type} : Param W := MkParam "args" VAR_POSITIONAL None.
Definition kwargs_param {W : Type} : Param W := MkParam "kwargs" VAR_KEYWORD None.

Definition catch_all {W : Type} : list (string * Param W) :=
  [("args", args_param); ("kwargs", kwargs_param)].

(** [d.update(e)] on ordered dicts. *)
Definition dict_update {A : Type} (d e : list (string * A)) : list (string * A) :=
  fold_left (fun acc kv => dict_set (fst kv) (snd kv) acc) e d.

(** [dict(sig.parameters)] *)
Definition as_dict {W : Type} (ps : list (Param W)) : list (string * Param W) :=
  map (fun p => (pname p, p)) ps.

(** [extract_arguments(fn, args, kwargs)]; [fn_sig] is
    [inspect.signature(fn)]. *)
Definition extract_arguments {W : Type} (fn_sig : list (Param W)) (args : list W)
  (kwargs : list (string * W)) : result (list (string * bound W)) :=
  sig <- (if mem "self" (map pname fn_sig) then make_signature (tail fn_sig)
          else Ok fn_sig) ;;
  let parameters := dict_update (as_dict sig) catch_all in
  new_sig <- make_signature (map snd parameters) ;;
  sig_bind new_sig args kwargs.

(** A class handed to [wrap_algorithm]: what the function reads from it
    and how it behaves when instantiated and applied.  [W] is the type of
    Python values, [I] the type of instances. *)
Record AlgoClass (W I : Type) : Type := MkAlgoClass {
  is_algorithm : bool;               (* issubclass(algo, Algorithm) *)
  cls_module : string;               (* algo.__module__ *)
  cls_name : string;                 (* algo.__name__ *)
  cls_doc : option string;           (* algo.__doc__ *)
  cls_file : option string;          (* inspect.getfile(algo), if any *)
  init_sig : list (Param W);         (* inspect.signature(algo.__init__) *)
  apply_sig : list (Param W);        (* inspect.signature(algo.apply) *)
  construct : list W -> list (string * W) -> result I;
                                     (* algo( *args, **kwargs) *)
  apply : I -> list (string * bound W) -> result W
                                     (* instance.apply( **kwargs) *)
}.
Arguments MkAlgoClass {W I}.
Arguments is_algorithm {W I} a.
Arguments cls_module {W I} a.
Arguments cls_name {W I} a.
Arguments cls_doc {W I} a.
Arguments cls_file {W I} a.
Arguments init_sig {W I} a.
Arguments apply_sig {W I} a.
Arguments construct {W I} a.
Arguments apply {W I} a.

(** [Algorithm.parallel_apply]; [parallel] is the helper of the utilities
    namespace, [apply_method] the bound method [self.apply]. *)
Definition parallel_apply {W D R : Type}
  (parallel : (D -> result W) -> string -> option Z -> R)
  (apply_method : D -> result W) (ds : D) (dim : string) (jobs : option Z) : R :=
  parallel apply_method dim jobs.

(** [d.pop('args', ())] and [d.pop('kwargs', {})] followed by the unpacking
    at the call: a value that is not a tuple (or dict) of the collected
    kind cannot be unpacked. *)
Definition pop_args {W : Type} (d : list (string * bound W)) : result (list W) :=
  match assoc "args" d with
  | None => Ok []
  | Some (Star ws) => Ok ws
  | Some _ => Raise (TypeError "argument after * must be an iterable")
  end.

Definition pop_kwargs {W : Type} (d : list (string * bound W))
  : result (list (string * W)) :=
  match assoc "kwargs" d with
  | None => Ok []
  | Some (StarStar kw) => Ok kw
  | Some _ => Raise (TypeError "argument after ** must be a mapping")
  end.

(** The inner function [_wrapper]. *)
Definition wrapper {W I : Type} (algo : AlgoClass W I) (args : list W)
  (kwargs : list (string * W)) : result W :=
  apply_kwargs <- extract_arguments (apply_sig algo) args kwargs ;;
  init_args <- pop_args apply_kwargs ;;
  init_kwargs <- pop_kwargs (dict_remove "args" apply_kwargs) ;;
  inst <- construct algo init_args init_kwargs ;;
  apply algo inst (dict_remove "kwargs" (dict_remove "args" apply_kwargs)).

(** The function object returned by [wrap_algorithm]. *)
Record Bridged (W : Type) : Type := MkBridged {
  b_module : string;                 (* __module__ *)
  b_name : string;                   (* __name__ *)
  b_doc : string;                    (* __doc__ *)
  b_filename : string;               (* __code__.co_filename *)
  b_firstlineno : Z;                 (* __code__.co_firstlineno *)
  b_signature : list (Param W);      (* __signature__ *)
  b_call : list W -> list (string * W) -> result W
}.
Arguments MkBridged {W}.
Arguments b_module {W} b.
Arguments b_name {W} b.
Arguments b_doc {W} b.
Arguments b_filename {W} b.
Arguments b_firstlineno {W} b.
Arguments b_signature {W} b.
Arguments b_call {W} b.

Definition newline : string := String (ascii_of_nat 10) EmptyString.

(** [wrap_algorithm(algo, name)]; [caller_lineno] is the line of the
    calling frame. *)
Definition wrap_algorithm {W I : Type} (algo : AlgoClass W I) (name : option string)
  (caller_lineno : Z) : result (Bridged W) :=
  if negb (is_algorithm algo) then
    Raise (ValueError "Class must be an instance of `nd.Algorithm`.")
  else
    new_filename <- match cls_file algo with
                    | Some f => Ok f
                    | None => Raise (TypeError "is a built-in class")
                    end ;;
    let name' := default "_wrapper" name in
    let link := ":class:`" +:+ cls_module algo +:+ "." +:+ cls_name algo +:+ "`" in
    doc <- match cls_doc algo with
           | Some d => Ok ("Wrapper for " +:+ link +:+ "." +:+ newline +:+ "    " +:+ d)
           | None => Raise (TypeError "must be str, not NoneType")
           end ;;
    sig <- make_signature (tail (apply_sig algo) ++ tail (init_sig algo))%list ;;
    Ok {| b_module := cls_module algo;
          b_name := name';
          b_doc := doc;
          b_filename := new_filename;
          b_firstlineno := caller_lineno;
          b_signature := sig;
          b_call := wrapper algo |}.

(** The cumulative start offsets of the chunks of one dimension: the
    values the variable [start] takes in the loop of [tile]. *)
Fixpoint chunk_starts (start : Z) (chunk_lens : list Z) : list Z :=
  match chunk_lens with
  | [] => []
  | l :: rest => start :: chunk_starts (start + l) rest
  end.

(** The dataset that [tile] slices: [ds] or [ds.chunk(chunks)]. *)
Definition chunked_of {V : Type} (ds : Chunked V)
  (chunks_arg : option (list (string * list Z))) : result (Chunked V) :=
  match chunks_arg with
  | None => Ok ds
  | Some spec => chunk ds spec
  end.

(** Sample data used by the examples below: one dimension [x] with eight
    increasing labels, in two chunks of four. *)
Definition sample_vals (p : list nat) : option Z :=
  match p with
  | [i] => if (i <? 8)%nat then Some (Z.of_nat i * 100) else None
  | _ => None
  end.

Definition sample_ds : Dataset Z :=
  MkDataset [("x", [0; 10; 20; 30; 40; 50; 60; 70])] sample_vals.

Definition sample_chunked : Chunked Z := MkChunked sample_ds [("x", [4; 4])].


(** ** The binding that [extract_arguments] is specified to compute

    The parameters that take part in the binding: those of [fn] without a
    leading receiver, dropped when some parameter is called [self]. *)
Definition declared {W : Type} (fn_sig : list (Param W)) : list (Param W) :=
  if mem "self" (map pname fn_sig) then tail fn_sig else fn_sig.

(** Ordinary parameters: every one positional-or-keyword, none named like
    a catch-all bucket. *)
Definition plain {W : Type} (ps : list (Param W)) : bool :=
  forallb (fun p => kind_eqb (pkind p) POSITIONAL_OR_KEYWORD
                    && negb (String.eqb (pname p) "args")
                    && negb (String.eqb (pname p) "kwargs")) ps.

(** No keyword repeats a parameter that a positional value has bound. *)
Definition no_double {W : Type} (ps : list (Param W)) (args : list W)
  (kwargs : list (string * W)) : bool :=
  forallb (fun p => negb (mem (pname p) (map fst kwargs))) (take (length args) ps).

(** Every parameter left after the positional values has a default or a
    keyword. *)
Definition all_required {W : Type} (ps : list (Param W)) (args : list W)
  (kwargs : list (string * W)) : bool :=
  forallb (fun p => has_default p || mem (pname p) (map fst kwargs))
          (drop (length args) ps).

(** The keywords that name no parameter. *)
Definition leftover_kwargs {W : Type} (ps : list (Param W))
  (kwargs : list (string * W)) : list (string * W) :=
  filter (fun kv => negb (mem (fst kv) (map pname ps)) = true) kwargs.

(** Position of a name among the parameters. *)
Fixpoint param_index {W : Type} (x : string) (ps : list (Param W)) : option nat :=
  match ps with
  | [] => None
  | p :: ps' => if String.eqb x (pname p) then Some O else S <$> param_index x ps'
  end.

(** Written from the specification: the value that the mapping returned
    by extract-arguments holds under a name: a parameter bound by position
    or by keyword, the leftover positional values under [args], the
    leftover keywords under [kwargs]. *)
Definition expected_binding {W : Type} (ps : list (Param W)) (args : list W)
  (kwargs : list (string * W)) (x : string) : option (bound W) :=
  match param_index x ps with
  | Some i =>
      match args !! i with
      | Some v => Some (Single v)
      | None => Single <$> assoc x kwargs
      end
  | None =>
      if String.eqb x "args" then
        if (length ps <? length args)%nat then Some (Star (drop (length ps) args))
        else None
      else if String.eqb x "kwargs" then
        match leftover_kwargs ps kwargs with
        | [] => None
        | kw => Some (StarStar kw)
        end
      else None
  end.

(** Sample callables and a sample algorithm class for the examples. *)
Definition pos_param (n : string) : Param Z := MkParam n POSITIONAL_OR_KEYWORD None.
Definition kwonly_param (n : string) : Param Z := MkParam n KEYWORD_ONLY None.

Definition sample_algo (doc : option string) : AlgoClass Z (Z * Z) :=
  {| is_algorithm := true;
     cls_module := "nd.filters";
     cls_name := "Scale";
     cls_doc := doc;
     cls_file := Some "nd/filters.py";
     init_sig := [pos_param "self"; pos_param "p1"; pos_param "p2"];
     apply_sig := [pos_param "self"; pos_param "ds"; pos_param "q1"];
     construct := fun a kw =>
       match a, kw with
       | [p1; p2], [] => Ok (p1, p2)
       | _, _ => Raise (TypeError "__init__() got unexpected arguments")
       end;
     apply := fun inst kw =>
       match assoc "ds" kw, assoc "q1" kw with
       | Some (Single ds), Some (Single q1) => Ok (ds * fst inst + q1 * snd inst)
       | _, _ => Raise (TypeError "apply() got unexpected arguments")
       end |}.

(** The arguments that the two loops of the binding accumulate. *)
Definition pos_bound {W : Type} (acc : list (string * bound W))
  (ps : list (Param W)) (args : list W) : list (string * bound W) :=
  fold_left (fun a pv => dict_set (pname (fst pv)) (Single (snd pv)) a) (zip ps args) acc.

Fixpoint kw_bound {W : Type} (ps : list (Param W)) (kwargs : list (string * W))
  (acc : list (string * bound W)) : list (string * bound W) * list (string * W) :=
  match ps with
  | [] => (acc, kwargs)
  | p :: ps' =>
      match assoc (pname p) kwargs with
      | Some v => kw_bound ps' (dict_remove (pname p) kwargs)
                           (dict_set (pname p) (Single v) acc)
      | None => kw_bound ps' kwargs acc
      end
  end.

(* ===================================================================== *)
(** * Fragments of a dataset as index ranges *)
(* ===================================================================== *)

(** A position lies inside a shape. *)
Definition in_shape (ns p : list nat) : Prop := Forall2 lt p ns.

Definition shape {V : Type} (ds : Dataset V) : list nat :=
  map (fun dc => length (snd dc)) (dims ds).

(** Two datasets are identical in shape, coordinates and values. *)
Definition ds_eq {V : Type} (a b : Dataset V) : Prop :=
  dims a = dims b /\ forall p, in_shape (shape a) p -> vals a p = vals b p.

(** The part of a dataset inside one range [(offset, length)] per
    dimension. *)
Definition box_dims (dms : list (string * list Z)) (rs : list (nat * nat))
  : list (string * list Z) :=
  zip_with (fun dc r => (fst dc, take (snd r) (drop (fst r) (snd dc)))) dms rs.

Definition is_box {V : Type} (ds : Dataset V) (rs : list (nat * nat)) (f : Dataset V)
  : Prop :=
  dims f = box_dims (dims ds) rs /\
  forall p, in_shape (map snd rs) p -> vals f p = vals ds (shift (map fst rs) p).

Definition valid_ranges (dms : list (string * list Z)) (rs : list (nat * nat)) : Prop :=
  Forall2 (fun dc r => (fst r + snd r <= length (snd dc))%nat) dms rs.

(** The range that a slice selects inside a range. *)
Definition sel_range (s : slice) (r : nat * nat) : nat * nat :=
  ((fst r + slice_lo s (snd r))%nat, slice_len s (snd r)).

Definition sel_ranges (idx : list (string * slice)) (dms : list (string * list Z))
  (rs : list (nat * nat)) : list (nat * nat) :=
  zip_with (fun dc r => match assoc (fst dc) idx with
                        | Some s => sel_range s r
                        | None => r
                        end) dms rs.

(** Consecutive ranges from offset [o] up to offset [e]. *)
Fixpoint chain (o : nat) (rs : list (nat * nat)) (e : nat) : Prop :=
  match rs with
  | [] => o = e
  | r :: rs' => fst r = o /\ chain (o + snd r) rs' e
  end.

(** The ranges of the tiles of one dimension of length [n], split into
    chunks of lengths [lens] with buffer [b], the running offset starting
    at [start]. *)
Definition tile_ranges (b : Z) (n : nat) (start : Z) (lens : list Z) : list (nat * nat) :=
  map (fun s => sel_range s (O, n)) (chunk_slices b start lens).

(** The ranges left by the trimming step of [auto_merge], on the ranges of
    a group. *)
Definition trim_ranges (b : Z) (rk : list (nat * nat)) : list (nat * nat) :=
  match rk, last rk with
  | r0 :: _, Some rl =>
      [sel_range (Slice None (Some (- b))) r0]
      ++ map (sel_range (Slice (Some b) (Some (- b)))) (removelast (tail rk))
      ++ [sel_range (Slice (Some b) None) rl]
  | _, _ => []
  end%list.

(** A chunking that the round trip supports: every chunk is longer than
    the buffer, and the chunks add up to the length of the dimension. *)
Definition chunks_ok (b : Z) (n : nat) (lens : list Z) : Prop :=
  0 <= b /\ Forall (fun l => b < l) lens /\ foldr Z.add 0 lens = Z.of_nat n.

(** [trim_ranges] on the members after the first, by recursion. *)
Fixpoint trim_rest (b : Z) (rs : list (nat * nat)) : list (nat * nat) :=
  match rs with
  | [] => []
  | [r] => [sel_range (Slice (Some b) None) r]
  | r :: rs' => sel_range (Slice (Some b) (Some (- b))) r :: trim_rest b rs'
  end.

(** A fragment that is the box of a dataset at the ranges [pre], [r],
    [post], the ranges lying inside the dataset. *)
Definition focus_ok {V : Type} (ds : Dataset V) (pre post : list (nat * nat))
  (r : nat * nat) (f : Dataset V) : Prop :=
  valid_ranges (dims ds) (pre ++ r :: post) /\ is_box ds (pre ++ r :: post) f.

(** Two fragments with one entry along [x] and two along [y], whose first
    labels differ on both dimensions. *)
Definition strip_vals (v : Z) (p : list nat) : option Z :=
  match p with
  | [i; j] => if ((i <? 1) && (j <? 2))%nat then Some (Z.of_nat j + v) else None
  | _ => None
  end.

Definition strip_a : Dataset Z := MkDataset [("x", [0]); ("y", [0; 10])] (strip_vals 5).

Definition strip_b : Dataset Z := MkDataset [("x", [1]); ("y", [5; 15])] (strip_vals 7).

(** The sample dataset with its labels in descending order, and the
    fragments that [tile] cuts from it with buffer 1. *)
Definition desc_ds : Dataset Z :=
  MkDataset [("x", [70; 60; 50; 40; 30; 20; 10; 0])] sample_vals.

Definition desc_tiles : list (Dataset Z) :=
  map (isel desc_ds) (dict_product (tile_slices [("x", [4; 4])] (BufInt 1))).

Definition sample_tiles : list (Dataset Z) :=
  map (isel sample_ds) (dict_product (tile_slices [("x", [4; 4])] (BufInt 1))).

(** Labels whose differences fit into [int64]: every label is an [int64]
    and the span of the labels is below [2^63], so that no subtraction of
    two of them wraps around. *)
Definition span_ok (c : list Z) : Prop :=
  Forall (fun x => - 2 ^ 63 <= x < 2 ^ 63) c /\
  forall x y, In x c -> In y c -> x - y < 2 ^ 63.

(** Four labels with the uniform spacing [2^62], from [-2^63] on, in two
    chunks of two: the span is [3 * 2^62]. *)
Definition wide_ds : Dataset Z :=
  MkDataset [("x", [- 2 ^ 63; - 2 ^ 62; 0; 2 ^ 62])] sample_vals.

Definition wide_tiles : list (Dataset Z) :=
  map (isel wide_ds) (dict_product (tile_slices [("x", [2; 2])] (BufInt 0))).

(** The tiles of the sample dataset in chunks of one and seven, split with
    buffer 2: the first chunk is shorter than the buffer. *)
Definition thin_tiles : list (Dataset Z) :=
  map (isel sample_ds) (dict_product (tile_slices [("x", [1; 7])] (BufInt 2))).

(** The overlap recorded for a dimension by a pass, if the pass
    succeeds. *)
Definition cached_after {V : Type} (r : result (list (Dataset V) * gmap string Z))
  (d : string) : option Z :=
  match r with
  | Ok (_, cache) => cache !! d
  | Raise _ => None
  end.

(** The ranges that cover a whole dataset. *)
Definition full_ranges (dms : list (string * list Z)) : list (nat * nat) :=
  map (fun dc => (O, length (snd dc))) dms.

(* ===================================================================== *)
(** * The fragments of a split dataset *)
(* ===================================================================== *)

(** All combinations of one element per list, the last list varying
    fastest. *)
Fixpoint list_product {A : Type} (ls : list (list A)) : list (list A) :=
  match ls with
  | [] => [[]]
  | xs :: ls' => flat_map (fun x => map (cons x) (list_product ls')) xs
  end.

(** The strict order of tuples that [tuple_leb] decides. *)
Definition tuple_lt (a b : list Z) : Prop := tuple_leb b a = false.

(** A dimension is still split when fragments have more than one range
    along it. *)
Definition is_split (xs : list (nat * nat)) : bool := (1 <? length xs)%nat.

(** The sort key of the fragment at ranges [rs]: its first coordinate
    along every split dimension. *)
Fixpoint key_of (dms : list (string * list Z)) (rss : list (list (nat * nat)))
  (rs : list (nat * nat)) : list Z :=
  match dms, rss, rs with
  | dc :: dms', xs :: rss', r :: rs' =>
      ((if is_split xs then [nth (fst r) (snd dc) 0] else [])
       ++ key_of dms' rss' rs')%list
  | _, _, _ => []
  end.

Fixpoint split_names (dms : list (string * list Z)) (rss : list (list (nat * nat)))
  : list string :=
  match dms, rss with
  | dc :: dms', xs :: rss' =>
      ((if is_split xs then [fst dc] else []) ++ split_names dms' rss')%list
  | _, _ => []
  end.

(** The ranges of one dimension during the merge: the whole dimension, or
    the tiles of a chunking with at least two chunks, where the labels at
    which the tiles start increase strictly from tile to tile. *)
Definition dim_ok (b : Z) (c : list Z) (xs : list (nat * nat)) : Prop :=
  (xs = [(O, length c)] /\ (0 < length c)%nat) \/
  (StronglySorted Z.lt (map (fun r => nth (fst r) c 0) xs) /\
   exists lens, (2 <= length lens)%nat /\ chunks_ok b (length c) lens /\
                xs = tile_ranges b (length c) 0 lens).

(** The number of dimensions that are still split. *)
Definition nsplit (rss : list (list (nat * nat))) : nat :=
  length (filter (fun xs => is_split xs = true) rss).

(** Orders on decorated elements. *)
Definition key_le {A : Type} (x y : list Z * A) : Prop :=
  tuple_leb (fst x) (fst y) = true.
Definition key_lt {A : Type} (x y : list Z * A) : Prop := tuple_lt (fst x) (fst y).

(** What the sort needs of one dimension: ranges that start inside the
    dimension at strictly increasing offsets and, where the dimension is
    split, at strictly increasing labels. *)
Definition dim_sorted (dc : string * list Z) (xs : list (nat * nat)) : Prop :=
  Forall (fun r => (fst r < length (snd dc))%nat) xs /\
  StronglySorted lt (map fst xs) /\
  (is_split xs = true ->
   StronglySorted Z.lt (map (fun r => nth (fst r) (snd dc) 0) xs)).

(** The ranges of all dimensions during the merge of a dataset split with
    buffer [b]. *)
Definition good {V : Type} (ds : Dataset V) (b : Z) (rss : list (list (nat * nat)))
  : Prop :=
  Forall2 (fun dc xs => dim_ok b (snd dc) xs) (dims ds) rss.

(** [ds[d].values[0]], or 0 when it fails; the sort key likewise. *)
Definition first_value_or_0 {V : Type} (d : string) (f : Dataset V) : Z :=
  match first_value f d with Ok x => x | Raise _ => 0 end.

Definition key_or_nil {V : Type} (names : list string) (f : Dataset V) : list Z :=
  match first_values names f with Ok k => k | Raise _ => [] end.

(* ===================================================================== *)
(** * The tile files of a split dataset *)
(* ===================================================================== *)

(** A character occurs in a string. *)
Fixpoint has_char (c : ascii) (s : string) : bool :=
  match s with
  | EmptyString => false
  | String c' s' => Ascii.eqb c' c || has_char c s'
  end.

(** A string is empty or begins with a dot. *)
Definition dot_or_end (s : string) : bool :=
  match s with
  | EmptyString => true
  | String c _ => Ascii.eqb c "."%char
  end.

(** The paths of the files that [tile] writes, in the order of writing. *)
Definition tile_paths (path prefix : string) (cks : list (string * list Z))
  (buffer : buffer_t) : list string :=
  map (fun sd => path_join path (tile_name prefix sd))
      (dict_product (tile_slices cks buffer)).

(** The ranges of the tiles along every dimension. *)
Definition tiles_ranges (b : Z) (dms cks : list (string * list Z))
  : list (list (nat * nat)) :=
  zip_with (fun dc ck => tile_ranges b (length (snd dc)) 0 (snd ck)) dms cks.

(** The chunk structure of one dimension: it belongs to the dimension, the
    chunks add up to the length of the dimension, and there is either one
    chunk or there are several, every one longer than the buffer. *)
Definition chunking_ok (b : Z) (dc ck : string * list Z) : Prop :=
  fst ck = fst dc /\
  foldr Z.add 0 (snd ck) = Z.of_nat (length (snd dc)) /\
  (length (snd ck) = 1%nat \/
   ((2 <= length (snd ck))%nat /\ Forall (fun l => b < l) (snd ck))).

(** The first label of every tile of a dimension with labels [c]: the
    label at the position where the slice of the tile starts. *)
Definition tile_first_labels (b : Z) (c : list Z) (chunk_lens : list Z) : list Z :=
  map (fun s => nth (slice_lo s (length c)) c 0) (chunk_slices b 0 chunk_lens).

(** Along a dimension with two or more chunks the first labels of the
    tiles increase strictly from chunk to chunk; labels that increase
    strictly along the dimension do so. *)
Definition chunked_sorted (b : Z) (dc ck : string * list Z) : Prop :=
  (2 <= length (snd ck))%nat ->
  StronglySorted Z.lt (tile_first_labels b (snd dc) (snd ck)).

(** A chunked dataset that the round trip supports: distinct dimension
    names, a chunk structure as above for every dimension, listed in the
    order of the dimensions, first labels of the tiles that increase
    strictly along the dimensions that are split into several chunks, and
    no empty dimension unless the dataset is left in one piece. *)
Definition splittable {V : Type} (b : Z) (ds : Chunked V) : Prop :=
  NoDup (map fst (dims (cdata ds))) /\
  Forall2 (chunking_ok b) (dims (cdata ds)) (chunks ds) /\
  Forall2 (chunked_sorted b) (dims (cdata ds)) (chunks ds) /\
  (Forall (fun ck => length (snd ck) = 1%nat) (chunks ds) \/
   Forall (fun dc => snd dc <> []) (dims (cdata ds))).

(** The descending sample as a chunked dataset, in two chunks of four. *)
Definition desc_chunked : Chunked Z := MkChunked desc_ds [("x", [4; 4])].

(** A grid of eight by three cells: along [x], in two chunks of four,
    labels in no order but for the labels 0 and 20 at which the tiles of
    buffer 1 start; along [y], in one chunk, labels that decrease. *)
Definition grid_ds : Dataset Z :=
  MkDataset [("x", [0; 30; 10; 20; 40; 70; 50; 60]); ("y", [9; 8; 7])]
            (fun p => match p with
                      | [i; j] => Some (Z.of_nat i * 10 + Z.of_nat j)
                      | _ => None
                      end).

Definition grid_chunked : Chunked Z := MkChunked grid_ds [("x", [4; 4]); ("y", [3])].

(** A dataset with four labels along [x], in two chunks, and an empty
    dimension [y]. *)
Definition hollow_chunked : Chunked Z :=
  MkChunked (MkDataset [("x", [0; 10; 20; 30]); ("y", [])] (fun _ => None))
            [("x", [2; 2]); ("y", [0])].

(** A [glob] that finds nothing, for calls that pass explicit paths. *)
Definition no_glob (pat : string) : list string := [].

(** The sample dataset with a last chunk shorter than a buffer of 2. *)
Definition short_chunked : Chunked Z := MkChunked sample_ds [("x", [3; 4; 1])].

(* ===================================================================== *)
(** * Further sample classes and callables *)
(* ===================================================================== *)

(** A parameter with a default value. *)
Definition opt_param (n : string) (v : Z) : Param Z :=
  MkParam n POSITIONAL_OR_KEYWORD (Some v).

(** The sample class with other parameters after the receivers of [apply]
    and [__init__]. *)
Definition sample_class (apply_ps init_ps : list (Param Z)) : AlgoClass Z (Z * Z) :=
  {| is_algorithm := true;
     cls_module := "nd.filters";
     cls_name := "Scale";
     cls_doc := Some "Scale a dataset.";
     cls_file := Some "nd/filters.py";
     init_sig := pos_param "self" :: init_ps;
     apply_sig := pos_param "self" :: apply_ps;
     construct := construct (sample_algo None);
     apply := apply (sample_algo None) |}.

(** Written from the specification: the arguments bound to the apply step,
    one entry per parameter of [apply] that gets a value, in the order of
    the parameters: the value given by position, or else the value of the
    keyword that names the parameter; a parameter that gets neither is
    left to its default. *)
Fixpoint apply_arguments {W : Type} (ps : list (Param W)) (args : list W)
  (kwargs : list (string * W)) : list (string * bound W) :=
  match ps with
  | [] => []
  | p :: ps' =>
      match args with
      | v :: args' => (pname p, Single v) :: apply_arguments ps' args' kwargs
      | [] =>
          match assoc (pname p) kwargs with
          | Some v => (pname p, Single v) :: apply_arguments ps' [] kwargs
          | None => apply_arguments ps' [] kwargs
          end
      end
  end.

(** A class whose [apply] has a keyword-only parameter:
    [apply(self, ds, *, q)] with the constructor [__init__(self)]. *)
Definition kwonly_algo : AlgoClass Z unit :=
  {| is_algorithm := true;
     cls_module := "nd.filters";
     cls_name := "Shift";
     cls_doc := Some "Shift a dataset.";
     cls_file := Some "nd/filters.py";
     init_sig := [pos_param "self"];
     apply_sig := [pos_param "self"; pos_param "ds"; kwonly_param "q"];
     construct := fun a kw =>
       match a, kw with
       | [], [] => Ok tt
       | _, _ => Raise (TypeError "__init__() got unexpected arguments")
       end;
     apply := fun _ kw =>
       match assoc "ds" kw, assoc "q" kw with
       | Some (Single ds), Some (Single q) => Ok (ds + q)
       | _, _ => Raise (TypeError "apply() got unexpected arguments")
       end |}.

(** The sample class with another signature of [apply]. *)
Definition named_class (apply_ps : list (Param Z)) : AlgoClass Z (Z * Z) :=
  {| is_algorithm := true;
     cls_module := "nd.filters";
     cls_name := "Scale";
     cls_doc := Some "Scale a dataset.";
     cls_file := Some "nd/filters.py";
     init_sig := [pos_param "self"; pos_param "p1"; pos_param "p2"];
     apply_sig := apply_ps;
     construct := construct (sample_algo None);
     apply := apply (sample_algo None) |}.

(** A buffer cache that holds nothing but the buffer [b] of the split. *)
Definition cache_ok (b : Z) (cache : gmap string Z) : Prop :=
  forall d v, cache !! d = Some v -> v = b.

(** The first coordinate along [d], and the sort key, read from the
    dimensions of a fragment alone. *)
Definition coords_first (D : list (string * list Z)) (d : string) : result Z :=
  first_value (MkDataset (V := unit) D (fun _ => None)) d.

Definition coords_key (names : list string) (D : list (string * list Z))
  : result (list Z) :=
  mapM (coords_first D) names.

(** Two fragments of one cell each that lie on a diagonal: they differ in
    both coordinates. *)
Definition diag_a : Dataset Z :=
  MkDataset [("x", [0]); ("y", [0])] (fun _ => Some 1).

Definition diag_b : Dataset Z :=
  MkDataset [("x", [1]); ("y", [1])] (fun _ => Some 2).

(* ===================================================================== *)
(** * [map_over_tiles] *)
(* ===================================================================== *)

(** [s.rfind(c)] for a single character: the highest index of [c], or -1. *)
Fixpoint rfind (c : ascii) (s : string) : Z :=
  match s with
  | EmptyString => -1
  | String x s' =>
      let r := rfind c s' in
      if 0 <=? r then r + 1 else if Ascii.eqb x c then 0 else -1
  end.

(** [s[:n]] and [s[n:]] for [n >= 0]. *)
Fixpoint str_take (n : nat) (s : string) : string :=
  match n, s with
  | S n', String x s' => String x (str_take n' s')
  | _, _ => EmptyString
  end.

Fixpoint str_drop (n : nat) (s : string) : string :=
  match n, s with
  | S n', String _ s' => str_drop n' s'
  | _, _ => s
  end.

(** [head == sep * len(head)] and [head.rstrip(sep)] for the separator
    of posixpath. *)
Fixpoint all_sep (s : string) : bool :=
  match s with
  | EmptyString => true
  | String x s' => Ascii.eqb x "/"%char && all_sep s'
  end.

Fixpoint rstrip_sep (s : string) : string :=
  match s with
  | EmptyString => EmptyString
  | String x s' =>
      match rstrip_sep s' with
      | EmptyString => if Ascii.eqb x "/"%char then EmptyString else String x EmptyString
      | r => String x r
      end
  end.

(** [os.path.split(p)] (posixpath). *)
Definition os_path_split (p : string) : string * string :=
  let i := Z.to_nat (rfind "/" p + 1) in
  let head := str_take i p in
  let tail := str_drop i p in
  (if negb (String.eqb head "") && negb (all_sep head) then rstrip_sep head else head,
   tail).

(** The loop of [genericpath._splitext] that skips leading dots: [true]
    when a character other than a dot is met before [dotIndex]. *)
Fixpoint skip_dots (p : string) (filenameIndex steps : nat) : bool :=
  match steps with
  | O => false
  | S steps' =>
      match String.get filenameIndex p with
      | Some c =>
          if Ascii.eqb c "."%char then skip_dots p (S filenameIndex) steps' else true
      | None => true
      end
  end.

(** [os.path.splitext(p)] (posixpath). *)
Definition os_path_splitext (p : string) : string * string :=
  let sepIndex := rfind "/" p in
  let dotIndex := rfind "." p in
  if sepIndex <? dotIndex then
    if skip_dots p (Z.to_nat (sepIndex + 1)) (Z.to_nat (dotIndex - (sepIndex + 1))) then
      (str_take (Z.to_nat dotIndex) p, str_drop (Z.to_nat dotIndex) p)
    else (p, "")
  else (p, "").

(** [os.path.exists] *)
Definition path_exists {V : Type} (fs : FS V) (path : string) : bool :=
  match fs !! path with Some _ => true | None => false end.

(** [os.makedirs(path, exist_ok=True)]: as [makedirs], but an existing
    directory [path] is accepted; the empty path cannot be made. *)
Definition makedirs_exist_ok {V : Type} (fs : FS V) (path : string)
  : result unit * FS V :=
  if String.eqb path "" then (Raise (OSError "No such file or directory"), fs)
  else
    match mkdirs (ancestors path) fs with
    | (Ok _, fs1) =>
        match fs1 !! path with
        | Some Dir => (Ok tt, fs1)
        | Some (File _) => (Raise (OSError "File exists"), fs1)
        | None => (Ok tt, <[path := Dir]> fs1)
        end
    | r => r
    end.

(** Modelled from the spec: [satio.from_netcdf], the read operation of the
    I/O namespace, which is not part of the supplied source: the per-file
    unit "open[s] the tile file via the I/O namespace's read operation". *)
Definition from_netcdf {V : Type} (fs : FS V) (path : string) : result (Dataset V) :=
  match fs !! path with
  | Some (File d) => Ok d
  | _ => Raise (OSError "No such file")
  end.

(** The output file of [_wrapper] before the check for an existing file:
    [os.path.join(root if path is None else path, f'{stem}{suffix}{ext}')]. *)
Definition out_file (path : option string) (suffix f : string) : string :=
  let '(root, name) := os_path_split f in
  let '(stem, ext) := os_path_splitext name in
  let out_name := stem +:+ suffix +:+ ext in
  let out_path := match path with None => root | Some p => p end in
  path_join out_path out_name.

(** ['{}_new{}'.format( *os.path.splitext(out_file))] *)
Definition new_name (out_file : string) : string :=
  let '(r, e) := os_path_splitext out_file in r +:+ "_new" +:+ e.

(** The inner function [_wrapper] of [map_over_tiles]; [fn] is the function
    to apply, called as [fn(data, *args, **kwargs)]. *)
Definition map_wrapper {V W : Type}
  (fn : Dataset V -> list W -> list (string * W) -> result (Dataset V))
  (args : list W) (kwargs : list (string * W)) (path : option string) (suffix : string)
  (overwrite : bool) (f : string) (fs : FS V) : result string * FS V :=
  match from_netcdf fs f with
  | Raise e => (Raise e, fs)
  | Ok data =>
      match fn data args kwargs with
      | Raise e => (Raise e, fs)
      | Ok res =>
          let out := out_file path suffix f in
          let out := if negb overwrite && path_exists fs out then new_name out else out in
          (Ok out, to_netcdf res out fs)
      end
  end.

(** The [files] argument: a glob expression or a list of paths. *)
Inductive tile_files : Type :=
| FilesPattern (pat : string)
| FilesList (paths : list string).

(** What the computation yields: the merged dataset, or the list of the
    files written. *)
Inductive map_value (V : Type) : Type :=
| MergedDataset (d : Dataset V)
| OutputFiles (paths : list string).
Arguments MergedDataset {V} d.
Arguments OutputFiles {V} paths.

(** A [dask.delayed] object: a computation on the file system that has not
    run; [None] when the merge runs out of fuel. *)
Definition task (V : Type) : Type := FS V -> option (result (map_value V) * FS V).

Inductive map_return (V : Type) : Type :=
| Computed (v : map_value V)
| Delayed (t : task V).
Arguments Computed {V} v.
Arguments Delayed {V} t.

(** The delayed calls [delayed(_wrapper)(f) for f in files], resolved one
    after the other in the order of the list, as a synchronous executor
    resolves them. *)
Fixpoint run_wrappers {V : Type} (w : string -> FS V -> result string * FS V)
  (files : list string) (fs : FS V) : result (list string) * FS V :=
  match files with
  | [] => (Ok [], fs)
  | f :: rest =>
      match w f fs with
      | (Raise e, fs1) => (Raise e, fs1)
      | (Ok out, fs1) =>
          match run_wrappers w rest fs1 with
          | (Raise e, fs2) => (Raise e, fs2)
          | (Ok outs, fs2) => (Ok (out :: outs), fs2)
          end
      end
  end.

(** [delayed(auto_merge)(results)], or [delayed(results)]. *)
Definition map_task {V : Type} (glob : string -> list string)
  (w : string -> FS V -> result string * FS V) (files : list string) (merge : bool)
  (fuel : nat) : task V :=
  fun fs =>
    match run_wrappers w files fs with
    | (Raise e, fs1) => Some (Raise e, fs1)
    | (Ok results, fs1) =>
        if merge then
          match auto_merge glob fs1 fuel (Paths results) BufAuto with
          | None => None
          | Some r => Some (d <- r ;; Ok (MergedDataset d), fs1)
          end
        else Some (Ok (OutputFiles results), fs1)
    end.

(** [map_over_tiles(files, fn, args, kwargs, path, suffix, merge,
    overwrite, compute)] *)
Definition map_over_tiles {V W : Type} (glob : string -> list string)
  (files : tile_files)
  (fn : Dataset V -> list W -> list (string * W) -> result (Dataset V))
  (args : list W) (kwargs : list (string * W)) (path : option string) (suffix : string)
  (merge overwrite compute : bool) (fuel : nat) (fs : FS V)
  : option (result (map_return V) * FS V) :=
  let files := match files with
               | FilesPattern pat => glob pat
               | FilesList paths => paths
               end in
  match (match path with
         | None => (Ok tt, fs)
         | Some p => makedirs_exist_ok fs p
         end) with
  | (Raise e, fs1) => Some (Raise e, fs1)
  | (Ok _, fs1) =>
      let result := map_task glob (map_wrapper fn args kwargs path suffix overwrite)
                             files merge fuel in
      if compute then
        match result fs1 with
        | None => None
        | Some (r, fs2) => Some (v <- r ;; Ok (Computed v), fs2)
        end
      else Some (Ok (Delayed result), fs1)
  end.

(** A function that returns the tile it is given. *)
Definition keep_tile (data : Dataset Z) (args : list Z) (kwargs : list (string * Z))
  : result (Dataset Z) := Ok data.

(** A file system with one tile file. *)
Definition one_tile_fs : FS Z := <["tiles/part.x_0.nc" := File sample_ds]> ∅.
(* ===================================================================== *)
(** * Properties of [tile]: the path precondition and the tile names *)
(* ===================================================================== *)

Lemma mkdirs_files {V : Type} (ps : list string) (fs fs1 : FS V) r :
  mkdirs ps fs = (r, fs1) ->
  forall q d, fs1 !! q = Some (File d) <-> fs !! q = Some (File d).
Proof.
  revert fs. induction ps as [|p ps IH]; intros fs H q d; simpl in H.
  - by inversion H.
  - destruct (fs !! p) as [[|d0]|] eqn:E.
    + rewrite (IH _ H). destruct (decide (p = q)) as [->|Hne].
      * rewrite lookup_insert_eq, E. split; intros; discriminate.
      * by rewrite lookup_insert_ne.
    + by inversion H.
    + rewrite (IH _ H). destruct (decide (p = q)) as [->|Hne].
      * rewrite lookup_insert_eq, E. split; intros; discriminate.
      * by rewrite lookup_insert_ne.
Qed.

Lemma mkdirs_keeps_dir {V : Type} (ps : list string) (fs fs1 : FS V) u q :
  mkdirs ps fs = (Ok u, fs1) -> fs !! q = Some Dir -> fs1 !! q = Some Dir.
Proof.
  revert fs. induction ps as [|p ps IH]; intros fs H Hq; simpl in H.
  - inversion H; subst. exact Hq.
  - destruct (fs !! p) as [[|d0]|] eqn:E; try discriminate;
      apply (IH _ H); (destruct (decide (p = q)) as [->|Hne];
        [by rewrite lookup_insert_eq | by rewrite lookup_insert_ne]).
Qed.

Lemma mkdirs_creates {V : Type} (ps : list string) (fs fs1 : FS V) u :
  mkdirs ps fs = (Ok u, fs1) -> Forall (fun a => isdir fs1 a = true) ps.
Proof.
  revert fs. induction ps as [|p ps IH]; intros fs H; simpl in H; [constructor|].
  assert (Hstep : mkdirs ps (<[p := Dir]> fs) = (Ok u, fs1)).
  { destruct (fs !! p) as [[|d0]|]; try discriminate; exact H. }
  constructor; [|by eapply IH].
  unfold isdir. erewrite mkdirs_keeps_dir; eauto. by rewrite lookup_insert_eq.
Qed.

Lemma makedirs_spec {V : Type} (fs : FS V) (path : string) :
  exists r fs1,
    makedirs fs path = (r, fs1) /\
    (forall q d, fs1 !! q = Some (File d) <-> fs !! q = Some (File d)) /\
    (forall u, r = Ok u ->
       isdir fs1 path = true /\ Forall (fun a => isdir fs1 a = true) (ancestors path)).
Proof.
  unfold makedirs. destruct (String.eqb path "").
  { eexists _, _. split; [reflexivity|]. split; [tauto|]. intros ? [=]. }
  destruct (mkdirs (ancestors path) fs) as [[u|e] fs0] eqn:E.
  - destruct (fs0 !! path) as [n|] eqn:Ep.
    + eexists _, _. split; [reflexivity|]. split; [by eapply mkdirs_files|].
      intros ? [=].
    + eexists _, _. split; [reflexivity|]. split.
      * intros q d. rewrite <- (mkdirs_files _ _ _ _ E q d).
        destruct (decide (path = q)) as [->|Hne].
        -- rewrite lookup_insert_eq, Ep. split; intros; discriminate.
        -- by rewrite lookup_insert_ne.
      * intros u' _. split.
        -- unfold isdir. by rewrite lookup_insert_eq.
        -- eapply Forall_impl; [by eapply mkdirs_creates|].
           intros a Ha. simpl in Ha. unfold isdir in *.
           destruct (decide (path = a)) as [->|Hne].
           ++ by rewrite lookup_insert_eq.
           ++ by rewrite lookup_insert_ne.
  - eexists _, _. split; [reflexivity|]. split; [by eapply mkdirs_files|].
    intros ? [=].
Qed.

(** [mkdirs] succeeds exactly when none of the paths is a regular file; it
    then turns every one of them into a directory and touches nothing
    else. *)
Lemma mkdirs_ok {V : Type} (ps : list string) (fs : FS V) :
  Forall (fun a => isfile fs a = false) ps ->
  exists fs1,
    mkdirs ps fs = (Ok tt, fs1) /\
    (forall q, In q ps -> fs1 !! q = Some Dir) /\
    (forall q, ~ In q ps -> fs1 !! q = fs !! q).
Proof.
  revert fs. induction ps as [|p ps IH]; intros fs HF.
  - exists fs. simpl. split; [reflexivity|]. split; [intros ? []|reflexivity].
  - inversion HF as [|? ? Hp Hps]; subst.
    destruct (IH (<[p := Dir]> fs)) as (fs1 & Hmk & Hin & Hout).
    { eapply Forall_impl; [exact Hps|]. intros a Ha. simpl in *. unfold isfile in *.
      destruct (decide (p = a)) as [->|Hne];
        [by rewrite lookup_insert_eq | by rewrite lookup_insert_ne]. }
    exists fs1. split; [|split].
    + simpl. unfold isfile in Hp. destruct (fs !! p) as [[|d0]|]; try discriminate;
        exact Hmk.
    + intros q [->|Hq]; [|by apply Hin].
      eapply mkdirs_keeps_dir; [exact Hmk|]. by rewrite lookup_insert_eq.
    + intros q Hq. rewrite Hout by (intros ?; apply Hq; by right).
      rewrite lookup_insert_ne; [reflexivity|]. intros ->. apply Hq. by left.
Qed.

Lemma mkdirs_fails {V : Type} (ps : list string) (fs : FS V) :
  Exists (fun a => isfile fs a = true) ps ->
  exists fs1, mkdirs ps fs = (Raise (OSError "Not a directory"), fs1).
Proof.
  revert fs. induction ps as [|p ps IH]; intros fs HE; [inversion HE|].
  simpl. unfold isfile in HE. destruct (fs !! p) as [[|d0]|] eqn:E.
  - apply IH. inversion HE as [? ? Hp|? ? Hps]; subst.
    + rewrite E in Hp. discriminate.
    + eapply Exists_impl; [exact Hps|]. intros a Ha. simpl in *. unfold isfile.
      destruct (decide (p = a)) as [->|Hne].
      * rewrite E in Ha. discriminate.
      * by rewrite lookup_insert_ne.
  - eauto.
  - apply IH. inversion HE as [? ? Hp|? ? Hps]; subst.
    + rewrite E in Hp. discriminate.
    + eapply Exists_impl; [exact Hps|]. intros a Ha. simpl in *. unfold isfile.
      destruct (decide (p = a)) as [->|Hne].
      * rewrite E in Ha. discriminate.
      * by rewrite lookup_insert_ne.
Qed.

Lemma length_append (a b : string) :
  String.length (a +:+ b) = (String.length a + String.length b)%nat.
Proof.
  induction a as [|x a IH]; [reflexivity|].
  change (String x a +:+ b) with (String x (a +:+ b)). simpl. by rewrite IH.
Qed.

(** Every ancestor of a path is shorter than the path. *)
Lemma ancestors_from_shorter (s pre a : string) :
  In a (ancestors_from pre s) ->
  (String.length a < String.length pre + String.length s)%nat.
Proof.
  revert pre. induction s as [|c s IH]; intros pre Ha; simpl in Ha; [done|].
  apply in_app_iff in Ha as [Ha|Ha].
  - destruct (_ && _); [|done]. destruct Ha as [<-|[]]. simpl. lia.
  - apply IH in Ha. rewrite length_append in Ha. simpl in *. lia.
Qed.

Lemma ancestors_shorter (path a : string) :
  In a (ancestors path) -> (String.length a < String.length path)%nat.
Proof. intros H. by apply ancestors_from_shorter in H. Qed.

(** When [path] is not empty, does not exist and has no regular file among
    its ancestors, [makedirs] succeeds: [path] and its ancestors are
    directories afterwards and no other path has changed. *)
Lemma makedirs_ok {V : Type} (fs : FS V) (path : string) :
  path <> "" ->
  fs !! path = None ->
  Forall (fun a => isfile fs a = false) (ancestors path) ->
  exists fs1,
    makedirs fs path = (Ok tt, fs1) /\
    fs1 !! path = Some Dir /\
    (forall a, In a (ancestors path) -> fs1 !! a = Some Dir) /\
    (forall q, q <> path -> ~ In q (ancestors path) -> fs1 !! q = fs !! q).
Proof.
  intros Hne Hnone Hanc. unfold makedirs.
  destruct (String.eqb_spec path "") as [->|_]; [done|].
  destruct (mkdirs_ok _ _ Hanc) as (fs0 & Hmk & Hin & Hout). rewrite Hmk.
  assert (Hp : ~ In path (ancestors path)).
  { intros H. apply ancestors_shorter in H. lia. }
  rewrite (Hout _ Hp), Hnone. eexists. split; [reflexivity|].
  split; [by rewrite lookup_insert_eq|]. split.
  - intros a Ha. rewrite lookup_insert_ne by (intros ->; contradiction). by apply Hin.
  - intros q Hq Hqa. rewrite lookup_insert_ne by done. by apply Hout.
Qed.

(** When [path] is empty, or one of its ancestors is a regular file,
    [makedirs] raises [OSError] and no regular file has changed. *)
Lemma makedirs_fails {V : Type} (fs : FS V) (path : string) :
  path = "" \/ Exists (fun a => isfile fs a = true) (ancestors path) ->
  exists msg fs1,
    makedirs fs path = (Raise (OSError msg), fs1) /\
    (forall q d, fs1 !! q = Some (File d) <-> fs !! q = Some (File d)).
Proof.
  intros H. unfold makedirs.
  destruct (String.eqb_spec path "") as [->|Hne].
  { eexists _, _. split; [reflexivity | tauto]. }
  destruct H as [H|H]; [done|].
  destruct (mkdirs_fails _ _ H) as (fs1 & Hmk). rewrite Hmk.
  eexists _, _. split; [reflexivity|]. by eapply mkdirs_files.
Qed.

(** The files that [tile] writes lie below [path]: when the prefix does not
    begin with a separator, their paths are longer than [path]. *)
Lemma tile_path_longer (path prefix : string) (sd : list (string * slice)) :
  starts_with_slash prefix = false ->
  (String.length path < String.length (path_join path (tile_name prefix sd)))%nat.
Proof.
  intros Hp. unfold path_join.
  assert (Hs : starts_with_slash (tile_name prefix sd) = false).
  { unfold tile_name. destruct prefix as [|c q]; [reflexivity | exact Hp]. }
  assert (Hl : (0 < String.length (tile_name prefix sd))%nat).
  { unfold tile_name. rewrite !length_append. simpl. lia. }
  rewrite Hs. destruct (_ || _); rewrite !length_append; simpl; lia.
Qed.

Lemma fold_write_other {V : Type} (chunked : Dataset V) (path prefix : string)
  (sds : list (list (string * slice))) (fs : FS V) (q : string) :
  (forall sd, In sd sds -> path_join path (tile_name prefix sd) <> q) ->
  fold_left (write_tile chunked path prefix) sds fs !! q = fs !! q.
Proof.
  revert fs. induction sds as [|sd sds IH]; intros fs H; [reflexivity|].
  simpl. rewrite IH by (intros sd' Hsd'; apply H; by right).
  unfold write_tile, to_netcdf. rewrite lookup_insert_ne; [reflexivity|].
  apply H. by left.
Qed.



(** C8.  Whenever the normalised list of fragments is empty, whether it
    comes from a glob expression without matches or from an empty list,
    [auto_merge] raises [ValueError("No files found!")], the NotFound
    failure of the specification, whatever the fuel. *)
Theorem auto_merge_no_files {V : Type} (glob : string -> list string) (fs : FS V)
  (fuel : nat) (datasets : merge_input V) (buffer : buffer_t) :
  input_length (normalize glob datasets) = 0%nat ->
  auto_merge glob fs fuel datasets buffer = Some (Raise (ValueError "No files found!")).
Proof.
  intros H. unfold auto_merge. rewrite H. reflexivity.
Qed.

(** Witness for C8: a glob expression that matches no file. *)
Lemma auto_merge_no_files_witness :
  auto_merge (fun _ => []) (∅ : FS Z) 0 (Pattern "tiles/*.nc") BufAuto
  = Some (Raise (ValueError "No files found!")).
Proof.
  apply (auto_merge_no_files (fun _ => []) (∅ : FS Z) 0 (Pattern "tiles/*.nc") BufAuto).
  reflexivity.
Defined.

(** ** Tile names *)

Lemma chunk_slices_starts (buf start : Z) (lens : list Z) :
  Forall (fun s => exists k, In k (chunk_starts start lens) /\
                             slice_start s = Some (Z.max 0 (k - buf)))
         (chunk_slices buf start lens).
Proof.
  revert start. induction lens as [|l lens IH]; intros start; simpl; constructor.
  - exists start. simpl. auto.
  - eapply Forall_impl; [apply IH|]. simpl.
    intros s (k & Hk & Hs). exists k. auto.
Qed.

Lemma dict_product_elem {A : Type} (d : list (string * list A)) (sd : list (string * A)) :
  In sd (dict_product d) ->
  Forall2 (fun kxs kx => fst kx = fst kxs /\ In (snd kx) (snd kxs)) d sd.
Proof.
  revert sd. induction d as [|[k xs] d IH]; intros sd H; simpl in H.
  - destruct H as [<-|[]]. constructor.
  - apply in_flat_map in H as (x & Hx & H).
    apply in_map_iff in H as (rest & <- & Hrest).
    constructor; [simpl; auto | by apply IH].
Qed.

(** The slice of a chunk: the chunk at position [i], with cumulative
    start [k] and length [l], gets [slice(max(0, k - buf), k + l + buf)]. *)
Lemma chunk_slices_In (buf start : Z) (lens : list Z) (s : slice) :
  In s (chunk_slices buf start lens) ->
  exists i k l,
    chunk_starts start lens !! i = Some k /\ lens !! i = Some l /\
    s = Slice (Some (Z.max 0 (k - buf))) (Some (k + l + buf)).
Proof.
  revert start. induction lens as [|l0 lens IH]; intros start H; simpl in H; [done|].
  destruct H as [<-|H].
  - by exists 0%nat, start, l0.
  - destruct (IH _ H) as (i & k & l & Hk & Hl & Hs). by exists (S i), k, l.
Qed.

Lemma tile_combination (cks : list (string * list Z)) (buffer : buffer_t)
  (sd : list (string * slice)) :
  In sd (dict_product (tile_slices cks buffer)) ->
  Forall2 (fun dl c =>
             fst c = fst dl /\
             exists i k l,
               chunk_starts 0 (snd dl) !! i = Some k /\ snd dl !! i = Some l /\
               snd c = Slice (Some (Z.max 0 (k - tile_buffer buffer (fst dl))))
                             (Some (k + l + tile_buffer buffer (fst dl))) /\
               name_component c
               = fst dl +:+ "_" +:+
                 str_of_int (Z.max 0 (k - tile_buffer buffer (fst dl))))
          cks sd.
Proof.
  intros H. apply dict_product_elem in H. unfold tile_slices in H.
  revert sd H. induction cks as [|[d lens] cks IH]; intros sd H.
  - inversion H; subst. constructor.
  - inversion H as [|? [d' s] ? ? [Hd Hin] Hrest]; subst. simpl in *. subst d'.
    constructor; [|by apply IH]. simpl. split; [reflexivity|].
    destruct (chunk_slices_In _ _ _ _ Hin) as (i & k & l & Hk & Hl & ->).
    exists i, k, l. repeat split; assumption.
Qed.

(** After the writes, a path holds what the last combination with that path
    wrote, or what it held before when no combination has that path. *)
Lemma written_last {V : Type} (chunked : Dataset V) (path prefix : string)
  (sds : list (list (string * slice))) (fs : FS V) (p : string) :
  (fold_left (write_tile chunked path prefix) sds fs !! p = fs !! p /\
   forall sd, In sd sds -> path_join path (tile_name prefix sd) <> p)
  \/
  (exists sd, In sd sds /\ p = path_join path (tile_name prefix sd) /\
              fold_left (write_tile chunked path prefix) sds fs !! p
              = Some (File (isel chunked sd))).
Proof.
  revert fs. induction sds as [|sd sds IH]; intros fs; simpl.
  - left. split; [reflexivity | intros ? []].
  - destruct (IH (write_tile chunked path prefix fs sd)) as [[E Hno]|(sd' & Hin & Hp & E)].
    + destruct (decide (path_join path (tile_name prefix sd) = p)) as [Heq|Hne].
      * right. exists sd. split; [by left|]. split; [done|]. rewrite E.
        unfold write_tile, to_netcdf. by rewrite Heq, lookup_insert_eq.
      * left. split.
        -- rewrite E. unfold write_tile, to_netcdf. by rewrite lookup_insert_ne.
        -- intros sd' [<-|Hin]; [exact Hne | by apply Hno].
    + right. exists sd'. split; [by right|]. split; assumption.
Qed.

(** C1 (amended).  Every file that a successful [tile] writes or replaces
    holds the part of the dataset selected by one combination [sd] of
    slices, one per chunked dimension, and is named
    [{prefix}.{components}.nc] under [path] after that combination: for
    every chunked dimension [d] with buffer [b], the slice of [sd] is that
    of one chunk of [d], [slice(max(0, k - b), k + l + b)] with [k] the
    cumulative start and [l] the length of the chunk, and the component of
    the name is [d_{max(0, k - b)}]: the name encodes the clipped start of
    the buffered slice of the tile's own chunks. *)
Theorem tile_name_encodes_slice_start {V : Type} (ds chunked : Chunked V)
  (path prefix : string) (chunks_arg : option (list (string * list Z)))
  (buffer : buffer_t) (fs fs' : FS V) (p : string) :
  tile ds path prefix chunks_arg buffer fs = (Ok tt, fs') ->
  chunked_of ds chunks_arg = Ok chunked ->
  isfile fs' p = true ->
  fs' !! p <> fs !! p ->
  exists sd,
    In sd (dict_product (tile_slices (chunks chunked) buffer)) /\
    fs' !! p = Some (File (isel (cdata chunked) sd)) /\
    p = path_join path
          (prefix +:+ "." +:+ String.concat "." (map name_component sd) +:+ ".nc") /\
    Forall2 (fun dl c =>
               fst c = fst dl /\
               exists i k l,
                 chunk_starts 0 (snd dl) !! i = Some k /\ snd dl !! i = Some l /\
                 snd c = Slice (Some (Z.max 0 (k - tile_buffer buffer (fst dl))))
                               (Some (k + l + tile_buffer buffer (fst dl))) /\
                 name_component c
                 = fst dl +:+ "_" +:+
                   str_of_int (Z.max 0 (k - tile_buffer buffer (fst dl))))
            (chunks chunked) sd.
Proof.
  intros Ht Hc Hfile Hnew. unfold tile in Ht.
  destruct (isfile fs path); [discriminate|].
  fold (chunked_of ds chunks_arg) in Ht. rewrite Hc in Ht.
  assert (Hdirs : exists fs1,
             (forall q d, fs1 !! q = Some (File d) <-> fs !! q = Some (File d)) /\
             fs' = fold_left (write_tile (cdata chunked) path prefix)
                     (dict_product (tile_slices (chunks chunked) buffer)) fs1).
  { destruct (isdir fs path).
    - exists fs. split; [tauto | congruence].
    - destruct (makedirs_spec fs path) as (r & fs1 & Hmk & Hfiles & _).
      rewrite Hmk in Ht. destruct r; [|discriminate].
      exists fs1. split; [exact Hfiles | congruence]. }
  destruct Hdirs as (fs1 & Hfiles & ->).
  destruct (written_last (cdata chunked) path prefix
              (dict_product (tile_slices (chunks chunked) buffer)) fs1 p)
    as [[Heq _]|(sd & Hin & Hp & E)].
  - exfalso. rewrite Heq in Hnew. unfold isfile in Hfile. rewrite Heq in Hfile.
    destruct (fs1 !! p) as [[|d]|] eqn:E; try discriminate.
    apply Hnew. symmetry. by apply Hfiles.
  - exists sd. split; [exact Hin|]. split; [exact E|]. split; [exact Hp|].
    by apply tile_combination.
Qed.

(** Witness for C1 (amended): the second tile of the sample dataset, split
    with buffer 1. *)
Lemma tile_name_encodes_slice_start_witness :
  exists sd,
    In sd (dict_product (tile_slices (chunks sample_chunked) (BufInt 1))) /\
    snd (tile sample_chunked "out" "part" None (BufInt 1) ∅) !! "out/part.x_3.nc"
    = Some (File (isel (cdata sample_chunked) sd)) /\
    "out/part.x_3.nc" = path_join "out"
          ("part" +:+ "." +:+ String.concat "." (map name_component sd) +:+ ".nc") /\
    Forall2 (fun dl c =>
               fst c = fst dl /\
               exists i k l,
                 chunk_starts 0 (snd dl) !! i = Some k /\ snd dl !! i = Some l /\
                 snd c = Slice (Some (Z.max 0 (k - tile_buffer (BufInt 1) (fst dl))))
                               (Some (k + l + tile_buffer (BufInt 1) (fst dl))) /\
                 name_component c
                 = fst dl +:+ "_" +:+
                   str_of_int (Z.max 0 (k - tile_buffer (BufInt 1) (fst dl))))
            (chunks sample_chunked) sd.
Proof.
  apply (tile_name_encodes_slice_start sample_chunked sample_chunked "out" "part" None
           (BufInt 1) ∅ (snd (tile sample_chunked "out" "part" None (BufInt 1) ∅))).
  - vm_compute. reflexivity.
  - reflexivity.
  - vm_compute. reflexivity.
  - vm_compute. discriminate.
Defined.

(** C1, as stated, fails: the second chunk of the sample dataset starts at
    4, and with buffer 1 its tile is written to [part.x_3.nc]; no file
    [part.x_4.nc] exists, although that is the name the same chunk gets
    with buffer 0. *)
Lemma tile_name_depends_on_buffer :
  chunk_starts 0 [4; 4] = [0; 4] /\
  (let fs1 := snd (tile sample_chunked "out" "part" None (BufInt 1) ∅) in
   isfile fs1 "out/part.x_3.nc" = true /\ fs1 !! "out/part.x_4.nc" = None) /\
  (let fs0 := snd (tile sample_chunked "out" "part" None (BufInt 0) ∅) in
   isfile fs0 "out/part.x_4.nc" = true /\ fs0 !! "out/part.x_3.nc" = None).
Proof.
  vm_compute. repeat split; reflexivity.
Qed.

(* ===================================================================== *)
(** * Properties of [nd/algorithm.py] *)
(* ===================================================================== *)

(** C4.  [parallel_apply] hands [self.apply], [dim] and [jobs] to the
    helper and returns what the helper returns; the dataset [ds] is never
    passed on, so the value returned is the same for all datasets. *)
Theorem parallel_apply_ignores_dataset {W D R : Type}
  (parallel : (D -> result W) -> string -> option Z -> R)
  (apply_method : D -> result W) (ds1 ds2 : D) (dim : string) (jobs : option Z) :
  parallel_apply parallel apply_method ds1 dim jobs = parallel apply_method dim jobs /\
  parallel_apply parallel apply_method ds1 dim jobs
  = parallel_apply parallel apply_method ds2 dim jobs.
Proof. split; reflexivity. Qed.

(** C10.  For a subclass of [Algorithm] without a docstring,
    [wrap_algorithm] raises instead of returning a callable; when the
    source file of the class is known, the error is the [TypeError] of the
    concatenation that builds the docstring. *)
Theorem wrap_algorithm_requires_doc {W I : Type} (algo : AlgoClass W I)
  (name : option string) (caller_lineno : Z) :
  is_algorithm algo = true ->
  cls_doc algo = None ->
  (exists msg, wrap_algorithm algo name caller_lineno = Raise (TypeError msg)) /\
  (forall f, cls_file algo = Some f ->
             wrap_algorithm algo name caller_lineno
             = Raise (TypeError "must be str, not NoneType")).
Proof.
  intros Ha Hd. unfold wrap_algorithm. rewrite Ha, Hd. simpl. split.
  - destruct (cls_file algo); simpl; eauto.
  - intros f ->. reflexivity.
Qed.

(** Witness for C10: the sample class without a docstring. *)
Lemma wrap_algorithm_requires_doc_witness :
  (exists msg, wrap_algorithm (sample_algo None) None 10 = Raise (TypeError msg)) /\
  (forall f, cls_file (sample_algo None) = Some f ->
             wrap_algorithm (sample_algo None) None 10
             = Raise (TypeError "must be str, not NoneType")).
Proof.
  apply (wrap_algorithm_requires_doc (sample_algo None) None 10); reflexivity.
Defined.

(** ** Ordered dicts *)

Lemma assoc_dict_set_eq {A : Type} (k : string) (v : A) (d : list (string * A)) :
  assoc k (dict_set k v d) = Some v.
Proof.
  induction d as [|[k' v'] d IH]; simpl.
  - by rewrite String.eqb_refl.
  - destruct (String.eqb k k') eqn:E; simpl.
    + by rewrite String.eqb_refl.
    + by rewrite E.
Qed.

Lemma assoc_dict_set_ne {A : Type} (k x : string) (v : A) (d : list (string * A)) :
  x <> k -> assoc x (dict_set k v d) = assoc x d.
Proof.
  intros Hne. induction d as [|[k' v'] d IH]; simpl.
  - apply String.eqb_neq in Hne. by rewrite Hne.
  - destruct (String.eqb k k') eqn:E; simpl.
    + apply String.eqb_eq in E. subst k'.
      apply String.eqb_neq in Hne. by rewrite Hne.
    + by rewrite IH.
Qed.

Lemma mem_In (k : string) (l : list string) : mem k l = true <-> In k l.
Proof.
  unfold mem. rewrite existsb_exists. split.
  - intros (x & Hx & E). apply String.eqb_eq in E. by subst.
  - intros H. exists k. split; [done | apply String.eqb_refl].
Qed.

Lemma mem_false (k : string) (l : list string) : mem k l = false <-> ~ In k l.
Proof.
  rewrite <- mem_In. destruct (mem k l); split; intros; congruence.
Qed.

Lemma assoc_None {A : Type} (k : string) (d : list (string * A)) :
  assoc k d = None <-> ~ In k (map fst d).
Proof.
  induction d as [|[k' v'] d IH]; simpl; [tauto|].
  destruct (String.eqb k k') eqn:E.
  - apply String.eqb_eq in E. subst. split; [discriminate | tauto].
  - apply String.eqb_neq in E. rewrite IH. split; [intros H [?|?]|]; try tauto.
    congruence.
Qed.

Lemma dict_remove_filter {A : Type} (k : string) (d : list (string * A)) :
  dict_remove k d = filter (fun kv => negb (String.eqb k (fst kv)) = true) d.
Proof.
  induction d as [|[k' v'] d IH]; simpl; [done|].
  destruct (String.eqb k k') eqn:E.
  - rewrite filter_cons_False; [done|]. simpl. rewrite E. simpl. congruence.
  - rewrite filter_cons_True; [by rewrite IH|]. simpl. by rewrite E.
Qed.

Lemma assoc_dict_remove_ne {A : Type} (k x : string) (d : list (string * A)) :
  x <> k -> assoc x (dict_remove k d) = assoc x d.
Proof.
  intros Hne. induction d as [|[k' v'] d IH]; simpl; [done|].
  destruct (String.eqb k k') eqn:E; simpl.
  - apply String.eqb_eq in E. subst k'. apply String.eqb_neq in Hne. by rewrite Hne.
  - by rewrite IH.
Qed.

Lemma mem_dict_remove_ne {A : Type} (k x : string) (d : list (string * A)) :
  x <> k -> mem x (map fst (dict_remove k d)) = mem x (map fst d).
Proof.
  intros Hne. unfold mem. induction d as [|[k' v'] d IH]; simpl; [done|].
  destruct (String.eqb k k') eqn:E; simpl.
  - apply String.eqb_eq in E. subst k'. apply String.eqb_neq in Hne.
    by rewrite Hne, IH.
  - by rewrite IH.
Qed.

(** ** Binding ordinary parameters *)

Local Arguments String.eqb : simpl never.

Lemma plain_cons {W : Type} (p : Param W) (ps : list (Param W)) :
  plain (p :: ps) = true ->
  pkind p = POSITIONAL_OR_KEYWORD /\ pname p <> "args" /\ pname p <> "kwargs" /\
  plain ps = true.
Proof.
  unfold plain. simpl. rewrite !andb_true_iff, !negb_true_iff.
  intros [[[Hk Ha] Hkw] Hps]. repeat split; try done.
  - destruct (pkind p); try discriminate; reflexivity.
  - by apply String.eqb_neq.
  - by apply String.eqb_neq.
Qed.

Lemma plain_names {W : Type} (ps : list (Param W)) :
  plain ps = true -> ~ In "args" (map pname ps) /\ ~ In "kwargs" (map pname ps).
Proof.
  induction ps as [|p ps IH]; intros H; simpl; [tauto|].
  apply plain_cons in H as (_ & Ha & Hk & Hps). destruct (IH Hps).
  split; intros [?|?]; congruence || tauto.
Qed.

Lemma plain_drop {W : Type} (n : nat) (ps : list (Param W)) :
  plain ps = true -> plain (drop n ps) = true.
Proof.
  unfold plain. rewrite !forallb_forall. intros H x Hx. apply H.
  apply list_elem_of_In. apply list_elem_of_In in Hx.
  by apply (subseteq_drop n ps).
Qed.

Lemma validate_catch_all {W : Type} (ps : list (Param W)) (tk : kind) (kd : bool)
  (seen : list string) :
  plain ps = true ->
  validate tk kd seen ps = Ok tt ->
  (kind_rank tk <= 1)%nat ->
  ~ In "args" seen -> ~ In "kwargs" seen ->
  validate tk kd seen (ps ++ [args_param; kwargs_param]) = Ok tt.
Proof.
  revert tk kd seen. induction ps as [|p ps IH]; intros tk kd seen Hp Hv Htk Ha Hk.
  - simpl.
    replace (2 <? kind_rank tk)%nat with false by (symmetry; apply Nat.ltb_ge; lia).
    replace (kind_rank tk <? 2)%nat with true by (symmetry; apply Nat.ltb_lt; lia).
    apply mem_false in Ha. apply mem_false in Hk. unfold mem in *.
    simpl. rewrite Ha. simpl. by rewrite Hk.
  - apply plain_cons in Hp as (Hkind & Hna & Hnk & Hps).
    simpl in *. rewrite Hkind in *. simpl in *.
    destruct (1 <? kind_rank tk)%nat; [discriminate|].
    destruct (negb (has_default p) && (if (kind_rank tk <? 1)%nat then false else kd));
      [discriminate|].
    destruct (mem (pname p) seen); [discriminate|].
    apply IH; auto; simpl; try lia; intros [?|?]; congruence || tauto.
Qed.

Lemma validate_NoDup {W : Type} (ps : list (Param W)) (tk : kind) (kd : bool)
  (seen : list string) :
  validate tk kd seen ps = Ok tt ->
  NoDup (map pname ps) /\ forall x, In x (map pname ps) -> ~ In x seen.
Proof.
  revert tk kd seen. induction ps as [|p ps IH]; intros tk kd seen Hv; simpl.
  - split; [constructor | tauto].
  - simpl in Hv.
    destruct (kind_rank (pkind p) <? kind_rank tk)%nat; [discriminate|].
    match type of Hv with (if ?c then _ else _) = _ => destruct c; [discriminate|] end.
    destruct (mem (pname p) seen) eqn:Hm; [discriminate|].
    apply IH in Hv as [Hnd Hseen]. apply mem_false in Hm. split.
    + constructor; [|done]. rewrite list_elem_of_In. intros Hin.
      apply (Hseen _ Hin). by left.
    + intros x [<-|Hin]; [done|]. intros Hs. apply (Hseen _ Hin). by right.
Qed.

Lemma dict_set_fresh {A : Type} (k : string) (v : A) (d : list (string * A)) :
  ~ In k (map fst d) -> dict_set k v d = (d ++ [(k, v)])%list.
Proof.
  induction d as [|[k' v'] d IH]; simpl; intros H; [done|].
  destruct (String.eqb k k') eqn:E.
  - apply String.eqb_eq in E. subst. tauto.
  - rewrite IH; [done | tauto].
Qed.

Lemma catch_all_appended {W : Type} (ps : list (Param W)) :
  plain ps = true ->
  map snd (dict_update (as_dict ps) catch_all) = (ps ++ [args_param; kwargs_param])%list.
Proof.
  intros Hp. destruct (plain_names ps Hp) as [Ha Hk].
  unfold dict_update, catch_all, as_dict. simpl.
  rewrite (dict_set_fresh "args").
  2:{ by rewrite map_map, (map_ext _ pname). }
  rewrite (dict_set_fresh "kwargs").
  2:{ rewrite map_app, map_map, (map_ext _ pname) by done. simpl.
      rewrite in_app_iff. simpl. intros [?|[?|[]]]; [tauto | discriminate]. }
  rewrite !map_app, map_map. simpl. rewrite <- app_assoc. f_equal.
  by rewrite (map_ext _ id), map_id.
Qed.

Lemma bind_positional_plain {W : Type} (ps : list (Param W)) (args : list W)
  (kwargs : list (string * W)) (acc : list (string * bound W)) :
  plain ps = true ->
  bind_positional (ps ++ [args_param; kwargs_param]) args kwargs acc
  = if no_double ps args kwargs then
      if (length ps <? length args)%nat then
        Ok (dict_set "args" (Star (drop (length ps) args)) (pos_bound acc ps args),
            [kwargs_param])
      else
        match drop (length args) ps with
        | [] => Ok (pos_bound acc ps args, [kwargs_param])
        | p :: rest =>
            if mem (pname p) (map fst kwargs) || has_default p then
              Ok (pos_bound acc ps args, (p :: rest) ++ [args_param; kwargs_param])%list
            else Raise (TypeError "missing a required argument")
        end
    else Raise (TypeError "multiple values for argument").
Proof.
  revert args acc. induction ps as [|p ps IH]; intros args acc Hp.
  - destruct args as [|a args]; reflexivity.
  - apply plain_cons in Hp as (Hkind & _ & _ & Hps).
    destruct args as [|a args].
    + cbn [app bind_positional]. rewrite Hkind. cbn.
      destruct (mem (pname p) (map fst kwargs)); reflexivity.
    + cbn [app bind_positional]. rewrite Hkind. cbn [kind_eqb kind_rank Nat.eqb orb].
      unfold no_double. cbn [length take forallb].
      destruct (mem (pname p) (map fst kwargs)); [reflexivity|].
      rewrite IH by done. reflexivity.
Qed.

Lemma forallb_dict_remove {W : Type} (p : string) (ps : list (Param W))
  (kw : list (string * W)) :
  ~ In p (map pname ps) ->
  forallb (fun q => has_default q || mem (pname q) (map fst (dict_remove p kw))) ps
  = forallb (fun q => has_default q || mem (pname q) (map fst kw)) ps.
Proof.
  induction ps as [|q ps IH]; intros Hn; [reflexivity|]. simpl in *.
  rewrite IH by tauto. rewrite mem_dict_remove_ne; [reflexivity|].
  intros E. subst p. tauto.
Qed.

Lemma bind_keywords_plain {W : Type} (ps : list (Param W))
  (kw : list (string * W)) (kp : option (Param W)) (acc : list (string * bound W)) :
  plain ps = true ->
  NoDup (map pname ps) ->
  bind_keywords (ps ++ [args_param; kwargs_param]) kw kp acc
  = if forallb (fun p => has_default p || mem (pname p) (map fst kw)) ps then
      Ok (kw_bound ps kw acc, Some kwargs_param)
    else Raise (TypeError "missing a required argument").
Proof.
  revert kw kp acc. induction ps as [|p ps IH]; intros kw kp acc Hp Hnd.
  - reflexivity.
  - apply plain_cons in Hp as (Hkind & _ & _ & Hps).
    cbn [map] in Hnd. apply NoDup_cons in Hnd as [Hnin Hnd].
    rewrite list_elem_of_In in Hnin.
    cbn [app bind_keywords kw_bound forallb]. rewrite Hkind.
    cbn [kind_eqb kind_rank Nat.eqb].
    destruct (assoc (pname p) kw) as [v|] eqn:E.
    + assert (Hm : mem (pname p) (map fst kw) = true).
      { destruct (mem (pname p) (map fst kw)) eqn:Hm; [reflexivity|].
        apply mem_false, assoc_None in Hm. congruence. }
      rewrite Hm, orb_true_r, IH by done. cbn [andb].
      by rewrite forallb_dict_remove.
    + assert (Hm : mem (pname p) (map fst kw) = false).
      { apply mem_false. by apply assoc_None. }
      rewrite Hm, orb_false_r. destruct (has_default p); [|reflexivity].
      by rewrite IH.
Qed.

Lemma assoc_pos_bound {W : Type} (ps : list (Param W)) (args : list W)
  (acc : list (string * bound W)) (x : string) :
  NoDup (map pname ps) ->
  assoc x (pos_bound acc ps args)
  = match param_index x ps with
    | Some i => match args !! i with
                | Some v => Some (Single v)
                | None => assoc x acc
                end
    | None => assoc x acc
    end.
Proof.
  revert args acc. induction ps as [|p ps IH]; intros args acc Hnd; [reflexivity|].
  cbn [map] in Hnd. apply NoDup_cons in Hnd as [Hnin Hnd].
    rewrite list_elem_of_In in Hnin.
  destruct args as [|a args].
  - cbn. destruct (String.eqb x (pname p)); [reflexivity|].
    destruct (param_index x ps); reflexivity.
  - unfold pos_bound. cbn [zip zip_with fold_left fst snd].
    fold (pos_bound (dict_set (pname p) (Single a) acc) ps args).
    rewrite IH by done. cbn [param_index].
    destruct (String.eqb x (pname p)) eqn:E.
    + apply String.eqb_eq in E. subst x.
      assert (Hi : param_index (pname p) ps = None).
      { clear -Hnin. induction ps as [|q ps IH]; [reflexivity|]. simpl in *.
        destruct (String.eqb (pname p) (pname q)) eqn:E.
        - apply String.eqb_eq in E. symmetry in E. tauto.
        - rewrite IH by tauto. reflexivity. }
      rewrite Hi. cbn. apply assoc_dict_set_eq.
    + apply String.eqb_neq in E.
      destruct (param_index x ps) as [i|]; cbn.
      * destruct (args !! i); [reflexivity|]. by apply assoc_dict_set_ne.
      * by apply assoc_dict_set_ne.
Qed.

Lemma param_index_None {W : Type} (x : string) (ps : list (Param W)) :
  param_index x ps = None <-> ~ In x (map pname ps).
Proof.
  induction ps as [|q ps IH]; simpl; [tauto|].
  destruct (String.eqb x (pname q)) eqn:E.
  - apply String.eqb_eq in E. symmetry in E. split; [discriminate | tauto].
  - apply String.eqb_neq in E. destruct (param_index x ps); simpl.
    + split; [discriminate|]. intros H.
      assert (Hn : ~ In x (map pname ps)) by tauto.
      apply IH in Hn. discriminate.
    + split; [|done]. intros _ [?|?]; [congruence|]. by apply IH.
Qed.

Lemma kw_bound_snd {W : Type} (ps : list (Param W)) (kw : list (string * W))
  (acc : list (string * bound W)) :
  snd (kw_bound ps kw acc) = leftover_kwargs ps kw.
Proof.
  unfold leftover_kwargs. revert kw acc.
  induction ps as [|p ps IH]; intros kw acc; cbn [kw_bound map].
  - induction kw as [|kv kw IHk]; [reflexivity|].
    rewrite filter_cons_True by reflexivity. by rewrite <- IHk.
  - assert (Hf : filter (fun kv => negb (mem (fst kv) (pname p :: map pname ps)) = true) kw
                 = filter (fun kv => negb (mem (fst kv) (map pname ps)) = true)
                          (dict_remove (pname p) kw)).
    { rewrite dict_remove_filter. rewrite list_filter_filter.
      apply list_filter_iff. intros [k v]. unfold mem. cbn [existsb fst].
      rewrite negb_orb, andb_true_iff. rewrite (String.eqb_sym k). tauto. }
    destruct (assoc (pname p) kw) as [v|] eqn:E.
    + rewrite IH. by rewrite Hf.
    + rewrite IH, Hf. f_equal. rewrite dict_remove_filter.
      apply assoc_None in E. clear -E.
      induction kw as [|[k v] kw IHk]; [reflexivity|]. simpl in E.
      rewrite filter_cons_True.
      * rewrite <- IHk by tauto. reflexivity.
      * simpl. apply negb_true_iff. apply String.eqb_neq. intros Heq.
        apply E. by left.
Qed.

Lemma assoc_kw_bound {W : Type} (ps : list (Param W)) (kw : list (string * W))
  (acc : list (string * bound W)) (x : string) :
  NoDup (map pname ps) ->
  assoc x (fst (kw_bound ps kw acc))
  = if mem x (map pname ps) then
      match assoc x kw with
      | Some v => Some (Single v)
      | None => assoc x acc
      end
    else assoc x acc.
Proof.
  revert kw acc. induction ps as [|p ps IH]; intros kw acc Hnd; [reflexivity|].
  cbn [map] in Hnd. apply NoDup_cons in Hnd as [Hnin Hnd].
    rewrite list_elem_of_In in Hnin.
  cbn [kw_bound map]. unfold mem. cbn [existsb]. fold (mem x (map pname ps)).
  destruct (String.eqb x (pname p)) eqn:E.
  - apply String.eqb_eq in E. subst x. cbn [orb].
    apply mem_false in Hnin.
    destruct (assoc (pname p) kw) as [v|] eqn:Ev.
    + rewrite IH, Hnin by done. apply assoc_dict_set_eq.
    + rewrite IH, Hnin by done. reflexivity.
  - apply String.eqb_neq in E. cbn [orb].
    destruct (assoc (pname p) kw) as [v|] eqn:Ev.
    + rewrite IH by done. rewrite assoc_dict_remove_ne, assoc_dict_set_ne by done.
      reflexivity.
    + by rewrite IH.
Qed.

Lemma In_drop {A : Type} (n : nat) (l : list A) (x : A) : In x (drop n l) -> In x l.
Proof.
  rewrite <- !list_elem_of_In. apply (subseteq_drop n l).
Qed.

Lemma In_take {A : Type} (n : nat) (l : list A) (x : A) : In x (take n l) -> In x l.
Proof.
  rewrite <- !list_elem_of_In. apply (subseteq_take n l).
Qed.

Lemma filter_ext_In {A : Type} (P Q : A -> Prop)
  `{!forall x, Decision (P x)} `{!forall x, Decision (Q x)} (l : list A) :
  (forall x, In x l -> (P x <-> Q x)) -> filter P l = filter Q l.
Proof.
  induction l as [|a l IH]; intros Hext; [reflexivity|].
  assert (Ha : P a <-> Q a) by (apply Hext; by left).
  assert (Hl : filter P l = filter Q l) by (apply IH; intros x Hx; apply Hext; by right).
  destruct (decide (P a)) as [Hp|Hp].
  - rewrite !filter_cons_True by tauto. by rewrite Hl.
  - rewrite !filter_cons_False by tauto. exact Hl.
Qed.

Lemma param_index_drop {W : Type} (x : string) (ps : list (Param W)) (i n : nat) :
  NoDup (map pname ps) ->
  param_index x ps = Some i ->
  mem x (map pname (drop n ps)) = negb (i <? n)%nat.
Proof.
  revert i n. induction ps as [|p ps IH]; intros i n Hnd Hi; [discriminate|].
  cbn [map] in Hnd. apply NoDup_cons in Hnd as [Hnin Hnd].
  rewrite list_elem_of_In in Hnin. cbn [param_index] in Hi.
  destruct (String.eqb x (pname p)) eqn:E.
  - apply String.eqb_eq in E. subst x. inversion Hi; subst i.
    destruct n as [|n]; cbn [drop map].
    + unfold mem. cbn [existsb]. by rewrite String.eqb_refl.
    + apply mem_false. intros Hin. apply Hnin.
      apply in_map_iff in Hin as (q & Hq & Hin). rewrite <- Hq.
      apply in_map. by apply In_drop in Hin.
  - destruct (param_index x ps) as [j|] eqn:Ej; [|discriminate].
    inversion Hi; subst i. destruct n as [|n]; cbn [drop map].
    + unfold mem. cbn [existsb]. rewrite E. cbn [orb].
      specialize (IH j 0%nat Hnd eq_refl). rewrite drop_0 in IH. exact IH.
    + rewrite (IH j n Hnd eq_refl). reflexivity.
Qed.

Lemma leftover_no_double {W : Type} (ps : list (Param W)) (args : list W)
  (kwargs : list (string * W)) :
  no_double ps args kwargs = true ->
  leftover_kwargs (drop (length args) ps) kwargs = leftover_kwargs ps kwargs.
Proof.
  intros Hnd. unfold leftover_kwargs. apply filter_ext_In. intros [k v] Hkv. cbn [fst].
  rewrite <- (take_drop (length args) ps) at 2. rewrite map_app.
  unfold mem. rewrite existsb_app, negb_orb, andb_true_iff.
  split; [|tauto]. intros H. split; [|exact H].
  apply negb_true_iff. fold (mem k (map pname (take (length args) ps))).
  apply mem_false. intros Hin. apply in_map_iff in Hin as (q & <- & Hq).
  unfold no_double in Hnd. rewrite forallb_forall in Hnd.
  specialize (Hnd q Hq). apply negb_true_iff, mem_false in Hnd.
  apply Hnd. apply in_map_iff. exists (pname q, v). split; [reflexivity | exact Hkv].
Qed.

Lemma extract_arguments_new_sig {W : Type} (fn_sig : list (Param W)) (args : list W)
  (kwargs : list (string * W)) :
  make_signature (declared fn_sig) = Ok (declared fn_sig) ->
  plain (declared fn_sig) = true ->
  extract_arguments fn_sig args kwargs
  = sig_bind (declared fn_sig ++ [args_param; kwargs_param]) args kwargs.
Proof.
  intros Hv Hp. unfold extract_arguments.
  assert (Hsig : (if mem "self" (map pname fn_sig) then make_signature (tail fn_sig)
                  else Ok fn_sig) = Ok (declared fn_sig)).
  { unfold declared in *. destruct (mem "self" (map pname fn_sig)); [exact Hv | reflexivity]. }
  rewrite Hsig. cbn [bind]. rewrite catch_all_appended by done.
  unfold make_signature in *.
  destruct (validate POSITIONAL_ONLY false [] (declared fn_sig)) as [[]|] eqn:E;
    [|discriminate].
  rewrite validate_catch_all; [reflexivity | done | done | simpl; lia | tauto | tauto].
Qed.

(** C6 (amended).  Let the parameters of [fn], without the receiver, be
    ordinary positional-or-keyword parameters forming a valid signature,
    none named [args] or [kwargs].  If no keyword repeats a parameter bound
    by position and every remaining parameter has a default or a keyword,
    [extract_arguments] returns a mapping that holds each bound parameter
    under its name, the extra positional values under [args] and the extra
    keywords under [kwargs], and nothing else.  If a keyword repeats a
    positionally bound parameter, or a parameter without default remains
    unbound, it raises [TypeError]. *)
Theorem extract_arguments_binds {W : Type} (fn_sig : list (Param W)) (args : list W)
  (kwargs : list (string * W)) :
  make_signature (declared fn_sig) = Ok (declared fn_sig) ->
  plain (declared fn_sig) = true ->
  (no_double (declared fn_sig) args kwargs = true ->
   all_required (declared fn_sig) args kwargs = true ->
   exists m, extract_arguments fn_sig args kwargs = Ok m /\
             forall x, assoc x m = expected_binding (declared fn_sig) args kwargs x)
  /\
  (no_double (declared fn_sig) args kwargs = false ->
   extract_arguments fn_sig args kwargs = Raise (TypeError "multiple values for argument"))
  /\
  (no_double (declared fn_sig) args kwargs = true ->
   all_required (declared fn_sig) args kwargs = false ->
   extract_arguments fn_sig args kwargs = Raise (TypeError "missing a required argument")).
Proof.
  intros Hv Hp. rewrite (extract_arguments_new_sig fn_sig args kwargs Hv Hp).
  set (ps := declared fn_sig) in *.
  assert (Hnd : NoDup (map pname ps)).
  { unfold make_signature in Hv.
    destruct (validate POSITIONAL_ONLY false [] ps) as [[]|] eqn:E; [|discriminate].
    by apply validate_NoDup in E as [? _]. }
  destruct (plain_names ps Hp) as [Hna Hnk].
  unfold sig_bind. rewrite bind_positional_plain by done.
  assert (Hphase2 : forall acc,
    all_required ps args kwargs = true ->
    (length args <= length ps)%nat ->
    match drop (length args) ps with
    | [] => bind_keywords [kwargs_param] kwargs None acc
    | p :: rest => bind_keywords ((p :: rest) ++ [args_param; kwargs_param]) kwargs None acc
    end = Ok (kw_bound (drop (length args) ps) kwargs acc, Some kwargs_param)).
  { intros acc Hreq Hlen. unfold all_required in Hreq.
    destruct (drop (length args) ps) as [|p rest] eqn:Ed; [reflexivity|].
    rewrite bind_keywords_plain, Hreq; [reflexivity | |].
    - rewrite <- Ed. by apply plain_drop.
    - rewrite <- Ed. rewrite <- (take_drop (length args) ps), map_app in Hnd.
      by apply NoDup_app in Hnd as (_ & _ & ?). }
  split; [|split].
  - intros Hdbl Hreq. rewrite Hdbl.
    set (acc0 := pos_bound [] ps args).
    set (R := drop (length args) ps).
    set (acc1 := if (length ps <? length args)%nat
                 then dict_set "args" (Star (drop (length ps) args)) acc0 else acc0).
    assert (Hr : exists m,
      (pr <- (if (length ps <? length args)%nat
              then Ok (dict_set "args" (Star (drop (length ps) args)) acc0, [kwargs_param])
              else match R with
                   | [] => Ok (acc0, [kwargs_param])
                   | p :: rest =>
                       if mem (pname p) (map fst kwargs) || has_default p
                       then Ok (acc0, (p :: rest) ++ [args_param; kwargs_param])%list
                       else Raise (TypeError "missing a required argument")
                   end) ;;
       kr <- bind_keywords (snd pr) kwargs None (fst pr) ;;
       match snd (fst kr) with
       | [] => Ok (fst (fst kr))
       | _ :: _ =>
           match snd kr with
           | Some kwargs_param0 =>
               Ok (dict_set (pname kwargs_param0) (StarStar (snd (fst kr))) (fst (fst kr)))
           | None => Raise (TypeError "got an unexpected keyword argument")
           end
       end) = Ok m /\
      m = match snd (kw_bound R kwargs acc1) with
          | [] => fst (kw_bound R kwargs acc1)
          | kw => dict_set "kwargs" (StarStar kw) (fst (kw_bound R kwargs acc1))
          end).
    { subst acc1. destruct (length ps <? length args)%nat eqn:El.
      - apply Nat.ltb_lt in El.
        assert (HR : R = []) by (subst R; apply drop_ge; lia).
        rewrite HR. cbn. destruct kwargs; eexists; split; reflexivity.
      - apply Nat.ltb_ge in El. specialize (Hphase2 acc0 Hreq El). fold R in Hphase2.
        destruct R as [|p rest] eqn:ER.
        + cbn. destruct kwargs; eexists; split; reflexivity.
        + assert (Hp0 : mem (pname p) (map fst kwargs) || has_default p = true).
          { unfold all_required in Hreq. fold R in Hreq. rewrite ER in Hreq.
            cbn in Hreq. apply andb_true_iff in Hreq as [Hreq _].
            by rewrite orb_comm. }
          rewrite Hp0. cbn [bind fst snd]. rewrite Hphase2. cbn [bind fst snd].
          destruct (snd (kw_bound (p :: rest) kwargs acc0)); eexists; split; reflexivity. }
    destruct Hr as (m & Hm & Hmeq). exists m. split; [exact Hm|].
    intros x. rewrite Hmeq. clear Hm Hmeq m Hphase2.
    rewrite kw_bound_snd. subst R. rewrite leftover_no_double by done.
    assert (Hacc1 : assoc x acc1
                    = if String.eqb x "args" then
                        if (length ps <? length args)%nat
                        then Some (Star (drop (length ps) args)) else assoc x acc0
                      else assoc x acc0).
    { subst acc1. destruct (String.eqb x "args") eqn:E.
      - apply String.eqb_eq in E. subst x.
        destruct (length ps <? length args)%nat; [apply assoc_dict_set_eq | reflexivity].
      - apply String.eqb_neq in E.
        destruct (length ps <? length args)%nat; [by apply assoc_dict_set_ne | reflexivity]. }
    assert (Hacc0 : assoc x acc0
                    = match param_index x ps with
                      | Some i => match args !! i with
                                  | Some v => Some (Single v)
                                  | None => None
                                  end
                      | None => None
                      end).
    { subst acc0. rewrite assoc_pos_bound by done. reflexivity. }
    assert (Hdrop : NoDup (map pname (drop (length args) ps))).
    { rewrite <- (take_drop (length args) ps), map_app in Hnd.
      by apply NoDup_app in Hnd as (_ & _ & ?). }
    assert (Hbase : assoc x (fst (kw_bound (drop (length args) ps) kwargs acc1))
                    = match param_index x ps with
                      | Some i => match args !! i with
                                  | Some v => Some (Single v)
                                  | None => Single <$> assoc x kwargs
                                  end
                      | None => if String.eqb x "args" then
                                  if (length ps <? length args)%nat
                                  then Some (Star (drop (length ps) args)) else None
                                else None
                      end).
    { rewrite assoc_kw_bound by done. rewrite Hacc1, Hacc0.
      destruct (param_index x ps) as [i|] eqn:Ei.
      - rewrite (param_index_drop x ps i (length args) Hnd Ei).
        assert (Hxa : String.eqb x "args" = false).
        { apply String.eqb_neq. intros ->. apply param_index_None in Hna.
          congruence. }
        rewrite Hxa.
        destruct (args !! i) as [v|] eqn:Ev.
        + apply lookup_lt_Some in Ev. apply Nat.ltb_lt in Ev. rewrite Ev. reflexivity.
        + apply lookup_ge_None in Ev. apply Nat.ltb_ge in Ev. rewrite Ev. cbn.
          destruct (assoc x kwargs); reflexivity.
      - assert (Hm : mem x (map pname (drop (length args) ps)) = false).
        { apply mem_false. intros Hin. apply param_index_None in Ei. apply Ei.
          apply in_map_iff in Hin as (q & <- & Hq). apply in_map. by apply In_drop in Hq. }
        rewrite Hm. reflexivity. }
    unfold expected_binding.
    destruct (leftover_kwargs ps kwargs) as [|kv kw] eqn:Elo.
    + rewrite Hbase. destruct (param_index x ps); [reflexivity|].
      destruct (String.eqb x "args"); [reflexivity|].
      destruct (String.eqb x "kwargs"); reflexivity.
    + destruct (String.eqb x "kwargs") eqn:Ek.
      * apply String.eqb_eq in Ek. subst x.
        rewrite assoc_dict_set_eq.
        assert (Hi : param_index "kwargs" ps = None) by (by apply param_index_None).
        rewrite Hi. reflexivity.
      * apply String.eqb_neq in Ek. rewrite assoc_dict_set_ne by done.
        rewrite Hbase. destruct (param_index x ps); [reflexivity|].
        destruct (String.eqb x "args"); reflexivity.
  - intros Hdbl. rewrite Hdbl. reflexivity.
  - intros Hdbl Hreq. rewrite Hdbl.
    destruct (length ps <? length args)%nat eqn:El.
    { apply Nat.ltb_lt in El. unfold all_required in Hreq.
      rewrite drop_ge in Hreq by lia. discriminate. }
    unfold all_required in Hreq.
    destruct (drop (length args) ps) as [|p rest] eqn:Ed; [discriminate|].
    destruct (mem (pname p) (map fst kwargs) || has_default p) eqn:Ep; [|reflexivity].
    cbn [bind fst snd]. rewrite bind_keywords_plain, Hreq; [reflexivity | |].
    + rewrite <- Ed. by apply plain_drop.
    + rewrite <- Ed. rewrite <- (take_drop (length args) ps), map_app in Hnd.
      by apply NoDup_app in Hnd as (_ & _ & ?).
Qed.

(** Witness for C6 (amended): [fn(a, b)] called with one extra positional
    value and one extra keyword; and with a value for [a] only. *)
Lemma extract_arguments_binds_witness :
  (exists m, extract_arguments [pos_param "a"; pos_param "b"] [1; 2; 3] [("c", 5)] = Ok m /\
             forall x, assoc x m
                       = expected_binding (declared [pos_param "a"; pos_param "b"])
                                          [1; 2; 3] [("c", 5)] x)
  /\
  extract_arguments [pos_param "a"; pos_param "b"] [1] []
  = Raise (TypeError "missing a required argument").
Proof.
  split.
  - apply (proj1 (extract_arguments_binds [pos_param "a"; pos_param "b"] [1; 2; 3]
                    [("c", 5)] eq_refl eq_refl)); reflexivity.
  - apply (proj2 (proj2 (extract_arguments_binds [pos_param "a"; pos_param "b"] [1] []
                           eq_refl eq_refl))); reflexivity.
Defined.

(** C6, as stated, fails for a callable with a keyword-only parameter:
    [fn(a, *, k)] called with [(1, k=2)].  The call binds to the parameters
    of [fn], also once the two buckets are added where a signature admits
    them, but [extract_arguments] appends the buckets after [k], which is
    no valid signature, and raises [ValueError]. *)
Lemma extract_arguments_keyword_only :
  make_signature [pos_param "a"; kwonly_param "k"]
  = Ok [pos_param "a"; kwonly_param "k"] /\
  sig_bind [pos_param "a"; kwonly_param "k"] [1] [("k", 2)]
  = Ok [("a", Single 1); ("k", Single 2)] /\
  sig_bind [pos_param "a"; args_param; kwonly_param "k"; kwargs_param] [1] [("k", 2)]
  = Ok [("a", Single 1); ("k", Single 2)] /\
  extract_arguments [pos_param "a"; kwonly_param "k"] [1] [("k", 2)]
  = Raise (ValueError "wrong parameter order").
Proof. repeat split; reflexivity. Qed.

(* ===================================================================== *)
(** * Slices and boxes *)
(* ===================================================================== *)

Lemma clip_index_range (n dflt : Z) (i : option Z) :
  0 <= n -> 0 <= dflt <= n -> 0 <= clip_index n dflt i <= n.
Proof.
  intros Hn Hd. unfold clip_index. destruct i as [i|]; [|lia].
  destruct (i <? 0) eqn:E; lia.
Qed.

Lemma slice_bounds (s : slice) (n : nat) : (slice_lo s n + slice_len s n <= n)%nat.
Proof.
  unfold slice_lo, slice_len, slice_indices. cbn [fst snd].
  pose proof (clip_index_range (Z.of_nat n) 0 (slice_start s)) as H1.
  pose proof (clip_index_range (Z.of_nat n) (Z.of_nat n) (slice_stop s)) as H2.
  lia.
Qed.

Lemma take_drop_nested {A : Type} (l : list A) (o n lo len : nat) :
  (lo + len <= n)%nat ->
  take len (drop lo (take n (drop o l))) = take len (drop (o + lo) l).
Proof.
  intros H. rewrite <- drop_drop. generalize (drop o l). clear l o. intros l.
  replace n with (lo + (n - lo))%nat at 1 by lia.
  rewrite <- take_drop_commute, take_take. f_equal. lia.
Qed.

Lemma shift_shift (o1 o2 p : list nat) :
  length o1 = length o2 ->
  shift o1 (shift o2 p) = shift (zip_with Nat.add o1 o2) p.
Proof.
  revert o2 p. induction o1 as [|a o1 IH]; intros [|b o2] p H; try discriminate.
  - reflexivity.
  - destruct p as [|i p]; [reflexivity|]. cbn. f_equal; [lia|]. apply IH.
    by inversion H.
Qed.

Lemma py_slice_length {A : Type} (s : slice) (l : list A) :
  length (py_slice s l) = slice_len s (length l).
Proof.
  unfold py_slice. rewrite length_take, length_drop.
  pose proof (slice_bounds s (length l)). lia.
Qed.

Lemma box_dims_names (dms : list (string * list Z)) (rs : list (nat * nat)) :
  length rs = length dms -> map fst (box_dims dms rs) = map fst dms.
Proof.
  revert rs. induction dms as [|dc dms IH]; intros [|r rs] H; try discriminate.
  - reflexivity.
  - cbn. f_equal. apply IH. by inversion H.
Qed.

Lemma valid_ranges_length (dms : list (string * list Z)) (rs : list (nat * nat)) :
  valid_ranges dms rs -> length rs = length dms.
Proof. intros H. symmetry. by eapply Forall2_length. Qed.

Lemma dim_offset_pair (idx : list (string * slice)) (d : string) (l : list Z) :
  dim_offset idx (d, l)
  = match assoc d idx with Some s => slice_lo s (length l) | None => O end.
Proof. reflexivity. Qed.

Lemma dim_select_pair (idx : list (string * slice)) (d : string) (l : list Z) :
  dim_select idx (d, l)
  = match assoc d idx with Some s => (d, py_slice s l) | None => (d, l) end.
Proof. reflexivity. Qed.

Lemma isel_is_box {V : Type} (ds f : Dataset V) (rs : list (nat * nat))
  (idx : list (string * slice)) :
  valid_ranges (dims ds) rs ->
  is_box ds rs f ->
  is_box ds (sel_ranges idx (dims ds) rs) (isel f idx) /\
  valid_ranges (dims ds) (sel_ranges idx (dims ds) rs).
Proof.
  intros Hv [Hd Hvals].
  assert (Hdims : map (dim_select idx) (box_dims (dims ds) rs)
                  = box_dims (dims ds) (sel_ranges idx (dims ds) rs)
                  /\ valid_ranges (dims ds) (sel_ranges idx (dims ds) rs)
                  /\ zip_with Nat.add (map fst rs)
                       (map (dim_offset idx) (box_dims (dims ds) rs))
                     = map fst (sel_ranges idx (dims ds) rs)
                  /\ forall p, in_shape (map snd (sel_ranges idx (dims ds) rs)) p ->
                               in_shape (map snd rs)
                                 (shift (map (dim_offset idx) (box_dims (dims ds) rs)) p)).
  { clear Hd Hvals. induction Hv as [|[d c] [o n] dms rs Hr Hv IH].
    - repeat split; try constructor. intros p Hp. inversion Hp; subst. constructor.
    - destruct IH as (IH1 & IH2 & IH3 & IH4). cbn [fst snd] in Hr.
      assert (Hlen : length (take n (drop o c)) = n)
        by (rewrite length_take, length_drop; lia).
      cbn [box_dims sel_ranges zip_with map fst snd].
      fold (box_dims dms rs). fold (sel_ranges idx dms rs).
      rewrite dim_select_pair, !dim_offset_pair, Hlen.
      destruct (assoc d idx) as [s|] eqn:Es.
      + pose proof (slice_bounds s n) as Hb.
        repeat split.
        * rewrite IH1. f_equal. unfold py_slice. rewrite Hlen. f_equal.
          unfold sel_range. cbn [fst snd]. by rewrite take_drop_nested.
        * constructor; [|exact IH2]. unfold sel_range. cbn [fst snd]. lia.
        * cbn [zip_with]. by rewrite IH3.
        * intros p Hp. inversion Hp as [|i m p' ms Him Hp']; subst.
          cbn [shift]. constructor; [|by apply IH4].
          unfold sel_range in Him. cbn [snd] in Him. lia.
      + repeat split.
        * by rewrite IH1.
        * constructor; [done | exact IH2].
        * cbn [zip_with]. rewrite IH3. f_equal. cbn [fst]. lia.
        * intros p Hp. inversion Hp as [|i m p' ms Him Hp']; subst.
          cbn [shift]. constructor; [done | by apply IH4]. }
  destruct Hdims as (H1 & H2 & H3 & H4). split; [|exact H2]. split.
  - cbn [isel dims]. by rewrite Hd.
  - intros p Hp. cbn [isel vals]. rewrite Hd.
    rewrite Hvals by (by apply H4).
    rewrite shift_shift.
    + by rewrite H3.
    + rewrite !length_map. unfold box_dims. rewrite length_zip_with.
      apply valid_ranges_length in Hv. lia.
Qed.

(** ** Ranges of tiles, and trimming *)

Ltac slice_arith :=
  unfold sel_range, slice_lo, slice_len, slice_indices, clip_index;
  cbn [fst snd slice_start slice_stop];
  repeat match goal with
         | |- context [?x <? ?y] => destruct (Z.ltb_spec x y)
         end;
  try (f_equal; lia); try lia.

Lemma foldr_add_nonneg (b : Z) (L : list Z) :
  0 <= b -> Forall (fun l => b < l) L -> 0 <= foldr Z.add 0 L.
Proof.
  intros Hb H. induction H as [|l L Hl _ IH]; cbn; lia.
Qed.

(** Without a buffer the tiles are the chunks themselves. *)
Lemma tile_ranges_chain_0 (n : nat) (s : Z) (L : list Z) :
  0 <= s -> Forall (fun l => 0 < l) L -> s + foldr Z.add 0 L <= Z.of_nat n ->
  chain (Z.to_nat s) (tile_ranges 0 n s L) (Z.to_nat (s + foldr Z.add 0 L)).
Proof.
  intros Hs HL. revert s Hs. induction HL as [|l L Hl HL IH]; intros s Hs Hsum.
  - cbn. f_equal. lia.
  - cbn [foldr] in Hsum. pose proof (foldr_add_nonneg 0 L ltac:(lia) HL) as Hnn.
    unfold tile_ranges. cbn [chunk_slices map chain]. split.
    + slice_arith.
    + specialize (IH (s + l) ltac:(lia) ltac:(lia)).
      cbn [foldr].
      replace (Z.to_nat (s + (l + foldr Z.add 0 L)))
        with (Z.to_nat (s + l + foldr Z.add 0 L)) by (f_equal; lia).
      replace (Z.to_nat s + _)%nat with (Z.to_nat (s + l)); [exact IH|].
      slice_arith.
Qed.

Lemma trim_ranges_rest (b : Z) (r0 : nat * nat) (rs : list (nat * nat)) :
  rs <> [] ->
  trim_ranges b (r0 :: rs) = sel_range (Slice None (Some (- b))) r0 :: trim_rest b rs.
Proof.
  intros Hne. unfold trim_ranges.
  assert (Hl : exists rl, last rs = Some rl /\
                          (map (sel_range (Slice (Some b) (Some (- b)))) (removelast rs)
                           ++ [sel_range (Slice (Some b) None) rl])%list = trim_rest b rs).
  { clear r0. induction rs as [|r rs IH]; [done|].
    destruct rs as [|r' rs].
    - exists r. split; reflexivity.
    - destruct IH as (rl & Hl & Ht); [done|]. exists rl. split; [exact Hl|].
      cbn [removelast map app trim_rest] in *. by rewrite Ht. }
  destruct Hl as (rl & Hl & Ht).
  assert (Hl0 : last (r0 :: rs) = Some rl) by (destruct rs; [done | exact Hl]).
  rewrite Hl0. cbn [tail app]. by rewrite Ht.
Qed.

Lemma trim_rest_chain (b : Z) (n : nat) (s : Z) (L : list Z) :
  0 < b -> b <= s -> L <> [] -> Forall (fun l => b < l) L ->
  s + foldr Z.add 0 L = Z.of_nat n ->
  chain (Z.to_nat s) (trim_rest b (tile_ranges b n s L)) n.
Proof.
  intros Hb Hs Hne HL. revert s Hs. induction HL as [|l L Hl HL IH]; [done|].
  intros s Hs Hsum. cbn [foldr] in Hsum.
  pose proof (foldr_add_nonneg b L ltac:(lia) HL) as Hnn.
  destruct L as [|l' L].
  - cbn [foldr] in *. unfold tile_ranges. cbn [chunk_slices map trim_rest chain].
    split; slice_arith.
  - assert (Hl' : b < l') by (by inversion HL).
    assert (Hnn' : 0 <= foldr Z.add 0 L).
    { inversion HL; subst. apply (foldr_add_nonneg b); [lia | done]. }
    cbn [foldr] in Hsum, Hnn.
    specialize (IH ltac:(discriminate) (s + l) ltac:(lia) ltac:(cbn [foldr]; lia)).
    unfold tile_ranges in *. cbn [chunk_slices map] in *.
    cbn [trim_rest chain]. split.
    + slice_arith.
    + match goal with
      | |- chain ?x _ _ => replace x with (Z.to_nat (s + l)); [exact IH|]
      end.
      slice_arith.
Qed.

Lemma trim_ranges_chain (b : Z) (n : nat) (L : list Z) :
  0 < b -> chunks_ok b n L -> (2 <= length L)%nat ->
  chain 0 (trim_ranges b (tile_ranges b n 0 L)) n.
Proof.
  intros Hb (_ & HL & Hsum) Hlen.
  destruct L as [|l0 L]; [cbn in Hlen; lia|].
  destruct L as [|l1 L]; [cbn in Hlen; lia|].
  assert (Hl0 : b < l0) by (by inversion HL).
  assert (HL' : Forall (fun l => b < l) (l1 :: L)) by (by inversion HL).
  pose proof (foldr_add_nonneg b (l1 :: L) ltac:(lia) HL') as Hnn.
  assert (Hl1 : b < l1) by (by inversion HL').
  assert (Hnn' : 0 <= foldr Z.add 0 L).
  { inversion HL'; subst. apply (foldr_add_nonneg b); [lia | done]. }
  cbn [foldr] in Hsum, Hnn.
  pose proof (trim_rest_chain b n (0 + l0) (l1 :: L) Hb ltac:(lia) ltac:(discriminate) HL'
                ltac:(cbn [foldr]; lia)) as Hrest.
  unfold tile_ranges in *. cbn [chunk_slices map] in *.
  rewrite trim_ranges_rest by done. cbn [chain]. split.
  - slice_arith.
  - match goal with
    | |- chain ?x _ _ => replace x with (Z.to_nat (0 + l0)); [exact Hrest|]
    end.
    slice_arith.
Qed.

(** Every tile range is non-empty and inside the dimension, and the
    offsets increase strictly. *)
Lemma tile_ranges_good (b : Z) (n : nat) (s : Z) (L : list Z) :
  0 <= b -> 0 <= s -> Forall (fun l => b < l) L ->
  s + foldr Z.add 0 L <= Z.of_nat n ->
  Forall (fun r => (Z.to_nat (Z.max 0 (s - b)) <= fst r)%nat /\
                   (0 < snd r)%nat /\ (fst r + snd r <= n)%nat)
         (tile_ranges b n s L) /\
  StronglySorted lt (map fst (tile_ranges b n s L)).
Proof.
  intros Hb Hs HL. revert s Hs. induction HL as [|l L Hl HL IH]; intros s Hs Hsum.
  - split; constructor.
  - cbn [foldr] in Hsum. pose proof (foldr_add_nonneg b L Hb HL) as Hnn.
    destruct (IH (s + l) ltac:(lia) ltac:(lia)) as [IH1 IH2].
    unfold tile_ranges in *. cbn [chunk_slices map]. split.
    + constructor.
      * repeat split; slice_arith.
      * eapply Forall_impl; [exact IH1|]. cbn. intros r (H1 & H2 & H3).
        repeat split; try done. lia.
    + constructor; [exact IH2|].
      apply Forall_map. eapply Forall_impl; [exact IH1|]. cbn.
      intros r (H1 & _). revert H1. slice_arith.
Qed.

Lemma tile_ranges_single (b : Z) (n : nat) (l : Z) :
  0 <= b -> l = Z.of_nat n -> tile_ranges b n 0 [l] = [(0%nat, n)].
Proof.
  intros Hb ->. unfold tile_ranges. cbn [chunk_slices map]. f_equal. slice_arith.
Qed.

Lemma trim_ranges_rest_ne (b : Z) (rs : list (nat * nat)) :
  (2 <= length rs)%nat -> trim_ranges b rs <> [].
Proof.
  destruct rs as [|r0 [|r1 rs]]; cbn [length]; try lia. intros _.
  rewrite trim_ranges_rest by discriminate. discriminate.
Qed.

Lemma chunk_slices_length (b s : Z) (L : list Z) :
  length (chunk_slices b s L) = length L.
Proof.
  revert s. induction L as [|l L IH]; intros s; [reflexivity|]. cbn. by rewrite IH.
Qed.

Lemma tile_ranges_length (b : Z) (n : nat) (s : Z) (L : list Z) :
  length (tile_ranges b n s L) = length L.
Proof. unfold tile_ranges. by rewrite length_map, chunk_slices_length. Qed.

(** ** Concatenation of consecutive boxes *)

Lemma assoc_app_notin {A : Type} (k : string) (l1 l2 : list (string * A)) :
  ~ In k (map fst l1) -> assoc k (l1 ++ l2) = assoc k l2.
Proof.
  induction l1 as [|[k' v] l1 IH]; intros H; [reflexivity|]. cbn in *.
  destruct (String.eqb k k') eqn:E.
  - apply String.eqb_eq in E. subst. tauto.
  - apply IH. tauto.
Qed.

Lemma assoc_focus {A : Type} (k : string) (v : A) (l1 l2 : list (string * A)) :
  ~ In k (map fst l1) -> assoc k (l1 ++ (k, v) :: l2) = Some v.
Proof.
  intros H. rewrite assoc_app_notin by done. cbn. by rewrite String.eqb_refl.
Qed.

Lemma dim_index_focus (d : string) (c : list Z) (l1 l2 : list (string * list Z)) :
  ~ In d (map fst l1) -> dim_index d (l1 ++ (d, c) :: l2) = Some (length l1).
Proof.
  induction l1 as [|[k' v] l1 IH]; intros H; cbn in *.
  - by rewrite String.eqb_refl.
  - destruct (String.eqb d k') eqn:E.
    + apply String.eqb_eq in E. subst. tauto.
    + rewrite IH by tauto. reflexivity.
Qed.

Lemma box_dims_app (d1 d2 : list (string * list Z)) (r1 r2 : list (nat * nat)) :
  length r1 = length d1 ->
  box_dims (d1 ++ d2) (r1 ++ r2) = (box_dims d1 r1 ++ box_dims d2 r2)%list.
Proof.
  intros H. unfold box_dims. by rewrite zip_with_app.
Qed.

Lemma NoDup_focus {A : Type} (l1 l2 : list A) (x : A) :
  NoDup (l1 ++ x :: l2) -> ~ In x l1 /\ ~ In x l2.
Proof.
  intros H. apply NoDup_app in H as (H1 & H2 & H3).
  apply NoDup_cons in H3 as [H3 _]. rewrite list_elem_of_In in H3. split; [|done].
  intros Hin. apply (H2 x); [by apply list_elem_of_In | by left].
Qed.

Lemma shift_app (o1 o2 p1 p2 : list nat) :
  length o1 = length p1 ->
  shift (o1 ++ o2) (p1 ++ p2) = (shift o1 p1 ++ shift o2 p2)%list.
Proof.
  revert p1. induction o1 as [|a o1 IH]; intros [|i p1] H; try discriminate.
  - reflexivity.
  - cbn. f_equal. apply IH. by inversion H.
Qed.

Lemma in_shape_focus (ns1 ns2 : list nat) (n : nat) (p : list nat) :
  in_shape (ns1 ++ n :: ns2) p ->
  exists p1 i p2, p = (p1 ++ i :: p2)%list /\ length p1 = length ns1 /\ (i < n)%nat /\
                  in_shape ns1 p1 /\ in_shape ns2 p2.
Proof.
  unfold in_shape. intros H.
  apply Forall2_app_inv_r in H as (p1 & p' & H1 & H2 & ->).
  inversion H2 as [|i ? p2 ? Hi H3]; subst.
  exists p1, i, p2. repeat split; try done. by eapply Forall2_length.
Qed.

Lemma in_shape_focus_intro (ns1 ns2 p1 p2 : list nat) (n i : nat) :
  in_shape ns1 p1 -> (i < n)%nat -> in_shape ns2 p2 ->
  in_shape (ns1 ++ n :: ns2) (p1 ++ i :: p2).
Proof.
  unfold in_shape. intros H1 Hi H2. apply Forall2_app; [done|]. by constructor.
Qed.

Lemma forallb_zip_same {A : Type} (f : A * A -> bool) (l : list A) :
  (forall x, f (x, x) = true) -> forallb f (zip l l) = true.
Proof.
  intros H. induction l as [|a l IH]; [reflexivity|]. cbn. by rewrite H, IH.
Qed.

Lemma Forall2_In_r {A B : Type} (P : A -> B -> Prop) (l : list A) (k : list B) (y : B) :
  Forall2 P l k -> In y k -> exists x, In x l /\ P x y.
Proof.
  induction 1 as [|a b l k Hab _ IH]; intros Hin; [destruct Hin|].
  destruct Hin as [<-|Hin]; [exists a; split; [by left | done]|].
  destruct (IH Hin) as (x & Hx & Hp). exists x. split; [by right | done].
Qed.

Lemma Forall2_In_l {A B : Type} (P : A -> B -> Prop) (l : list A) (k : list B) (x : A) :
  Forall2 P l k -> In x l -> exists y, In y k /\ P x y.
Proof.
  induction 1 as [|a b l k Hab _ IH]; intros Hin; [destruct Hin|].
  destruct Hin as [<-|Hin]; [exists b; split; [by left | done]|].
  destruct (IH Hin) as (y & Hy & Hp). exists y. split; [by right | done].
Qed.

Lemma map_if_notin (d : string) (g : string * list Z -> string * list Z)
  (l : list (string * list Z)) :
  ~ In d (map fst l) ->
  map (fun dc => if String.eqb (fst dc) d then g dc else dc) l = l.
Proof.
  induction l as [|[k v] l IH]; intros H; [reflexivity|]. cbn in *.
  destruct (String.eqb k d) eqn:E.
  - apply String.eqb_eq in E. subst. tauto.
  - rewrite IH by tauto. reflexivity.
Qed.

Lemma Forall2_removelast {A B : Type} (P : A -> B -> Prop) (l : list A) (k : list B) :
  Forall2 P l k -> Forall2 P (removelast l) (removelast k).
Proof.
  induction 1 as [|a b l k Hab H IH]; [constructor|].
  destruct H; cbn; constructor; auto.
Qed.

Lemma Forall2_last_Some {A B : Type} (P : A -> B -> Prop) (l : list A) (k : list B)
  (x : A) :
  Forall2 P l k -> last l = Some x -> exists y, last k = Some y /\ P x y.
Proof.
  induction 1 as [|a b l k Hab H IH]; [discriminate|].
  destruct H as [|a' b' l k].
  - cbn. intros [= <-]. eauto.
  - intros Hl. apply IH. exact Hl.
Qed.

Lemma chain_nonempty_lt (o e : nat) (rs : list (nat * nat)) (i n : nat) :
  chain (o + n) rs e -> (n <= i)%nat -> (i < e - o)%nat -> rs <> [].
Proof.
  intros Hc Hn Hi ->. cbn in Hc. lia.
Qed.

Lemma chain_le (o e : nat) (rs : list (nat * nat)) : chain o rs e -> (o <= e)%nat.
Proof.
  revert o. induction rs as [|r rs IH]; intros o H; cbn in H; [lia|].
  destruct H as [_ H]. apply IH in H. lia.
Qed.

(** The geometry shared by the members of one group: the dataset's
    dimensions around the concatenation axis, and the ranges of every
    member on the other dimensions. *)
Section Focus.
Context {V : Type} (ds : Dataset V).
Context (dpre dpost : list (string * list Z)) (d : string) (c : list Z).
Context (pre post : list (nat * nat)).
Hypothesis Hdims : dims ds = (dpre ++ (d, c) :: dpost)%list.
Hypothesis Hnodup : NoDup (map fst (dims ds)).
Hypothesis Hvpre : valid_ranges dpre pre.
Hypothesis Hvpost : valid_ranges dpost post.

Lemma focus_len_pre : length pre = length dpre.
Proof. by apply valid_ranges_length. Qed.

Lemma focus_len_post : length post = length dpost.
Proof. by apply valid_ranges_length. Qed.

Lemma focus_notin : ~ In d (map fst dpre) /\ ~ In d (map fst dpost).
Proof.
  rewrite Hdims, map_app in Hnodup. cbn in Hnodup. by apply NoDup_focus in Hnodup.
Qed.

Lemma focus_box_dims (r : nat * nat) :
  box_dims (dims ds) (pre ++ r :: post)
  = (box_dims dpre pre ++ (d, take (snd r) (drop (fst r) c)) :: box_dims dpost post)%list.
Proof.
  rewrite Hdims, box_dims_app by apply focus_len_pre. reflexivity.
Qed.

Lemma focus_names_pre : map fst (box_dims dpre pre) = map fst dpre.
Proof. apply box_dims_names, focus_len_pre. Qed.

Lemma focus_coord (r : nat * nat) (f : Dataset V) :
  is_box ds (pre ++ r :: post) f ->
  assoc d (dims f) = Some (take (snd r) (drop (fst r) c)).
Proof.
  intros [Hd _]. rewrite Hd, focus_box_dims. apply assoc_focus.
  rewrite focus_names_pre. apply focus_notin.
Qed.

Lemma focus_dim_index (r : nat * nat) (f : Dataset V) :
  is_box ds (pre ++ r :: post) f -> dim_index d (dims f) = Some (length pre).
Proof.
  intros [Hd _]. rewrite Hd, focus_box_dims.
  rewrite dim_index_focus.
  - unfold box_dims. rewrite length_zip_with. pose proof focus_len_pre. f_equal. lia.
  - rewrite focus_names_pre. apply focus_notin.
Qed.

Lemma focus_valid (r : nat * nat) :
  valid_ranges (dims ds) (pre ++ r :: post) ->
  (fst r + snd r <= length c)%nat.
Proof.
  rewrite Hdims. intros H.
  apply Forall2_app_inv in H as [_ H]; [|symmetry; apply focus_len_pre].
  by inversion H; subst.
Qed.

Lemma focus_dim_length (r : nat * nat) (f : Dataset V) :
  valid_ranges (dims ds) (pre ++ r :: post) ->
  is_box ds (pre ++ r :: post) f -> dim_length f d = snd r.
Proof.
  intros Hv Hb. unfold dim_length. rewrite (focus_coord r f Hb).
  apply focus_valid in Hv. rewrite length_take, length_drop. lia.
Qed.

Lemma focus_same_grid (r r' : nat * nat) (f f' : Dataset V) :
  is_box ds (pre ++ r :: post) f -> is_box ds (pre ++ r' :: post) f' ->
  same_grid d (dims f) (dims f') = true.
Proof.
  intros [Hd _] [Hd' _]. rewrite Hd, Hd', !focus_box_dims. unfold same_grid.
  apply andb_true_iff. split.
  - apply bool_decide_eq_true. rewrite !map_app. reflexivity.
  - rewrite (zip_with_app pair (box_dims dpre pre) _ (box_dims dpre pre) _ eq_refl). rewrite forallb_app.
    apply andb_true_iff. split; [|cbn [zip_with forallb fst]; apply andb_true_iff; split].
    + apply forallb_zip_same. intros x. apply orb_true_iff. right.
      by apply bool_decide_eq_true.
    + by rewrite String.eqb_refl.
    + apply forallb_zip_same. intros x. apply orb_true_iff. right.
      by apply bool_decide_eq_true.
Qed.

Lemma focus_concat_coords (o e : nat) (rk : list (nat * nat)) (group : list (Dataset V)) :
  chain o rk e ->
  Forall2 (fun r f => is_box ds (pre ++ r :: post) f) rk group ->
  flat_map (fun g => default [] (assoc d (dims g))) group = take (e - o) (drop o c).
Proof.
  intros Hc HF. revert o Hc. induction HF as [|r f rk group Hb HF IH]; intros o Hc.
  - cbn in Hc. subst. by rewrite Nat.sub_diag.
  - cbn in Hc. destruct Hc as [Ho Hc]. cbn [flat_map].
    rewrite (focus_coord r f Hb), (IH _ Hc). cbn [default]. rewrite Ho.
    apply chain_le in Hc.
    unfold id. rewrite <- (drop_drop c (snd r) o), take_take_drop. f_equal. lia.
Qed.

Lemma focus_concat_vals (o e : nat) (rk : list (nat * nat)) (group : list (Dataset V))
  (p : list nat) :
  chain o rk e ->
  Forall2 (fun r f => valid_ranges (dims ds) (pre ++ r :: post) /\
                      is_box ds (pre ++ r :: post) f) rk group ->
  in_shape (map snd (pre ++ (o, e - o)%nat :: post)) p ->
  concat_vals d (length pre) group p
  = vals ds (shift (map fst (pre ++ (o, e - o)%nat :: post)) p).
Proof.
  intros Hc HF. revert o Hc p. induction HF as [|r f rk group [Hv Hb] HF IH]; intros o Hc p Hp.
  - cbn in Hc. subst. rewrite map_app in Hp. cbn [map snd] in Hp.
    apply in_shape_focus in Hp as (? & ? & ? & _ & _ & ? & _). lia.
  - cbn in Hc. destruct Hc as [Ho Hc]. destruct r as [o' n]. cbn [fst snd] in *. subst o'.
    rewrite map_app in Hp. cbn [map snd] in Hp.
    apply in_shape_focus in Hp as (p1 & i & p2 & -> & Hl & Hi & H1 & H2).
    rewrite length_map in Hl.
    cbn [concat_vals].
    rewrite list_lookup_middle by done.
    rewrite (focus_dim_length (o, n) f Hv Hb). cbn [snd].
    destruct (i <? n)%nat eqn:E.
    + apply Nat.ltb_lt in E. destruct Hb as [_ Hvals]. rewrite Hvals.
      * rewrite !map_app. reflexivity.
      * rewrite map_app. cbn [map snd]. by apply in_shape_focus_intro.
    + apply Nat.ltb_ge in E.
      assert (Hins : <[length pre := (i - n)%nat]> (p1 ++ i :: p2)%list
                     = (p1 ++ (i - n)%nat :: p2)%list).
      { rewrite insert_app_r_alt by lia. rewrite <- Hl, Nat.sub_diag. reflexivity. }
      rewrite Hins, (IH (o + n)%nat Hc).
      * rewrite !map_app. cbn [map fst].
        rewrite !shift_app by (rewrite length_map; lia). cbn [shift].
        do 3 f_equal. lia.
      * rewrite map_app. cbn [map snd]. apply in_shape_focus_intro; try done. lia.
Qed.

Lemma focus_auto_combine (o e : nat) (rk : list (nat * nat)) (group : list (Dataset V)) :
  rk <> [] ->
  chain o rk e ->
  Forall2 (fun r f => valid_ranges (dims ds) (pre ++ r :: post) /\
                      is_box ds (pre ++ r :: post) f) rk group ->
  exists g, auto_combine group d = Ok g /\
            is_box ds (pre ++ (o, e - o)%nat :: post) g.
Proof.
  intros Hne Hc HF.
  assert (HF' : Forall2 (fun r f => is_box ds (pre ++ r :: post) f) rk group).
  { eapply Forall2_impl; [exact HF|]. by intros ? ? [_ ?]. }
  destruct rk as [|r0 rk']; [done|].
  inversion HF as [|? f0 ? group' [Hv0 Hb0] HFt]; subst.
  unfold auto_combine. rewrite (focus_dim_index r0 f0 Hb0).
  assert (Hgrid : forallb (fun g => same_grid d (dims f0) (dims g)) (f0 :: group') = true).
  { apply forallb_forall. intros g Hg.
    destruct (Forall2_In_r _ _ _ _ HF' Hg) as (r & _ & Hr).
    by apply (focus_same_grid r0 r). }
  rewrite Hgrid. eexists. split; [reflexivity|]. split.
  - cbn [dims]. destruct Hb0 as [Hd0 _]. rewrite Hd0, !focus_box_dims, map_app.
    cbn [map fst snd]. rewrite String.eqb_refl.
    destruct focus_notin as [Hn1 Hn2].
    rewrite !map_if_notin.
    + by rewrite (focus_concat_coords o e (r0 :: rk') (f0 :: group')).
    + rewrite box_dims_names; [done | apply focus_len_post].
    + by rewrite focus_names_pre.
  - intros p Hp. cbn [vals]. by apply (focus_concat_vals o e (r0 :: rk')).
Qed.

Lemma focus_valid_intro (r : nat * nat) :
  (fst r + snd r <= length c)%nat -> valid_ranges (dims ds) (pre ++ r :: post).
Proof.
  intros H. rewrite Hdims. apply Forall2_app; [done|]. by constructor.
Qed.

Lemma sel_ranges_app (idx : list (string * slice)) (d1 d2 : list (string * list Z))
  (r1 r2 : list (nat * nat)) :
  length r1 = length d1 ->
  sel_ranges idx (d1 ++ d2) (r1 ++ r2)
  = (sel_ranges idx d1 r1 ++ sel_ranges idx d2 r2)%list.
Proof. intros H. unfold sel_ranges. by rewrite zip_with_app. Qed.

Lemma sel_ranges_cons (idx : list (string * slice)) (dc : string * list Z)
  (dms : list (string * list Z)) (r : nat * nat) (rs : list (nat * nat)) :
  sel_ranges idx (dc :: dms) (r :: rs)
  = match assoc (fst dc) idx with Some s => sel_range s r | None => r end
    :: sel_ranges idx dms rs.
Proof. reflexivity. Qed.

Lemma sel_ranges_notin (idx : list (string * slice)) (dms : list (string * list Z))
  (rs : list (nat * nat)) :
  length rs = length dms ->
  (forall x, In x (map fst dms) -> assoc x idx = None) ->
  sel_ranges idx dms rs = rs.
Proof.
  revert rs. induction dms as [|[k v] dms IH]; intros [|r rs] Hl Hn; try discriminate.
  - reflexivity.
  - rewrite sel_ranges_cons. cbn [fst].
    rewrite (Hn k) by (by left). f_equal. apply IH; [by inversion Hl|].
    intros x Hx. apply Hn. by right.
Qed.

Lemma focus_sel_ranges (s : slice) (r : nat * nat) :
  sel_ranges [(d, s)] (dims ds) (pre ++ r :: post) = (pre ++ sel_range s r :: post)%list.
Proof.
  destruct focus_notin as [Hn1 Hn2].
  assert (Hnone : forall (l : list (string * list Z)) x,
             ~ In d (map fst l) -> In x (map fst l) ->
                              assoc x [(d, s)] = None).
  { intros l x Hd Hx. cbn. destruct (String.eqb x d) eqn:E; [|reflexivity].
    apply String.eqb_eq in E. subst. tauto. }
  rewrite Hdims, sel_ranges_app, sel_ranges_cons by apply focus_len_pre.
  cbn [fst assoc]. rewrite String.eqb_refl.
  rewrite !sel_ranges_notin; eauto using focus_len_pre, focus_len_post.
Qed.

Lemma focus_isel (s : slice) (r : nat * nat) (f : Dataset V) :
  (focus_ok ds pre post) r f -> (focus_ok ds pre post) (sel_range s r) (isel f [(d, s)]).
Proof.
  intros [Hv Hb]. destruct (isel_is_box ds f _ [(d, s)] Hv Hb) as [H1 H2].
  rewrite focus_sel_ranges in H1, H2. by split.
Qed.

Lemma focus_trim_group (b : Z) (rk : list (nat * nat)) (group : list (Dataset V)) :
  rk <> [] ->
  Forall2 (focus_ok ds pre post) rk group ->
  exists trimmed, trim_group d b group = Ok trimmed /\
                  Forall2 (focus_ok ds pre post) (trim_ranges b rk) trimmed.
Proof.
  intros Hne HF. unfold trim_group, trim_ranges.
  destruct HF as [|r0 f0 rk' group' H0 HF]; [done|].
  destruct (last (r0 :: rk')) as [rl|] eqn:El.
  2:{ by apply last_None in El. }
  destruct (Forall2_last_Some (focus_ok ds pre post) (r0 :: rk') (f0 :: group') rl) as (fl & Efl & Hl);
    [by constructor | exact El |].
  unfold py_last. rewrite Efl. cbn [py_first bind tail].
  eexists. split; [reflexivity|].
  constructor; [by apply focus_isel|]. apply Forall2_app.
  - apply Forall2_fmap.
    apply Forall2_removelast in HF. eapply Forall2_impl; [exact HF|].
    intros r f Hrf. by apply focus_isel.
  - constructor; [by apply focus_isel | constructor].
Qed.

Lemma focus_merge_group (b : Z) (L : list Z) (cache : gmap string Z)
  (group : list (Dataset V)) :
  chunks_ok b (length c) L ->
  (2 <= length L)%nat ->
  Forall2 (fun r f => is_box ds (pre ++ r :: post) f) (tile_ranges b (length c) 0 L) group ->
  exists g, merge_group (BufInt b) d cache group = Ok (g, cache) /\
            is_box ds (pre ++ (O, length c) :: post) g.
Proof.
  intros Hok Hlen HF. pose proof Hok as (Hb & HL & Hsum).
  destruct (tile_ranges_good b (length c) 0 L Hb ltac:(lia) HL ltac:(lia)) as [Hgood _].
  assert (HF' : Forall2 (focus_ok ds pre post) (tile_ranges b (length c) 0 L) group).
  { clear -Hgood HF Hdims Hvpre Hvpost. induction HF as [|r f rk group Hrf HF IH].
    - constructor.
    - inversion Hgood as [|? ? (H1 & H2 & H3) Hgood']; subst.
      constructor; [|by apply IH]. split; [by apply focus_valid_intro | done]. }
  assert (Hne : tile_ranges b (length c) 0 L <> []).
  { unfold tile_ranges. destruct L; [cbn in Hlen; lia | discriminate]. }
  unfold merge_group. cbn [resolve_buffer bind fst snd].
  destruct (0 <? b) eqn:Eb.
  - apply Z.ltb_lt in Eb.
    destruct (focus_trim_group b _ group Hne HF') as (trimmed & Ht & HFt).
    rewrite Ht. cbn [bind].
    destruct (focus_auto_combine 0 (length c) (trim_ranges b (tile_ranges b (length c) 0 L))
                trimmed) as (g & Hg & Hbox).
    + apply trim_ranges_rest_ne. by rewrite tile_ranges_length.
    + by apply trim_ranges_chain.
    + exact HFt.
    + rewrite Hg. cbn [bind]. exists g. split; [reflexivity|].
      by rewrite Nat.sub_0_r in Hbox.
  - apply Z.ltb_ge in Eb. assert (b = 0) by lia. subst b. cbn [bind].
    destruct (focus_auto_combine 0 (length c) (tile_ranges 0 (length c) 0 L) group)
      as (g & Hg & Hbox).
    + exact Hne.
    + pose proof (tile_ranges_chain_0 (length c) 0 L ltac:(lia) HL ltac:(lia)) as Hc.
      cbn [Z.to_nat] in Hc. rewrite Z.add_0_l, Hsum, Nat2Z.id in Hc. exact Hc.
    + exact HF'.
    + rewrite Hg. cbn [bind]. exists g. split; [reflexivity|].
      by rewrite Nat.sub_0_r in Hbox.
Qed.

End Focus.

(* ===================================================================== *)
(** * A group with a single fragment *)
(* ===================================================================== *)

Lemma assoc_dim_select (d : string) (s : slice) (D : list (string * list Z)) :
  assoc d (map (dim_select [(d, s)]) D) = py_slice s <$> assoc d D.
Proof.
  induction D as [|[k v] D IH]; [reflexivity|].
  cbn [map]. rewrite dim_select_pair. cbn [assoc].
  destruct (String.eqb k d) eqn:E.
  - apply String.eqb_eq in E. subst k. cbn [assoc]. by rewrite String.eqb_refl.
  - cbn [assoc]. rewrite String.eqb_sym, E. exact IH.
Qed.

Lemma dim_select_names (idx : list (string * slice)) (D : list (string * list Z)) :
  map fst (map (dim_select idx) D) = map fst D.
Proof.
  induction D as [|[k v] D IH]; [reflexivity|].
  cbn [map]. rewrite dim_select_pair, IH. by destruct (assoc k idx).
Qed.

Lemma dim_index_names (d : string) (D D' : list (string * list Z)) :
  map fst D = map fst D' -> dim_index d D = dim_index d D'.
Proof.
  revert D'. induction D as [|[k v] D IH]; intros [|[k' v'] D'] H; try discriminate.
  - reflexivity.
  - cbn in *. inversion H; subst. by rewrite (IH D').
Qed.

Lemma dim_index_is_Some (d : string) (D : list (string * list Z)) (c : list Z) :
  assoc d D = Some c -> exists k, dim_index d D = Some k.
Proof.
  induction D as [|[k v] D IH]; [discriminate|]. cbn.
  destruct (String.eqb d k); [eauto|]. intros H. destruct (IH H) as [j ->]. eauto.
Qed.

Lemma same_grid_dim_select (d : string) (s1 s2 : slice) (D : list (string * list Z)) :
  same_grid d (map (dim_select [(d, s1)]) D) (map (dim_select [(d, s2)]) D) = true.
Proof.
  unfold same_grid. apply andb_true_iff. split.
  - apply bool_decide_eq_true. by rewrite !dim_select_names.
  - induction D as [|[k v] D IH]; [reflexivity|].
    cbn [map zip_with forallb]. rewrite IH, andb_true_r, !dim_select_pair.
    cbn [assoc]. rewrite (String.eqb_sym k d).
    destruct (String.eqb d k) eqn:E; cbn [fst snd]; [by rewrite String.eqb_sym, E|].
    apply orb_true_iff. right. by apply bool_decide_eq_true.
Qed.

Lemma assoc_map_replace (d : string) (X : list Z) (D : list (string * list Z))
  (c : list Z) :
  assoc d D = Some c ->
  assoc d (map (fun dc => if String.eqb (fst dc) d then (fst dc, X) else dc) D) = Some X.
Proof.
  induction D as [|[k v] D IH]; [discriminate|]. cbn.
  destruct (String.eqb d k) eqn:E.
  - apply String.eqb_eq in E. subst k. intros _. rewrite String.eqb_refl. cbn.
    by rewrite String.eqb_refl.
  - intros H. rewrite String.eqb_sym, E. cbn. rewrite E. by apply IH.
Qed.

(** C9 (amended).  In a pass with resolved overlap [b > 0], a group with a
    single fragment is trimmed into two copies of the fragment, one without
    its last [b] entries along the axis and one without its first [b], and
    both are concatenated.  The result has [2 * (n - min b n)] entries along
    the axis, where [n] is the extent of the fragment; its extent differs
    from that of the fragment unless [n = 2 * b] (or [n = 0]). *)
Theorem merge_group_singleton {V : Type} (buffer : buffer_t) (cache cache' : gmap string Z)
  (d : string) (g : Dataset V) (b : Z) (c : list Z) :
  resolve_buffer buffer cache d [g] = Ok (b, cache') ->
  0 < b ->
  assoc d (dims g) = Some c ->
  trim_group d b [g] = Ok [isel g (idx_first d b); isel g (idx_end d b)] /\
  exists m,
    merge_group buffer d cache [g] = Ok (m, cache') /\
    auto_combine [isel g (idx_first d b); isel g (idx_end d b)] d = Ok m /\
    assoc d (dims m)
    = Some (py_slice (Slice None (Some (- b))) c ++ py_slice (Slice (Some b) None) c)%list /\
    dim_length m d = (2 * (length c - Nat.min (Z.to_nat b) (length c)))%nat /\
    (dim_length m d = dim_length g d <->
     length c = (2 * Z.to_nat b)%nat \/ length c = 0%nat).
Proof.
  intros Hres Hb Hc. split; [reflexivity|].
  unfold merge_group. rewrite Hres. cbn [bind fst snd].
  apply Z.ltb_lt in Hb as Hb'. rewrite Hb'.
  change (trim_group d b [g]) with (Ok [isel g (idx_first d b); isel g (idx_end d b)]).
  cbn [bind].
  set (a1 := isel g (idx_first d b)). set (a2 := isel g (idx_end d b)).
  assert (Hc1 : assoc d (dims a1) = Some (py_slice (Slice None (Some (- b))) c)).
  { subst a1. cbn [isel dims]. unfold idx_first. by rewrite assoc_dim_select, Hc. }
  assert (Hc2 : assoc d (dims a2) = Some (py_slice (Slice (Some b) None) c)).
  { subst a2. cbn [isel dims]. unfold idx_end. by rewrite assoc_dim_select, Hc. }
  destruct (dim_index_is_Some d (dims a1) _ Hc1) as [k Hk].
  unfold auto_combine. rewrite Hk.
  assert (Hgrid : forallb (fun x => same_grid d (dims a1) (dims x)) [a1; a2] = true).
  { cbn [forallb]. subst a1 a2. cbn [isel dims]. unfold idx_first, idx_end.
    by rewrite !same_grid_dim_select. }
  rewrite Hgrid. eexists. split; [reflexivity|]. split; [reflexivity|].
  assert (Hm : assoc d (dims {| dims := map (fun dc =>
                     if String.eqb (fst dc) d
                     then (fst dc, flat_map (fun g0 => default [] (assoc d (dims g0))) [a1; a2])
                     else dc) (dims a1);
                   vals := concat_vals d k [a1; a2] |})
               = Some (py_slice (Slice None (Some (- b))) c
                       ++ py_slice (Slice (Some b) None) c)%list).
  { cbn [dims]. rewrite (assoc_map_replace d _ _ _ Hc1).
    cbn [flat_map]. rewrite Hc1, Hc2. cbn [default]. unfold id.
    by rewrite app_nil_r. }
  split; [exact Hm|].
  assert (Hlen : forall m' : Dataset V,
             assoc d (dims m') = Some (py_slice (Slice None (Some (- b))) c
                                       ++ py_slice (Slice (Some b) None) c)%list ->
             dim_length m' d = (2 * (length c - Nat.min (Z.to_nat b) (length c)))%nat).
  { intros m' Hm'. unfold dim_length. rewrite Hm', length_app, !py_slice_length.
    unfold slice_len, slice_indices, clip_index. cbn [fst snd slice_start slice_stop].
    destruct (Z.ltb_spec (- b) 0); destruct (Z.ltb_spec b 0); lia. }
  split; [by apply Hlen|].
  rewrite (Hlen _ Hm). unfold dim_length at 1. rewrite Hc. lia.
Qed.

(** Witness for C9 (amended): a fragment of a two-dimensional split as a
    group of its own, trimmed by 1 along [y]. *)
Lemma merge_group_singleton_witness :
  trim_group "y" 1 [strip_a]
  = Ok [isel strip_a (idx_first "y" 1); isel strip_a (idx_end "y" 1)] /\
  exists m,
    merge_group (BufInt 1) "y" ∅ [strip_a] = Ok (m, ∅) /\
    auto_combine [isel strip_a (idx_first "y" 1); isel strip_a (idx_end "y" 1)] "y"
    = Ok m /\
    assoc "y" (dims m)
    = Some (py_slice (Slice None (Some (- 1))) [0; 10]
            ++ py_slice (Slice (Some 1) None) [0; 10])%list /\
    dim_length m "y"
    = (2 * (length [0; 10] - Nat.min (Z.to_nat 1) (length [0; 10])))%nat /\
    (dim_length m "y" = dim_length strip_a "y" <->
     length [0; 10] = (2 * Z.to_nat 1)%nat \/ length [0; 10] = 0%nat).
Proof.
  apply (merge_group_singleton (BufInt 1) ∅ ∅ "y" strip_a 1 [0; 10]);
    [reflexivity | lia | reflexivity].
Defined.

(** C9, as stated, fails when the fragment has exactly [2 * b] entries
    along the axis.  The two fragments [strip_a] and [strip_b] differ in
    their first labels along [x] and [y], so a pass over them concatenates
    along [y] and forms two groups of one fragment each; with overlap 1 the
    two trimmed copies of a fragment are its two halves, and the merged
    result of each group is the fragment itself. *)
Lemma merge_group_singleton_unchanged :
  split_dims [strip_a; strip_b] = Ok ["x"; "y"] /\
  (exists keys,
     mapM (first_values ["x"; "y"]) [strip_a; strip_b] = Ok keys /\
     map snd (groupby (map (fun kd => (removelast (fst kd), snd kd))
                           (sorted_by_key (zip keys [strip_a; strip_b]))))
     = [[strip_a]; [strip_b]]) /\
  exists m1 m2,
    combine_along_last_dim (BufInt 1) ∅ [strip_a; strip_b] = Ok ([m1; m2], ∅) /\
    merge_group (BufInt 1) "y" ∅ [strip_a] = Ok (m1, ∅) /\
    merge_group (BufInt 1) "y" ∅ [strip_b] = Ok (m2, ∅) /\
    ds_eq m1 strip_a /\ ds_eq m2 strip_b.
Proof.
  split; [reflexivity|]. split; [eexists; split; reflexivity|].
  eexists _, _. split; [reflexivity|]. split; [reflexivity|]. split; [reflexivity|].
  split; (split; [reflexivity|]; intros p Hp; cbn in Hp;
    inversion Hp as [|i n p' ns Hi Hp']; subst;
    inversion Hp' as [|j n' p'' ns' Hj Hp'']; subst; inversion Hp''; subst;
    destruct i as [|i]; [|lia]; destruct j as [|[|j]]; [reflexivity | reflexivity | lia]).
Qed.

(* ===================================================================== *)
(** * The inferred buffer *)
(* ===================================================================== *)

Lemma argmin_from_keep (best : Z) (besti i : nat) (l : list Z) :
  Forall (fun x => best <= x) l -> argmin_from best besti i l = besti.
Proof.
  intros H. revert i. induction H as [|x l Hx _ IH]; intros i; [reflexivity|].
  cbn. destruct (Z.ltb_spec x best); [lia | apply IH].
Qed.

Lemma argmin_from_first (best : Z) (besti i : nat) (l : list Z) (j : nat) (m : Z) :
  l !! j = Some m -> m < best ->
  Forall (fun x => m <= x) l ->
  (forall k x, (k < j)%nat -> l !! k = Some x -> m < x) ->
  argmin_from best besti i l = (i + j)%nat.
Proof.
  revert j best besti i. induction l as [|x l IH]; intros j best besti i Hj Hm Hall Hpre.
  - discriminate.
  - inversion Hall as [|? ? Hx Hall']; subst. destruct j as [|j]; cbn in Hj.
    + inversion Hj; subst x. cbn. destruct (Z.ltb_spec m best); [|lia].
      rewrite argmin_from_keep by done. lia.
    + assert (Hmx : m < x) by (apply (Hpre 0%nat); [lia | reflexivity]).
      assert (Hpre' : forall k y, (k < j)%nat -> l !! k = Some y -> m < y).
      { intros k y Hk Hy. apply (Hpre (S k)); [lia | exact Hy]. }
      cbn. destruct (Z.ltb_spec x best).
      * rewrite (IH j) by done. lia.
      * rewrite (IH j) by done. lia.
Qed.

(** [argmin] returns the first index that holds the minimum. *)
Lemma argmin_first (l : list Z) (j : nat) (m : Z) :
  l !! j = Some m ->
  Forall (fun x => m <= x) l ->
  (forall k x, (k < j)%nat -> l !! k = Some x -> m < x) ->
  argmin l = Ok j.
Proof.
  intros Hj Hall Hpre. destruct l as [|x l]; [discriminate|]. cbn [argmin]. f_equal.
  inversion Hall as [|? ? Hx Hall']; subst. destruct j as [|j]; cbn in Hj.
  - inversion Hj; subst x. by apply argmin_from_keep.
  - assert (Hmx : m < x) by (apply (Hpre 0%nat); [lia | reflexivity]).
    rewrite (argmin_from_first x 0 1 l j m); try done.
    intros k y Hk Hy. apply (Hpre (S k)); [lia | exact Hy].
Qed.

Lemma sorted_lookup_lt (c : list Z) (i j : nat) (x y : Z) :
  StronglySorted Z.lt c -> (i < j)%nat -> c !! i = Some x -> c !! j = Some y -> x < y.
Proof.
  intros Hs. revert i j. induction Hs as [|a c Hs IH Ha]; intros i j Hij Hi Hj.
  - discriminate.
  - destruct j as [|j]; [lia|]. cbn in Hj. destruct i as [|i]; cbn in Hi.
    + inversion Hi; subst a. rewrite Forall_forall in Ha. apply Ha.
      by eapply list_elem_of_lookup_2.
    + apply (IH i j); [lia | done | done].
Qed.

Lemma lookup_take_drop {A : Type} (l : list A) (o n j : nat) :
  (j < n)%nat -> take n (drop o l) !! j = l !! (o + j)%nat.
Proof.
  intros H. rewrite lookup_take_lt by done. by rewrite lookup_drop.
Qed.

Lemma py_last_take_drop (c : list Z) (o n : nat) :
  (0 < n)%nat -> (o + n <= length c)%nat ->
  exists x, py_last (take n (drop o c)) = Ok x /\ c !! (o + n - 1)%nat = Some x.
Proof.
  intros Hn Hv. unfold py_last. rewrite last_lookup.
  rewrite length_take, length_drop.
  replace (Nat.min n (length c - o)) with n by lia.
  rewrite lookup_take_drop by lia.
  destruct (c !! (o + pred n)%nat) as [x|] eqn:E.
  - exists x. split; [reflexivity|]. rewrite <- E. f_equal. lia.
  - apply lookup_ge_None in E. lia.
Qed.

(** The overlap inferred from two fragments of a dataset with strictly
    increasing coordinates along the axis: half the number of entries of
    the second that do not come after the last entry of the first,
    rounded up. *)
Lemma wrap64_small (z : Z) : - 2 ^ 63 <= z < 2 ^ 63 -> wrap64 z = z.
Proof. intros H. unfold wrap64. rewrite Z.mod_small; lia. Qed.

(** Where the labels have a span below [2^63], the [int64] difference of
    two labels and its absolute value are the exact ones. *)
Lemma np_abs_diff (c : list Z) (x y : Z) :
  span_ok c -> In x c -> In y c -> np_abs (wrap64 (x - y)) = Z.abs (x - y).
Proof.
  intros [_ Hs] Hx Hy. pose proof (Hs x y Hx Hy). pose proof (Hs y x Hy Hx).
  unfold np_abs. rewrite (wrap64_small (x - y)) by lia. apply wrap64_small. lia.
Qed.

Lemma infer_buffer_boxes {V : Type} (ds : Dataset V)
  (dpre dpost : list (string * list Z)) (d : string) (c : list Z)
  (pre post : list (nat * nat)) (r0 r1 : nat * nat) (f0 f1 : Dataset V)
  (rest : list (Dataset V)) :
  dims ds = (dpre ++ (d, c) :: dpost)%list ->
  NoDup (map fst (dims ds)) ->
  valid_ranges dpre pre -> valid_ranges dpost post ->
  StronglySorted Z.lt c ->
  span_ok c ->
  focus_ok ds pre post r0 f0 -> focus_ok ds pre post r1 f1 ->
  (0 < snd r0)%nat -> (0 < snd r1)%nat ->
  (fst r0 + snd r0 - 1 < fst r1 + snd r1)%nat ->
  infer_buffer d (f0 :: f1 :: rest)
  = Ok (if decide (fst r1 <= fst r0 + snd r0 - 1)%nat
        then Z.quot (Z.of_nat (fst r0 + snd r0 - 1 - fst r1) + 1) 2
        else 0).
Proof.
  intros Hdims Hnd Hvpre Hvpost Hs Hspan [Hv0 Hb0] [Hv1 Hb1] Hn0 Hn1 Ht.
  destruct r0 as [o0 n0], r1 as [o1 n1]. cbn [fst snd] in *.
  pose proof (focus_valid ds dpre dpost d c pre post Hdims Hvpre (o0, n0) Hv0) as Hr0.
  pose proof (focus_valid ds dpre dpost d c pre post Hdims Hvpre (o1, n1) Hv1) as Hr1.
  cbn [fst snd] in Hr0, Hr1.
  unfold infer_buffer. cbn [lookup list_lookup py_first bind].
  unfold coord_values.
  rewrite (focus_coord ds dpre dpost d c pre post Hdims Hnd Hvpre (o1, n1) f1 Hb1).
  rewrite (focus_coord ds dpre dpost d c pre post Hdims Hnd Hvpre (o0, n0) f0 Hb0).
  cbn [bind fst snd].
  destruct (py_last_take_drop c o0 n0 Hn0 Hr0) as (lst & Hlast & Hlst).
  rewrite Hlast. cbn [bind].
  set (t := (o0 + n0 - 1)%nat) in *.
  assert (Hexact : map (fun x => np_abs (wrap64 (x - lst))) (take n1 (drop o1 c))
                   = map (fun x => Z.abs (x - lst)) (take n1 (drop o1 c))).
  { apply map_ext_in. intros x Hx. apply (np_abs_diff c); [exact Hspan | |].
    - by apply In_take, In_drop in Hx.
    - apply list_elem_of_In. by eapply list_elem_of_lookup_2. }
  rewrite Hexact. clear Hexact.
  set (diffs := map (fun x => Z.abs (x - lst)) (take n1 (drop o1 c))).
  assert (Hdiff : forall j, (j < n1)%nat ->
             exists x, c !! (o1 + j)%nat = Some x /\ diffs !! j = Some (Z.abs (x - lst))).
  { intros j Hj. destruct (c !! (o1 + j)%nat) as [x|] eqn:E.
    - exists x. split; [reflexivity|]. subst diffs.
      rewrite list_lookup_fmap, lookup_take_drop, E by done. reflexivity.
    - apply lookup_ge_None in E. lia. }
  assert (Hlen : length diffs = n1).
  { subst diffs. rewrite length_map, length_take, length_drop. lia. }
  destruct (decide (o1 <= t)%nat) as [Hle|Hgt].
  - assert (Hj : (t - o1 < n1)%nat) by lia.
    destruct (Hdiff (t - o1)%nat Hj) as (x & Hx & Hdx).
    replace (o1 + (t - o1))%nat with t in Hx by lia.
    assert (x = lst) by congruence. subst x.
    rewrite Z.sub_diag in Hdx. cbn [Z.abs] in Hdx.
    rewrite (argmin_first diffs (t - o1) 0 Hdx).
    + reflexivity.
    + unfold diffs. apply Forall_map, Forall_forall. intros; cbn; lia.
    + intros k y Hk Hy.
      destruct (Hdiff k ltac:(lia)) as (x & Hx' & Hdx').
      assert (y = Z.abs (x - lst)) by congruence. subst y.
      pose proof (sorted_lookup_lt c (o1 + k) t x lst Hs ltac:(lia) Hx' Hlst). lia.
  - destruct (Hdiff 0%nat Hn1) as (x0 & Hx0 & Hd0).
    rewrite Nat.add_0_r in Hx0.
    pose proof (sorted_lookup_lt c t o1 lst x0 Hs ltac:(lia) Hlst Hx0) as Hlt0.
    rewrite (argmin_first diffs 0 (Z.abs (x0 - lst)) Hd0).
    + reflexivity.
    + apply Forall_forall. intros y Hy.
      apply list_elem_of_lookup in Hy as [k Hk].
      assert (Hkn : (k < n1)%nat) by (rewrite <- Hlen; by eapply lookup_lt_Some).
      destruct (Hdiff k Hkn) as (x & Hx' & Hdx').
      assert (y = Z.abs (x - lst)) by congruence. subst y.
      destruct k as [|k].
      * rewrite Nat.add_0_r in Hx'. assert (x = x0) by congruence. subst x. lia.
      * pose proof (sorted_lookup_lt c o1 (o1 + S k) x0 x Hs ltac:(lia) Hx0 Hx'). lia.
    + intros k y Hk. lia.
Qed.

Lemma resolve_buffer_keeps {V : Type} (buffer : buffer_t) (cache cache' : gmap string Z)
  (cd : string) (group : list (Dataset V)) (x : Z) (d : string) (b : Z) :
  resolve_buffer buffer cache cd group = Ok (x, cache') ->
  cache !! d = Some b -> cache' !! d = Some b.
Proof.
  unfold resolve_buffer. intros H Hd.
  destruct buffer; try (inversion H; subst; exact Hd).
  destruct (cache !! cd) eqn:E; [inversion H; subst; exact Hd|].
  destruct (infer_buffer cd group); [|discriminate]. inversion H; subst.
  rewrite lookup_insert_ne; [exact Hd|]. intros ->. congruence.
Qed.

Lemma merge_group_keeps {V : Type} (buffer : buffer_t) (cache cache' : gmap string Z)
  (cd : string) (group : list (Dataset V)) (m : Dataset V) (d : string) (b : Z) :
  merge_group buffer cd cache group = Ok (m, cache') ->
  cache !! d = Some b -> cache' !! d = Some b.
Proof.
  unfold merge_group. intros H Hd.
  destruct (resolve_buffer buffer cache cd group) as [[x c1]|] eqn:E; [|discriminate].
  cbn [bind fst snd] in H.
  destruct (if 0 <? x then trim_group cd x group else Ok group); [|discriminate].
  cbn [bind] in H. destruct (auto_combine a cd); [|discriminate].
  inversion H; subst. by eapply resolve_buffer_keeps.
Qed.

Lemma merge_groups_keeps {V : Type} (buffer : buffer_t) (cache cache' : gmap string Z)
  (cd : string) (groups : list (list (Dataset V))) (ms : list (Dataset V))
  (d : string) (b : Z) :
  merge_groups buffer cd cache groups = Ok (ms, cache') ->
  cache !! d = Some b -> cache' !! d = Some b.
Proof.
  revert cache ms. induction groups as [|g gs IH]; intros cache ms H Hd; cbn in H.
  - inversion H; subst. exact Hd.
  - destruct (merge_group buffer cd cache g) as [[m c1]|] eqn:E; [|discriminate].
    cbn [bind fst snd] in H.
    destruct (merge_groups buffer cd c1 gs) as [[ms' c2]|] eqn:E2; [|discriminate].
    inversion H; subst. eapply IH; [exact E2|]. by eapply merge_group_keeps.
Qed.

Lemma merge_group_fixed {V : Type} (b : Z) (d : string) (cache c2 : gmap string Z)
  (g : list (Dataset V)) :
  merge_group (BufInt b) d cache g
  = (mc <- merge_group (BufInt b) d c2 g ;; Ok (fst mc, cache)).
Proof.
  unfold merge_group. cbn [resolve_buffer bind fst snd].
  destruct (if 0 <? b then trim_group d b g else Ok g); [|reflexivity].
  cbn [bind]. destruct (auto_combine a d); reflexivity.
Qed.

Lemma merge_groups_fixed {V : Type} (b : Z) (d : string) (cache c2 : gmap string Z)
  (gs : list (list (Dataset V))) :
  merge_groups (BufInt b) d cache gs
  = (r <- merge_groups (BufInt b) d c2 gs ;; Ok (fst r, cache)).
Proof.
  revert cache c2. induction gs as [|g gs IH]; intros cache c2; [reflexivity|].
  cbn [merge_groups]. rewrite (merge_group_fixed b d cache c2 g).
  destruct (merge_group (BufInt b) d c2 g) as [[m c3]|]; [|reflexivity].
  cbn [bind fst snd]. rewrite (IH cache c3).
  destruct (merge_groups (BufInt b) d c3 gs) as [[ms c4]|]; reflexivity.
Qed.

Lemma merge_groups_cached {V : Type} (d : string) (cache : gmap string Z)
  (groups : list (list (Dataset V))) (b : Z) :
  cache !! d = Some b ->
  merge_groups BufAuto d cache groups = merge_groups (BufInt b) d cache groups.
Proof.
  intros Hd. induction groups as [|g gs IH]; [reflexivity|].
  cbn [merge_groups].
  assert (Hg : merge_group BufAuto d cache g = merge_group (BufInt b) d cache g).
  { unfold merge_group. cbn [resolve_buffer]. by rewrite Hd. }
  rewrite Hg. rewrite (merge_group_fixed b d cache cache g).
  destruct (merge_group (BufInt b) d cache g) as [[m c1]|]; [|reflexivity].
  cbn [bind fst snd]. by rewrite IH.
Qed.

Lemma merge_groups_first_use {V : Type} (d : string) (cache : gmap string Z)
  (g : list (Dataset V)) (gs : list (list (Dataset V))) (b : Z) :
  cache !! d = None ->
  infer_buffer d g = Ok b ->
  merge_groups BufAuto d cache (g :: gs)
  = (r <- merge_groups (BufInt b) d cache (g :: gs) ;; Ok (fst r, <[d := b]> cache)).
Proof.
  intros Hd Hb. cbn [merge_groups].
  assert (Hg : merge_group BufAuto d cache g
               = (mc <- merge_group (BufInt b) d cache g ;; Ok (fst mc, <[d := b]> cache))).
  { unfold merge_group. cbn [resolve_buffer]. rewrite Hd, Hb. cbn [bind fst snd].
    destruct (if 0 <? b then trim_group d b g else Ok g); [|reflexivity].
    cbn [bind]. destruct (auto_combine a d); reflexivity. }
  rewrite Hg. rewrite (merge_group_fixed b d cache cache g).
  destruct (merge_group (BufInt b) d cache g) as [[m c1]|]; [|reflexivity].
  cbn [bind fst snd].
  rewrite (merge_groups_cached d (<[d := b]> cache) gs b) by apply lookup_insert_eq.
  rewrite (merge_groups_fixed b d (<[d := b]> cache) cache gs).
  destruct (merge_groups (BufInt b) d cache gs) as [[ms c4]|]; reflexivity.
Qed.

Lemma infer_buffer_tiles {V : Type} (ds : Dataset V)
  (dpre dpost : list (string * list Z)) (d : string) (c : list Z)
  (pre post : list (nat * nat)) (b l0 l1 : Z) (L : list Z) (group : list (Dataset V)) :
  dims ds = (dpre ++ (d, c) :: dpost)%list ->
  NoDup (map fst (dims ds)) ->
  valid_ranges dpre pre -> valid_ranges dpost post ->
  StronglySorted Z.lt c ->
  span_ok c ->
  chunks_ok b (length c) (l0 :: l1 :: L) ->
  Forall2 (fun r f => is_box ds (pre ++ r :: post) f)
          (tile_ranges b (length c) 0 (l0 :: l1 :: L)) group ->
  infer_buffer d group = Ok b.
Proof.
  intros Hdims Hnd Hvpre Hvpost Hs Hspan (Hb & HL & Hsum) HF.
  destruct (tile_ranges_good b (length c) 0 (l0 :: l1 :: L) Hb ltac:(lia) HL ltac:(lia))
    as [Hgood _].
  assert (Hl0 : b < l0) by (by inversion HL).
  assert (HL' : Forall (fun l => b < l) (l1 :: L)) by (by inversion HL).
  assert (Hl1 : b < l1) by (by inversion HL').
  assert (Hnn : 0 <= foldr Z.add 0 L).
  { inversion HL'; subst. by apply (foldr_add_nonneg b). }
  cbn [foldr] in Hsum.
  unfold tile_ranges in *. cbn [chunk_slices map] in *.
  match type of HF with
  | Forall2 _ (?a :: ?a' :: _) _ => set (r0 := a) in *; set (r1 := a') in *
  end.
  inversion HF as [|? f0 rk g' Hb0 HF']; subst.
  inversion HF' as [|? f1 rk' g'' Hb1 HF'']; subst.
  inversion Hgood as [|? ? (_ & Hp0 & Hv0) Hgood']; subst.
  inversion Hgood' as [|? ? (_ & Hp1 & Hv1) _]; subst.
  rewrite (infer_buffer_boxes ds dpre dpost d c pre post r0 r1 f0 f1 g'' Hdims Hnd
             Hvpre Hvpost Hs Hspan); try done.
  - f_equal. case_decide as Hd.
    + match goal with |- Z.quot ?x 2 = b => replace x with (b * 2) end.
      * apply Z.quot_mul. lia.
      * revert Hd. subst r0 r1. slice_arith.
    + revert Hd. subst r0 r1. slice_arith.
  - split; [|done]. by apply (focus_valid_intro ds dpre dpost d c pre post).
  - split; [|done]. by apply (focus_valid_intro ds dpre dpost d c pre post).
  - subst r0 r1. slice_arith.
Qed.

Lemma shift_zeros (o p : list nat) : Forall (fun x => x = 0%nat) o -> shift o p = p.
Proof.
  intros H. revert p. induction H as [|x o Hx _ IH]; intros p; [reflexivity|].
  destruct p as [|i p]; [reflexivity|]. cbn. subst x. by rewrite IH.
Qed.

Lemma is_box_full {V : Type} (ds : Dataset V) :
  is_box ds (full_ranges (dims ds)) ds /\
  valid_ranges (dims ds) (full_ranges (dims ds)).
Proof.
  split; [split|].
  - unfold box_dims, full_ranges. induction (dims ds) as [|[k v] D IH]; [reflexivity|].
    cbn [map zip_with fst snd]. rewrite <- IH at 1. by rewrite drop_0, firstn_all.
  - intros p _. rewrite shift_zeros; [reflexivity|].
    unfold full_ranges. rewrite map_map. apply Forall_map, Forall_forall. by intros.
  - unfold valid_ranges, full_ranges. apply Forall2_fmap_r, Forall_Forall2_diag.
    apply Forall_forall. intros; cbn; lia.
Qed.

(** The fragment that [tile] cuts for one combination of slices is the
    box of the dataset at the ranges of these slices. *)
Lemma tile_is_box {V : Type} (ds : Dataset V) (sd : list (string * slice)) :
  is_box ds (sel_ranges sd (dims ds) (full_ranges (dims ds))) (isel ds sd) /\
  valid_ranges (dims ds) (sel_ranges sd (dims ds) (full_ranges (dims ds))).
Proof.
  destruct (is_box_full ds) as [Hb Hv]. by apply isel_is_box.
Qed.

(** A successful group, sequence of groups, pass and loop with
    [buffer == 'auto'] only add to the cache, and they do what a merge with
    a fixed overlap per axis does, for every table of overlaps that
    contains the cache they leave. *)
Lemma merge_group_auto_fixed {V : Type} (d : string) (cache cache' : gmap string Z)
  (g : list (Dataset V)) (x : Dataset V) :
  merge_group BufAuto d cache g = Ok (x, cache') ->
  cache ⊆ cache' /\
  forall m c0, cache' ⊆ m -> merge_group (BufDict m) d c0 g = Ok (x, c0).
Proof.
  unfold merge_group. intros H.
  destruct (resolve_buffer BufAuto cache d g) as [[b c1]|] eqn:E; [|discriminate].
  cbn [bind fst snd] in H.
  assert (Hb : cache ⊆ c1 /\ c1 !! d = Some b).
  { cbn [resolve_buffer] in E. destruct (cache !! d) as [b0|] eqn:Ed.
    - inversion E; subst. split; [reflexivity | exact Ed].
    - destruct (infer_buffer d g); [|discriminate]. inversion E; subst.
      split; [by apply insert_subseteq | apply lookup_insert_eq]. }
  destruct Hb as [Hsub Hd].
  destruct (if 0 <? b then trim_group d b g else Ok g) as [t|] eqn:Et; [|discriminate].
  cbn [bind] in H. destruct (auto_combine t d) as [y|] eqn:Ey; [|discriminate].
  inversion H; subst. split; [exact Hsub|].
  intros m c0 Hm. cbn [resolve_buffer bind fst snd].
  rewrite (lookup_weaken _ _ _ _ Hd Hm), Et. cbn [bind]. by rewrite Ey.
Qed.

Lemma merge_groups_auto_fixed {V : Type} (d : string) (cache cache' : gmap string Z)
  (gs : list (list (Dataset V))) (ms : list (Dataset V)) :
  merge_groups BufAuto d cache gs = Ok (ms, cache') ->
  cache ⊆ cache' /\
  forall m c0, cache' ⊆ m -> merge_groups (BufDict m) d c0 gs = Ok (ms, c0).
Proof.
  revert cache ms. induction gs as [|g gs IH]; intros cache ms H; cbn [merge_groups] in *.
  - inversion H; subst. split; [reflexivity|]. reflexivity.
  - destruct (merge_group BufAuto d cache g) as [[x c1]|] eqn:E; [|discriminate].
    cbn [bind fst snd] in H.
    destruct (merge_groups BufAuto d c1 gs) as [[ms' c2]|] eqn:E2; [|discriminate].
    cbn [bind fst snd] in H. inversion H; subst.
    destruct (merge_group_auto_fixed _ _ _ _ _ E) as [Hs1 Hg].
    destruct (IH _ _ E2) as [Hs2 Hgs].
    split; [by etrans|].
    intros m c0 Hm. rewrite (Hg m c0) by (by etrans). cbn [bind fst snd].
    by rewrite (Hgs m c0 Hm).
Qed.

Lemma combine_auto_fixed {V : Type} (cache cache' : gmap string Z)
  (datasets merged : list (Dataset V)) :
  combine_along_last_dim BufAuto cache datasets = Ok (merged, cache') ->
  cache ⊆ cache' /\
  forall m c0, cache' ⊆ m ->
               combine_along_last_dim (BufDict m) c0 datasets = Ok (merged, c0).
Proof.
  unfold combine_along_last_dim. intros H.
  destruct (split_dims datasets) as [sd|]; [|discriminate]. cbn [bind] in *.
  destruct (py_last sd) as [d|]; [|discriminate]. cbn [bind] in *.
  destruct (mapM (first_values sd) datasets) as [keys|]; [|discriminate].
  cbn [bind] in *. by apply merge_groups_auto_fixed.
Qed.

Lemma merge_loop_auto_fixed {V : Type} (fuel : nat) (cache : gmap string Z)
  (datasets merged : list (Dataset V)) :
  merge_loop fuel BufAuto cache datasets = Some (Ok merged) ->
  exists m, cache ⊆ m /\
            forall c0, merge_loop fuel (BufDict m) c0 datasets = Some (Ok merged).
Proof.
  revert cache datasets. induction fuel as [|fuel IH]; intros cache datasets H.
  - cbn [merge_loop] in *. destruct (1 <? length datasets)%nat; [discriminate|].
    exists cache. split; [reflexivity|]. intros c0. exact H.
  - cbn [merge_loop] in *. destruct (1 <? length datasets)%nat.
    + destruct (combine_along_last_dim BufAuto cache datasets) as [[F' c']|] eqn:E;
        [|discriminate].
      destruct (combine_auto_fixed _ _ _ _ E) as [Hsub Hpass].
      destruct (IH _ _ H) as (m & Hm & Hloop).
      exists m. split; [by etrans|]. intros c0. rewrite (Hpass m c0 Hm). apply Hloop.
    + exists cache. split; [reflexivity|]. intros c0. exact H.
Qed.

(** C3 (amended).  With [buffer == 'auto'] the overlap of an axis is
    computed when the axis is first met, from the first two members of the
    group at hand, as [(argmin(|c1 - c0[-1]|) + 1) // 2] in the 64-bit
    arithmetic of the labels; it is stored in the cache, which is never
    overwritten and is passed on through all groups and passes, and every
    later group of the axis uses the stored value: the pass behaves as with
    that fixed buffer, and a whole successful merge is the merge with one
    fixed overlap per axis, taken from a table that extends the cache the
    loop starts with.  For the fragments of a dataset whose coordinates
    increase strictly along the axis with a span below [2^63], split with a
    buffer [0 <= b] smaller than every chunk, the first two fragments in
    order yield exactly [b]. *)
Theorem auto_buffer_cached_and_inferred {V : Type} :
  (forall (cache : gmap string Z) d (group : list (Dataset V)) b,
      cache !! d = Some b ->
      resolve_buffer BufAuto cache d group = Ok (b, cache))
  /\
  (forall (cache : gmap string Z) d (g0 g1 : Dataset V) rest c0 c1 lst i,
      cache !! d = None ->
      coord_values g1 d = Ok c1 -> coord_values g0 d = Ok c0 -> py_last c0 = Ok lst ->
      argmin (map (fun x => np_abs (wrap64 (x - lst))) c1) = Ok i ->
      resolve_buffer BufAuto cache d (g0 :: g1 :: rest)
      = Ok (Z.quot (Z.of_nat i + 1) 2, <[d := Z.quot (Z.of_nat i + 1) 2]> cache))
  /\
  (forall (cache : gmap string Z) d (groups : list (list (Dataset V))) b,
      cache !! d = Some b ->
      merge_groups BufAuto d cache groups = merge_groups (BufInt b) d cache groups)
  /\
  (forall (cache : gmap string Z) d (g : list (Dataset V)) gs b,
      cache !! d = None ->
      infer_buffer d g = Ok b ->
      merge_groups BufAuto d cache (g :: gs)
      = (r <- merge_groups (BufInt b) d cache (g :: gs) ;; Ok (fst r, <[d := b]> cache)))
  /\
  (forall (cache cache' : gmap string Z) (datasets merged : list (Dataset V)) d b,
      combine_along_last_dim BufAuto cache datasets = Ok (merged, cache') ->
      cache !! d = Some b -> cache' !! d = Some b)
  /\
  (forall fuel (cache : gmap string Z) (datasets merged : list (Dataset V)),
      merge_loop fuel BufAuto cache datasets = Some (Ok merged) ->
      exists m : gmap string Z,
        cache ⊆ m /\
        forall c0, merge_loop fuel (BufDict m) c0 datasets = Some (Ok merged))
  /\
  (forall (ds : Dataset V) dpre dpost d c pre post b l0 l1 L group,
      dims ds = (dpre ++ (d, c) :: dpost)%list ->
      NoDup (map fst (dims ds)) ->
      valid_ranges dpre pre -> valid_ranges dpost post ->
      StronglySorted Z.lt c ->
      span_ok c ->
      chunks_ok b (length c) (l0 :: l1 :: L) ->
      Forall2 (fun r f => is_box ds (pre ++ r :: post) f)
              (tile_ranges b (length c) 0 (l0 :: l1 :: L)) group ->
      infer_buffer d group = Ok b).
Proof.
  repeat split.
  - intros cache d group b Hd. cbn. by rewrite Hd.
  - intros cache d g0 g1 rest c0 c1 lst i Hd H1 H0 Hl Hi. cbn [resolve_buffer].
    rewrite Hd. unfold infer_buffer. cbn [lookup list_lookup py_first].
    rewrite H1. cbn [bind]. rewrite H0. cbn [bind]. rewrite Hl. cbn [bind].
    rewrite Hi. reflexivity.
  - intros. by apply merge_groups_cached.
  - intros. by apply merge_groups_first_use.
  - intros cache cache' datasets merged d b H Hd. unfold combine_along_last_dim in H.
    destruct (split_dims datasets); [|discriminate]. cbn [bind] in H.
    destruct (py_last a); [|discriminate]. cbn [bind] in H.
    destruct (mapM (first_values a) datasets); [|discriminate]. cbn [bind] in H.
    by eapply merge_groups_keeps.
  - intros. by apply merge_loop_auto_fixed.
  - intros. by eapply infer_buffer_tiles.
Qed.

(** Witness for C3 (amended): the two tiles of the sample dataset, split
    with buffer 1, yield the overlap 1, and their merge with
    [buffer == 'auto'] is a merge with a fixed table of overlaps. *)
Lemma auto_buffer_cached_and_inferred_witness :
  infer_buffer "x" sample_tiles = Ok 1 /\
  exists merged (m : gmap string Z),
    merge_loop 1 BufAuto ∅ sample_tiles = Some (Ok merged) /\
    ∅ ⊆ m /\
    forall c0, merge_loop 1 (BufDict m) c0 sample_tiles = Some (Ok merged).
Proof.
  split.
  - apply (proj2 (proj2 (proj2 (proj2 (proj2 (proj2 auto_buffer_cached_and_inferred)))))
             sample_ds [] [] "x" [0; 10; 20; 30; 40; 50; 60; 70] [] [] 1 4 4 []).
    + reflexivity.
    + repeat constructor; set_solver.
    + constructor.
    + constructor.
    + repeat constructor; lia.
    + split; [repeat constructor; lia|]. intros x y Hx Hy. cbn in Hx, Hy.
      assert (0 <= x <= 70) by (intuition lia). assert (0 <= y <= 70) by (intuition lia).
      lia.
    + repeat split; [lia | repeat constructor; lia].
    + unfold sample_tiles. cbn [tile_slices map dict_product flat_map app tile_buffer
                                  chunk_slices tile_ranges].
      repeat constructor.
  - destruct (merge_loop 1 BufAuto ∅ sample_tiles) as [[merged|e]|] eqn:E;
      [|vm_compute in E; discriminate..].
    exists merged.
    destruct (proj1 (proj2 (proj2 (proj2 (proj2 (proj2 auto_buffer_cached_and_inferred)))))
                1%nat ∅ sample_tiles merged E) as (m & Hm & Hloop).
    exists m. split; [reflexivity|]. split; assumption.
Defined.

(** C3, as stated, fails for coordinates that decrease along the axis,
    however uniform: the tiles of the descending sample, split with buffer
    1, are sorted into the opposite order and the overlap inferred and
    cached is 2. *)
Lemma auto_buffer_descending :
  chunks_ok 1 8 [4; 4] /\
  cached_after (combine_along_last_dim BufAuto ∅ desc_tiles) "x" = Some 2 /\
  cached_after (combine_along_last_dim BufAuto ∅ sample_tiles) "x" = Some 1.
Proof.
  split; [repeat split; [lia | repeat constructor; lia]|].
  split; vm_compute; reflexivity.
Qed.

(** It fails as well for increasing, uniformly spaced labels whose span
    does not fit into 64 bits: for the four labels [-2^63], [-2^62], [0],
    [2^62] in two chunks of two, split without overlap, the difference
    [2^62 - (-2^62)] wraps around to [-2^63], the smallest value, and the
    overlap inferred and cached is 1 instead of 0. *)
Lemma auto_buffer_overflow :
  chunks_ok 0 4 [2; 2] /\
  StronglySorted Z.lt [- 2 ^ 63; - 2 ^ 62; 0; 2 ^ 62] /\
  ~ span_ok [- 2 ^ 63; - 2 ^ 62; 0; 2 ^ 62] /\
  infer_buffer "x" wide_tiles = Ok 1 /\
  cached_after (combine_along_last_dim BufAuto ∅ wide_tiles) "x" = Some 1.
Proof.
  split; [repeat split; [lia | repeat constructor; lia]|].
  split; [repeat constructor; lia|].
  split.
  - intros [_ H]. specialize (H (2 ^ 62) (- 2 ^ 63)). cbn in H. lia.
  - split; vm_compute; reflexivity.
Qed.

(** And it fails for a chunk that is not longer than the overlap: for the
    sample dataset in chunks of one and seven, split with overlap 2, the
    first tile ends one entry after the start of the second and the
    overlap inferred is 1. *)
Lemma auto_buffer_short_chunk :
  ~ chunks_ok 2 8 [1; 7] /\
  infer_buffer "x" thin_tiles = Ok 1.
Proof.
  split; [|vm_compute; reflexivity].
  intros (_ & H & _). apply Forall_cons in H as [H _]. lia.
Qed.

(* ===================================================================== *)
(** * Sorting and grouping *)
(* ===================================================================== *)

Lemma tuple_leb_refl (a : list Z) : tuple_leb a a = true.
Proof.
  induction a as [|x a IH]; [reflexivity|]. cbn.
  destruct (Z.ltb_spec x x); [lia | exact IH].
Qed.

Lemma tuple_leb_total (a b : list Z) : tuple_leb a b = false -> tuple_leb b a = true.
Proof.
  revert b. induction a as [|x a IH]; intros [|y b]; cbn; try done.
  destruct (Z.ltb_spec x y); [discriminate|].
  destruct (Z.ltb_spec y x); [done|]. apply IH.
Qed.

Lemma tuple_leb_trans (a b c : list Z) :
  tuple_leb a b = true -> tuple_leb b c = true -> tuple_leb a c = true.
Proof.
  revert b c. induction a as [|x a IH]; intros [|y b] [|z c]; cbn; try done.
  destruct (Z.ltb_spec x y), (Z.ltb_spec y z), (Z.ltb_spec x z);
    try done; try lia;
    destruct (Z.ltb_spec y x), (Z.ltb_spec z y), (Z.ltb_spec z x);
    try done; try lia.
  apply IH.
Qed.

Lemma tuple_lt_leb (a b : list Z) : tuple_lt a b -> tuple_leb a b = true.
Proof. apply tuple_leb_total. Qed.

Lemma tuple_lt_neq (a b : list Z) : tuple_lt a b -> a <> b.
Proof. unfold tuple_lt. intros H ->. by rewrite tuple_leb_refl in H. Qed.

Lemma tuple_lt_cons_lt (x y : Z) (a b : list Z) : x < y -> tuple_lt (x :: a) (y :: b).
Proof.
  intros H. unfold tuple_lt. cbn.
  destruct (Z.ltb_spec y x); [lia|]. destruct (Z.ltb_spec x y); [done | lia].
Qed.

Lemma tuple_lt_cons_eq (x : Z) (a b : list Z) : tuple_lt a b -> tuple_lt (x :: a) (x :: b).
Proof.
  unfold tuple_lt. cbn. destruct (Z.ltb_spec x x); [lia | done].
Qed.

Section Sort.
Context {A : Type}.
Implicit Types (l : list (list Z * A)) (x y : list Z * A).

Lemma insert_sorted_perm x l : Permutation (insert_sorted x l) (x :: l).
Proof.
  induction l as [|y l IH]; [reflexivity|]. cbn.
  destruct (tuple_leb (fst x) (fst y)); [reflexivity|].
  rewrite IH. apply perm_swap.
Qed.

Lemma sorted_by_key_perm l : Permutation (sorted_by_key l) l.
Proof.
  induction l as [|x l IH]; [reflexivity|]. cbn.
  rewrite insert_sorted_perm. by constructor.
Qed.

Lemma insert_sorted_sorted x l :
  StronglySorted key_le l -> StronglySorted key_le (insert_sorted x l).
Proof.
  induction 1 as [|y l Hs IH Hy]; cbn; [repeat constructor|].
  destruct (tuple_leb (fst x) (fst y)) eqn:E.
  - constructor; [by constructor|]. constructor; [exact E|].
    eapply Forall_impl; [exact Hy|]. intros z Hz. unfold key_le in *.
    by eapply tuple_leb_trans.
  - constructor; [exact IH|].
    rewrite (insert_sorted_perm x l). constructor; [|exact Hy].
    by apply tuple_leb_total.
Qed.

Lemma sorted_by_key_sorted l : StronglySorted key_le (sorted_by_key l).
Proof.
  induction l as [|x l IH]; [constructor|]. cbn. by apply insert_sorted_sorted.
Qed.

(** A list sorted by [<=] that is a permutation of a strictly sorted list
    is that list. *)
Lemma sorted_unique l1 l0 :
  StronglySorted key_le l1 -> StronglySorted key_lt l0 -> Permutation l1 l0 -> l1 = l0.
Proof.
  intros H1 H0. revert l1 H1. induction H0 as [|x l0 H0 IH Hx]; intros l1 H1 Hp.
  - by apply Permutation_nil_r in Hp.
  - destruct l1 as [|y l1]; [by apply Permutation_nil_cons in Hp|].
    apply StronglySorted_inv in H1 as [H1 Hy].
    assert (Hyx : y = x).
    { assert (Hin : y ∈ x :: l0) by (rewrite <- Hp; left).
      apply elem_of_cons in Hin as [?|Hin]; [done|].
      rewrite Forall_forall in Hx. specialize (Hx y Hin).
      assert (Hin' : x ∈ y :: l1) by (rewrite Hp; left).
      apply elem_of_cons in Hin' as [?|Hin']; [done|].
      rewrite Forall_forall in Hy. specialize (Hy x Hin').
      unfold key_lt, tuple_lt, key_le in *. congruence. }
    subst y. f_equal. apply IH; [exact H1|]. by apply Permutation_cons_inv in Hp.
Qed.

Lemma sorted_by_key_canonical l l0 :
  Permutation l l0 -> StronglySorted key_lt l0 -> sorted_by_key l = l0.
Proof.
  intros Hp H0. apply sorted_unique; [apply sorted_by_key_sorted | exact H0|].
  by rewrite sorted_by_key_perm.
Qed.

(** [groupby] returns the blocks of a list made of blocks with constant
    keys, neighbouring blocks having different keys. *)
Lemma groupby_block (k : list Z) (xs : list A) (l : list (list Z * A)) :
  xs <> [] ->
  match groupby l with
  | (k', _) :: _ => k <> k'
  | [] => True
  end ->
  groupby (map (fun a => (k, a)) xs ++ l) = (k, xs) :: groupby l.
Proof.
  intros Hne Hk. induction xs as [|a xs IH]; [done|].
  cbn [map app groupby]. destruct xs as [|a' xs].
  - cbn [map app]. destruct (groupby l) as [|[k' g] gs]; [reflexivity|].
    rewrite bool_decide_eq_false_2 by done. reflexivity.
  - rewrite IH by done. rewrite bool_decide_eq_true_2 by done. reflexivity.
Qed.

Lemma groupby_blocks (bl : list (list Z * list A)) :
  Forall (fun b => snd b <> []) bl ->
  StronglySorted (fun a b => tuple_lt (fst a) (fst b)) bl ->
  groupby (flat_map (fun b => map (fun a => (fst b, a)) (snd b)) bl) = bl.
Proof.
  intros Hne Hs. induction Hs as [|[k xs] bl Hs IH Hk]; [reflexivity|].
  inversion Hne as [|? ? Hxs Hne']; subst. cbn [flat_map fst snd] in *.
  rewrite groupby_block; [by rewrite IH | done |].
  rewrite IH by done. destruct bl as [|[k' g] bl]; [done|].
  inversion Hk; subst. cbn in *. by apply tuple_lt_neq.
Qed.

End Sort.

(** ** Counting distinct values *)

Lemma n_unique_same (l : list Z) :
  (forall x y, x ∈ l -> y ∈ l -> x = y) -> (n_unique l <= 1)%nat.
Proof.
  intros H. unfold n_unique.
  pose proof (NoDup_remove_dups l) as Hnd.
  destruct (remove_dups l) as [|a [|a' r]] eqn:E; cbn; try lia.
  exfalso.
  assert (Ha : a ∈ l) by (apply elem_of_remove_dups; rewrite E; left).
  assert (Ha' : a' ∈ l) by (apply elem_of_remove_dups; rewrite E; right; left).
  apply NoDup_cons in Hnd as [Hn _]. apply Hn. rewrite (H a a' Ha Ha'). left.
Qed.

Lemma n_unique_two (l : list Z) (x y : Z) :
  x ∈ l -> y ∈ l -> x <> y -> (2 <= n_unique l)%nat.
Proof.
  intros Hx Hy Hne. unfold n_unique.
  apply elem_of_remove_dups in Hx, Hy.
  destruct (remove_dups l) as [|a [|a' r]]; cbn; try lia.
  - by apply elem_of_nil in Hx.
  - apply list_elem_of_singleton in Hx, Hy. congruence.
Qed.

(* ===================================================================== *)
(** * Products of ranges and their keys *)
(* ===================================================================== *)

Lemma flat_map_singleton {A B : Type} (f : A -> B) (l : list A) :
  flat_map (fun x => [f x]) l = map f l.
Proof. induction l as [|a l IH]; [reflexivity|]. cbn. by rewrite IH. Qed.

Lemma map_flat_map {A B C : Type} (f : B -> C) (g : A -> list B) (l : list A) :
  map f (flat_map g l) = flat_map (fun x => map f (g x)) l.
Proof. induction l as [|a l IH]; [reflexivity|]. cbn. by rewrite map_app, IH. Qed.

Lemma flat_map_of_map {A B C : Type} (f : B -> list C) (g : A -> B) (l : list A) :
  flat_map f (map g l) = flat_map (fun x => f (g x)) l.
Proof. induction l as [|a l IH]; [reflexivity|]. cbn. by rewrite IH. Qed.

Lemma flat_map_flat_map {A B C : Type} (f : B -> list C) (g : A -> list B) (l : list A) :
  flat_map f (flat_map g l) = flat_map (fun x => flat_map f (g x)) l.
Proof. induction l as [|a l IH]; [reflexivity|]. cbn. by rewrite flat_map_app, IH. Qed.

Lemma list_product_app {A : Type} (l1 l2 : list (list A)) :
  list_product (l1 ++ l2)
  = flat_map (fun a => map (app a) (list_product l2)) (list_product l1).
Proof.
  induction l1 as [|xs l1 IH]; cbn [app list_product].
  - cbn. rewrite app_nil_r. by rewrite map_id.
  - rewrite IH, flat_map_flat_map. apply flat_map_ext. intros x.
    rewrite map_flat_map, flat_map_of_map. apply flat_map_ext. intros a.
    by rewrite map_map.
Qed.

Lemma list_product_In {A : Type} (ls : list (list A)) (l : list A) :
  In l (list_product ls) <-> Forall2 (fun xs x => In x xs) ls l.
Proof.
  revert l. induction ls as [|xs ls IH]; intros l; cbn.
  - split; [intros [<-|[]]; constructor | intros H; inversion H; by left].
  - rewrite in_flat_map. split.
    + intros (x & Hx & Hl). apply in_map_iff in Hl as (l' & <- & Hl').
      constructor; [done | by apply IH].
    + intros H. inversion H as [|? x ? l' Hx Hl']; subst.
      exists x. split; [done|]. apply in_map. by apply IH.
Qed.

Lemma list_product_singletons {A : Type} (ls : list (list A)) :
  Forall (fun xs => length xs = 1%nat) ls ->
  exists l0, list_product ls = [l0] /\ Forall2 (fun xs x => xs = [x]) ls l0.
Proof.
  induction 1 as [|xs ls Hx _ (l0 & Hl0 & HF)].
  - exists []. split; [reflexivity | constructor].
  - destruct xs as [|x [|? ?]]; try discriminate.
    exists (x :: l0). cbn. rewrite Hl0. split; [reflexivity | by constructor].
Qed.

Lemma list_product_focus {A : Type} (lpre lpost : list (list A)) (xs : list A)
  (post0 : list A) :
  list_product lpost = [post0] ->
  list_product (lpre ++ xs :: lpost)
  = flat_map (fun pre => map (fun r => (pre ++ r :: post0)%list) xs) (list_product lpre).
Proof.
  intros Hpost. rewrite list_product_app. apply flat_map_ext. intros pre.
  cbn [list_product]. rewrite Hpost. cbn [map]. rewrite flat_map_singleton, map_map.
  reflexivity.
Qed.

Lemma list_product_length_1 {A : Type} (ls : list (list A)) :
  Forall (fun xs => length xs = 1%nat) ls -> length (list_product ls) = 1%nat.
Proof.
  intros H. destruct (list_product_singletons ls H) as (l0 & -> & _). reflexivity.
Qed.

Lemma flat_map_length_ge {A B : Type} (f : A -> list B) (l : list A) (n : nat) :
  Forall (fun x => (n <= length (f x))%nat) l -> (length l * n <= length (flat_map f l))%nat.
Proof.
  induction 1 as [|x l Hx _ IH]; [cbn; lia|]. cbn. rewrite length_app. lia.
Qed.

Lemma list_product_nonempty {A : Type} (ls : list (list A)) :
  Forall (fun xs => xs <> []) ls -> (1 <= length (list_product ls))%nat.
Proof.
  induction 1 as [|xs ls Hx _ IH]; [cbn; lia|]. cbn.
  pose proof (flat_map_length_ge (fun x => map (cons x) (list_product ls)) xs 1) as H.
  destruct xs; [done|]. cbn [length] in H.
  assert (Forall (fun x => (1 <= length (map (cons x) (list_product ls)))%nat) (a :: xs)).
  { apply Forall_forall. intros. by rewrite length_map. }
  specialize (H ltac:(done)). lia.
Qed.

Lemma list_product_length_2 {A : Type} (ls : list (list A)) :
  Forall (fun xs => xs <> []) ls ->
  Exists (fun xs => (2 <= length xs)%nat) ls ->
  (2 <= length (list_product ls))%nat.
Proof.
  intros Hne Hex. induction Hne as [|xs ls Hx Hne IH]; [by apply Exists_nil in Hex|].
  pose proof (list_product_nonempty ls Hne) as Hl.
  cbn [list_product].
  apply Exists_cons in Hex as [Hex|Hex].
  - pose proof (flat_map_length_ge (fun x => map (cons x) (list_product ls)) xs 1) as H.
    assert (Forall (fun x => (1 <= length (map (cons x) (list_product ls)))%nat) xs).
    { apply Forall_forall. intros. by rewrite length_map. }
    specialize (H ltac:(done)). lia.
  - specialize (IH Hex).
    pose proof (flat_map_length_ge (fun x => map (cons x) (list_product ls)) xs 2) as H.
    assert (Forall (fun x => (2 <= length (map (cons x) (list_product ls)))%nat) xs).
    { apply Forall_forall. intros. by rewrite length_map. }
    specialize (H ltac:(done)). destruct xs; [done|]. cbn [length] in H. lia.
Qed.

Lemma nsplit_cons (xs : list (nat * nat)) (rss : list (list (nat * nat))) :
  nsplit (xs :: rss) = ((if is_split xs then 1 else 0) + nsplit rss)%nat.
Proof.
  unfold nsplit. rewrite filter_cons.
  destruct (decide (is_split xs = true)) as [H|H].
  - by rewrite H.
  - apply not_true_is_false in H. by rewrite H.
Qed.

Lemma nsplit_0 (rss : list (list (nat * nat))) :
  nsplit rss = 0%nat -> Forall (fun ys => is_split ys = false) rss.
Proof.
  induction rss as [|xs rss IH]; [constructor|]. rewrite nsplit_cons.
  destruct (is_split xs) eqn:E; [lia|]. intros H. constructor; [done | apply IH; lia].
Qed.

(** The last split dimension. *)
Lemma last_split (rss : list (list (nat * nat))) :
  (0 < nsplit rss)%nat ->
  exists rpre xs rpost,
    rss = (rpre ++ xs :: rpost)%list /\ is_split xs = true /\
    Forall (fun ys => is_split ys = false) rpost /\
    nsplit rss = S (nsplit rpre).
Proof.
  induction rss as [|xs rss IH]; [cbn; lia|]. rewrite nsplit_cons. intros H.
  destruct (decide (0 < nsplit rss)%nat) as [Hr|Hr].
  - destruct (IH Hr) as (rpre & ys & rpost & -> & Hy & Hpost & Hn).
    exists (xs :: rpre), ys, rpost. repeat split; try done.
    rewrite nsplit_cons, Hn. lia.
  - assert (Hall : Forall (fun ys => is_split ys = false) rss) by (apply nsplit_0; lia).
    destruct (is_split xs) eqn:Hx; [|lia].
    exists [], xs, rss. repeat split; try done.
    change (nsplit []) with 0%nat. lia.
Qed.

Lemma nsplit_focus (rpre rpost : list (list (nat * nat))) (xs : list (nat * nat)) :
  Forall (fun ys => is_split ys = false) rpost -> is_split xs = false ->
  nsplit (rpre ++ xs :: rpost) = nsplit rpre.
Proof.
  intros Hpost Hx. unfold nsplit. rewrite filter_app, length_app.
  rewrite filter_cons_False by congruence.
  assert (Hnil : filter (fun ys => is_split ys = true) rpost = []).
  { induction Hpost as [|y rpost Hy _ IH]; [reflexivity|].
    rewrite filter_cons_False by congruence. exact IH. }
  rewrite Hnil. cbn. lia.
Qed.

(** ** Keys of the fragments in product order *)

Lemma key_of_cons (dc : string * list Z) (dms : list (string * list Z))
  (xs : list (nat * nat)) (rss : list (list (nat * nat))) (r : nat * nat)
  (rs : list (nat * nat)) :
  key_of (dc :: dms) (xs :: rss) (r :: rs)
  = ((if is_split xs then [nth (fst r) (snd dc) 0] else []) ++ key_of dms rss rs)%list.
Proof. reflexivity. Qed.

Lemma key_of_app (d1 d2 : list (string * list Z)) (r1 r2 : list (list (nat * nat)))
  (s1 s2 : list (nat * nat)) :
  length r1 = length d1 -> length s1 = length d1 ->
  key_of (d1 ++ d2) (r1 ++ r2) (s1 ++ s2) = (key_of d1 r1 s1 ++ key_of d2 r2 s2)%list.
Proof.
  revert r1 s1. induction d1 as [|dc d1 IH]; intros [|xs r1] [|r s1] H1 H2;
    try discriminate; [reflexivity|].
  cbn [app]. rewrite !key_of_cons, IH, app_assoc; [reflexivity | |].
  - by inversion H1.
  - by inversion H2.
Qed.

Lemma key_of_unsplit (dms : list (string * list Z)) (rss : list (list (nat * nat)))
  (rs : list (nat * nat)) :
  Forall (fun ys => is_split ys = false) rss -> key_of dms rss rs = [].
Proof.
  intros H. revert dms rs. induction H as [|xs rss Hx _ IH]; intros [|dc dms] [|r rs];
    try reflexivity.
  rewrite key_of_cons, Hx, IH. reflexivity.
Qed.

Lemma split_names_app (d1 d2 : list (string * list Z)) (r1 r2 : list (list (nat * nat))) :
  length r1 = length d1 ->
  split_names (d1 ++ d2) (r1 ++ r2) = (split_names d1 r1 ++ split_names d2 r2)%list.
Proof.
  revert r1. induction d1 as [|dc d1 IH]; intros [|xs r1] H; try discriminate;
    [reflexivity|].
  cbn [app split_names]. rewrite IH, app_assoc; [reflexivity | by inversion H].
Qed.

Lemma split_names_unsplit (dms : list (string * list Z)) (rss : list (list (nat * nat))) :
  Forall (fun ys => is_split ys = false) rss -> split_names dms rss = [].
Proof.
  intros H. revert dms. induction H as [|xs rss Hx _ IH]; intros [|dc dms]; try reflexivity.
  cbn [split_names]. rewrite Hx, IH. reflexivity.
Qed.

Lemma sorted_nth_lt (c : list Z) (i j : nat) :
  StronglySorted Z.lt c -> (i < j)%nat -> (j < length c)%nat -> nth i c 0 < nth j c 0.
Proof.
  intros Hs Hij Hj.
  destruct (lookup_lt_is_Some_2 c i ltac:(lia)) as [x Hx].
  destruct (lookup_lt_is_Some_2 c j Hj) as [y Hy].
  rewrite (nth_lookup_Some c i 0 x Hx), (nth_lookup_Some c j 0 y Hy).
  exact (sorted_lookup_lt c i j x y Hs Hij Hx Hy).
Qed.

Lemma keys_sorted (dms : list (string * list Z)) (rss : list (list (nat * nat))) :
  Forall2 dim_sorted dms rss ->
  StronglySorted tuple_lt (map (key_of dms rss) (list_product rss)).
Proof.
  induction 1 as [|dc xs dms rss (Hb & Ho & Hc) HF IH].
  - cbn. repeat constructor.
  - cbn [list_product]. rewrite map_flat_map.
    assert (Hblock : forall x, map (key_of (dc :: dms) (xs :: rss))
                                   (map (cons x) (list_product rss))
                               = map (fun k => (if is_split xs
                                                then [nth (fst x) (snd dc) 0] else [])
                                               ++ k)%list
                                     (map (key_of dms rss) (list_product rss))).
    { intros x. rewrite !map_map. apply map_ext. intros rs. apply key_of_cons. }
    erewrite flat_map_ext; [|exact Hblock]. clear Hblock.
    destruct (is_split xs) eqn:Es.
    + specialize (Hc eq_refl). clear Es. induction xs as [|x xs IHx]; [constructor|].
      cbn [flat_map]. cbn [map] in Ho. apply StronglySorted_inv in Ho as [Ho Hx].
      inversion Hb as [|? ? Hbx Hb']; subst.
      apply StronglySorted_app_2.
      * intros a a' Ha Ha'.
        apply list_elem_of_fmap in Ha as (k & -> & _).
        apply list_elem_of_In, in_flat_map in Ha' as (x' & Hx' & Ha').
        apply in_map_iff in Ha' as (k' & <- & _).
        cbn [app]. apply tuple_lt_cons_lt.
        cbn [map] in Hc. apply StronglySorted_inv in Hc as [_ Hc].
        rewrite Forall_forall in Hc. apply Hc.
        apply list_elem_of_fmap. exists x'. split; [done|].
        by apply list_elem_of_In.
      * eapply StronglySorted_fmap; [|exact IH]. intros k k' Hk. cbn [app].
        by apply tuple_lt_cons_eq.
      * apply IHx; [done | done|]. cbn [map] in Hc.
        by apply StronglySorted_inv in Hc as [Hc _].
    + destruct xs as [|x [|x' xs]]; try discriminate; cbn [flat_map].
      * constructor.
      * rewrite app_nil_r. cbn [app]. by rewrite map_id.
Qed.

(* ===================================================================== *)
(** * One pass of the merge on the fragments of a split dataset *)
(* ===================================================================== *)

Lemma Forall2_and_Forall_l' {A B : Type} (P : A -> B -> Prop) (Q : A -> Prop)
  (l : list A) (k : list B) :
  Forall2 P l k -> Forall Q l -> Forall2 (fun x y => P x y /\ Q x) l k.
Proof.
  induction 1 as [|x y l k Hxy _ IH]; intros HQ; [constructor|].
  inversion HQ; subst. constructor; [by split | by apply IH].
Qed.

Lemma Forall2_compose {A B C : Type} (P : A -> B -> Prop) (Q : B -> C -> Prop)
  (R : A -> C -> Prop) (l : list A) (k : list B) (m : list C) :
  (forall x y z, P x y -> Q y z -> R x z) ->
  Forall2 P l k -> Forall2 Q k m -> Forall2 R l m.
Proof.
  intros H HP. revert m. induction HP as [|x y l k Hxy _ IH]; intros m HQ.
  - inversion HQ. constructor.
  - inversion HQ; subst. constructor; eauto.
Qed.

Lemma mapM_Ok_map {A B : Type} (g : A -> result B) (h : A -> B) (l : list A) :
  (forall a, In a l -> g a = Ok (h a)) -> mapM g l = Ok (map h l).
Proof.
  induction l as [|a l IH]; intros H; [reflexivity|]. cbn [mapM map].
  rewrite (H a) by (by left). cbn [bind]. rewrite IH; [reflexivity|].
  intros a' Ha'. apply H. by right.
Qed.

Lemma zip_map_self {A B : Type} (g : A -> B) (l : list A) :
  zip (map g l) l = map (fun a => (g a, a)) l.
Proof. induction l as [|a l IH]; [reflexivity|]. cbn. by rewrite IH. Qed.

Lemma sorted_by_fst {A : Type} (l : list (list Z * A)) :
  StronglySorted tuple_lt (map fst l) -> StronglySorted key_lt l.
Proof.
  induction l as [|x l IH]; [constructor|]. cbn [map]. intros H.
  apply StronglySorted_inv in H as [H Hx]. constructor; [by apply IH|].
  rewrite Forall_map in Hx. exact Hx.
Qed.

Lemma dim_ok_facts (b : Z) (c : list Z) (xs : list (nat * nat)) :
  0 <= b -> dim_ok b c xs ->
  xs <> [] /\
  Forall (fun r => (0 < snd r)%nat /\ (fst r + snd r <= length c)%nat) xs /\
  StronglySorted lt (map fst xs).
Proof.
  intros Hb [[-> Hc]|(_ & L & HL & Hok & ->)].
  - split; [discriminate|]. split; repeat constructor; cbn; lia.
  - pose proof Hok as (_ & HF & Hsum).
    destruct (tile_ranges_good b (length c) 0 L Hb ltac:(lia) HF ltac:(lia)) as [H1 H2].
    split; [|split; [|exact H2]].
    + intros Hnil. apply (f_equal length) in Hnil.
      rewrite tile_ranges_length in Hnil. cbn in Hnil. lia.
    + eapply Forall_impl; [exact H1|]. cbn. intros r (_ & ? & ?). by split.
Qed.

Lemma dim_ok_split (b : Z) (c : list Z) (xs : list (nat * nat)) :
  dim_ok b c xs -> is_split xs = true ->
  exists lens, (2 <= length lens)%nat /\ chunks_ok b (length c) lens /\
               xs = tile_ranges b (length c) 0 lens.
Proof.
  intros [[-> _]|[_ H]] Hs; [discriminate | exact H].
Qed.

Lemma dim_ok_sorted (b : Z) (c : list Z) (xs : list (nat * nat)) :
  dim_ok b c xs -> is_split xs = true ->
  StronglySorted Z.lt (map (fun r => nth (fst r) c 0) xs).
Proof.
  intros [[-> _]|[H _]] Hs; [discriminate | exact H].
Qed.

Lemma dim_ok_unsplit (b : Z) (c : list Z) (xs : list (nat * nat)) :
  0 <= b -> dim_ok b c xs -> is_split xs = false -> xs = [(0%nat, length c)].
Proof.
  intros Hb [[-> _]|(_ & L & HL & Hok & ->)] Hs; [reflexivity|].
  unfold is_split in Hs. rewrite tile_ranges_length in Hs.
  apply Nat.ltb_ge in Hs. lia.
Qed.

Lemma py_first_take_drop (c : list Z) (o n : nat) :
  (0 < n)%nat -> (o + n <= length c)%nat ->
  py_first (take n (drop o c)) = Ok (nth o c 0).
Proof.
  intros Hn Hv.
  destruct (lookup_lt_is_Some_2 c o ltac:(lia)) as [x Hx].
  rewrite (nth_lookup_Some c o 0 x Hx).
  assert (H0 : take n (drop o c) !! 0%nat = Some x).
  { rewrite lookup_take_drop by done. by rewrite Nat.add_0_r. }
  destruct (take n (drop o c)); [discriminate|]. cbn in H0. by inversion H0.
Qed.

Section Pass.
Context {V : Type} (ds : Dataset V) (b : Z).
Hypothesis Hnodup : NoDup (map fst (dims ds)).
Hypothesis Hb : 0 <= b.

Lemma good_length (rss : list (list (nat * nat))) :
  good ds b rss -> length rss = length (dims ds).
Proof. intros H. symmetry. by eapply Forall2_length. Qed.

Lemma good_ranges (rss : list (list (nat * nat))) (rs : list (nat * nat)) :
  good ds b rss -> In rs (list_product rss) ->
  Forall2 (fun dc r => (0 < snd r)%nat /\ (fst r + snd r <= length (snd dc))%nat)
          (dims ds) rs.
Proof.
  intros Hg Hin. apply list_product_In in Hin.
  eapply Forall2_compose; [|exact Hg|exact Hin].
  intros dc xs r Hok Hr. cbn in *.
  destruct (dim_ok_facts b (snd dc) xs Hb Hok) as (_ & HF & _).
  rewrite Forall_forall in HF. apply HF. by apply list_elem_of_In.
Qed.

Lemma good_valid (rss : list (list (nat * nat))) (rs : list (nat * nat)) :
  good ds b rss -> In rs (list_product rss) -> valid_ranges (dims ds) rs.
Proof.
  intros Hg Hin. eapply Forall2_impl; [by eapply good_ranges|]. by intros ? ? [_ ?].
Qed.

Lemma good_sorted (rss : list (list (nat * nat))) :
  good ds b rss -> Forall2 dim_sorted (dims ds) rss.
Proof.
  intros Hg. unfold good in Hg.
  eapply Forall2_impl; [exact Hg|].
  cbn. intros dc xs Hok.
  destruct (dim_ok_facts b (snd dc) xs Hb Hok) as (_ & HF & Hs).
  split; [|split; [done | by apply (dim_ok_sorted b)]].
  eapply Forall_impl; [exact HF|]. cbn. intros r [? ?]. lia.
Qed.

Lemma good_nonempty (rss : list (list (nat * nat))) :
  good ds b rss -> Forall (fun xs => xs <> []) rss.
Proof.
  intros Hg. unfold good in Hg. apply Forall_forall. intros xs Hxs.
  apply list_elem_of_lookup in Hxs as [i Hi].
  destruct (Forall2_lookup_r _ _ _ _ _ Hg Hi) as (dc & _ & Hok).
  by destruct (dim_ok_facts b (snd dc) xs Hb Hok) as (? & _).
Qed.

(** The first coordinate of a box along the dimension at position [i]. *)
Lemma first_value_box (rs : list (nat * nat)) (f : Dataset V) (i : nat) (d : string)
  (c : list Z) (r : nat * nat) :
  Forall2 (fun dc r => (0 < snd r)%nat /\ (fst r + snd r <= length (snd dc))%nat)
          (dims ds) rs ->
  is_box ds rs f ->
  dims ds !! i = Some (d, c) -> rs !! i = Some r ->
  first_value f d = Ok (nth (fst r) c 0).
Proof.
  intros Hr Hbox Hd Hri.
  assert (Hv : valid_ranges (dims ds) rs).
  { eapply Forall2_impl; [exact Hr|]. by intros ? ? [_ ?]. }
  pose proof (take_drop_middle (dims ds) i (d, c) Hd) as Hsplit.
  pose proof (take_drop_middle rs i r Hri) as Hrs.
  assert (Hpos : (0 < snd r)%nat /\ (fst r + snd r <= length c)%nat).
  { eapply Forall2_lookup_lr in Hr; [|exact Hd|exact Hri]. exact Hr. }
  assert (Hvpre : valid_ranges (take i (dims ds)) (take i rs)) by (by apply Forall2_take).
  rewrite <- Hrs in Hbox.
  unfold first_value, coord_values.
  rewrite (focus_coord ds (take i (dims ds)) (drop (S i) (dims ds)) d c (take i rs)
             (drop (S i) rs) (eq_sym Hsplit) Hnodup Hvpre r f Hbox).
  cbn [bind]. apply py_first_take_drop; tauto.
Qed.

End Pass.

Lemma mapM_split_names (g : string -> result Z) (dms : list (string * list Z))
  (rss : list (list (nat * nat))) (rs : list (nat * nat)) :
  length rss = length dms -> length rs = length dms ->
  (forall i d c r, dms !! i = Some (d, c) -> rs !! i = Some r ->
                   g d = Ok (nth (fst r) c 0)) ->
  mapM g (split_names dms rss) = Ok (key_of dms rss rs).
Proof.
  revert rss rs. induction dms as [|[d c] dms IH]; intros [|xs rss] [|r rs] H1 H2 H;
    try discriminate; [reflexivity|].
  rewrite key_of_cons. cbn [split_names fst snd].
  assert (IH' : mapM g (split_names dms rss) = Ok (key_of dms rss rs)).
  { apply IH; [by inversion H1 | by inversion H2|].
    intros i d' c' r' Hd Hr. exact (H (S i) d' c' r' Hd Hr). }
  destruct (is_split xs); cbn [app mapM]; [|exact IH'].
  rewrite (H 0%nat d c r eq_refl eq_refl), IH'. reflexivity.
Qed.

Lemma filter_split_spec {V : Type} (F : list (Dataset V)) (dms : list (string * list Z))
  (rss : list (list (nat * nat))) :
  length rss = length dms ->
  (forall i d c xs, dms !! i = Some (d, c) -> rss !! i = Some xs ->
     exists firsts, mapM (fun f => first_value f d) F = Ok firsts /\
                    (1 <? n_unique firsts)%nat = is_split xs) ->
  filter_split F (map fst dms) = Ok (split_names dms rss).
Proof.
  revert rss. induction dms as [|[d c] dms IH]; intros [|xs rss] H1 H;
    try discriminate; [reflexivity|].
  cbn [map filter_split split_names fst snd].
  destruct (H 0%nat d c xs eq_refl eq_refl) as (firsts & -> & Hs). cbn [bind].
  rewrite (IH rss); [|by inversion H1|].
  - cbn [bind]. rewrite Hs. by destruct (is_split xs).
  - intros i d' c' xs' Hd Hx. exact (H (S i) d' c' xs' Hd Hx).
Qed.

Lemma list_product_pick {A : Type} (ls : list (list A)) (i : nat) (xs : list A) (x : A) :
  Forall (fun ys => ys <> []) ls -> ls !! i = Some xs -> In x xs ->
  exists l, In l (list_product ls) /\ l !! i = Some x.
Proof.
  intros Hne Hi Hx. exists (<[i := x]> (map (hd x) ls)). split.
  - apply list_product_In.
    assert (H : Forall2 (fun ys y => In y ys) (<[i := xs]> ls) (<[i := x]> (map (hd x) ls))).
    { apply Forall2_insert; [|done].
      apply Forall2_fmap_r, Forall_Forall2_diag.
      eapply Forall_impl; [exact Hne|]. intros [|y ys] Hy; [done | by left]. }
    by rewrite (list_insert_id ls i xs Hi) in H.
  - apply list_lookup_insert_eq. rewrite length_map. by eapply lookup_lt_Some.
Qed.

Lemma Forall2_perm_l {A B : Type} (P : A -> B -> Prop) (l : list A) (k k' : list B) :
  Forall2 P l k -> Permutation k' k ->
  (forall y, In y k' -> exists x, In x l /\ P x y) /\
  (forall x, In x l -> exists y, In y k' /\ P x y).
Proof.
  intros HF Hp. split.
  - intros y Hy. apply (Permutation_in _ Hp) in Hy.
    apply list_elem_of_In, list_elem_of_lookup in Hy as [i Hi].
    destruct (Forall2_lookup_r _ _ _ _ _ HF Hi) as (x & Hx & HP).
    exists x. split; [|done]. apply list_elem_of_In. by eapply list_elem_of_lookup_2.
  - intros x Hx. apply list_elem_of_In, list_elem_of_lookup in Hx as [i Hi].
    destruct (Forall2_lookup_l _ _ _ _ _ HF Hi) as (y & Hy & HP).
    exists y. split; [|done]. apply (Permutation_in _ (Permutation_sym Hp)).
    apply list_elem_of_In. by eapply list_elem_of_lookup_2.
Qed.

Section Keys.
Context {V : Type} (ds : Dataset V) (b : Z).
Hypothesis Hnodup : NoDup (map fst (dims ds)).
Hypothesis Hb : 0 <= b.
Context (rss : list (list (nat * nat))) (F F0 : list (Dataset V)).
Hypothesis Hgood : good ds b rss.
Hypothesis HF0 : Forall2 (is_box ds) (list_product rss) F0.
Hypothesis Hperm : Permutation F F0.

Lemma fragment_box (f : Dataset V) :
  In f F -> exists rs, In rs (list_product rss) /\ is_box ds rs f.
Proof. intros Hf. by apply (Forall2_perm_l _ _ _ _ HF0 Hperm). Qed.

Lemma box_fragment (rs : list (nat * nat)) :
  In rs (list_product rss) -> exists f, In f F /\ is_box ds rs f.
Proof. intros Hr. by apply (Forall2_perm_l _ _ _ _ HF0 Hperm). Qed.

Lemma fragment_first_value (f : Dataset V) (rs : list (nat * nat)) (i : nat) (d : string)
  (c : list Z) (r : nat * nat) :
  In rs (list_product rss) -> is_box ds rs f ->
  dims ds !! i = Some (d, c) -> rs !! i = Some r ->
  first_value f d = Ok (nth (fst r) c 0).
Proof.
  intros Hrs Hbox Hd Hr.
  eapply (first_value_box ds Hnodup); [|exact Hbox|exact Hd|exact Hr].
  by eapply good_ranges.
Qed.

Lemma fragment_key (f : Dataset V) (rs : list (nat * nat)) :
  In rs (list_product rss) -> is_box ds rs f ->
  first_values (split_names (dims ds) rss) f = Ok (key_of (dims ds) rss rs).
Proof.
  intros Hrs Hbox. unfold first_values. apply mapM_split_names.
  - by eapply good_length.
  - apply valid_ranges_length. by eapply good_valid.
  - intros i d c r Hd Hr. by eapply fragment_first_value.
Qed.

Lemma fragments_nonempty : F <> [].
Proof.
  intros ->. apply Permutation_nil in Hperm. subst F0.
  apply Forall2_length in HF0.
  pose proof (list_product_nonempty rss (good_nonempty ds b Hb rss Hgood)) as H.
  cbn in HF0. lia.
Qed.

Lemma firsts_of_dim (i : nat) (d : string) (c : list Z) (xs : list (nat * nat)) :
  dims ds !! i = Some (d, c) -> rss !! i = Some xs ->
  exists firsts, mapM (fun f => first_value f d) F = Ok firsts /\
                 (1 <? n_unique firsts)%nat = is_split xs.
Proof.
  intros Hd Hx. exists (map (first_value_or_0 d) F).
  assert (Hval : forall f rs r, In rs (list_product rss) -> is_box ds rs f ->
                   rs !! i = Some r -> first_value_or_0 d f = nth (fst r) c 0).
  { intros f rs r Hrs Hbox Hr. unfold first_value_or_0.
    by rewrite (fragment_first_value f rs i d c r Hrs Hbox Hd Hr). }
  assert (Hith : forall rs, In rs (list_product rss) -> exists r, rs !! i = Some r /\ In r xs).
  { intros rs Hrs. apply list_product_In in Hrs.
    destruct (Forall2_lookup_l _ _ _ _ _ Hrs Hx) as (r & Hr & Hin). by exists r. }
  split.
  - apply mapM_Ok_map. intros f Hf.
    destruct (fragment_box f Hf) as (rs & Hrs & Hbox).
    destruct (Hith rs Hrs) as (r & Hr & _).
    rewrite (Hval f rs r Hrs Hbox Hr).
    by eapply fragment_first_value.
  - pose proof (Forall2_lookup_lr _ _ _ _ _ _ Hgood Hd Hx) as Hok. cbn in Hok.
    destruct (is_split xs) eqn:Hs.
    + apply Nat.ltb_lt.
      destruct (dim_ok_facts b c xs Hb Hok) as (_ & Hrng & Hsort).
      pose proof (dim_ok_sorted b c xs Hok Hs) as Hc.
      unfold is_split in Hs. apply Nat.ltb_lt in Hs.
      destruct xs as [|x0 [|x1 xs']]; cbn in Hs; try lia.
      cbn [map] in Hsort. apply StronglySorted_inv in Hsort as [_ Hlt].
      apply Forall_cons in Hlt as [Hlt _].
      cbn [map] in Hc. apply StronglySorted_inv in Hc as [_ Hc].
      apply Forall_cons in Hc as [Hnth _].
      apply Forall_cons in Hrng as [_ Hrng]. apply Forall_cons in Hrng as [[H1 H2] _].
      pose proof (good_nonempty ds b Hb rss Hgood) as Hne.
      destruct (list_product_pick rss i _ x0 Hne Hx ltac:(by left)) as (rs0 & Hrs0 & Hr0).
      destruct (list_product_pick rss i _ x1 Hne Hx ltac:(by right; left))
        as (rs1 & Hrs1 & Hr1).
      destruct (box_fragment rs0 Hrs0) as (f0 & Hf0 & Hbox0).
      destruct (box_fragment rs1 Hrs1) as (f1 & Hf1 & Hbox1).
      apply (n_unique_two _ (nth (fst x0) c 0) (nth (fst x1) c 0)); [| |lia].
      * rewrite <- (Hval f0 rs0 x0 Hrs0 Hbox0 Hr0).
        apply list_elem_of_In, in_map. exact Hf0.
      * rewrite <- (Hval f1 rs1 x1 Hrs1 Hbox1 Hr1).
        apply list_elem_of_In, in_map. exact Hf1.
    + apply Nat.ltb_ge. apply n_unique_same.
      pose proof (dim_ok_unsplit b c xs Hb Hok Hs) as ->.
      assert (Hall : forall x, x ∈ map (first_value_or_0 d) F -> x = nth 0 c 0).
      { intros x Hin. apply list_elem_of_In, in_map_iff in Hin as (f & <- & Hf).
        destruct (fragment_box f Hf) as (rs & Hrs & Hbox).
        destruct (Hith rs Hrs) as (r & Hr & [<-|[]]).
        by rewrite (Hval f rs _ Hrs Hbox Hr). }
      intros x y Hx' Hy'. by rewrite (Hall x Hx'), (Hall y Hy').
Qed.

Lemma split_dims_fragments : split_dims F = Ok (split_names (dims ds) rss).
Proof.
  unfold split_dims. pose proof fragments_nonempty as Hne.
  assert (H0 : exists f0, py_first F = Ok f0 /\ In f0 F).
  { clear -Hne. destruct F as [|f0 F']; [done|]. exists f0. split; [reflexivity | by left]. }
  destruct H0 as (f0 & -> & Hf0). cbn [bind].
  destruct (fragment_box f0 Hf0) as (rs & Hrs & [Hd _]).
  rewrite Hd, box_dims_names by (apply valid_ranges_length; by eapply good_valid).
  apply filter_split_spec; [by eapply good_length|].
  intros i d c xs Hdi Hxi. exact (firsts_of_dim i d c xs Hdi Hxi).
Qed.

Lemma keys_fragments :
  mapM (first_values (split_names (dims ds) rss)) F
  = Ok (map (key_or_nil (split_names (dims ds) rss)) F).
Proof.
  apply mapM_Ok_map. intros f Hf. destruct (fragment_box f Hf) as (rs & Hrs & Hbox).
  unfold key_or_nil. by rewrite (fragment_key f rs Hrs Hbox).
Qed.

Lemma sorted_fragments :
  sorted_by_key (zip (map (key_or_nil (split_names (dims ds) rss)) F) F)
  = zip (map (key_of (dims ds) rss) (list_product rss)) F0.
Proof.
  assert (Hk : map (key_or_nil (split_names (dims ds) rss)) F0
               = map (key_of (dims ds) rss) (list_product rss)).
  { assert (Hall : Forall2 (fun rs f => key_or_nil (split_names (dims ds) rss) f
                                         = key_of (dims ds) rss rs)
                           (list_product rss) F0).
    { apply Forall2_same_length_lookup. split; [by eapply Forall2_length|].
      intros i rs f Hi Hf. unfold key_or_nil. rewrite (fragment_key f rs); [done| |].
      - apply list_elem_of_In. by eapply list_elem_of_lookup_2.
      - by eapply Forall2_lookup_lr. }
    clear -Hall. induction Hall as [|rs f l k H _ IH]; [reflexivity|].
    cbn [map]. by rewrite H, IH. }
  rewrite zip_map_self, <- Hk, zip_map_self.
  apply sorted_by_key_canonical; [by apply Permutation_map|].
  apply sorted_by_fst. rewrite map_map. cbn [fst].
  change (StronglySorted tuple_lt (map (key_or_nil (split_names (dims ds) rss)) F0)).
  rewrite Hk.
  apply keys_sorted. by apply (good_sorted ds b).
Qed.

End Keys.

Lemma py_last_snoc {A : Type} (l : list A) (a : A) : py_last (l ++ [a]) = Ok a.
Proof. unfold py_last. by rewrite last_snoc. Qed.

Lemma Forall2_flat_map_inv {A B C : Type} (P : B -> C -> Prop) (g : A -> list B)
  (l : list A) (k : list C) :
  Forall2 P (flat_map g l) k ->
  exists kk, k = concat kk /\ Forall2 (fun a blk => Forall2 P (g a) blk) l kk.
Proof.
  revert k. induction l as [|a l IH]; intros k H; cbn in H.
  - inversion H; subst. exists []. split; [reflexivity | constructor].
  - apply Forall2_app_inv_l in H as (k1 & k2 & H1 & H2 & ->).
    destruct (IH k2 H2) as (kk & -> & Hkk).
    exists (k1 :: kk). split; [reflexivity | by constructor].
Qed.

Lemma Forall2_map_l_1 {A B C : Type} (P : B -> C -> Prop) (f : A -> B) (l : list A)
  (k : list C) :
  Forall2 P (map f l) k -> Forall2 (fun a c => P (f a) c) l k.
Proof.
  revert k. induction l as [|a l IH]; intros k H; inversion H; subst; constructor;
    [done | by apply IH].
Qed.

Lemma Forall2_map_l_2 {A B C : Type} (P : B -> C -> Prop) (f : A -> B) (l : list A)
  (k : list C) :
  Forall2 (fun a c => P (f a) c) l k -> Forall2 P (map f l) k.
Proof. induction 1; constructor; done. Qed.

(** The decorated list seen by [groupby], as blocks. *)
Lemma regroup_block {B C : Type} (key : B -> list Z) (k0 : list Z) (bs : list B)
  (blk : list C) :
  length bs = length blk ->
  (forall x, In x bs -> removelast (key x) = k0) ->
  map (fun kd : list Z * C => (removelast (fst kd), snd kd)) (zip (map key bs) blk)
  = map (fun a => (k0, a)) blk.
Proof.
  revert blk. induction bs as [|x bs IH]; intros [|y blk] Hlen H; try discriminate;
    [reflexivity|].
  cbn. rewrite (H x) by (by left). f_equal.
  apply IH; [by inversion Hlen|]. intros x' Hx'. apply H. by right.
Qed.

Lemma regroup {A B C : Type} (key : B -> list Z) (kpre : A -> list Z) (g : A -> list B)
  (l : list A) (kk : list (list C)) :
  Forall2 (fun a blk => length (g a) = length blk /\
                        forall x, In x (g a) -> removelast (key x) = kpre a) l kk ->
  map (fun kd : list Z * C => (removelast (fst kd), snd kd))
      (zip (map key (flat_map g l)) (concat kk))
  = flat_map (fun b => map (fun a => (fst b, a)) (snd b)) (zip (map kpre l) kk).
Proof.
  induction 1 as [|a blk l kk [Hlen Hk] _ IH]; [reflexivity|].
  cbn [flat_map concat map].
  rewrite (map_app key).
  rewrite (zip_with_app pair (map key (g a)) _ blk _) by (by rewrite length_map).
  rewrite map_app, IH. cbn [zip_with flat_map fst snd]. f_equal.
  by apply regroup_block.
Qed.

Lemma ranges_valid (b : Z) (dms : list (string * list Z)) (rss : list (list (nat * nat)))
  (rs : list (nat * nat)) :
  0 <= b ->
  Forall2 (fun dc xs => dim_ok b (snd dc) xs) dms rss -> In rs (list_product rss) ->
  valid_ranges dms rs.
Proof.
  intros Hb Hg Hin. apply list_product_In in Hin.
  eapply Forall2_compose; [|exact Hg|exact Hin].
  intros dc xs r Hok Hr. cbn in *.
  destruct (dim_ok_facts b (snd dc) xs Hb Hok) as (_ & HF & _).
  rewrite Forall_forall in HF. apply HF. by apply list_elem_of_In.
Qed.

Lemma ranges_sorted (b : Z) (dms : list (string * list Z)) (rss : list (list (nat * nat))) :
  0 <= b ->
  Forall2 (fun dc xs => dim_ok b (snd dc) xs) dms rss -> Forall2 dim_sorted dms rss.
Proof.
  intros Hb Hg.
  eapply Forall2_impl; [exact Hg|].
  cbn. intros dc xs Hok.
  destruct (dim_ok_facts b (snd dc) xs Hb Hok) as (_ & HF & Hs).
  split; [|split; [done | by apply (dim_ok_sorted b)]].
  eapply Forall_impl; [exact HF|]. cbn. intros r [? ?]. lia.
Qed.

Lemma unsplit_singletons (b : Z) (dms : list (string * list Z))
  (rss : list (list (nat * nat))) :
  0 <= b ->
  Forall2 (fun dc xs => dim_ok b (snd dc) xs) dms rss ->
  Forall (fun ys => is_split ys = false) rss ->
  list_product rss = [full_ranges dms].
Proof.
  intros Hb Hg. induction Hg as [|dc xs dms rss Hok _ IH]; intros Hu; [reflexivity|].
  inversion Hu as [|? ? Hx Hu']; subst.
  rewrite (dim_ok_unsplit b (snd dc) xs Hb Hok Hx).
  cbn [list_product flat_map]. rewrite (IH Hu'). reflexivity.
Qed.

Section Combine.
Context {V : Type} (ds : Dataset V) (b : Z).
Hypothesis Hnodup : NoDup (map fst (dims ds)).
Hypothesis Hb : 0 <= b.

Lemma merge_blocks (dpre dpost : list (string * list Z)) (d : string) (c : list Z)
  (L : list Z) (post0 : list (nat * nat)) (cache : gmap string Z)
  (pres : list (list (nat * nat))) (kk : list (list (Dataset V))) :
  dims ds = (dpre ++ (d, c) :: dpost)%list ->
  chunks_ok b (length c) L -> (2 <= length L)%nat ->
  valid_ranges dpost post0 ->
  Forall (valid_ranges dpre) pres ->
  Forall2 (fun pre blk =>
             Forall2 (is_box ds)
                     (map (fun r => (pre ++ r :: post0)%list) (tile_ranges b (length c) 0 L))
                     blk) pres kk ->
  exists merged,
    merge_groups (BufInt b) d cache kk = Ok (merged, cache) /\
    Forall2 (is_box ds) (map (fun pre => (pre ++ (O, length c) :: post0)%list) pres) merged.
Proof.
  intros Hdims Hok HL Hvpost Hvpre HF.
  induction HF as [|pre blk pres kk Hblk _ IH].
  - exists []. split; [reflexivity | constructor].
  - inversion Hvpre as [|? ? Hv Hvpre']; subst.
    destruct (IH Hvpre') as (merged & Hm & HFm).
    apply Forall2_map_l_1 in Hblk.
    destruct (focus_merge_group ds dpre dpost d c pre post0 Hdims Hnodup Hv Hvpost
                b L cache blk Hok HL Hblk) as (g & Hg & Hbox).
    exists (g :: merged). cbn [merge_groups]. rewrite Hg. cbn [bind snd fst].
    rewrite Hm. cbn [bind fst snd]. split; [reflexivity|]. cbn [map]. by constructor.
Qed.

(** One pass merges the last dimension that is still split. *)
Lemma combine_pass (cache : gmap string Z) (rss : list (list (nat * nat)))
  (F F0 : list (Dataset V)) :
  good ds b rss -> Forall2 (is_box ds) (list_product rss) F0 -> Permutation F F0 ->
  (0 < nsplit rss)%nat ->
  exists rss' F',
    combine_along_last_dim (BufInt b) cache F = Ok (F', cache) /\
    good ds b rss' /\ Forall2 (is_box ds) (list_product rss') F' /\
    nsplit rss = S (nsplit rss').
Proof.
  intros Hgood HF0 Hperm Hn.
  unfold combine_along_last_dim.
  rewrite (split_dims_fragments ds b Hnodup Hb rss F F0 Hgood HF0 Hperm).
  cbn [bind].
  destruct (last_split rss Hn) as (rpre & xs & rpost & -> & Hxs & Hpost & Hns).
  pose proof Hgood as Hg. unfold good in Hg.
  apply Forall2_app_inv_r in Hg as (dpre & dtail & Hgpre & Hgtail & Hdims).
  apply Forall2_cons_inv_r in Hgtail as ([d c] & dpost & Hokx & Hgpost & ->).
  cbn [snd] in Hokx.
  assert (Hlpre : length rpre = length dpre) by (symmetry; by eapply Forall2_length).
  assert (Hsn : split_names (dims ds) (rpre ++ xs :: rpost)
                = (split_names dpre rpre ++ [d])%list).
  { rewrite Hdims, split_names_app by done. cbn [split_names fst]. rewrite Hxs.
    by rewrite (split_names_unsplit dpost rpost Hpost), app_nil_r. }
  assert (Hlast : py_last (split_names (dims ds) (rpre ++ xs :: rpost)) = Ok d).
  { by rewrite Hsn, py_last_snoc. }
  rewrite Hlast. cbn [bind].
  rewrite (keys_fragments ds b Hnodup Hb _ F F0 Hgood HF0 Hperm). cbn [bind].
  rewrite (sorted_fragments ds b Hnodup Hb _ F F0 Hgood HF0 Hperm).
  destruct (dim_ok_split b c xs Hokx Hxs) as (L & HL & Hok & HX).
  pose proof (unsplit_singletons b dpost rpost Hb Hgpost Hpost) as Hp1.
  set (post0 := full_ranges dpost) in *.
  pose proof (list_product_focus rpre rpost xs post0 Hp1) as Hprod.
  rewrite Hprod in HF0 |- *.
  destruct (Forall2_flat_map_inv _ _ _ _ HF0) as (kk & -> & Hkk).
  assert (Hvpre : Forall (valid_ranges dpre) (list_product rpre)).
  { apply Forall_forall. intros pre Hpre. apply list_elem_of_In in Hpre.
    by eapply ranges_valid. }
  assert (Hvpost : valid_ranges dpost post0).
  { eapply ranges_valid; [exact Hb|exact Hgpost|]. rewrite Hp1. by left. }
  assert (Hxlen : (2 <= length xs)%nat) by (by rewrite HX, tile_ranges_length).
  assert (Hlenkk : length kk = length (list_product rpre)).
  { symmetry. by eapply Forall2_length. }
  rewrite (regroup (key_of (dims ds) (rpre ++ xs :: rpost)) (key_of dpre rpre)
             (fun pre => map (fun r => (pre ++ r :: post0)%list) xs)
             (list_product rpre) kk); cycle 1.
  { apply Forall2_same_length_lookup. split; [done|].
    intros i pre blk Hpre Hblk.
    pose proof (Forall2_lookup_lr _ _ _ _ _ _ Hkk Hpre Hblk) as HB. cbn beta in HB.
    split; [by eapply Forall2_length|].
    intros x Hx. apply in_map_iff in Hx as (r & <- & Hr).
    assert (Hlp : length pre = length dpre).
    { apply valid_ranges_length. rewrite Forall_forall in Hvpre. apply Hvpre.
      by eapply list_elem_of_lookup_2. }
    rewrite Hdims, key_of_app by done.
    rewrite key_of_cons, Hxs, (key_of_unsplit dpost rpost post0 Hpost), app_nil_r.
    by rewrite removelast_last. }
  rewrite groupby_blocks; cycle 1.
  { apply Forall_forall. intros [k blk] Hin. cbn [snd].
    apply list_elem_of_lookup in Hin as [i Hi].
    apply lookup_zip_with_Some in Hi as (k' & blk' & Heq & Hk' & Hblk').
    inversion Heq; subst k' blk'.
    destruct (Forall2_lookup_r _ _ _ _ _ Hkk Hblk') as (pre & _ & HB).
    apply Forall2_length in HB. rewrite length_map in HB.
    intros ->. cbn in HB. lia. }
  { apply (sorted_by_fst (A := list (Dataset V))).
    assert (Hfst : map fst (zip (map (key_of dpre rpre) (list_product rpre)) kk)
                   = map (key_of dpre rpre) (list_product rpre)).
    { apply (fst_zip (map (key_of dpre rpre) (list_product rpre)) kk).
      rewrite length_map. lia. }
    rewrite Hfst. apply keys_sorted. by apply (ranges_sorted b). }
  assert (Hsnd : map snd (zip (map (key_of dpre rpre) (list_product rpre)) kk) = kk).
  { apply (snd_zip (map (key_of dpre rpre) (list_product rpre)) kk).
    rewrite length_map. lia. }
  rewrite Hsnd. rewrite HX in Hkk.
  destruct (merge_blocks dpre dpost d c L post0 cache (list_product rpre) kk
              Hdims Hok HL Hvpost Hvpre Hkk) as (merged & Hm & HFm).
  exists (rpre ++ [(O, length c)] :: rpost)%list, merged.
  split; [exact Hm|]. split; [|split].
  - unfold good. rewrite Hdims. apply Forall2_app; [done|]. constructor; [|done].
    left. split; [reflexivity|]. cbn [snd].
    destruct Hok as (_ & HFl & Hsum).
    pose proof (foldr_add_nonneg b L Hb HFl) as Hnn.
    destruct L as [|l0 L']; [cbn in HL; lia|].
    inversion HFl; subst. cbn [foldr] in Hsum.
    pose proof (foldr_add_nonneg b L' Hb ltac:(done)). lia.
  - rewrite (list_product_focus rpre rpost [(O, length c)] post0 Hp1).
    cbn [map]. by rewrite flat_map_singleton.
  - rewrite Hns. f_equal. symmetry. by apply nsplit_focus.
Qed.

End Combine.

Lemma is_box_full_eq {V : Type} (ds m : Dataset V) :
  is_box ds (full_ranges (dims ds)) m -> ds_eq m ds.
Proof.
  intros [Hd Hv]. destruct (is_box_full ds) as [[Hd0 _] _].
  split; [by rewrite Hd, <- Hd0|].
  intros p Hp. rewrite Hv.
  - rewrite shift_zeros; [reflexivity|].
    unfold full_ranges. rewrite map_map. apply Forall_map, Forall_forall. by intros.
  - unfold shape in Hp. rewrite Hd, <- Hd0 in Hp.
    unfold full_ranges. rewrite map_map. exact Hp.
Qed.

Section Loop.
Context {V : Type} (ds : Dataset V) (b : Z).
Hypothesis Hnodup : NoDup (map fst (dims ds)).
Hypothesis Hb : 0 <= b.

(** The loop ends after one pass per split dimension, with the dataset. *)
Lemma merge_loop_fragments (n : nat) :
  forall (rss : list (list (nat * nat))) (F F0 : list (Dataset V)) (fuel : nat)
         (cache : gmap string Z),
  nsplit rss = n -> good ds b rss ->
  Forall2 (is_box ds) (list_product rss) F0 -> Permutation F F0 ->
  (n <= fuel)%nat ->
  exists m, merge_loop fuel (BufInt b) cache F = Some (Ok [m]) /\ ds_eq m ds.
Proof.
  induction n as [|n IH]; intros rss F F0 fuel cache Hn Hgood HF0 Hperm Hfuel.
  - pose proof (unsplit_singletons b (dims ds) rss Hb Hgood (nsplit_0 rss Hn)) as Hp.
    rewrite Hp in HF0.
    inversion HF0 as [|? m ? ? Hbox HF0']; subst. inversion HF0'; subst.
    apply Permutation_singleton_r in Hperm as ->.
    exists m. split; [|by apply is_box_full_eq].
    destruct fuel; reflexivity.
  - destruct fuel as [|fuel]; [lia|].
    assert (Hlen : (2 <= length F)%nat).
    { rewrite (Permutation_length Hperm), <- (Forall2_length _ _ _ HF0).
      apply list_product_length_2; [by apply (good_nonempty ds b)|].
      destruct (last_split rss ltac:(lia)) as (rpre & xs & rpost & -> & Hxs & _).
      apply Exists_app. right. apply Exists_cons_hd.
      unfold is_split in Hxs. by apply Nat.ltb_lt in Hxs. }
    destruct (combine_pass ds b Hnodup Hb cache rss F F0 Hgood HF0 Hperm
                ltac:(lia)) as (rss' & F' & Hc & Hgood' & HF' & Hns).
    cbn [merge_loop].
    assert (Hlt : (1 <? length F)%nat = true) by (apply Nat.ltb_lt; lia).
    rewrite Hlt, Hc.
    apply (IH rss' F' F' fuel cache); [lia|done|done|reflexivity|lia].
Qed.

End Loop.

(* ===================================================================== *)
(** * The names of the tile files *)
(* ===================================================================== *)

Lemma str_of_int_inj (z z' : Z) : str_of_int z = str_of_int z' -> z = z'.
Proof.
  unfold str_of_int. intros H. apply DecimalZ.to_int_inj.
  assert (Hnn : forall x, Z.to_int x <> Decimal.Pos Decimal.Nil /\
                          Z.to_int x <> Decimal.Neg Decimal.Nil).
  { intros [|p|p]; cbn; split; try discriminate; intros [= E];
      by apply DecimalPos.Unsigned.to_uint_nonnil in E. }
  apply (f_equal NilZero.int_of_string) in H.
  destruct (Hnn z), (Hnn z').
  rewrite !NilZero.isi in H by done. congruence.
Qed.

Lemma string_of_uint_no_dot (d : Decimal.uint) :
  has_char "." (NilEmpty.string_of_uint d) = false.
Proof. induction d; cbn; done. Qed.

Lemma str_of_int_no_dot (z : Z) : has_char "." (str_of_int z) = false.
Proof.
  unfold str_of_int, NilZero.string_of_int, NilZero.string_of_uint.
  destruct (Z.to_int z) as [d|d]; destruct d; cbn; try done;
    apply string_of_uint_no_dot.
Qed.

Lemma append_nil_l (s : string) : "" +:+ s = s.
Proof. reflexivity. Qed.

Lemma append_cons (x : ascii) (a b : string) : String x a +:+ b = String x (a +:+ b).
Proof. reflexivity. Qed.

Lemma append_assoc' (a b c : string) : (a +:+ b) +:+ c = a +:+ (b +:+ c).
Proof.
  induction a as [|x a IH]; [reflexivity|]. rewrite !append_cons. by rewrite IH.
Qed.

Lemma append_cancel_l (a b c : string) : a +:+ b = a +:+ c -> b = c.
Proof.
  induction a as [|x a IH]; [done|]. rewrite !append_cons. intros [= H]. by apply IH.
Qed.

(** A dot-free string followed by a dot (or by nothing) is determined by
    the whole. *)
Lemma dot_split (t t' r r' : string) :
  has_char "." t = false -> has_char "." t' = false ->
  dot_or_end r = true -> dot_or_end r' = true ->
  t +:+ r = t' +:+ r' -> t = t' /\ r = r'.
Proof.
  revert t'. induction t as [|x t IH]; intros [|x' t'] Ht Ht' Hr Hr' H;
    rewrite ?append_cons, ?append_nil_l in H; cbn in Ht, Ht'.
  - done.
  - subst r. cbn in Hr. apply orb_false_elim in Ht' as [Hx _]. congruence.
  - subst r'. cbn in Hr'. apply orb_false_elim in Ht as [Hx _]. congruence.
  - injection H as -> H. apply orb_false_elim in Ht as [_ Ht].
    apply orb_false_elim in Ht' as [_ Ht'].
    destruct (IH t' Ht Ht' Hr Hr' H) as [-> ->]. done.
Qed.

Lemma str_of_start_no_dot (s : slice) : has_char "." (str_of_start s) = false.
Proof.
  unfold str_of_start. destruct (slice_start s); [apply str_of_int_no_dot | reflexivity].
Qed.

(** The list of starts can be read off the file name. *)
Lemma suffix_inj (ns : list string) :
  forall ss ss' : list slice,
  length ss = length ns -> length ss' = length ns ->
  String.concat "." (map name_component (zip ns ss)) +:+ ".nc"
  = String.concat "." (map name_component (zip ns ss')) +:+ ".nc" ->
  map str_of_start ss = map str_of_start ss'.
Proof.
  induction ns as [|n ns IH]; intros [|s ss] [|s' ss'] H1 H2 H; try discriminate;
    [reflexivity|].
  injection H1 as H1. injection H2 as H2.
  cbn [zip_with map] in H. unfold name_component at 1 3 in H. cbn [fst snd] in H.
  destruct ns as [|n2 ns].
  - destruct ss; [|discriminate]. destruct ss'; [|discriminate].
    cbn [zip_with map String.concat] in H.
    rewrite !append_assoc' in H. apply append_cancel_l in H.
    apply (append_cancel_l "_") in H.
    apply dot_split in H as [E _]; try apply str_of_start_no_dot; try done.
    cbn [map]. by rewrite E.
  - destruct ss as [|s2 ss]; [discriminate|]. destruct ss' as [|s2' ss']; [discriminate|].
    specialize (IH (s2 :: ss) (s2' :: ss') H1 H2).
    cbn [zip_with map] in H, IH. cbn [String.concat] in H.
    rewrite !append_assoc' in H. apply append_cancel_l in H.
    apply (append_cancel_l "_") in H.
    apply dot_split in H as [E H]; try apply str_of_start_no_dot; try done.
    apply (append_cancel_l ".") in H.
    cbn [map]. rewrite E. f_equal. by apply IH.
Qed.

Lemma path_join_tile_inj (path prefix : string) (sd sd' : list (string * slice)) :
  path_join path (tile_name prefix sd) = path_join path (tile_name prefix sd') ->
  String.concat "." (map name_component sd) +:+ ".nc"
  = String.concat "." (map name_component sd') +:+ ".nc".
Proof.
  unfold path_join, tile_name.
  assert (Hs : forall x, starts_with_slash (prefix +:+ "." +:+ x)
                         = starts_with_slash (prefix +:+ ".")).
  { intros x. destruct prefix; [reflexivity|]. by rewrite !append_cons. }
  rewrite !Hs. destruct (starts_with_slash (prefix +:+ ".")).
  - intros H. apply append_cancel_l in H. by apply (append_cancel_l ".") in H.
  - destruct (String.eqb path "" || ends_with_slash path)%bool; intros H;
      apply append_cancel_l in H; [|apply (append_cancel_l "/") in H];
      apply append_cancel_l in H; by apply (append_cancel_l ".") in H.
Qed.

(* ===================================================================== *)
(** * The tiles of a split dataset as boxes *)
(* ===================================================================== *)

Lemma dict_product_list_product {A : Type} (d : list (string * list A)) :
  dict_product d = map (fun l => zip (map fst d) l) (list_product (map snd d)).
Proof.
  induction d as [|[k xs] d IH]; [reflexivity|].
  cbn [dict_product map fst snd list_product]. rewrite map_flat_map.
  apply flat_map_ext. intros x. rewrite IH, !map_map. reflexivity.
Qed.

Lemma list_product_zip_map {A A' B C : Type} (g : A -> B -> C) (h : A' -> list B)
  (l : list A) (l' : list A') :
  length l = length l' ->
  list_product (zip_with (fun a a' => map (g a) (h a')) l l')
  = map (zip_with g l) (list_product (map h l')).
Proof.
  revert l'. induction l as [|a l IH]; intros [|a' l'] H; try discriminate;
    [reflexivity|].
  cbn [zip_with map list_product]. rewrite IH by (by inversion H).
  rewrite map_flat_map, flat_map_of_map.
  apply flat_map_ext. intros x. rewrite !map_map. reflexivity.
Qed.

Lemma sel_ranges_skip (k : string) (s : slice) (idx : list (string * slice))
  (dms : list (string * list Z)) (rs : list (nat * nat)) :
  ~ In k (map fst dms) ->
  sel_ranges ((k, s) :: idx) dms rs = sel_ranges idx dms rs.
Proof.
  revert rs. induction dms as [|[k' v] dms IH]; intros [|r rs] Hn; try reflexivity.
  rewrite !sel_ranges_cons. cbn [fst assoc].
  destruct (String.eqb k' k) eqn:E.
  - apply String.eqb_eq in E. subst. exfalso. apply Hn. by left.
  - f_equal. apply IH. intros H. apply Hn. by right.
Qed.

Lemma sel_ranges_zip (dms : list (string * list Z)) (ss : list slice) :
  NoDup (map fst dms) -> length ss = length dms ->
  sel_ranges (zip (map fst dms) ss) dms (full_ranges dms)
  = zip_with (fun dc s => sel_range s (O, length (snd dc))) dms ss.
Proof.
  revert ss. induction dms as [|[k v] dms IH]; intros [|s ss] Hnd Hl; try discriminate;
    [reflexivity|].
  cbn [map fst] in Hnd. apply NoDup_cons in Hnd as [Hk Hnd].
  cbn [map zip_with full_ranges fst snd].
  rewrite sel_ranges_cons. cbn [fst assoc]. rewrite String.eqb_refl. f_equal.
  rewrite sel_ranges_skip by (by rewrite <- list_elem_of_In).
  apply IH; [done | by inversion Hl].
Qed.

Lemma sorted_fst_inj {A : Type} (f : A -> nat) (l : list A) (x y : A) :
  StronglySorted lt (map f l) -> In x l -> In y l -> f x = f y -> x = y.
Proof.
  induction l as [|a l IH]; [done|]. cbn [map]. intros Hs Hx Hy E.
  apply StronglySorted_inv in Hs as [Hs Ha]. rewrite Forall_map, Forall_forall in Ha.
  destruct Hx as [<-|Hx], Hy as [<-|Hy].
  - done.
  - apply list_elem_of_In, Ha in Hy. lia.
  - apply list_elem_of_In, Ha in Hx. lia.
  - by apply IH.
Qed.

(** Within one dimension the start printed in the file name identifies the
    slice. *)
Lemma slices_inj (b : Z) (n : nat) (lens : list Z) (sl sl' : slice) :
  chunks_ok b n lens ->
  In sl (chunk_slices b 0 lens) -> In sl' (chunk_slices b 0 lens) ->
  str_of_start sl = str_of_start sl' -> sl = sl'.
Proof.
  intros (Hb & HF & Hsum) Hin Hin' E.
  destruct (tile_ranges_good b n 0 lens Hb ltac:(lia) HF ltac:(lia)) as [_ Hs].
  unfold tile_ranges in Hs. rewrite map_map in Hs.
  pose proof (chunk_slices_starts b 0 lens) as Hst. rewrite Forall_forall in Hst.
  destruct (Hst sl) as (k & _ & Hk); [by apply list_elem_of_In|].
  destruct (Hst sl') as (k' & _ & Hk'); [by apply list_elem_of_In|].
  unfold str_of_start in E. rewrite Hk, Hk' in E. apply str_of_int_inj in E.
  eapply (sorted_fst_inj _ _ sl sl' Hs Hin Hin').
  unfold sel_range, slice_lo, slice_indices. cbn [fst snd]. by rewrite Hk, Hk', E.
Qed.

Lemma chunking_cases (b : Z) (dc ck : string * list Z) :
  0 <= b -> chunking_ok b dc ck ->
  (exists l, snd ck = [l] /\ l = Z.of_nat (length (snd dc))) \/
  ((2 <= length (snd ck))%nat /\ chunks_ok b (length (snd dc)) (snd ck)).
Proof.
  intros Hb (_ & Hsum & [Hone|[Hlen HF]]).
  - left. destruct (snd ck) as [|l [|l' L]]; try discriminate.
    exists l. cbn [foldr] in Hsum. split; [done | lia].
  - right. split; [done|]. by split.
Qed.

Lemma tile_ranges_first_labels (b : Z) (c lens : list Z) :
  map (fun r => nth (fst r) c 0) (tile_ranges b (length c) 0 lens)
  = tile_first_labels b c lens.
Proof. unfold tile_ranges, tile_first_labels. rewrite map_map. reflexivity. Qed.

Lemma chunking_dim_ok (b : Z) (dc ck : string * list Z) :
  0 <= b -> chunking_ok b dc ck -> chunked_sorted b dc ck -> snd dc <> [] ->
  dim_ok b (snd dc) (tile_ranges b (length (snd dc)) 0 (snd ck)).
Proof.
  intros Hb Hok Hs Hne. destruct (chunking_cases b dc ck Hb Hok) as [(l & -> & E)|[Hlen Hc]].
  - left. split; [by apply tile_ranges_single|]. destruct (snd dc); [done | cbn; lia].
  - right. split; [rewrite tile_ranges_first_labels; by apply Hs|]. by exists (snd ck).
Qed.

Lemma chunking_names (b : Z) (dms cks : list (string * list Z)) :
  Forall2 (chunking_ok b) dms cks -> map fst cks = map fst dms.
Proof.
  induction 1 as [|dc ck D K (H & _) _ IH]; [reflexivity|].
  cbn [map]. by rewrite H, IH.
Qed.

Lemma chunking_good (b : Z) (dms cks : list (string * list Z)) :
  0 <= b -> Forall2 (chunking_ok b) dms cks -> Forall2 (chunked_sorted b) dms cks ->
  Forall (fun dc => snd dc <> []) dms ->
  Forall2 (fun dc xs => dim_ok b (snd dc) xs) dms (tiles_ranges b dms cks).
Proof.
  intros Hb. unfold tiles_ranges.
  induction 1 as [|dc ck D K H _ IH]; intros Hs Hne; [constructor|].
  inversion Hs; subst. inversion Hne; subst.
  cbn [zip_with]. constructor; [by apply chunking_dim_ok | by apply IH].
Qed.

Lemma tiles_ranges_nonempty (b : Z) (dms cks : list (string * list Z)) :
  0 <= b -> Forall2 (chunking_ok b) dms cks ->
  Forall (fun xs => xs <> []) (tiles_ranges b dms cks).
Proof.
  intros Hb. unfold tiles_ranges.
  induction 1 as [|dc ck D K H _ IH]; [constructor|].
  cbn [zip_with]. constructor; [|exact IH].
  intros E. apply (f_equal length) in E. rewrite tile_ranges_length in E.
  destruct (chunking_cases b dc ck Hb H) as [(l & El & _)|[Hlen _]].
  - rewrite El in E. discriminate.
  - cbn in E. lia.
Qed.

Lemma sorted_nth_map (c : list Z) (l : list nat) :
  StronglySorted Z.lt c -> StronglySorted lt l -> Forall (fun i => (i < length c)%nat) l ->
  StronglySorted Z.lt (map (fun i => nth i c 0) l).
Proof.
  intros Hc Hl. induction Hl as [|i l Hl IH Hi]; intros Hb; [constructor|].
  apply Forall_cons in Hb as [Hbi Hb]. cbn [map]. constructor; [by apply IH|].
  apply Forall_map. rewrite Forall_forall in Hi, Hb |- *.
  intros j Hj. apply sorted_nth_lt; [done | by apply Hi | by apply Hb].
Qed.

(** Labels that increase strictly along a dimension give first labels of
    the tiles that increase strictly. *)
Lemma sorted_chunked_sorted (b : Z) (dc ck : string * list Z) :
  0 <= b -> chunking_ok b dc ck -> StronglySorted Z.lt (snd dc) ->
  chunked_sorted b dc ck.
Proof.
  intros Hb Hok Hs Hlen.
  destruct (chunking_cases b dc ck Hb Hok) as [(l & El & _)|[_ (_ & HF & Hsum)]].
  { rewrite El in Hlen. cbn in Hlen. lia. }
  destruct (tile_ranges_good b (length (snd dc)) 0 (snd ck) Hb ltac:(lia) HF ltac:(lia))
    as [H1 H2].
  rewrite <- tile_ranges_first_labels.
  rewrite <- (map_map fst (fun i => nth i (snd dc) 0)).
  apply sorted_nth_map; [done | done|].
  apply Forall_map. eapply Forall_impl; [exact H1|]. cbn. intros r (_ & ? & ?). lia.
Qed.

(** A dataset with one chunk along every dimension is left in one piece. *)
Lemma one_tile_ranges (b : Z) (dms cks : list (string * list Z)) :
  0 <= b -> Forall2 (chunking_ok b) dms cks ->
  Forall (fun ck => length (snd ck) = 1%nat) cks ->
  list_product (tiles_ranges b dms cks) = [full_ranges dms].
Proof.
  intros Hb. unfold tiles_ranges.
  induction 1 as [|dc ck D K H _ IH]; intros Hone; [reflexivity|].
  inversion Hone as [|? ? H1 Hone']; subst.
  cbn [zip_with list_product]. rewrite (IH Hone').
  destruct (chunking_cases b dc ck Hb H) as [(l & -> & ->)|[Hlen _]]; [|lia].
  by rewrite tile_ranges_single.
Qed.

Lemma chunking_slices_inj (b : Z) (dms cks : list (string * list Z)) (ss ss' : list slice) :
  0 <= b ->
  Forall2 (chunking_ok b) dms cks ->
  Forall2 (fun ck s => In s (chunk_slices b 0 (snd ck))) cks ss ->
  Forall2 (fun ck s => In s (chunk_slices b 0 (snd ck))) cks ss' ->
  map str_of_start ss = map str_of_start ss' -> ss = ss'.
Proof.
  intros Hb H. revert ss ss'.
  induction H as [|dc ck D K Hok _ IH]; intros ss ss' HF HF' E.
  - inversion HF; inversion HF'; done.
  - inversion HF as [|? s ? ss1 Hs HF1]; subst.
    inversion HF' as [|? s' ? ss1' Hs' HF1']; subst.
    cbn [map] in E. injection E as E1 E2.
    f_equal; [|by apply IH].
    destruct (chunking_cases b dc ck Hb Hok) as [(l & Hl & _)|[_ Hc]].
    + rewrite Hl in Hs, Hs'. cbn in Hs, Hs'.
      destruct Hs as [<-|[]], Hs' as [<-|[]]. reflexivity.
    + by eapply slices_inj.
Qed.

Section Tiles.
Context {V : Type} (ds : Dataset V) (cks : list (string * list Z)) (b : Z).
Hypothesis Hb : 0 <= b.
Hypothesis Hnodup : NoDup (map fst (dims ds)).
Hypothesis Hcks : Forall2 (chunking_ok b) (dims ds) cks.

Lemma tiles_names : map fst cks = map fst (dims ds).
Proof. by eapply chunking_names. Qed.

Lemma tiles_length : length cks = length (dims ds).
Proof. symmetry. by eapply Forall2_length. Qed.

Lemma tile_slices_fst : map fst (tile_slices cks (BufInt b)) = map fst (dims ds).
Proof.
  rewrite <- tiles_names. unfold tile_slices. rewrite map_map.
  apply map_ext. by intros [d lens].
Qed.

Lemma tile_slices_snd :
  map snd (tile_slices cks (BufInt b)) = map (fun ck => chunk_slices b 0 (snd ck)) cks.
Proof.
  unfold tile_slices. rewrite map_map. apply map_ext. by intros [d lens].
Qed.

(** The slice combinations of the tiles. *)
Lemma tiles_product :
  dict_product (tile_slices cks (BufInt b))
  = map (fun ss => zip (map fst (dims ds)) ss)
        (list_product (map (fun ck => chunk_slices b 0 (snd ck)) cks)).
Proof. by rewrite dict_product_list_product, tile_slices_fst, tile_slices_snd. Qed.

Lemma tiles_slices_In (ss : list slice) :
  In ss (list_product (map (fun ck => chunk_slices b 0 (snd ck)) cks)) ->
  length ss = length (dims ds) /\
  Forall2 (fun ck s => In s (chunk_slices b 0 (snd ck))) cks ss.
Proof.
  intros H. apply list_product_In in H.
  apply Forall2_map_l_1 in H. split; [|exact H].
  rewrite <- (Forall2_length _ _ _ H). apply tiles_length.
Qed.

Lemma tiles_ranges_product :
  list_product (tiles_ranges b (dims ds) cks)
  = map (zip_with (fun dc s => sel_range s (O, length (snd dc))) (dims ds))
        (list_product (map (fun ck => chunk_slices b 0 (snd ck)) cks)).
Proof.
  unfold tiles_ranges, tile_ranges.
  apply (list_product_zip_map (fun dc s => sel_range s (O, length (snd dc)))
           (fun ck => chunk_slices b 0 (snd ck))).
  symmetry. apply tiles_length.
Qed.

(** Every tile is the box of the dataset at its ranges. *)
Lemma tiles_boxes :
  Forall2 (is_box ds) (list_product (tiles_ranges b (dims ds) cks))
          (map (isel ds) (dict_product (tile_slices cks (BufInt b)))).
Proof.
  rewrite tiles_ranges_product, tiles_product, map_map.
  apply Forall2_map_l_2, Forall2_fmap_r, Forall_Forall2_diag, Forall_forall.
  intros ss Hss. apply list_elem_of_In, tiles_slices_In in Hss as [Hlen _].
  rewrite <- sel_ranges_zip by done. apply tile_is_box.
Qed.

(** Different tiles are written to different paths. *)
Lemma tile_paths_inj (path prefix : string) (sd sd' : list (string * slice)) :
  In sd (dict_product (tile_slices cks (BufInt b))) ->
  In sd' (dict_product (tile_slices cks (BufInt b))) ->
  path_join path (tile_name prefix sd) = path_join path (tile_name prefix sd') ->
  sd = sd'.
Proof.
  rewrite tiles_product. intros Hsd Hsd' E.
  apply in_map_iff in Hsd as (ss & <- & Hss).
  apply in_map_iff in Hsd' as (ss' & <- & Hss').
  apply tiles_slices_In in Hss as [Hl HF]. apply tiles_slices_In in Hss' as [Hl' HF'].
  apply path_join_tile_inj, suffix_inj in E; [|by rewrite length_map..].
  f_equal. by eapply (chunking_slices_inj b).
Qed.

Hypothesis Hsorted : Forall2 (chunked_sorted b) (dims ds) cks.
Hypothesis Hne : Forall (fun dc => snd dc <> []) (dims ds).

Lemma tiles_good : good ds b (tiles_ranges b (dims ds) cks).
Proof. by apply chunking_good. Qed.

End Tiles.

(* ===================================================================== *)
(** * The tile files on disk *)
(* ===================================================================== *)

Lemma fold_write_lookup {V : Type} (ds : Dataset V) (path prefix : string)
  (sds : list (list (string * slice))) (fs : FS V) (sd : list (string * slice)) :
  (forall sd', In sd' sds ->
     path_join path (tile_name prefix sd') = path_join path (tile_name prefix sd) ->
     sd' = sd) ->
  In sd sds ->
  fold_left (write_tile ds path prefix) sds fs !! path_join path (tile_name prefix sd)
  = Some (File (isel ds sd)).
Proof.
  induction sds as [|x sds IH] using rev_ind; intros Hinj Hin; [done|].
  rewrite fold_left_app. cbn [fold_left]. unfold write_tile at 1, to_netcdf.
  destruct (decide (path_join path (tile_name prefix x)
                    = path_join path (tile_name prefix sd))) as [E|E].
  - rewrite (Hinj x) by (rewrite ?in_app_iff; cbn; tauto).
    apply lookup_insert_eq.
  - rewrite lookup_insert_ne by done. apply IH.
    + intros sd' Hsd'. apply Hinj. apply in_app_iff. by left.
    + apply in_app_iff in Hin as [Hin|[->|[]]]; done.
Qed.

Lemma open_written {V : Type} (ds : Dataset V) (path prefix : string) (fs : FS V)
  (sds : list (list (string * slice))) :
  (forall sd, In sd sds ->
     fs !! path_join path (tile_name prefix sd) = Some (File (isel ds sd))) ->
  mapM (open_dataset fs) (map (fun sd => path_join path (tile_name prefix sd)) sds)
  = Ok (map (isel ds) sds).
Proof.
  induction sds as [|sd sds IH]; intros H; [reflexivity|].
  cbn [map mapM]. unfold open_dataset at 1. rewrite (H sd) by (by left). cbn [bind].
  rewrite IH; [reflexivity|]. intros sd' Hsd'. apply H. by right.
Qed.

Lemma tile_written {V : Type} (ds : Chunked V) (path prefix : string) (buffer : buffer_t)
  (fs : FS V) :
  fst (tile ds path prefix None buffer fs) = Ok tt ->
  exists fs1,
    snd (tile ds path prefix None buffer fs)
    = fold_left (write_tile (cdata ds) path prefix)
                (dict_product (tile_slices (chunks ds) buffer)) fs1.
Proof.
  unfold tile. destruct (isfile fs path); [discriminate|].
  destruct (if isdir fs path then (Ok tt, fs) else makedirs fs path) as [[[]|e] fs1];
    [|discriminate].
  intros _. by exists fs1.
Qed.

Lemma nsplit_le_length (rss : list (list (nat * nat))) : (nsplit rss <= length rss)%nat.
Proof. unfold nsplit. apply length_filter. Qed.

(** C2 (amended).  Take a chunked dataset with distinct dimension names in
    which every dimension has either one chunk or several chunks, each
    longer than the buffer, such that the first labels of the tiles (the
    labels at the positions where the buffered slices start) increase
    strictly from chunk to chunk, as they do where the coordinates increase
    strictly along the dimension, and in which no dimension is empty
    unless the dataset is left in one piece; and take a fixed non-negative
    integer buffer [b] (including 0).  When [tile] splits the dataset with
    buffer [b] and returns normally, [auto_merge] with the same fixed
    buffer [b] on the tile files, found in any order, returns a dataset
    identical in shape, coordinates and values to the original; every
    overlap is trimmed once. *)
Theorem tile_merge_round_trip {V : Type} (ds : Chunked V) (path prefix : string) (b : Z)
  (fs : FS V) (glob : string -> list string) (datasets : merge_input V)
  (files : list string) (fuel : nat) :
  0 <= b ->
  splittable b ds ->
  fst (tile ds path prefix None (BufInt b) fs) = Ok tt ->
  normalize glob datasets = inl files ->
  Permutation files (tile_paths path prefix (chunks ds) (BufInt b)) ->
  (length (dims (cdata ds)) <= fuel)%nat ->
  exists m,
    auto_merge glob (snd (tile ds path prefix None (BufInt b) fs)) fuel datasets (BufInt b)
    = Some (Ok m) /\
    ds_eq m (cdata ds).
Proof.
  intros Hb (Hnodup & Hcks & Hsorted & Hcase) Htile Hnorm Hperm Hfuel.
  destruct (tile_written ds path prefix (BufInt b) fs Htile) as (fs1 & ->).
  set (sds := dict_product (tile_slices (chunks ds) (BufInt b))) in *.
  set (fs' := fold_left (write_tile (cdata ds) path prefix) sds fs1).
  unfold tile_paths in Hperm. fold sds in Hperm.
  apply Permutation_map_inv in Hperm as (sds' & -> & Hperm).
  pose proof (tiles_boxes (cdata ds) (chunks ds) b Hnodup Hcks) as Hboxes. fold sds in Hboxes.
  set (rss := tiles_ranges b (dims (cdata ds)) (chunks ds)) in *.
  assert (Hopen : mapM (open_dataset fs')
                       (map (fun sd => path_join path (tile_name prefix sd)) sds')
                  = Ok (map (isel (cdata ds)) sds')).
  { apply open_written. intros sd Hsd.
    assert (Hin : In sd sds) by (by apply (Permutation_in _ (Permutation_sym Hperm))).
    apply fold_write_lookup; [|done].
    intros sd' Hsd' E. by eapply (tile_paths_inj (cdata ds) (chunks ds) b). }
  assert (Hloop : exists m,
             merge_loop fuel (BufInt b) ∅ (map (isel (cdata ds)) sds') = Some (Ok [m]) /\
             ds_eq m (cdata ds)).
  { destruct Hcase as [Hone|Hne].
    - unfold rss in Hboxes.
      rewrite (one_tile_ranges b _ _ Hb Hcks Hone) in Hboxes.
      inversion Hboxes as [|? m ? ms Hbox Hrest Er Em]; subst. inversion Hrest; subst.
      assert (Hsds : exists sd, sds = [sd] /\ isel (cdata ds) sd = m).
      { destruct sds as [|sd [|sd2 sds2]]; try discriminate.
        exists sd. split; [reflexivity|]. by inversion Em. }
      destruct Hsds as (sd & Esd & <-). rewrite Esd in Hperm.
      apply Permutation_singleton_l in Hperm. subst sds'.
      exists (isel (cdata ds) sd). split; [|by apply is_box_full_eq].
      destruct fuel; reflexivity.
    - pose proof (tiles_good (cdata ds) (chunks ds) b Hb Hcks Hsorted Hne) as Hgood.
      fold rss in Hgood.
      apply (merge_loop_fragments (cdata ds) b Hnodup Hb (nsplit rss) rss
               (map (isel (cdata ds)) sds') (map (isel (cdata ds)) sds) fuel ∅
               eq_refl Hgood Hboxes).
      + apply Permutation_map. by symmetry.
      + etrans; [apply nsplit_le_length|].
        rewrite (good_length (cdata ds) b rss Hgood). exact Hfuel. }
  destruct Hloop as (m & Hm & Heq).
  assert (Hlen : (1 <= length sds')%nat).
  { destruct sds' as [|sd sds2]; [|cbn; lia].
    cbn [map merge_loop length] in Hm. destruct fuel; discriminate. }
  exists m. split; [|exact Heq].
  unfold auto_merge. rewrite Hnorm. cbn [input_length]. rewrite length_map.
  destruct (Nat.eqb_spec (length sds') 0) as [E|_]; [lia|].
  rewrite Hopen, Hm. reflexivity.
Qed.

(** Witness for C2 (amended): the sample grid, split with buffer 1 into two
    tiles along [x], whose first labels are 0 and 20; the labels decrease
    along the dimension [y] of one chunk. *)
Lemma tile_merge_round_trip_witness :
  exists m,
    auto_merge no_glob (snd (tile grid_chunked "out" "part" None (BufInt 1) ∅)) 2
               (Paths (tile_paths "out" "part" (chunks grid_chunked) (BufInt 1)))
               (BufInt 1)
    = Some (Ok m) /\
    ds_eq m (cdata grid_chunked).
Proof.
  apply (tile_merge_round_trip grid_chunked "out" "part" 1 ∅ no_glob
           (Paths (tile_paths "out" "part" (chunks grid_chunked) (BufInt 1)))
           (tile_paths "out" "part" (chunks grid_chunked) (BufInt 1)) 2).
  - lia.
  - split; [|split; [|split]].
    + apply (bool_decide_unpack (NoDup ["x"; "y"])). exact I.
    + constructor; [|constructor; [|constructor]].
      * split; [reflexivity|]. split; [reflexivity|]. right.
        split; [cbn; lia | repeat constructor; lia].
      * split; [reflexivity|]. split; [reflexivity|]. left. reflexivity.
    + constructor; [|constructor; [|constructor]].
      * intros _. vm_compute. repeat constructor; lia.
      * unfold chunked_sorted. cbn. lia.
    + right. repeat constructor; discriminate.
  - reflexivity.
  - reflexivity.
  - reflexivity.
  - cbn. lia.
Defined.

(** C2, as stated, fails for a dataset whose coordinates decrease along a
    dimension that is split into several chunks, so that the first labels
    of its tiles decrease as well: with buffer 0 the two tiles of the descending sample are
    merged in the order of their first coordinates, and the result carries
    the second half of the dataset first. *)
Lemma round_trip_descending :
  fst (tile desc_chunked "out" "part" None (BufInt 0) ∅) = Ok tt /\
  exists m,
    auto_merge no_glob (snd (tile desc_chunked "out" "part" None (BufInt 0) ∅)) 1
               (Paths (tile_paths "out" "part" (chunks desc_chunked) (BufInt 0)))
               (BufInt 0)
    = Some (Ok m) /\
    dims m = [("x", [30; 20; 10; 0; 70; 60; 50; 40])] /\
    vals m [0%nat] = Some 400 /\
    ~ ds_eq m (cdata desc_chunked).
Proof.
  split; [reflexivity|]. eexists. split; [vm_compute; reflexivity|].
  split; [reflexivity|]. split; [reflexivity|].
  intros [Hd _]. vm_compute in Hd. discriminate.
Qed.

(** The chunks of a dimension that is split into several have to be longer
    than the buffer: with buffer 2 and chunks
    of 3, 4 and 1 the middle tile is cut short by the end of the dataset,
    the trimming removes two entries from it all the same, and the entry
    at index 6 is lost. *)
Lemma round_trip_short_chunk :
  fst (tile short_chunked "out" "part" None (BufInt 2) ∅) = Ok tt /\
  exists m,
    auto_merge no_glob (snd (tile short_chunked "out" "part" None (BufInt 2) ∅)) 1
               (Paths (tile_paths "out" "part" (chunks short_chunked) (BufInt 2)))
               (BufInt 2)
    = Some (Ok m) /\
    dims m = [("x", [0; 10; 20; 30; 40; 50; 70])].
Proof.
  split; [reflexivity|]. eexists. split; [vm_compute; reflexivity | reflexivity].
Qed.

(** No dimension may be empty when the dataset is split into several
    tiles: the fragments of a dataset with an empty dimension have no first
    label along it, and the merge of two or more of them raises
    [IndexError]. *)
Lemma round_trip_empty_dimension :
  fst (tile hollow_chunked "out" "part" None (BufInt 0) ∅) = Ok tt /\
  auto_merge no_glob (snd (tile hollow_chunked "out" "part" None (BufInt 0) ∅)) 2
             (Paths (tile_paths "out" "part" (chunks hollow_chunked) (BufInt 0)))
             (BufInt 0)
  = Some (Raise (IndexError "index 0 is out of bounds")).
Proof.
  split; [reflexivity|]. vm_compute. reflexivity.
Qed.

(* ===================================================================== *)
(** * Further properties of [nd/algorithm.py] *)
(* ===================================================================== *)

(** ** Signatures that [wrap_algorithm] and [extract_arguments] cannot build *)

Lemma validate_raises {W : Type} (ps : list (Param W)) (tk : kind) (kd : bool)
  (seen : list string) (e : exn) :
  validate tk kd seen ps = Raise e -> exists msg, e = ValueError msg.
Proof.
  revert tk kd seen. induction ps as [|p ps IH]; intros tk kd seen H; [discriminate|].
  cbn [validate] in H.
  destruct (kind_rank (pkind p) <? kind_rank tk)%nat; [inversion H; eauto|].
  match type of H with (if ?c then _ else _) = _ => destruct c; [inversion H; eauto|] end.
  destruct (mem (pname p) seen); [inversion H; eauto|]. by eapply IH.
Qed.

Lemma make_signature_raises {W : Type} (ps : list (Param W)) (e : exn) :
  make_signature ps = Raise e -> exists msg, e = ValueError msg.
Proof.
  unfold make_signature. intros H.
  destruct (validate POSITIONAL_ONLY false [] ps) as [[]|e'] eqn:E; [discriminate|].
  inversion H; subst. by eapply validate_raises.
Qed.

Lemma validate_rank_ge {W : Type} (ps : list (Param W)) (tk : kind) (kd : bool)
  (seen : list string) :
  validate tk kd seen ps = Ok tt ->
  Forall (fun p => (kind_rank tk <= kind_rank (pkind p))%nat) ps.
Proof.
  revert tk kd seen. induction ps as [|p ps IH]; intros tk kd seen H; [constructor|].
  cbn [validate] in H.
  destruct (kind_rank (pkind p) <? kind_rank tk)%nat eqn:Hr; [discriminate|].
  apply Nat.ltb_ge in Hr.
  match type of H with (if ?c then _ else _) = _ => destruct c; [discriminate|] end.
  destruct (mem (pname p) seen); [discriminate|].
  constructor; [exact Hr|]. apply IH in H.
  eapply Forall_impl; [exact H|]. cbn. intros q Hq. lia.
Qed.

(** A signature that validates lists its parameters by kind. *)
Lemma validate_kinds_sorted {W : Type} (ps : list (Param W)) (tk : kind) (kd : bool)
  (seen : list string) (i j : nat) (p q : Param W) :
  validate tk kd seen ps = Ok tt ->
  (i < j)%nat -> ps !! i = Some p -> ps !! j = Some q ->
  (kind_rank (pkind p) <= kind_rank (pkind q))%nat.
Proof.
  revert tk kd seen i j. induction ps as [|a ps IH]; intros tk kd seen i j H Hij Hi Hj;
    [discriminate|].
  cbn [validate] in H.
  destruct (kind_rank (pkind a) <? kind_rank tk)%nat; [discriminate|].
  match type of H with (if ?c then _ else _) = _ => destruct c; [discriminate|] end.
  destruct (mem (pname a) seen); [discriminate|].
  destruct j as [|j]; [lia|]. cbn in Hj. destruct i as [|i]; cbn in Hi.
  - inversion Hi; subst a. apply validate_rank_ge in H.
    rewrite Forall_forall in H. apply H. by eapply list_elem_of_lookup_2.
  - eapply (IH _ _ _ i j); [exact H | lia | done | done].
Qed.

(** Among positional-or-keyword parameters, none without a default follows
    one with a default. *)
Lemma validate_defaults {W : Type} (ps : list (Param W)) (tk : kind) (kd : bool)
  (seen : list string) :
  Forall (fun p => pkind p = POSITIONAL_OR_KEYWORD) ps ->
  validate tk kd seen ps = Ok tt ->
  (kd = true -> tk = POSITIONAL_OR_KEYWORD ->
   Forall (fun p => has_default p = true) ps) /\
  (forall i j p q, (i < j)%nat -> ps !! i = Some p -> ps !! j = Some q ->
                   has_default p = true -> has_default q = true).
Proof.
  intros HF. revert tk kd seen. induction HF as [|a ps Ha _ IH]; intros tk kd seen H.
  - split; [constructor | intros; discriminate].
  - cbn [validate] in H. rewrite Ha in H. cbn [positional_kind andb] in H.
    destruct (kind_rank POSITIONAL_OR_KEYWORD <? kind_rank tk)%nat; [discriminate|].
    destruct (has_default a) eqn:Hd; cbn [negb andb] in H.
    + destruct (mem (pname a) seen); [discriminate|].
      destruct (IH _ _ _ H) as [IH1 IH2]. split.
      * intros _ _. constructor; [done | by apply IH1].
      * intros i j p q Hij Hi Hj Hp. destruct j as [|j]; [lia|]. cbn in Hj.
        destruct i as [|i]; cbn in Hi.
        -- specialize (IH1 eq_refl eq_refl). rewrite Forall_forall in IH1.
           apply IH1. by eapply list_elem_of_lookup_2.
        -- eapply (IH2 i j); [lia | done | done | done].
    + destruct (if (kind_rank tk <? kind_rank POSITIONAL_OR_KEYWORD)%nat then false else kd)
        eqn:Hk; [discriminate|].
      destruct (mem (pname a) seen); [discriminate|].
      destruct (IH _ _ _ H) as [IH1 IH2]. split.
      * intros -> ->. cbn in Hk. discriminate.
      * intros i j p q Hij Hi Hj Hp. destruct j as [|j]; [lia|]. cbn in Hj.
        destruct i as [|i]; cbn in Hi.
        -- inversion Hi; subst. congruence.
        -- eapply (IH2 i j); [lia | done | done | done].
Qed.

Lemma wrap_algorithm_signature {W I : Type} (algo : AlgoClass W I)
  (name : option string) (caller_lineno : Z) (f d : string) :
  is_algorithm algo = true -> cls_file algo = Some f -> cls_doc algo = Some d ->
  (forall u, validate POSITIONAL_ONLY false []
               (tail (apply_sig algo) ++ tail (init_sig algo))%list <> Ok u) ->
  exists msg, wrap_algorithm algo name caller_lineno = Raise (ValueError msg).
Proof.
  intros Ha Hf Hd Hv. unfold wrap_algorithm. rewrite Ha, Hf, Hd. cbn [negb bind].
  unfold make_signature.
  destruct (validate POSITIONAL_ONLY false []
              (tail (apply_sig algo) ++ tail (init_sig algo))%list) as [u|e] eqn:E.
  - by destruct (Hv u).
  - cbn [bind]. destruct (validate_raises _ _ _ _ _ E) as [msg ->]. eauto.
Qed.

(** X9.  [wrap_algorithm] cannot bridge a class whose [apply] and [__init__]
    have a parameter of the same name after the receiver: the combined
    signature is refused with [ValueError]. *)
Theorem wrap_algorithm_shared_name {W I : Type} (algo : AlgoClass W I)
  (name : option string) (caller_lineno : Z) (f d x : string) :
  is_algorithm algo = true -> cls_file algo = Some f -> cls_doc algo = Some d ->
  In x (map pname (tail (apply_sig algo))) ->
  In x (map pname (tail (init_sig algo))) ->
  exists msg, wrap_algorithm algo name caller_lineno = Raise (ValueError msg).
Proof.
  intros Ha Hf Hd Hx1 Hx2. eapply wrap_algorithm_signature; try done.
  intros [] Hv. apply validate_NoDup in Hv as [Hnd _].
  rewrite map_app in Hnd. apply NoDup_app in Hnd as (_ & Hdis & _).
  apply (Hdis x); by apply list_elem_of_In.
Qed.

(** X10.  [wrap_algorithm] cannot bridge a class whose [apply] has a
    parameter with a default while [__init__] has one without (all of them
    ordinary parameters): in the combined signature a parameter without
    default would follow one with a default, which is refused with
    [ValueError]. *)
Theorem wrap_algorithm_default_order {W I : Type} (algo : AlgoClass W I)
  (name : option string) (caller_lineno : Z) (f d : string) (p q : Param W) :
  is_algorithm algo = true -> cls_file algo = Some f -> cls_doc algo = Some d ->
  Forall (fun r => pkind r = POSITIONAL_OR_KEYWORD)
         (tail (apply_sig algo) ++ tail (init_sig algo))%list ->
  In p (tail (apply_sig algo)) -> has_default p = true ->
  In q (tail (init_sig algo)) -> has_default q = false ->
  exists msg, wrap_algorithm algo name caller_lineno = Raise (ValueError msg).
Proof.
  intros Ha Hf Hd Hk Hp Hdp Hq Hdq. eapply wrap_algorithm_signature; try done.
  intros [] Hv. destruct (validate_defaults _ _ _ _ Hk Hv) as [_ H].
  apply list_elem_of_In, list_elem_of_lookup in Hp as [i Hi].
  apply list_elem_of_In, list_elem_of_lookup in Hq as [j Hj].
  pose proof (lookup_lt_Some _ _ _ Hi) as Hli.
  assert (Hdq' : has_default q = true).
  { apply (H i (length (tail (apply_sig algo)) + j)%nat p q); [lia | | | done].
    - by apply lookup_app_l_Some.
    - rewrite lookup_app_r by lia.
      by replace (length (tail (apply_sig algo)) + j - length (tail (apply_sig algo)))%nat
        with j by lia. }
  congruence.
Qed.

Lemma dict_set_lookup {A : Type} (k : string) (v : A) (d : list (string * A))
  (j : nat) (k' : string) (v' : A) :
  d !! j = Some (k', v') ->
  dict_set k v d !! j = Some (k', v') \/ (k' = k /\ dict_set k v d !! j = Some (k, v)).
Proof.
  revert j. induction d as [|[k0 v0] d IH]; intros j Hj; [discriminate|].
  cbn [dict_set]. destruct (String.eqb k k0) eqn:E.
  - apply String.eqb_eq in E. subst k0. destruct j as [|j]; cbn in Hj |- *.
    + inversion Hj; subst. by right.
    + by left.
  - destruct j as [|j]; cbn in Hj |- *; [by left | by apply IH].
Qed.

(** X11.  A callable with a [**]-parameter and no parameter called [args]
    cannot be handled: [extract_arguments] places the bucket [*args] after
    the [**]-parameter, the signature is refused, and the call raises
    [ValueError] whatever the arguments. *)
Theorem extract_arguments_var_keyword {W : Type} (fn_sig : list (Param W)) (args : list W)
  (kwargs : list (string * W)) (p : Param W) :
  In p (declared fn_sig) -> pkind p = VAR_KEYWORD ->
  ~ In "args" (map pname (declared fn_sig)) ->
  exists msg, extract_arguments fn_sig args kwargs = Raise (ValueError msg).
Proof.
  intros Hp Hk Hna. unfold extract_arguments.
  assert (Hsig : (exists msg, (if mem "self" (map pname fn_sig)
                               then make_signature (tail fn_sig) else Ok fn_sig)
                              = Raise (ValueError msg)) \/
                 (if mem "self" (map pname fn_sig)
                  then make_signature (tail fn_sig) else Ok fn_sig) = Ok (declared fn_sig)).
  { unfold declared. destruct (mem "self" (map pname fn_sig)); [|by right].
    destruct (make_signature (tail fn_sig)) as [s|e] eqn:E.
    - right. unfold make_signature in E.
      destruct (validate POSITIONAL_ONLY false [] (tail fn_sig)); [|discriminate].
      cbn in E. congruence.
    - left. destruct (make_signature_raises _ _ E) as [msg ->]. eauto. }
  destruct Hsig as [[msg ->] | ->]; [eauto|]. cbn [bind].
  set (sig := declared fn_sig) in *.
  unfold dict_update, catch_all. cbn [fold_left fst snd].
  rewrite (dict_set_fresh "args") by (unfold as_dict; by rewrite map_map).
  set (A := (as_dict sig ++ [("args", args_param)])%list).
  apply list_elem_of_In, list_elem_of_lookup in Hp as [i Hi].
  pose proof (lookup_lt_Some _ _ _ Hi) as Hlt.
  assert (HAi : A !! i = Some (pname p, p)).
  { unfold A. apply lookup_app_l_Some. unfold as_dict.
    rewrite list_lookup_fmap, Hi. reflexivity. }
  assert (HAn : A !! length sig = Some ("args", args_param)).
  { unfold A. rewrite lookup_app_r by (unfold as_dict; rewrite length_map; lia).
    unfold as_dict. rewrite length_map, Nat.sub_diag. reflexivity. }
  set (B := dict_set "kwargs" kwargs_param A).
  assert (HBi : exists q, map snd B !! i = Some q /\ pkind q = VAR_KEYWORD).
  { destruct (dict_set_lookup "kwargs" kwargs_param A i _ _ HAi) as [H|[_ H]].
    - exists p. split; [|done]. fold B in H.
      change (map snd B) with (snd <$> B). by rewrite list_lookup_fmap, H.
    - exists kwargs_param. split; [|done]. fold B in H.
      change (map snd B) with (snd <$> B). by rewrite list_lookup_fmap, H. }
  assert (HBn : map snd B !! length sig = Some args_param).
  { destruct (dict_set_lookup "kwargs" kwargs_param A _ _ _ HAn) as [H|[H _]];
      [|discriminate].
    fold B in H. change (map snd B) with (snd <$> B). by rewrite list_lookup_fmap, H. }
  destruct HBi as (q & HBi & Hq).
  destruct (make_signature (map snd B)) as [s|e] eqn:E.
  - exfalso. unfold make_signature in E.
    destruct (validate POSITIONAL_ONLY false [] (map snd B)) as [[]|] eqn:Ev;
      [|discriminate].
    pose proof (validate_kinds_sorted _ _ _ _ i (length sig) q args_param Ev Hlt HBi HBn)
      as Hr.
    rewrite Hq in Hr. cbn in Hr. lia.
  - cbn [bind]. destruct (make_signature_raises _ _ E) as [msg ->]. eauto.
Qed.

(** ** Calling the bridged function by position *)

Lemma pos_bound_fresh {W : Type} (ps : list (Param W)) (xs : list W)
  (acc : list (string * bound W)) :
  NoDup (map pname ps) ->
  (forall x, In x (map pname ps) -> ~ In x (map fst acc)) ->
  pos_bound acc ps xs = (acc ++ zip (map pname ps) (map Single xs))%list.
Proof.
  revert xs acc. induction ps as [|p ps IH]; intros xs acc Hnd Hfresh.
  - cbn. by rewrite app_nil_r.
  - destruct xs as [|x xs]; [cbn; by rewrite app_nil_r|].
    cbn [map] in Hnd. apply NoDup_cons in Hnd as [Hp Hnd]. rewrite list_elem_of_In in Hp.
    unfold pos_bound in *. cbn [zip_with fold_left fst snd map].
    rewrite dict_set_fresh by (apply Hfresh; by left).
    rewrite IH; [by rewrite <- app_assoc | done |].
    intros y Hy. rewrite map_app, in_app_iff. cbn. intros [H|[<-|[]]]; [|done].
    apply (Hfresh y); [by right | done].
Qed.

Lemma zip_names_fst {W : Type} (ns : list string) (xs : list (bound W)) (x : string) :
  In x (map fst (zip ns xs)) -> In x ns.
Proof.
  revert xs. induction ns as [|n ns IH]; intros [|y xs]; cbn; try tauto.
  intros [<-|H]; [by left | right; by eapply IH].
Qed.

Lemma dict_remove_notin {A : Type} (k : string) (d : list (string * A)) :
  ~ In k (map fst d) -> dict_remove k d = d.
Proof.
  induction d as [|[k' v] d IH]; [done|]. cbn. intros H.
  destruct (String.eqb k k') eqn:E.
  - apply String.eqb_eq in E. subst. tauto.
  - rewrite IH; [done | tauto].
Qed.

Lemma dict_remove_app {A : Type} (k : string) (d e : list (string * A)) :
  dict_remove k (d ++ e) = (dict_remove k d ++ dict_remove k e)%list.
Proof.
  induction d as [|[k' v] d IH]; [done|]. cbn.
  destruct (String.eqb k k'); [done | by rewrite IH].
Qed.

Lemma no_double_app {W : Type} (ps : list (Param W)) (xs ys : list W)
  (kwargs : list (string * W)) :
  length xs = length ps ->
  no_double ps (xs ++ ys) kwargs
  = forallb (fun p => negb (mem (pname p) (map fst kwargs))) ps.
Proof.
  intros H. unfold no_double. rewrite length_app, take_ge by lia. reflexivity.
Qed.

(** The mapping that [extract_arguments] returns for a call that fills
    every parameter by position. *)
Lemma extract_arguments_positional {W : Type} (fn_sig : list (Param W)) (xs ys : list W)
  (kwargs : list (string * W)) :
  make_signature (declared fn_sig) = Ok (declared fn_sig) ->
  plain (declared fn_sig) = true ->
  length xs = length (declared fn_sig) ->
  (forall k, In k (map fst kwargs) -> ~ In k (map pname (declared fn_sig))) ->
  extract_arguments fn_sig (xs ++ ys) kwargs
  = Ok (zip (map pname (declared fn_sig)) (map Single xs)
        ++ (if ys is [] then [] else [("args", Star ys)])
        ++ (if kwargs is [] then [] else [("kwargs", StarStar kwargs)]))%list.
Proof.
  intros Hv Hp Hlen Hkw. rewrite (extract_arguments_new_sig fn_sig _ kwargs Hv Hp).
  set (ps := declared fn_sig) in *.
  assert (Hnd : NoDup (map pname ps)).
  { unfold make_signature in Hv.
    destruct (validate POSITIONAL_ONLY false [] ps) as [[]|] eqn:E; [|discriminate].
    by apply validate_NoDup in E as [? _]. }
  destruct (plain_names ps Hp) as [Hna Hnk].
  assert (Hno : no_double ps (xs ++ ys) kwargs = true).
  { rewrite no_double_app by done. apply forallb_forall. intros p Hin.
    apply negb_true_iff, mem_false. intros Hk. apply (Hkw _ Hk). by apply in_map. }
  assert (Hpb : pos_bound [] ps (xs ++ ys) = zip (map pname ps) (map Single xs)).
  { rewrite pos_bound_fresh by (done || (intros ? ? [])). cbn [app].
    rewrite map_app.
    rewrite (zip_with_app_r pair (map pname ps) (map Single xs) (map Single ys)).
    rewrite (take_ge (map pname ps)), (drop_ge (map pname ps))
      by (rewrite !length_map; lia).
    cbn [zip_with]. by rewrite app_nil_r. }
  set (Z0 := zip (map pname ps) (map Single xs)) in *.
  assert (HZa : ~ In "args" (map fst Z0)).
  { intros H. apply zip_names_fst in H. done. }
  assert (HZk : ~ In "kwargs" (map fst Z0)).
  { intros H. apply zip_names_fst in H. done. }
  unfold sig_bind. rewrite bind_positional_plain by done. rewrite Hno, Hpb.
  rewrite length_app.
  destruct ys as [|y ys].
  - cbn [length]. replace (length ps <? length xs + 0)%nat with false
      by (symmetry; apply Nat.ltb_ge; lia).
    rewrite drop_ge by lia. cbn [bind fst snd bind_keywords kind_eqb kwargs_param pkind
                                 kind_rank Nat.eqb].
    cbn [app]. destruct kwargs as [|kv kwargs]; [by rewrite app_nil_r|].
    cbn [pname]. by rewrite dict_set_fresh.
  - cbn [length]. replace (length ps <? length xs + S (length ys))%nat with true
      by (symmetry; apply Nat.ltb_lt; lia).
    rewrite drop_app_length' by done.
    rewrite dict_set_fresh by done.
    cbn [bind fst snd bind_keywords kind_eqb kwargs_param pkind kind_rank Nat.eqb].
    destruct kwargs as [|kv kwargs]; [by rewrite app_nil_r|].
    cbn [pname]. rewrite dict_set_fresh; [by rewrite <- app_assoc|].
    rewrite map_app, in_app_iff. cbn. intros [?|[?|[]]]; [done | discriminate].
Qed.

(** ** The bridged call *)

Lemma validate_app_l {W : Type} (ps qs : list (Param W)) (tk : kind) (kd : bool)
  (seen : list string) :
  validate tk kd seen (ps ++ qs) = Ok tt -> validate tk kd seen ps = Ok tt.
Proof.
  revert tk kd seen. induction ps as [|p ps IH]; intros tk kd seen H; [reflexivity|].
  cbn [app validate] in *.
  destruct (kind_rank (pkind p) <? kind_rank tk)%nat; [discriminate|].
  destruct (positional_kind (pkind p) && negb (has_default p) &&
            (if (kind_rank tk <? kind_rank (pkind p))%nat then false else kd));
    [discriminate|].
  destruct (mem (pname p) seen); [discriminate|]. by apply IH.
Qed.

Lemma apply_arguments_names {W : Type} (ps : list (Param W)) (args : list W)
  (kwargs : list (string * W)) (x : string) :
  In x (map fst (apply_arguments ps args kwargs)) -> In x (map pname ps).
Proof.
  revert args. induction ps as [|p ps IH]; intros args; [done|].
  cbn [apply_arguments map]. destruct args as [|v args].
  - destruct (assoc (pname p) kwargs); cbn [map fst].
    + intros [<-|H]; [by left | right; by eapply IH].
    + intros H. right. by eapply IH.
  - cbn [map fst]. intros [<-|H]; [by left | right; by eapply IH].
Qed.

Lemma apply_arguments_split {W : Type} (ps : list (Param W)) (args : list W)
  (kwargs : list (string * W)) :
  apply_arguments ps args kwargs
  = (zip (map pname ps) (map Single args)
     ++ apply_arguments (drop (length args) ps) [] kwargs)%list.
Proof.
  revert args. induction ps as [|p ps IH]; intros args.
  - by rewrite drop_nil.
  - destruct args as [|v args]; [reflexivity|].
    cbn [apply_arguments map zip_with length drop app]. by rewrite IH.
Qed.

Lemma apply_arguments_remove {W : Type} (ps : list (Param W)) (k : string)
  (kwargs : list (string * W)) :
  ~ In k (map pname ps) ->
  apply_arguments ps [] (dict_remove k kwargs) = apply_arguments ps [] kwargs.
Proof.
  induction ps as [|p ps IH]; intros Hk; [reflexivity|].
  cbn [apply_arguments]. cbn [map] in Hk.
  rewrite (assoc_dict_remove_ne k (pname p)) by (intros E; apply Hk; by left).
  rewrite IH by (intros ?; apply Hk; by right). reflexivity.
Qed.

(** The arguments that the keyword loop adds are those of the
    specification, appended in the order of the parameters. *)
Lemma kw_bound_explicit {W : Type} (ps : list (Param W)) (kwargs : list (string * W))
  (acc : list (string * bound W)) :
  NoDup (map pname ps) ->
  (forall x, In x (map pname ps) -> ~ In x (map fst acc)) ->
  fst (kw_bound ps kwargs acc) = (acc ++ apply_arguments ps [] kwargs)%list.
Proof.
  revert kwargs acc. induction ps as [|p ps IH]; intros kwargs acc Hnd Hfresh.
  - cbn. by rewrite app_nil_r.
  - cbn [map] in Hnd. apply NoDup_cons in Hnd as [Hp Hnd]. rewrite list_elem_of_In in Hp.
    cbn [kw_bound apply_arguments]. destruct (assoc (pname p) kwargs) as [v|].
    + rewrite dict_set_fresh by (apply Hfresh; by left).
      rewrite IH; [|done|].
      * by rewrite apply_arguments_remove, <- app_assoc.
      * intros y Hy. rewrite map_app, in_app_iff. cbn. intros [H|[<-|[]]]; [|done].
        apply (Hfresh y); [by right | done].
    + apply IH; [done|]. intros y Hy. apply Hfresh. by right.
Qed.

Lemma leftover_nil {W : Type} (kwargs : list (string * W)) :
  leftover_kwargs ([] : list (Param W)) kwargs = kwargs.
Proof.
  unfold leftover_kwargs. induction kwargs as [|kv kw IH]; [reflexivity|].
  rewrite filter_cons_True by reflexivity. by rewrite IH.
Qed.

(** What [extract_arguments] returns for a callable with ordinary
    parameters: the arguments of the specification, then the bucket of the
    extra positional values, then the bucket of the extra keywords; or the
    [TypeError] of a binding that is impossible. *)
Lemma extract_arguments_plain {W : Type} (fn_sig : list (Param W)) (args : list W)
  (kwargs : list (string * W)) :
  make_signature (declared fn_sig) = Ok (declared fn_sig) ->
  plain (declared fn_sig) = true ->
  extract_arguments fn_sig args kwargs
  = if negb (no_double (declared fn_sig) args kwargs) then
      Raise (TypeError "multiple values for argument")
    else if negb (all_required (declared fn_sig) args kwargs) then
      Raise (TypeError "missing a required argument")
    else
      Ok (apply_arguments (declared fn_sig) args kwargs
          ++ (if (length (declared fn_sig) <? length args)%nat
              then [("args", Star (drop (length (declared fn_sig)) args))] else [])
          ++ (match leftover_kwargs (declared fn_sig) kwargs with
              | [] => []
              | kw => [("kwargs", StarStar kw)]
              end))%list.
Proof.
  intros Hv Hp. rewrite (extract_arguments_new_sig fn_sig args kwargs Hv Hp).
  set (ps := declared fn_sig) in *.
  assert (Hnd : NoDup (map pname ps)).
  { unfold make_signature in Hv.
    destruct (validate POSITIONAL_ONLY false [] ps) as [[]|] eqn:E; [|discriminate].
    by apply validate_NoDup in E as [? _]. }
  destruct (plain_names ps Hp) as [Hna Hnk].
  unfold sig_bind. rewrite bind_positional_plain by done.
  destruct (no_double ps args kwargs) eqn:Hdbl; cbn [negb]; [|reflexivity].
  assert (Hpb : pos_bound [] ps args = zip (map pname ps) (map Single args)).
  { by rewrite pos_bound_fresh by (done || (intros ? ? [])). }
  rewrite Hpb. set (Z0 := zip (map pname ps) (map Single args)) in *.
  assert (HZ : forall x, In x (map fst Z0) -> In x (map pname (take (length args) ps))).
  { intros x Hx. subst Z0. clear -Hx. revert args Hx.
    induction ps as [|p ps IH]; intros [|v args] Hx; try done.
    cbn in Hx |- *. destruct Hx as [<-|Hx]; [by left | right; by apply IH]. }
  assert (HZa : ~ In "args" (map fst Z0)).
  { intros H. apply HZ in H. apply Hna. apply in_map_iff in H as (q & <- & Hq).
    apply in_map. by apply In_take in Hq. }
  assert (HZk : ~ In "kwargs" (map fst Z0)).
  { intros H. apply HZ in H. apply Hnk. apply in_map_iff in H as (q & <- & Hq).
    apply in_map. by apply In_take in Hq. }
  assert (Hdrop : NoDup (map pname (drop (length args) ps))).
  { rewrite <- (take_drop (length args) ps), map_app in Hnd.
    by apply NoDup_app in Hnd as (_ & _ & ?). }
  assert (Hfresh : forall x, In x (map pname (drop (length args) ps)) ->
                             ~ In x (map fst Z0)).
  { intros x Hx Hz. apply HZ in Hz.
    rewrite <- (take_drop (length args) ps), map_app in Hnd.
    apply NoDup_app in Hnd as (_ & Hdis & _).
    apply (Hdis x); by apply list_elem_of_In. }
  rewrite (apply_arguments_split ps args kwargs). fold Z0.
  rewrite <- (leftover_no_double ps args kwargs Hdbl).
  unfold all_required.
  destruct (length ps <? length args)%nat eqn:El.
  - apply Nat.ltb_lt in El. rewrite (drop_ge ps (length args)) by lia.
    cbn [forallb negb apply_arguments].
    rewrite leftover_nil, app_nil_r.
    cbn [bind fst snd bind_keywords kind_eqb kwargs_param pkind kind_rank Nat.eqb].
    rewrite dict_set_fresh by done.
    destruct kwargs as [|kv kwargs]; [by rewrite app_nil_r|].
    cbn [pname]. rewrite dict_set_fresh; [by rewrite <- app_assoc|].
    rewrite map_app, in_app_iff. cbn. intros [?|[?|[]]]; [done | discriminate].
  - apply Nat.ltb_ge in El. cbn [app].
    destruct (drop (length args) ps) as [|p rest] eqn:ER.
    + cbn [forallb negb apply_arguments]. rewrite leftover_nil, app_nil_r.
      cbn [bind fst snd bind_keywords kind_eqb kwargs_param pkind kind_rank Nat.eqb].
      destruct kwargs as [|kv kwargs]; [by rewrite app_nil_r|].
      cbn [pname]. by rewrite dict_set_fresh.
    + destruct (forallb (fun q => has_default q || mem (pname q) (map fst kwargs))
                        (p :: rest)) eqn:Hreq; cbn [negb].
      * assert (Hp0 : mem (pname p) (map fst kwargs) || has_default p = true).
        { cbn in Hreq. apply andb_true_iff in Hreq as [Hreq _]. by rewrite orb_comm. }
        rewrite Hp0. cbn [bind fst snd].
        rewrite (bind_keywords_plain (p :: rest)), Hreq;
          [|rewrite <- ER; by apply plain_drop | done].
        cbn [bind fst snd]. rewrite kw_bound_snd.
        rewrite kw_bound_explicit by done.
        destruct (leftover_kwargs (p :: rest) kwargs) as [|kv kw] eqn:Elo;
          [by rewrite app_nil_r|].
        cbn [pname kwargs_param]. rewrite dict_set_fresh; [reflexivity|].
        rewrite map_app, in_app_iff. intros [H|H]; [done|].
        apply apply_arguments_names in H. apply Hnk.
        apply in_map_iff in H as (q & <- & Hq). apply in_map.
        apply (In_drop (length args)). by rewrite ER.
      * destruct (mem (pname p) (map fst kwargs) || has_default p) eqn:Ep; [|reflexivity].
        cbn [bind fst snd].
        rewrite (bind_keywords_plain (p :: rest)), Hreq;
          [reflexivity | rewrite <- ER; by apply plain_drop | done].
Qed.

(** C5 (amended).  Let [wrap_algorithm] return a callable for a class whose
    [apply] takes the receiver [self] and then ordinary positional-or-keyword
    parameters [ps], none named [args] or [kwargs].  The declared
    parameters of the callable are [ps] followed by those of [__init__]
    without its receiver.  A call binds the positional values to [ps] in
    order and the keywords that name a parameter of [ps] to that parameter;
    the positional values beyond [ps] and the keywords that name no
    parameter of [ps] are the arguments of the constructor, and the result
    is that of [apply] of the new instance on exactly the bound arguments.
    The call raises [TypeError] when a keyword repeats a parameter bound by
    position or a parameter without default gets no value. *)
Theorem wrap_algorithm_bridge {W I : Type} (algo : AlgoClass W I)
  (name : option string) (caller_lineno : Z) (w : Bridged W)
  (recv : Param W) (ps : list (Param W)) :
  wrap_algorithm algo name caller_lineno = Ok w ->
  apply_sig algo = recv :: ps ->
  pname recv = "self" ->
  plain ps = true ->
  b_signature w = (ps ++ tail (init_sig algo))%list /\
  forall args kwargs,
    (no_double ps args kwargs = true -> all_required ps args kwargs = true ->
     b_call w args kwargs
     = (inst <- construct algo (drop (length ps) args) (leftover_kwargs ps kwargs) ;;
        apply algo inst (apply_arguments ps args kwargs)))
    /\
    (no_double ps args kwargs = false ->
     b_call w args kwargs = Raise (TypeError "multiple values for argument"))
    /\
    (no_double ps args kwargs = true -> all_required ps args kwargs = false ->
     b_call w args kwargs = Raise (TypeError "missing a required argument")).
Proof.
  intros Hw Hsig Hself Hp.
  assert (Hd : declared (apply_sig algo) = ps).
  { unfold declared. rewrite Hsig. cbn [map mem existsb]. rewrite Hself.
    by rewrite String.eqb_refl. }
  unfold wrap_algorithm in Hw.
  destruct (negb (is_algorithm algo)); [discriminate|].
  destruct (cls_file algo); [|discriminate]. cbn [bind] in Hw.
  destruct (cls_doc algo); [|discriminate]. cbn [bind] in Hw.
  rewrite Hsig in Hw. cbn [tail] in Hw. unfold make_signature in Hw.
  destruct (validate POSITIONAL_ONLY false [] (ps ++ tail (init_sig algo))%list)
    as [[]|] eqn:Ev; [|discriminate].
  cbn [bind] in Hw. inversion Hw; subst w. cbn [b_signature b_call].
  split; [reflexivity|].
  assert (Hv : make_signature (declared (apply_sig algo)) = Ok (declared (apply_sig algo))).
  { rewrite Hd. unfold make_signature. by rewrite (validate_app_l _ _ _ _ _ Ev). }
  intros args kwargs. unfold wrapper.
  rewrite (extract_arguments_plain (apply_sig algo) args kwargs Hv); rewrite Hd; [|done].
  split; [|split].
  - intros -> ->. cbn [negb bind].
    destruct (plain_names ps Hp) as [Hna Hnk].
    set (Z0 := apply_arguments ps args kwargs).
    assert (HZa : ~ In "args" (map fst Z0)).
    { intros H. by apply apply_arguments_names in H. }
    assert (HZk : ~ In "kwargs" (map fst Z0)).
    { intros H. by apply apply_arguments_names in H. }
    assert (Hargs : drop (length ps) args
                    = if (length ps <? length args)%nat then drop (length ps) args else []).
    { destruct (Nat.ltb_spec (length ps) (length args)); [reflexivity|].
      apply drop_ge. lia. }
    rewrite Hargs at 2. clear Hargs.
    unfold pop_args, pop_kwargs.
    rewrite !dict_remove_app, (dict_remove_notin "args" Z0) by done.
    rewrite (dict_remove_notin "kwargs" Z0) by done.
    destruct (length ps <? length args)%nat,
             (leftover_kwargs ps kwargs) as [|kv kw];
      cbn [app dict_remove]; rewrite ?app_nil_r;
      change (String.eqb "args" "kwargs") with false;
      change (String.eqb "kwargs" "args") with false;
      change (String.eqb "args" "args") with true;
      change (String.eqb "kwargs" "kwargs") with true;
      cbn [app]; rewrite ?app_nil_r, ?assoc_app_notin by done;
      cbn [assoc]; rewrite ?(proj2 (assoc_None _ _) HZa), ?(proj2 (assoc_None _ _) HZk);
      change (String.eqb "args" "kwargs") with false;
      change (String.eqb "kwargs" "args") with false;
      change (String.eqb "args" "args") with true;
      change (String.eqb "kwargs" "kwargs") with true;
      reflexivity.
  - intros ->. reflexivity.
  - intros -> ->. reflexivity.
Qed.

(** Witness for C5 (amended): the sample class with constructor
    [(self, p1, p2)] and [apply(self, ds, q1)]; the call [(7, q1=1, p1=2, p2=3)]
    hands [ds = 7, q1 = 1] to [apply] and the two other keywords to the
    constructor; the call [(7, 1, 2, 3)] applies the instance built from
    [(2, 3)]; the call [(7)] lacks [q1]. *)
Lemma wrap_algorithm_bridge_witness :
  exists w,
    wrap_algorithm (sample_algo (Some "Scale a dataset.")) None 10 = Ok w /\
    b_signature w = [pos_param "ds"; pos_param "q1"; pos_param "p1"; pos_param "p2"] /\
    b_call w [7] [("q1", 1); ("p1", 2); ("p2", 3)]
    = (inst <- construct (sample_algo (Some "Scale a dataset.")) []
                         [("p1", 2); ("p2", 3)] ;;
       apply (sample_algo (Some "Scale a dataset.")) inst
             [("ds", Single 7); ("q1", Single 1)]) /\
    b_call w [7; 1; 2; 3] []
    = (inst <- construct (sample_algo (Some "Scale a dataset.")) [2; 3] [] ;;
       apply (sample_algo (Some "Scale a dataset.")) inst
             [("ds", Single 7); ("q1", Single 1)]) /\
    b_call w [7] [] = Raise (TypeError "missing a required argument").
Proof.
  destruct (wrap_algorithm (sample_algo (Some "Scale a dataset.")) None 10) as [w|e] eqn:E;
    [|discriminate E].
  exists w. split; [reflexivity|].
  destruct (wrap_algorithm_bridge (sample_algo (Some "Scale a dataset.")) None 10 w
              (pos_param "self") [pos_param "ds"; pos_param "q1"] E
              eq_refl eq_refl eq_refl) as [Hs Hc].
  split; [exact Hs|]. split; [|split].
  - apply (proj1 (Hc [7] [("q1", 1); ("p1", 2); ("p2", 3)])); reflexivity.
  - apply (proj1 (Hc [7; 1; 2; 3] [])); reflexivity.
  - apply (proj2 (proj2 (Hc [7] []))); reflexivity.
Defined.

(** C5, as stated, fails for a class whose [apply] has a keyword-only
    parameter: for [apply(self, ds, *, q)] and [__init__(self)] the bridge
    is built, with the parameters [(ds, *, q)]; the call [(7, q=1)] binds
    to these parameters, and the instance built without arguments would
    return 8, but the bridged call places its two buckets after [q], which
    is no valid signature, and raises [ValueError]. *)
Lemma wrap_algorithm_keyword_only :
  exists w,
    wrap_algorithm kwonly_algo None 10 = Ok w /\
    b_signature w = [pos_param "ds"; kwonly_param "q"] /\
    sig_bind (b_signature w) [7] [("q", 1)] = Ok [("ds", Single 7); ("q", Single 1)] /\
    (inst <- construct kwonly_algo [] [] ;;
     apply kwonly_algo inst [("ds", Single 7); ("q", Single 1)]) = Ok 8 /\
    b_call w [7] [("q", 1)] = Raise (ValueError "wrong parameter order").
Proof.
  eexists. split; [reflexivity|]. repeat split; reflexivity.
Qed.

(** The receiver has to be called [self]: for [apply(this, ds, q1)] the
    receiver is bound like a parameter, and the call [(7, 1, 2, 3)] hands
    [(3)] to the constructor and [this = 7, ds = 1, q1 = 2] to [apply].
    And a parameter of [apply] must not be called [args]: for
    [apply(self, ds, args)] the bucket takes the place of the parameter,
    and the call [(7, 1)] hands [(1)] to the constructor and [ds = 7]
    alone to [apply]. *)
Lemma wrap_algorithm_reserved_names :
  (exists w,
     wrap_algorithm (named_class [pos_param "this"; pos_param "ds"; pos_param "q1"])
                    None 10 = Ok w /\
     b_signature w = [pos_param "ds"; pos_param "q1"; pos_param "p1"; pos_param "p2"] /\
     b_call w [7; 1; 2; 3] []
     = (inst <- construct (sample_algo None) [3] [] ;;
        apply (sample_algo None) inst
              [("this", Single 7); ("ds", Single 1); ("q1", Single 2)])) /\
  (exists w,
     wrap_algorithm (named_class [pos_param "self"; pos_param "ds"; pos_param "args"])
                    None 10 = Ok w /\
     b_signature w = [pos_param "ds"; pos_param "args"; pos_param "p1"; pos_param "p2"] /\
     b_call w [7; 1] []
     = (inst <- construct (sample_algo None) [1] [] ;;
        apply (sample_algo None) inst [("ds", Single 7)])).
Proof.
  split; (eexists; split; [reflexivity|]; split; reflexivity).
Qed.

(** X12.  The bridged function called by position hands the first values, one
    per parameter of [apply] after the receiver, to [apply] under the
    names of those parameters, and all further positional values and all
    keywords that name no parameter of [apply] to the constructor. *)
Theorem bridged_call_by_position {W I : Type} (algo : AlgoClass W I)
  (name : option string) (caller_lineno : Z) (w : Bridged W) (xs ys : list W)
  (kwargs : list (string * W)) :
  wrap_algorithm algo name caller_lineno = Ok w ->
  make_signature (declared (apply_sig algo)) = Ok (declared (apply_sig algo)) ->
  plain (declared (apply_sig algo)) = true ->
  length xs = length (declared (apply_sig algo)) ->
  (forall k, In k (map fst kwargs) -> ~ In k (map pname (declared (apply_sig algo)))) ->
  b_call w (xs ++ ys) kwargs
  = (inst <- construct algo ys kwargs ;;
     apply algo inst (zip (map pname (declared (apply_sig algo))) (map Single xs))).
Proof.
  intros Hw Hv Hp Hlen Hkw.
  assert (Hcall : b_call w = wrapper algo).
  { unfold wrap_algorithm in Hw.
    destruct (negb (is_algorithm algo)); [discriminate|].
    destruct (cls_file algo); [|discriminate]. cbn [bind] in Hw.
    destruct (cls_doc algo); [|discriminate]. cbn [bind] in Hw.
    destruct (make_signature _); [|discriminate]. cbn [bind] in Hw.
    by inversion Hw. }
  rewrite Hcall. unfold wrapper.
  rewrite (extract_arguments_positional _ xs ys kwargs Hv Hp Hlen Hkw). cbn [bind].
  set (ps := declared (apply_sig algo)) in *.
  destruct (plain_names ps Hp) as [Hna Hnk].
  set (Z0 := zip (map pname ps) (map Single xs)) in *.
  assert (HZa : ~ In "args" (map fst Z0)).
  { intros H. apply zip_names_fst in H. done. }
  assert (HZk : ~ In "kwargs" (map fst Z0)).
  { intros H. apply zip_names_fst in H. done. }
  unfold pop_args, pop_kwargs.
  rewrite !dict_remove_app, (dict_remove_notin "args" Z0) by done.
  rewrite (dict_remove_notin "kwargs" Z0) by done.
  destruct ys as [|y ys], kwargs as [|kv kwargs];
    cbn [app dict_remove]; rewrite ?app_nil_r;
    change (String.eqb "args" "kwargs") with false;
    change (String.eqb "kwargs" "args") with false;
    change (String.eqb "args" "args") with true;
    change (String.eqb "kwargs" "kwargs") with true;
    cbn [app]; rewrite ?app_nil_r, ?assoc_app_notin by done;
    cbn [assoc]; rewrite ?(proj2 (assoc_None _ _) HZa), ?(proj2 (assoc_None _ _) HZk);
    change (String.eqb "args" "kwargs") with false;
    change (String.eqb "kwargs" "args") with false;
    change (String.eqb "args" "args") with true;
    change (String.eqb "kwargs" "kwargs") with true;
    reflexivity.
Qed.

Lemma wrap_algorithm_shared_name_witness :
  exists msg,
    wrap_algorithm (sample_class [pos_param "ds"; pos_param "scale"] [pos_param "scale"])
                   None 10
    = Raise (ValueError msg).
Proof.
  apply (wrap_algorithm_shared_name
           (sample_class [pos_param "ds"; pos_param "scale"] [pos_param "scale"])
           None 10 "nd/filters.py" "Scale a dataset." "scale").
  - reflexivity.
  - reflexivity.
  - reflexivity.
  - cbn. tauto.
  - cbn. tauto.
Defined.

Lemma wrap_algorithm_default_order_witness :
  exists msg,
    wrap_algorithm (sample_class [pos_param "ds"; opt_param "q" 1] [pos_param "p"])
                   None 10
    = Raise (ValueError msg).
Proof.
  apply (wrap_algorithm_default_order
           (sample_class [pos_param "ds"; opt_param "q" 1] [pos_param "p"])
           None 10 "nd/filters.py" "Scale a dataset." (opt_param "q" 1) (pos_param "p")).
  - reflexivity.
  - reflexivity.
  - reflexivity.
  - repeat constructor.
  - cbn. tauto.
  - reflexivity.
  - cbn. tauto.
  - reflexivity.
Defined.

Lemma extract_arguments_var_keyword_witness :
  exists msg,
    extract_arguments [pos_param "a"; MkParam "options" VAR_KEYWORD None] [1] [("b", 2)]
    = Raise (ValueError msg).
Proof.
  apply (extract_arguments_var_keyword
           [pos_param "a"; MkParam "options" VAR_KEYWORD None] [1] [("b", 2)]
           (MkParam "options" VAR_KEYWORD None)).
  - right. left. reflexivity.
  - reflexivity.
  - vm_compute. intros [H|[H|[]]]; discriminate.
Defined.

Lemma bridged_call_by_position_witness :
  exists w,
    wrap_algorithm (sample_algo (Some "Scale a dataset.")) None 10 = Ok w /\
    b_call w ([7; 1] ++ [2; 3]) []
    = (inst <- construct (sample_algo (Some "Scale a dataset.")) [2; 3] [] ;;
       apply (sample_algo (Some "Scale a dataset.")) inst
             [("ds", Single 7); ("q1", Single 1)]).
Proof.
  destruct (wrap_algorithm (sample_algo (Some "Scale a dataset.")) None 10) as [w|e] eqn:E;
    [|discriminate E].
  exists w. split; [reflexivity|].
  apply (bridged_call_by_position (sample_algo (Some "Scale a dataset.")) None 10 w
           [7; 1] [2; 3] [] E).
  - reflexivity.
  - reflexivity.
  - reflexivity.
  - intros k [].
Defined.

(* ===================================================================== *)
(** * Further properties of [geo/tiling.py] *)
(* ===================================================================== *)

(** ** The slices that [tile] cuts *)

Lemma sum_app (l1 l2 : list Z) :
  foldr Z.add 0 (l1 ++ l2) = foldr Z.add 0 l1 + foldr Z.add 0 l2.
Proof. induction l1 as [|x l1 IH]; cbn; [reflexivity | rewrite IH; lia]. Qed.

Lemma sum_nonneg (l : list Z) : Forall (fun x => 0 <= x) l -> 0 <= foldr Z.add 0 l.
Proof. induction 1; cbn; lia. Qed.

Lemma chunk_slices_lookup (b start : Z) (lens : list Z) (i : nat) (l : Z) :
  lens !! i = Some l ->
  chunk_slices b start lens !! i
  = Some (Slice (Some (Z.max 0 (start + foldr Z.add 0 (take i lens) - b)))
                (Some (start + foldr Z.add 0 (take i lens) + l + b))).
Proof.
  revert start i. induction lens as [|x lens IH]; intros start i Hi; [discriminate|].
  destruct i as [|i]; cbn in Hi; cbn [chunk_slices take foldr]; rewrite lookup_cons.
  - inversion Hi; subst. do 4 f_equal; lia.
  - rewrite (IH (start + x) i Hi). do 4 f_equal; lia.
Qed.

(** X1.  Along a dimension with coordinates [c] whose chunk lengths are not
    negative and add up to the length of [c], the slice that [tile] builds
    for chunk [i], which starts at the cumulative offset [k] and has length
    [l], is [slice(max(0, k - b), k + l + b)], and it selects from [c] the
    positions from [max(0, k - b)] up to, not including,
    [min(len(c), k + l + b)]: the chunk and at most [b] neighbours on each
    side. *)
Theorem tile_slice_nth {A : Type} (b : Z) (lens : list Z) (c : list A) (i : nat) (l : Z) :
  0 <= b ->
  Forall (fun x => 0 <= x) lens ->
  foldr Z.add 0 lens = Z.of_nat (length c) ->
  lens !! i = Some l ->
  chunk_slices b 0 lens !! i
  = Some (Slice (Some (Z.max 0 (foldr Z.add 0 (take i lens) - b)))
                (Some (foldr Z.add 0 (take i lens) + l + b))) /\
  py_slice (Slice (Some (Z.max 0 (foldr Z.add 0 (take i lens) - b)))
                  (Some (foldr Z.add 0 (take i lens) + l + b))) c
  = take (Z.to_nat (Z.min (Z.of_nat (length c)) (foldr Z.add 0 (take i lens) + l + b))
          - Z.to_nat (Z.max 0 (foldr Z.add 0 (take i lens) - b)))
         (drop (Z.to_nat (Z.max 0 (foldr Z.add 0 (take i lens) - b))) c).
Proof.
  intros Hb Hnn Hsum Hi. split.
  - rewrite (chunk_slices_lookup b 0 lens i l Hi). do 4 f_equal; lia.
  - set (k := foldr Z.add 0 (take i lens)).
    assert (Hk : 0 <= k /\ 0 <= l /\ k + l <= Z.of_nat (length c)).
    { rewrite <- Hsum, <- (take_drop_middle lens i l Hi), sum_app. cbn [foldr].
      pose proof (sum_nonneg (take i lens) (Forall_take _ _ _ Hnn)).
      pose proof (sum_nonneg (drop (S i) lens) (Forall_drop _ _ _ Hnn)).
      rewrite Forall_forall in Hnn.
      pose proof (Hnn l ltac:(by eapply list_elem_of_lookup_2)). fold k. lia. }
    unfold py_slice, slice_len, slice_lo, slice_indices, clip_index.
    cbn [fst snd slice_start slice_stop].
    destruct (Z.ltb_spec (Z.max 0 (k - b)) 0); [lia|].
    destruct (Z.ltb_spec (k + l + b) 0); [lia|].
    f_equal; [|f_equal]; lia.
Qed.

Lemma tile_slice_nth_witness :
  chunk_slices 1 0 [4; 4] !! 1%nat = Some (Slice (Some 3) (Some 9)) /\
  py_slice (Slice (Some 3) (Some 9)) [0; 10; 20; 30; 40; 50; 60; 70]
  = [30; 40; 50; 60; 70].
Proof.
  apply (tile_slice_nth 1 [4; 4] [0; 10; 20; 30; 40; 50; 60; 70] 1 4).
  - lia.
  - repeat constructor; lia.
  - reflexivity.
  - reflexivity.
Defined.

Lemma tile_slices_ext (cks : list (string * list Z)) (b1 b2 : buffer_t) :
  (forall d, In d (map fst cks) -> tile_buffer b1 d = tile_buffer b2 d) ->
  tile_slices cks b1 = tile_slices cks b2.
Proof.
  intros H. unfold tile_slices. apply map_ext_in. intros [d lens] Hin.
  rewrite (H d); [reflexivity|]. apply in_map_iff. by exists (d, lens).
Qed.

Lemma tile_ext {V : Type} (ds : Chunked V) (path prefix : string)
  (chunks_arg : option (list (string * list Z))) (b1 b2 : buffer_t) (fs : FS V) :
  (forall chunked d, chunked_of ds chunks_arg = Ok chunked ->
                     In d (map fst (chunks chunked)) ->
                     tile_buffer b1 d = tile_buffer b2 d) ->
  tile ds path prefix chunks_arg b1 fs = tile ds path prefix chunks_arg b2 fs.
Proof.
  intros H. unfold tile. destruct (isfile fs path); [reflexivity|].
  destruct (if isdir fs path then (Ok tt, fs) else makedirs fs path) as [[[]|e] fs1];
    [|reflexivity].
  fold (chunked_of ds chunks_arg).
  destruct (chunked_of ds chunks_arg) as [chunked|e] eqn:E; [|reflexivity].
  rewrite (tile_slices_ext (chunks chunked) b1 b2); [reflexivity|].
  intros d Hd. by apply (H chunked).
Qed.

(** X2.  [tile] uses a buffer only when it is an integer or a mapping: with
    ['auto'], or any other value, it writes the same files as with buffer
    0; with a mapping it writes the same files as with the integer [b]
    whenever every chunked dimension has the entry [b], or no entry and
    [b = 0]. *)
Theorem tile_buffer_kinds {V : Type} (ds : Chunked V) (path prefix : string)
  (chunks_arg : option (list (string * list Z))) (fs : FS V) :
  tile ds path prefix chunks_arg BufAuto fs = tile ds path prefix chunks_arg (BufInt 0) fs /\
  tile ds path prefix chunks_arg BufOther fs = tile ds path prefix chunks_arg (BufInt 0) fs /\
  forall (m : gmap string Z) (b : Z),
    (forall chunked d, chunked_of ds chunks_arg = Ok chunked ->
                       In d (map fst (chunks chunked)) ->
                       match m !! d with Some x => x | None => 0 end = b) ->
    tile ds path prefix chunks_arg (BufDict m) fs
    = tile ds path prefix chunks_arg (BufInt b) fs.
Proof.
  split; [|split].
  - by apply tile_ext.
  - by apply tile_ext.
  - intros m b H. apply tile_ext. intros chunked d Hc Hd. cbn [tile_buffer].
    by apply (H chunked).
Qed.

Lemma tile_buffer_kinds_witness :
  tile sample_chunked "out" "part" None (BufDict {["x" := 1]}) ∅
  = tile sample_chunked "out" "part" None (BufInt 1) ∅.
Proof.
  apply (proj2 (proj2 (tile_buffer_kinds sample_chunked "out" "part" None ∅))
           {["x" := 1]} 1).
  intros chunked d Hc Hd. inversion Hc; subst chunked.
  destruct Hd as [<-|[]]. reflexivity.
Defined.

(** ** The files that [tile] writes *)

Lemma sorted_lt_NoDup (l : list nat) : StronglySorted lt l -> NoDup l.
Proof.
  induction 1 as [|x l _ IH Hx]; constructor; [|done].
  intros Hin. rewrite Forall_forall in Hx. specialize (Hx x Hin). lia.
Qed.

Lemma NoDup_list_product {A : Type} (ls : list (list A)) :
  Forall NoDup ls -> NoDup (list_product ls).
Proof.
  induction 1 as [|xs ls Hxs _ IH]; [cbn; apply NoDup_singleton|].
  cbn [list_product]. induction Hxs as [|x xs Hx _ IHx]; [constructor|].
  cbn [flat_map]. apply NoDup_app. split; [|split].
  - apply (NoDup_fmap_2 (cons x)), IH.
  - intros l Hl Hl'. apply list_elem_of_In, in_map_iff in Hl as (l1 & <- & _).
    apply list_elem_of_In, in_flat_map in Hl' as (x' & Hx' & Hl').
    apply in_map_iff in Hl' as (l2 & E & _). inversion E; subst x'.
    apply Hx. by apply list_elem_of_In.
  - exact IHx.
Qed.

Lemma chunk_slices_NoDup (b : Z) (n : nat) (lens : list Z) :
  chunks_ok b n lens -> NoDup (chunk_slices b 0 lens).
Proof.
  intros (Hb & HF & Hsum).
  destruct (tile_ranges_good b n 0 lens Hb ltac:(lia) HF ltac:(lia)) as [_ Hs].
  unfold tile_ranges in Hs. rewrite map_map in Hs.
  apply sorted_lt_NoDup in Hs.
  by apply (NoDup_fmap_1 (fun s => fst (sel_range s (0%nat, n)))) in Hs.
Qed.

Lemma length_list_product {A : Type} (ls : list (list A)) :
  length (list_product ls) = foldr Nat.mul 1%nat (map length ls).
Proof.
  induction ls as [|xs ls IH]; [reflexivity|]. cbn [list_product map foldr].
  rewrite <- IH. induction xs as [|x xs IHx]; [reflexivity|].
  cbn [flat_map length]. rewrite length_app, length_map, IHx. lia.
Qed.

Section TileFiles.
Context {V : Type} (ds : Dataset V) (cks : list (string * list Z)) (b : Z).
Hypothesis Hb : 0 <= b.
Hypothesis Hnodup : NoDup (map fst (dims ds)).
Hypothesis Hcks : Forall2 (chunking_ok b) (dims ds) cks.

Lemma tile_combinations_NoDup : NoDup (dict_product (tile_slices cks (BufInt b))).
Proof.
  rewrite (tiles_product ds cks b Hcks).
  apply (NoDup_fmap_2_strong (fun ss => zip (map fst (dims ds)) ss)).
  - intros ss ss' Hs Hs' E.
    apply list_elem_of_In, (tiles_slices_In ds cks b Hcks) in Hs as [Hl _].
    apply list_elem_of_In, (tiles_slices_In ds cks b Hcks) in Hs' as [Hl' _].
    apply (f_equal (map snd)) in E.
    assert (Hsnd : forall l : list slice, length l = length (dims ds) ->
                     map snd (zip (map fst (dims ds)) l) = l).
    { intros l Hlen. apply (snd_zip (map fst (dims ds)) l). rewrite length_map. lia. }
    by rewrite !Hsnd in E.
  - apply NoDup_list_product. apply Forall_map.
    apply Forall_forall. intros ck Hck. apply list_elem_of_lookup in Hck as [i Hi].
    destruct (Forall2_lookup_r _ _ _ _ _ Hcks Hi) as (dc & _ & Hok).
    destruct (chunking_cases b dc ck Hb Hok) as [(l & -> & _)|[_ Hc]].
    + cbn. apply NoDup_singleton.
    + by eapply chunk_slices_NoDup.
Qed.

Lemma tile_paths_NoDup (path prefix : string) :
  NoDup (tile_paths path prefix cks (BufInt b)).
Proof.
  unfold tile_paths.
  apply (NoDup_fmap_2_strong (fun sd => path_join path (tile_name prefix sd))).
  - intros sd sd' Hs Hs' E.
    eapply (tile_paths_inj ds cks b Hb Hcks path prefix); [| |exact E];
      by apply list_elem_of_In.
  - apply tile_combinations_NoDup.
Qed.

End TileFiles.

(** X3.  For a chunked dataset with distinct dimension names and, for every
    dimension, either one chunk or several chunks, each longer than the
    buffer [b >= 0], a successful [tile] writes one file per combination of one
    chunk of every dimension: the paths are pairwise different, their
    number is the product of the numbers of chunks, and the file of a
    combination holds the dataset sliced by the buffered slices of that
    combination. *)
Theorem tile_writes_every_tile {V : Type} (ds : Chunked V) (path prefix : string) (b : Z)
  (fs fs' : FS V) :
  0 <= b ->
  NoDup (map fst (dims (cdata ds))) ->
  Forall2 (chunking_ok b) (dims (cdata ds)) (chunks ds) ->
  tile ds path prefix None (BufInt b) fs = (Ok tt, fs') ->
  NoDup (tile_paths path prefix (chunks ds) (BufInt b)) /\
  length (tile_paths path prefix (chunks ds) (BufInt b))
  = foldr Nat.mul 1%nat (map (fun ck => length (snd ck)) (chunks ds)) /\
  forall sd, In sd (dict_product (tile_slices (chunks ds) (BufInt b))) ->
             open_dataset fs' (path_join path (tile_name prefix sd))
             = Ok (isel (cdata ds) sd).
Proof.
  intros Hb Hnodup Hcks Ht. split; [|split].
  - by apply (tile_paths_NoDup (cdata ds)).
  - unfold tile_paths. rewrite length_map, dict_product_list_product, length_map.
    rewrite length_list_product, (tile_slices_snd (chunks ds) b), !map_map.
    f_equal. apply map_ext. intros ck. apply chunk_slices_length.
  - intros sd Hsd.
    destruct (tile_written ds path prefix (BufInt b) fs) as (fs1 & E);
      [by rewrite Ht|].
    rewrite Ht in E. cbn [snd] in E. subst fs'.
    unfold open_dataset. rewrite fold_write_lookup; [reflexivity| |done].
    intros sd' Hsd' E. by eapply (tile_paths_inj (cdata ds) (chunks ds) b).
Qed.

Lemma tile_writes_every_tile_witness :
  NoDup (tile_paths "out" "part" (chunks sample_chunked) (BufInt 1)) /\
  length (tile_paths "out" "part" (chunks sample_chunked) (BufInt 1)) = 2%nat /\
  forall sd, In sd (dict_product (tile_slices (chunks sample_chunked) (BufInt 1))) ->
             open_dataset (snd (tile sample_chunked "out" "part" None (BufInt 1) ∅))
                          (path_join "out" (tile_name "part" sd))
             = Ok (isel (cdata sample_chunked) sd).
Proof.
  apply (tile_writes_every_tile sample_chunked "out" "part" 1 ∅
           (snd (tile sample_chunked "out" "part" None (BufInt 1) ∅))).
  - lia.
  - repeat constructor; set_solver.
  - repeat constructor; cbn; try lia; discriminate.
  - reflexivity.
Defined.

(** ** Edge cases of [auto_merge] *)

(** X4.  [auto_merge] on a single fragment, given as a dataset or as the
    path of a file that can be opened, returns that fragment as it is, for
    every value of [buffer]: the loop body is never entered. *)
Theorem auto_merge_single {V : Type} (glob : string -> list string) (fs : FS V)
  (fuel : nat) (datasets : merge_input V) (buffer : buffer_t) (d : Dataset V) :
  normalize glob datasets = inr [d] \/
  (exists p, normalize glob datasets = inl [p] /\ open_dataset fs p = Ok d) ->
  auto_merge glob fs fuel datasets buffer = Some (Ok d).
Proof.
  intros [H|(p & H & Ho)]; unfold auto_merge; rewrite H; cbn [input_length length Nat.eqb].
  - by destruct fuel.
  - cbn [mapM]. rewrite Ho. cbn [bind]. by destruct fuel.
Qed.

Lemma auto_merge_single_witness :
  auto_merge no_glob ∅ 0 (Datasets [sample_ds]) BufAuto = Some (Ok sample_ds).
Proof.
  apply (auto_merge_single no_glob ∅ 0 (Datasets [sample_ds]) BufAuto sample_ds).
  left. reflexivity.
Defined.

Lemma filter_split_none {V : Type} (F : list (Dataset V)) (ns : list string) :
  (forall d, In d ns -> exists v, forall f, In f F -> first_value f d = Ok v) ->
  filter_split F ns = Ok [].
Proof.
  induction ns as [|d ns IH]; intros H; [reflexivity|]. cbn [filter_split].
  destruct (H d ltac:(by left)) as [v Hv].
  rewrite (mapM_Ok_map (fun x => first_value x d) (fun _ => v) F Hv). cbn [bind].
  rewrite IH by (intros d' Hd'; apply H; by right). cbn [bind].
  assert (Hu : (n_unique (map (fun _ : Dataset V => v) F) <= 1)%nat).
  { apply n_unique_same. intros x y Hx Hy.
    apply list_elem_of_In, in_map_iff in Hx as (? & <- & _).
    apply list_elem_of_In, in_map_iff in Hy as (? & <- & _). reflexivity. }
  apply Nat.ltb_ge in Hu. by rewrite Hu.
Qed.

(** X5.  When two or more fragments start at the same coordinate value
    along every dimension of the first fragment (the same file listed
    twice, for instance), no dimension is found to be split and the first
    pass fails with [IndexError] on [split_dims[-1]], whatever the
    buffer. *)
Theorem auto_merge_no_split_dim {V : Type} (glob : string -> list string) (fs : FS V)
  (fuel : nat) (buffer : buffer_t) (f0 f1 : Dataset V) (rest : list (Dataset V)) :
  (forall d, In d (map fst (dims f0)) ->
             exists v, forall f, In f (f0 :: f1 :: rest) -> first_value f d = Ok v) ->
  auto_merge glob fs (S fuel) (Datasets (f0 :: f1 :: rest)) buffer
  = Some (Raise (IndexError "index -1 is out of bounds")).
Proof.
  intros H. unfold auto_merge. cbn [normalize input_length length Nat.eqb merge_loop].
  cbn [Nat.ltb Nat.leb]. unfold combine_along_last_dim, split_dims. cbn [py_first bind].
  rewrite (filter_split_none _ _ H). reflexivity.
Qed.

Lemma auto_merge_no_split_dim_witness :
  auto_merge no_glob ∅ 1 (Datasets [sample_ds; sample_ds]) (BufInt 0)
  = Some (Raise (IndexError "index -1 is out of bounds")).
Proof.
  apply (auto_merge_no_split_dim no_glob ∅ 0 (BufInt 0) sample_ds sample_ds []).
  intros d [<-|[]]. exists 0. intros f [<-|[<-|[]]]; reflexivity.
Defined.

(** ** The number of fragments *)

Lemma groupby_length {A : Type} (l : list (list Z * A)) :
  (length (groupby l) <= length l)%nat /\ (l <> [] -> groupby l <> []).
Proof.
  induction l as [|[k a] l [IH1 IH2]]; [split; [cbn; lia | done]|].
  cbn [groupby]. destruct (groupby l) as [|[k' g] gs]; [split; [cbn; lia | done]|].
  destruct (bool_decide (k = k')); cbn [length] in *; split; try done; lia.
Qed.

Lemma merge_groups_length {V : Type} (buffer : buffer_t) (d : string)
  (cache cache' : gmap string Z) (gs : list (list (Dataset V))) (ms : list (Dataset V)) :
  merge_groups buffer d cache gs = Ok (ms, cache') -> length ms = length gs.
Proof.
  revert cache ms. induction gs as [|g gs IH]; intros cache ms H; cbn in H.
  - by inversion H.
  - destruct (merge_group buffer d cache g) as [[m c1]|]; [|discriminate].
    cbn [bind fst snd] in H.
    destruct (merge_groups buffer d c1 gs) as [[ms' c2]|] eqn:E; [|discriminate].
    inversion H; subst. cbn. f_equal. by eapply IH.
Qed.

Lemma mapM_length {A B : Type} (f : A -> result B) (l : list A) (r : list B) :
  mapM f l = Ok r -> length r = length l.
Proof.
  revert r. induction l as [|a l IH]; intros r H; cbn in H; [by inversion H|].
  destruct (f a); [|discriminate]. cbn [bind] in H.
  destruct (mapM f l); [|discriminate]. inversion H; subst. cbn. f_equal. by apply IH.
Qed.

Lemma tuple_leb_antisym (a b : list Z) :
  tuple_leb a b = true -> tuple_leb b a = true -> a = b.
Proof.
  revert b. induction a as [|x a IH]; intros [|y b] H1 H2; try done.
  cbn in H1, H2.
  destruct (Z.ltb_spec x y), (Z.ltb_spec y x); try lia; try discriminate.
  assert (x = y) by lia. subst. f_equal. by apply IH.
Qed.

(** Tuples of one length keep their order when the last component is cut
    off. *)
Lemma tuple_leb_removelast (a b : list Z) :
  length a = length b -> tuple_leb a b = true ->
  tuple_leb (removelast a) (removelast b) = true.
Proof.
  revert b. induction a as [|x a IH]; intros [|y b] Hlen H; try done.
  destruct a as [|x' a], b as [|y' b]; try done.
  change (removelast (x :: x' :: a)) with (x :: removelast (x' :: a)).
  change (removelast (y :: y' :: b)) with (y :: removelast (y' :: b)).
  cbn [tuple_leb] in H |- *.
  destruct (x <? y); [done|]. destruct (y <? x); [done|].
  apply IH; [cbn in *; lia | exact H].
Qed.

Lemma mapM_Forall2 {A B : Type} (f : A -> result B) (l : list A) (r : list B) :
  mapM f l = Ok r -> Forall2 (fun a b => f a = Ok b) l r.
Proof.
  revert r. induction l as [|a l IH]; intros r H; cbn in H.
  - inversion H. constructor.
  - destruct (f a) as [b|] eqn:E; [|discriminate]. cbn [bind] in H.
    destruct (mapM f l) as [bs|]; [|discriminate]. inversion H; subst.
    constructor; [done | by apply IH].
Qed.

(** On a list sorted by its keys, [groupby] forms one group per distinct
    key. *)
Lemma groupby_keys {A : Type} (l : list (list Z * A)) :
  StronglySorted key_le l ->
  NoDup (map fst (groupby l)) /\
  (forall k, In k (map fst (groupby l)) <-> In k (map fst l)) /\
  head (map fst (groupby l)) = head (map fst l).
Proof.
  induction l as [|[k a] l IH]; intros Hs.
  - cbn. split; [constructor|]. split; [tauto | reflexivity].
  - apply StronglySorted_inv in Hs as [Hs Hk].
    destruct (IH Hs) as (Hnd & Hiff & Hhd). cbn [groupby].
    destruct (groupby l) as [|[k' g] gs] eqn:Eg.
    + cbn. split; [apply NoDup_singleton|]. split; [|reflexivity].
      intros x. cbn in Hiff. split; [tauto|]. intros [?|H]; [tauto|].
      by apply Hiff in H.
    + cbn [map fst head] in Hnd, Hiff, Hhd. case_bool_decide as E.
      * subst k'. cbn [map fst head]. split; [exact Hnd|]. split; [|reflexivity].
        intros x. cbn [In]. rewrite <- (Hiff x). cbn [In]. tauto.
      * cbn [map fst head]. split; [|split; [|reflexivity]].
        -- apply NoDup_cons. split; [|exact Hnd].
           rewrite list_elem_of_In. intros Hin. apply (Hiff k) in Hin.
           apply E. apply tuple_leb_antisym.
           ++ destruct l as [|[k0 a0] l]; [done|]. cbn in Hhd. inversion Hhd; subst k0.
              apply Forall_cons in Hk as [Hk _]. exact Hk.
           ++ destruct l as [|[k0 a0] l]; [done|]. cbn in Hhd. inversion Hhd; subst k0.
              cbn in Hin. destruct Hin as [->|Hin]; [apply tuple_leb_refl|].
              apply StronglySorted_inv in Hs as [_ Hs]. rewrite Forall_forall in Hs.
              apply in_map_iff in Hin as ([k1 a1] & <- & Hin).
              apply list_elem_of_In, Hs in Hin. exact Hin.
        -- intros x. cbn [In]. rewrite <- (Hiff x). cbn [In]. tauto.
Qed.

Lemma sorted_removelast {A : Type} (n : nat) (l : list (list Z * A)) :
  Forall (fun x => length (fst x) = n) l ->
  StronglySorted key_le l ->
  StronglySorted key_le (map (fun kd => (removelast (fst kd), snd kd)) l).
Proof.
  intros Hn Hs. induction Hs as [|x l Hs IH Hx]; [constructor|].
  apply Forall_cons in Hn as [Hx0 Hn]. cbn [map]. constructor; [by apply IH|].
  apply Forall_map. rewrite Forall_forall in Hx, Hn |- *.
  intros y Hy. unfold key_le in *. cbn [fst].
  apply tuple_leb_removelast; [|by apply Hx]. by rewrite Hx0, (Hn y Hy).
Qed.

(** X6.  A pass of [_combine_along_last_dim] that succeeds returns exactly
    one dataset per group, and there is one group per distinct tuple of
    first labels along the split dimensions other than the last: at least
    one, and never more than the pass was given. *)
Theorem combine_pass_count {V : Type} (buffer : buffer_t) (cache cache' : gmap string Z)
  (datasets merged : list (Dataset V)) (sd : list string) (keys : list (list Z)) :
  combine_along_last_dim buffer cache datasets = Ok (merged, cache') ->
  split_dims datasets = Ok sd ->
  mapM (first_values sd) datasets = Ok keys ->
  length merged = length (remove_dups (map (removelast (A:=Z)) keys)) /\
  (1 <= length merged <= length datasets)%nat.
Proof.
  unfold combine_along_last_dim. intros H Es Ek. rewrite Es in H. cbn [bind] in H.
  destruct (py_last sd); [|discriminate]. cbn [bind] in H.
  rewrite Ek in H. cbn [bind] in H.
  apply merge_groups_length in H. rewrite H, length_map.
  pose proof (mapM_length _ _ _ Ek) as Hlen.
  set (srt := sorted_by_key (zip keys datasets)).
  set (l := map (fun kd : list Z * Dataset V => (removelast (fst kd), snd kd)) srt).
  assert (Hl : length l = length datasets).
  { unfold l, srt. rewrite length_map, (Permutation_length (sorted_by_key_perm _)).
    rewrite length_zip_with. lia. }
  assert (Hkeys : Forall (fun k => length k = length sd) keys).
  { apply mapM_Forall2 in Ek. apply Forall_forall. intros k Hk.
    apply list_elem_of_lookup in Hk as [i Hi].
    destruct (Forall2_lookup_r _ _ _ _ _ Ek Hi) as (f & _ & Hf).
    by apply mapM_length in Hf. }
  assert (Hfst : map fst (zip keys datasets) = keys)
    by (apply (fst_zip keys datasets); lia).
  assert (Hsorted : StronglySorted key_le l).
  { apply (sorted_removelast (length sd)); [|apply sorted_by_key_sorted].
    apply Forall_forall. intros x Hx. unfold srt in Hx.
    rewrite (sorted_by_key_perm (zip keys datasets)) in Hx.
    rewrite Forall_forall in Hkeys. apply Hkeys. rewrite <- Hfst.
    apply list_elem_of_fmap. by exists x. }
  destruct (groupby_keys l Hsorted) as (Hnd & Hiff & _).
  assert (Hcount : length (groupby l)
                   = length (remove_dups (map (removelast (A:=Z)) keys))).
  { rewrite <- (length_map fst (groupby l)). apply Permutation_length.
    apply NoDup_Permutation; [exact Hnd | apply NoDup_remove_dups|].
    intros k. rewrite elem_of_remove_dups, !list_elem_of_In, Hiff.
    unfold l. rewrite map_map. cbn [fst].
    rewrite <- Hfst, map_map, <- !list_elem_of_In.
    assert (Hp : Permutation (map (fun x : list Z * Dataset V => removelast (fst x)) srt)
                             (map (fun x : list Z * Dataset V => removelast (fst x))
                                  (zip keys datasets))).
    { apply Permutation_map. apply sorted_by_key_perm. }
    by rewrite Hp. }
  split; [exact Hcount|].
  destruct (groupby_length l) as [H1 H2]. split; [|lia].
  assert (Hne : l <> []).
  { intros E. rewrite E in Hl. cbn in Hl.
    unfold split_dims in Es. destruct datasets; [discriminate | discriminate]. }
  specialize (H2 Hne). destruct (groupby l); [done | cbn; lia].
Qed.

(** Witness for X6: the fragments [strip_a] and [strip_b] differ in their
    first label along [x], the split dimension that is not the last, and a
    pass over them returns two datasets. *)
Lemma combine_pass_count_witness :
  exists merged cache',
    combine_along_last_dim (BufInt 1) ∅ [strip_a; strip_b] = Ok (merged, cache') /\
    length merged = length (remove_dups (map (removelast (A:=Z)) [[0; 0]; [1; 5]])) /\
    (1 <= length merged <= length [strip_a; strip_b])%nat.
Proof.
  destruct (combine_along_last_dim (BufInt 1) ∅ [strip_a; strip_b])
    as [[merged cache']|e] eqn:E; [|vm_compute in E; discriminate E].
  exists merged, cache'. split; [reflexivity|].
  apply (combine_pass_count (BufInt 1) ∅ cache' [strip_a; strip_b] merged ["x"; "y"]
           [[0; 0]; [1; 5]] E); reflexivity.
Defined.

(** ** The round trip with [buffer == 'auto'] *)

Section AutoPass.
Context {V : Type} (ds : Dataset V) (b : Z).
Hypothesis Hnodup : NoDup (map fst (dims ds)).
Hypothesis Hb : 0 <= b.
Hypothesis Hcoords : Forall (fun dc => StronglySorted Z.lt (snd dc)) (dims ds).
Hypothesis Hspan : Forall (fun dc => span_ok (snd dc)) (dims ds).

(** The groups that a pass forms from the fragments of a split dataset,
    whatever the buffer. *)
Lemma combine_pass_groups (rss : list (list (nat * nat))) (F F0 : list (Dataset V)) :
  good ds b rss -> Forall2 (is_box ds) (list_product rss) F0 -> Permutation F F0 ->
  (0 < nsplit rss)%nat ->
  exists dpre dpost d c L rpre rpost post0 kk,
    rss = (rpre ++ tile_ranges b (length c) 0 L :: rpost)%list /\
    dims ds = (dpre ++ (d, c) :: dpost)%list /\
    chunks_ok b (length c) L /\ (2 <= length L)%nat /\
    valid_ranges dpost post0 /\
    Forall (valid_ranges dpre) (list_product rpre) /\
    Forall2 (fun pre blk =>
               Forall2 (is_box ds)
                       (map (fun r => (pre ++ r :: post0)%list)
                            (tile_ranges b (length c) 0 L))
                       blk) (list_product rpre) kk /\
    list_product rpost = [post0] /\
    Forall (fun ys => is_split ys = false) rpost /\
    Forall2 (fun dc xs => dim_ok b (snd dc) xs) dpre rpre /\
    Forall2 (fun dc xs => dim_ok b (snd dc) xs) dpost rpost /\
    nsplit rss = S (nsplit rpre) /\
    forall buffer cache,
      combine_along_last_dim buffer cache F = merge_groups buffer d cache kk.
Proof.
  intros Hgood HF0 Hperm Hn.
  destruct (last_split rss Hn) as (rpre & xs & rpost & -> & Hxs & Hpost & Hns).
  pose proof Hgood as Hg. unfold good in Hg.
  apply Forall2_app_inv_r in Hg as (dpre & dtail & Hgpre & Hgtail & Hdims).
  apply Forall2_cons_inv_r in Hgtail as ([d c] & dpost & Hokx & Hgpost & ->).
  cbn [snd] in Hokx.
  assert (Hlpre : length rpre = length dpre) by (symmetry; by eapply Forall2_length).
  assert (Hsn : split_names (dims ds) (rpre ++ xs :: rpost)
                = (split_names dpre rpre ++ [d])%list).
  { rewrite Hdims, split_names_app by done. cbn [split_names fst]. rewrite Hxs.
    by rewrite (split_names_unsplit dpost rpost Hpost), app_nil_r. }
  assert (Hlast : py_last (split_names (dims ds) (rpre ++ xs :: rpost)) = Ok d).
  { by rewrite Hsn, py_last_snoc. }
  destruct (dim_ok_split b c xs Hokx Hxs) as (L & HL & Hok & HX).
  pose proof (unsplit_singletons b dpost rpost Hb Hgpost Hpost) as Hp1.
  set (post0 := full_ranges dpost) in *.
  pose proof (list_product_focus rpre rpost xs post0 Hp1) as Hprod.
  pose proof HF0 as HF0'. rewrite Hprod in HF0'.
  destruct (Forall2_flat_map_inv _ _ _ _ HF0') as (kk & EF0 & Hkk).
  assert (Hvpre : Forall (valid_ranges dpre) (list_product rpre)).
  { apply Forall_forall. intros pre Hpre. apply list_elem_of_In in Hpre.
    by eapply ranges_valid. }
  assert (Hvpost : valid_ranges dpost post0).
  { eapply ranges_valid; [exact Hb|exact Hgpost|]. rewrite Hp1. by left. }
  assert (Hxlen : (2 <= length xs)%nat) by (by rewrite HX, tile_ranges_length).
  assert (Hlenkk : length kk = length (list_product rpre)).
  { symmetry. by eapply Forall2_length. }
  exists dpre, dpost, d, c, L, rpre, rpost, post0, kk.
  rewrite <- HX. repeat (split; [done|]).
  intros buffer cache. unfold combine_along_last_dim.
  rewrite (split_dims_fragments ds b Hnodup Hb _ F F0 Hgood HF0 Hperm).
  cbn [bind]. rewrite Hlast. cbn [bind].
  rewrite (keys_fragments ds b Hnodup Hb _ F F0 Hgood HF0 Hperm). cbn [bind].
  rewrite (sorted_fragments ds b Hnodup Hb _ F F0 Hgood HF0 Hperm).
  rewrite Hprod, EF0.
  rewrite (regroup (key_of (dims ds) (rpre ++ xs :: rpost)) (key_of dpre rpre)
             (fun pre => map (fun r => (pre ++ r :: post0)%list) xs)
             (list_product rpre) kk); cycle 1.
  { apply Forall2_same_length_lookup. split; [done|].
    intros i pre blk Hpre Hblk.
    pose proof (Forall2_lookup_lr _ _ _ _ _ _ Hkk Hpre Hblk) as HB. cbn beta in HB.
    split; [by eapply Forall2_length|].
    intros x Hx. apply in_map_iff in Hx as (r & <- & Hr).
    assert (Hlp : length pre = length dpre).
    { apply valid_ranges_length. rewrite Forall_forall in Hvpre. apply Hvpre.
      by eapply list_elem_of_lookup_2. }
    rewrite Hdims, key_of_app by done.
    rewrite key_of_cons, Hxs, (key_of_unsplit dpost rpost post0 Hpost), app_nil_r.
    by rewrite removelast_last. }
  rewrite groupby_blocks; cycle 1.
  { apply Forall_forall. intros [k blk] Hin. cbn [snd].
    apply list_elem_of_lookup in Hin as [i Hi].
    apply lookup_zip_with_Some in Hi as (k' & blk' & Heq & Hk' & Hblk').
    inversion Heq; subst k' blk'.
    destruct (Forall2_lookup_r _ _ _ _ _ Hkk Hblk') as (pre & _ & HB).
    apply Forall2_length in HB. rewrite length_map in HB.
    intros ->. cbn in HB. lia. }
  { apply (sorted_by_fst (A := list (Dataset V))).
    assert (Hfst : map fst (zip (map (key_of dpre rpre) (list_product rpre)) kk)
                   = map (key_of dpre rpre) (list_product rpre)).
    { apply (fst_zip (map (key_of dpre rpre) (list_product rpre)) kk).
      rewrite length_map. lia. }
    rewrite Hfst. apply keys_sorted. by apply (ranges_sorted b). }
  assert (Hsnd : map snd (zip (map (key_of dpre rpre) (list_product rpre)) kk) = kk).
  { apply (snd_zip (map (key_of dpre rpre) (list_product rpre)) kk).
    rewrite length_map. lia. }
  by rewrite Hsnd.
Qed.

(** One pass with [buffer == 'auto']: the overlap is inferred or taken
    from the cache, and is the buffer of the split in both cases. *)
Lemma combine_pass_auto (cache : gmap string Z) (rss : list (list (nat * nat)))
  (F F0 : list (Dataset V)) :
  good ds b rss -> Forall2 (is_box ds) (list_product rss) F0 -> Permutation F F0 ->
  (0 < nsplit rss)%nat -> cache_ok b cache ->
  exists rss' F' cache',
    combine_along_last_dim BufAuto cache F = Ok (F', cache') /\
    good ds b rss' /\ Forall2 (is_box ds) (list_product rss') F' /\
    nsplit rss = S (nsplit rss') /\ cache_ok b cache'.
Proof.
  intros Hgood HF0 Hperm Hn Hcache.
  destruct (combine_pass ds b Hnodup Hb cache rss F F0 Hgood HF0 Hperm Hn)
    as (rss' & F' & Hc & Hgood' & HF' & Hns).
  destruct (combine_pass_groups rss F F0 Hgood HF0 Hperm Hn)
    as (dpre & dpost & d & c & L & rpre & rpost & post0 & kk & -> & Hdims & Hok & HL &
        Hvpost & Hvpre & Hkk & Hp1 & Hpost & Hgpre & Hgpost & _ & Hcomb).
  rewrite Hcomb in Hc. rewrite Hcomb.
  destruct (cache !! d) as [v|] eqn:Ed.
  - pose proof (Hcache d v Ed) as ->.
    exists rss', F', cache. rewrite (merge_groups_cached d cache kk b Ed).
    repeat (split; [done|]). done.
  - assert (Hne : (1 <= length (list_product rpre))%nat).
    { apply list_product_nonempty. apply Forall_forall. intros xs Hxs.
      apply list_elem_of_lookup in Hxs as [i Hi].
      destruct (Forall2_lookup_r _ _ _ _ _ Hgpre Hi) as (dc & _ & Hdc).
      by destruct (dim_ok_facts b (snd dc) xs Hb Hdc) as (? & _). }
    destruct Hkk as [|pre g pres gs Hg Hkk]; [cbn in Hne; lia|].
    assert (Hc' : StronglySorted Z.lt c).
    { rewrite Forall_forall in Hcoords. apply (Hcoords (d, c)).
      rewrite Hdims. apply list_elem_of_In, in_app_iff. right. by left. }
    assert (Hsp : span_ok c).
    { rewrite Forall_forall in Hspan. apply (Hspan (d, c)).
      rewrite Hdims. apply list_elem_of_In, in_app_iff. right. by left. }
    destruct L as [|l0 [|l1 L]]; [cbn in HL; lia | cbn in HL; lia |].
    assert (Hinf : infer_buffer d g = Ok b).
    { apply Forall2_map_l_1 in Hg. inversion Hvpre; subst.
      by eapply (infer_buffer_tiles ds dpre dpost d c pre post0 b l0 l1 L g). }
    rewrite (merge_groups_first_use d cache g gs b Ed Hinf), Hc. cbn [bind fst].
    exists rss', F', (<[d := b]> cache). repeat (split; [done|]).
    intros d' v. destruct (decide (d' = d)) as [->|Hd].
    + rewrite lookup_insert_eq. congruence.
    + rewrite lookup_insert_ne by done. apply Hcache.
Qed.

Lemma merge_loop_auto (n : nat) :
  forall (rss : list (list (nat * nat))) (F F0 : list (Dataset V)) (fuel : nat)
         (cache : gmap string Z),
  nsplit rss = n -> good ds b rss ->
  Forall2 (is_box ds) (list_product rss) F0 -> Permutation F F0 ->
  (n <= fuel)%nat -> cache_ok b cache ->
  exists m, merge_loop fuel BufAuto cache F = Some (Ok [m]) /\ ds_eq m ds.
Proof.
  induction n as [|n IH]; intros rss F F0 fuel cache Hn Hgood HF0 Hperm Hfuel Hcache.
  - pose proof (unsplit_singletons b (dims ds) rss Hb Hgood (nsplit_0 rss Hn)) as Hp.
    rewrite Hp in HF0.
    inversion HF0 as [|? m ? ? Hbox HF0']; subst. inversion HF0'; subst.
    apply Permutation_singleton_r in Hperm as ->.
    exists m. split; [|by apply is_box_full_eq].
    destruct fuel; reflexivity.
  - destruct fuel as [|fuel]; [lia|].
    assert (Hlen : (2 <= length F)%nat).
    { rewrite (Permutation_length Hperm), <- (Forall2_length _ _ _ HF0).
      apply list_product_length_2; [by apply (good_nonempty ds b)|].
      destruct (last_split rss ltac:(lia)) as (rpre & xs & rpost & -> & Hxs & _).
      apply Exists_app. right. apply Exists_cons_hd.
      unfold is_split in Hxs. by apply Nat.ltb_lt in Hxs. }
    destruct (combine_pass_auto cache rss F F0 Hgood HF0 Hperm ltac:(lia) Hcache)
      as (rss' & F' & cache' & Hc & Hgood' & HF' & Hns & Hcache').
    cbn [merge_loop].
    assert (Hlt : (1 <? length F)%nat = true) by (apply Nat.ltb_lt; lia).
    rewrite Hlt, Hc.
    apply (IH rss' F' F' fuel cache'); [lia|done|done|reflexivity|lia|done].
Qed.

End AutoPass.

(** The tile files of a split dataset can be opened, in whatever order they
    are listed, and are the tiles. *)
Lemma tile_files_open {V : Type} (ds : Chunked V) (path prefix : string) (b : Z)
  (fs : FS V) (files : list string) :
  0 <= b ->
  NoDup (map fst (dims (cdata ds))) ->
  Forall2 (chunking_ok b) (dims (cdata ds)) (chunks ds) ->
  fst (tile ds path prefix None (BufInt b) fs) = Ok tt ->
  Permutation files (tile_paths path prefix (chunks ds) (BufInt b)) ->
  exists F,
    mapM (open_dataset (snd (tile ds path prefix None (BufInt b) fs))) files = Ok F /\
    length F = length files /\ (1 <= length files)%nat /\
    Permutation F (map (isel (cdata ds))
                       (dict_product (tile_slices (chunks ds) (BufInt b)))).
Proof.
  intros Hb Hnodup Hcks Htile Hperm.
  destruct (tile_written ds path prefix (BufInt b) fs Htile) as (fs1 & ->).
  set (sds := dict_product (tile_slices (chunks ds) (BufInt b))) in *.
  set (fs' := fold_left (write_tile (cdata ds) path prefix) sds fs1).
  unfold tile_paths in Hperm. fold sds in Hperm.
  apply Permutation_map_inv in Hperm as (sds' & -> & Hperm).
  pose proof (tiles_boxes (cdata ds) (chunks ds) b Hnodup Hcks) as Hboxes. fold sds in Hboxes.
  exists (map (isel (cdata ds)) sds'). split; [|split; [|split]].
  - apply open_written. intros sd Hsd.
    assert (Hin : In sd sds) by (by apply (Permutation_in _ (Permutation_sym Hperm))).
    apply fold_write_lookup; [|done].
    intros sd' Hsd' E. by eapply (tile_paths_inj (cdata ds) (chunks ds) b).
  - by rewrite !length_map.
  - rewrite length_map, <- (Permutation_length Hperm).
    rewrite <- (length_map (isel (cdata ds)) sds), <- (Forall2_length _ _ _ Hboxes).
    apply list_product_nonempty. by apply tiles_ranges_nonempty.
  - apply Permutation_map. by symmetry.
Qed.

(** X8.  For a chunked dataset with distinct dimension names, no empty
    dimension, and for every dimension either one chunk or several chunks,
    each longer than the buffer [b >= 0], whose labels increase strictly
    along every dimension with a span below [2^63], so that no difference
    of two labels overflows: tiles written by [tile] with buffer [b] and
    merged by [auto_merge] with [buffer == 'auto'], its default, give back
    the dataset: the overlap inferred for every axis is [b]. *)
Theorem tile_merge_round_trip_auto {V : Type} (ds : Chunked V) (path prefix : string)
  (b : Z) (fs : FS V) (glob : string -> list string) (datasets : merge_input V)
  (files : list string) (fuel : nat) :
  0 <= b ->
  NoDup (map fst (dims (cdata ds))) ->
  Forall2 (chunking_ok b) (dims (cdata ds)) (chunks ds) ->
  Forall (fun dc => snd dc <> []) (dims (cdata ds)) ->
  Forall (fun dc => StronglySorted Z.lt (snd dc)) (dims (cdata ds)) ->
  Forall (fun dc => span_ok (snd dc)) (dims (cdata ds)) ->
  fst (tile ds path prefix None (BufInt b) fs) = Ok tt ->
  normalize glob datasets = inl files ->
  Permutation files (tile_paths path prefix (chunks ds) (BufInt b)) ->
  (length (dims (cdata ds)) <= fuel)%nat ->
  exists m,
    auto_merge glob (snd (tile ds path prefix None (BufInt b) fs)) fuel datasets BufAuto
    = Some (Ok m) /\
    ds_eq m (cdata ds).
Proof.
  intros Hb Hnodup Hcks Hne Hcoords Hspan Htile Hnorm Hperm Hfuel.
  destruct (tile_files_open ds path prefix b fs files Hb Hnodup Hcks Htile Hperm)
    as (F & Hopen & HlenF & Hne1 & HpermF).
  assert (Hsorted : Forall2 (chunked_sorted b) (dims (cdata ds)) (chunks ds)).
  { eapply Forall2_impl; [apply Forall2_and_Forall_l'; [exact Hcks|exact Hcoords]|].
    cbn. intros dc ck [Hok Hs]. by apply sorted_chunked_sorted. }
  pose proof (tiles_boxes (cdata ds) (chunks ds) b Hnodup Hcks) as Hboxes.
  pose proof (tiles_good (cdata ds) (chunks ds) b Hb Hcks Hsorted Hne) as Hgood.
  set (rss := tiles_ranges b (dims (cdata ds)) (chunks ds)) in *.
  destruct (merge_loop_auto (cdata ds) b Hnodup Hb Hcoords Hspan (nsplit rss) rss F _
              fuel ∅ eq_refl Hgood Hboxes HpermF)
    as (m & Hm & Heq).
  { etrans; [apply nsplit_le_length|].
    rewrite (good_length (cdata ds) b rss Hgood). exact Hfuel. }
  { intros d v Hd. by rewrite lookup_empty in Hd. }
  exists m. split; [|exact Heq].
  unfold auto_merge. rewrite Hnorm. cbn [input_length].
  destruct (Nat.eqb_spec (length files) 0) as [E|_]; [lia|].
  rewrite Hopen, Hm. reflexivity.
Qed.

Lemma tile_merge_round_trip_auto_witness :
  exists m,
    auto_merge no_glob (snd (tile sample_chunked "out" "part" None (BufInt 1) ∅)) 1
               (Paths (tile_paths "out" "part" (chunks sample_chunked) (BufInt 1)))
               BufAuto
    = Some (Ok m) /\
    ds_eq m (cdata sample_chunked).
Proof.
  apply (tile_merge_round_trip_auto sample_chunked "out" "part" 1 ∅ no_glob
           (Paths (tile_paths "out" "part" (chunks sample_chunked) (BufInt 1)))
           (tile_paths "out" "part" (chunks sample_chunked) (BufInt 1)) 1).
  - lia.
  - repeat constructor; set_solver.
  - constructor; [|constructor].
    split; [reflexivity|]. split; [reflexivity|]. right.
    split; [cbn; lia | repeat constructor; lia].
  - repeat constructor; discriminate.
  - repeat constructor; lia.
  - constructor; [|constructor]. split; [repeat constructor; lia|].
    intros x y Hx Hy. cbn in Hx, Hy.
    assert (0 <= x <= 70) by (intuition lia). assert (0 <= y <= 70) by (intuition lia).
    lia.
  - reflexivity.
  - reflexivity.
  - reflexivity.
  - cbn. lia.
Defined.

(** ** A loop that does not end *)

Lemma mapM_map {A B C : Type} (f : B -> result C) (g : A -> B) (l : list A) :
  mapM (fun x => f (g x)) l = mapM f (map g l).
Proof. induction l as [|a l IH]; [reflexivity|]. cbn. by rewrite IH. Qed.

Lemma mapM_perm {A B : Type} (f : A -> result B) (l l' : list A) (r : list B) :
  Permutation l l' -> mapM f l = Ok r ->
  exists r', mapM f l' = Ok r' /\ Permutation r r'.
Proof.
  intros Hp. revert r. induction Hp as [|x l l' _ IH|x y l|l l' l'' _ IH1 _ IH2];
    intros r H.
  - exists r. by split.
  - cbn in H |- *. destruct (f x) as [bx|]; [|discriminate]. cbn [bind] in H |- *.
    destruct (mapM f l) as [r0|]; [|discriminate]. inversion H; subst.
    destruct (IH r0 eq_refl) as (r' & -> & Hr). cbn [bind].
    exists (bx :: r'). split; [reflexivity | by constructor].
  - cbn in H |- *. destruct (f y); [|discriminate]. cbn [bind] in H |- *.
    destruct (f x); [|discriminate]. cbn [bind] in H |- *.
    destruct (mapM f l) as [r0|]; [|discriminate]. inversion H; subst. cbn [bind].
    eexists. split; [reflexivity | apply perm_swap].
  - destruct (IH1 r H) as (r' & H' & Hr'). destruct (IH2 r' H') as (r'' & H'' & Hr'').
    exists r''. split; [done | by etrans].
Qed.

Lemma n_unique_perm (l l' : list Z) : Permutation l l' -> n_unique l = n_unique l'.
Proof.
  intros Hp. unfold n_unique. apply Permutation_length.
  apply NoDup_Permutation; [apply NoDup_remove_dups..|].
  intros x. rewrite !elem_of_remove_dups. by rewrite Hp.
Qed.

Lemma filter_split_coords {V : Type} (G : list (Dataset V)) (ns : list string) :
  filter_split G ns
  = (fix go (ds : list string) : result (list string) :=
       match ds with
       | [] => Ok []
       | d :: ds' =>
           firsts <- mapM (fun D => coords_first D d) (map dims G) ;;
           rest <- go ds' ;;
           Ok (if (1 <? n_unique firsts)%nat then d :: rest else rest)
       end) ns.
Proof.
  induction ns as [|d ns IH]; [reflexivity|]. cbn [filter_split].
  rewrite <- (mapM_map (fun D => coords_first D d) dims G), IH. reflexivity.
Qed.

Lemma filter_split_perm {V : Type} (F G : list (Dataset V)) (ns sd : list string) :
  Permutation (map dims F) (map dims G) ->
  filter_split F ns = Ok sd -> filter_split G ns = Ok sd.
Proof.
  intros Hp. rewrite !filter_split_coords. revert sd.
  induction ns as [|d ns IH]; intros sd H; [exact H|].
  destruct (mapM (fun D => coords_first D d) (map dims F)) as [firsts|] eqn:E;
    [|discriminate].
  destruct (mapM_perm _ _ _ _ Hp E) as (firsts' & -> & Hf). cbn [bind] in H |- *.
  match type of H with (rest <- ?g ;; _) = _ => destruct g as [rest|] eqn:Er end;
    [|discriminate].
  rewrite (IH rest eq_refl). cbn [bind] in H |- *.
  by rewrite <- (n_unique_perm _ _ Hf).
Qed.

Lemma filter_split_subset {V : Type} (F : list (Dataset V)) (ns sd : list string)
  (x : string) :
  filter_split F ns = Ok sd -> In x sd -> In x ns.
Proof.
  revert sd. induction ns as [|d ns IH]; intros sd H Hx; cbn [filter_split] in H.
  - inversion H; subst. destruct Hx.
  - destruct (mapM (fun x0 => first_value x0 d) F) as [firsts|]; [|discriminate].
    cbn [bind] in H.
    destruct (filter_split F ns) as [rest|]; [|discriminate]. cbn [bind] in H.
    inversion H; subst. destruct (1 <? n_unique firsts)%nat.
    + destruct Hx as [<-|Hx]; [by left | right; by apply (IH rest)].
    + right. by apply (IH rest).
Qed.

Lemma py_last_In {A : Type} (l : list A) (a : A) : py_last l = Ok a -> In a l.
Proof.
  unfold py_last. destruct (last l) as [x|] eqn:E; [|discriminate].
  intros [= <-]. apply list_elem_of_In. apply last_Some in E as [l' ->].
  apply list_elem_of_In, in_app_iff. right. by left.
Qed.

Lemma groupby_singletons {A : Type} (l : list (list Z * A)) :
  NoDup (map fst l) -> groupby l = map (fun ka => (fst ka, [snd ka])) l.
Proof.
  induction l as [|[k a] l IH]; [reflexivity|]. cbn [map fst]. intros Hnd.
  apply NoDup_cons in Hnd as [Hk Hnd]. cbn [groupby]. rewrite (IH Hnd).
  destruct l as [|[k' a'] l']; [reflexivity|]. cbn [map fst snd].
  rewrite bool_decide_eq_false_2; [reflexivity|].
  intros ->. apply Hk. cbn. left.
Qed.

Lemma assoc_NoDup_In {A : Type} (k : string) (v : A) (d : list (string * A)) :
  NoDup (map fst d) -> In (k, v) d -> assoc k d = Some v.
Proof.
  induction d as [|[k' v'] d IH]; [done|]. cbn [map fst]. intros Hnd Hin.
  apply NoDup_cons in Hnd as [Hk Hnd]. cbn [assoc].
  destruct Hin as [E|Hin].
  - inversion E; subst. by rewrite String.eqb_refl.
  - destruct (String.eqb k k') eqn:E; [|by apply IH].
    apply String.eqb_eq in E. subst k'. exfalso. apply Hk.
    apply list_elem_of_In, in_map_iff. by exists (k, v).
Qed.

(** Combining a single fragment leaves its dimensions as they are. *)
Lemma auto_combine_single {V : Type} (g : Dataset V) (d : string) :
  NoDup (map fst (dims g)) -> In d (map fst (dims g)) ->
  exists h, auto_combine [g] d = Ok h /\ dims h = dims g.
Proof.
  intros Hnd Hd.
  destruct (assoc d (dims g)) as [c|] eqn:Ec; [|by apply assoc_None in Ec].
  destruct (dim_index_is_Some d (dims g) c Ec) as [k Hk].
  unfold auto_combine. rewrite Hk.
  assert (Hgrid : forallb (fun x => same_grid d (dims g) (dims x)) [g] = true).
  { cbn [forallb]. rewrite andb_true_r. unfold same_grid. apply andb_true_iff. split.
    - by apply bool_decide_eq_true.
    - apply forallb_zip_same. intros x. apply orb_true_iff. right.
      by apply bool_decide_eq_true. }
  rewrite Hgrid. eexists. split; [reflexivity|]. cbn [dims flat_map].
  rewrite Ec. cbn [default]. unfold id. rewrite app_nil_r.
  rewrite <- (map_id (dims g)) at 2. apply map_ext_in. intros [k' v] Hin. cbn [fst].
  destruct (String.eqb k' d) eqn:E; [|reflexivity].
  apply String.eqb_eq in E. subst k'.
  rewrite (assoc_NoDup_In d v (dims g) Hnd Hin) in Ec. by inversion Ec.
Qed.

Lemma merge_groups_singletons {V : Type} (b : Z) (d : string) (cache : gmap string Z)
  (gs : list (Dataset V)) :
  b <= 0 ->
  Forall (fun g => NoDup (map fst (dims g)) /\ In d (map fst (dims g))) gs ->
  exists hs, merge_groups (BufInt b) d cache (map (fun g => [g]) gs) = Ok (hs, cache) /\
             map dims hs = map dims gs.
Proof.
  intros Hb. induction 1 as [|g gs [Hnd Hd] _ (hs & Hhs & Hdims)].
  - exists []. by split.
  - destruct (auto_combine_single g d Hnd Hd) as (h & Hh & Hdh).
    exists (h :: hs). cbn [map merge_groups]. unfold merge_group.
    cbn [resolve_buffer bind fst snd].
    replace (0 <? b) with false by (symmetry; apply Z.ltb_ge; lia).
    cbn [bind]. rewrite Hh. cbn [bind fst snd]. rewrite Hhs. cbn [bind fst snd].
    split; [reflexivity | by rewrite Hdh, Hdims].
Qed.

Section NeverEnds.
Context {V : Type} (F : list (Dataset V)) (ns sd : list string) (d : string)
  (keys : list (list Z)) (b : Z).
Hypothesis Hb : b <= 0.
Hypothesis Hlen : (2 <= length F)%nat.
Hypothesis Hns : NoDup ns.
Hypothesis Hnames : Forall (fun f => map fst (dims f) = ns) F.
Hypothesis Hsd : split_dims F = Ok sd.
Hypothesis Hd : py_last sd = Ok d.
Hypothesis Hkeys : mapM (first_values sd) F = Ok keys.
Hypothesis Hgroups : NoDup (map (removelast (A:=Z)) keys).

Lemma never_ends_names (G : list (Dataset V)) (g : Dataset V) :
  Permutation (map dims F) (map dims G) -> In g G -> map fst (dims g) = ns.
Proof.
  intros Hp Hg. apply (in_map dims) in Hg.
  apply (Permutation_in _ (Permutation_sym Hp)) in Hg.
  apply in_map_iff in Hg as (f & E & Hf). rewrite <- E.
  rewrite Forall_forall in Hnames. apply Hnames. by apply list_elem_of_In.
Qed.

Lemma never_ends_filter : filter_split F ns = Ok sd.
Proof.
  unfold split_dims in Hsd. destruct F as [|f0 F'] eqn:E; [discriminate|].
  cbn [py_first bind] in Hsd. inversion Hnames; subst. congruence.
Qed.

(** A pass returns the fragments, sorted, with their dimensions. *)
Lemma never_ends_pass (cache : gmap string Z) (G : list (Dataset V)) :
  Permutation (map dims F) (map dims G) ->
  exists G', combine_along_last_dim (BufInt b) cache G = Ok (G', cache) /\
             Permutation (map dims F) (map dims G').
Proof.
  intros Hp.
  assert (HlenG : length G = length F).
  { apply Permutation_length in Hp. by rewrite !length_map in Hp. }
  assert (Hsplit : split_dims G = Ok sd).
  { unfold split_dims. destruct G as [|g0 G'] eqn:E; [cbn in HlenG; lia|].
    cbn [py_first bind]. rewrite (never_ends_names (g0 :: G') g0 Hp) by (by left).
    apply (filter_split_perm F); [done | apply never_ends_filter]. }
  assert (Hk : exists keys', mapM (first_values sd) G = Ok keys' /\ Permutation keys keys').
  { pose proof Hkeys as Hk.
    change (mapM (fun f => coords_key sd (dims f)) F = Ok keys) in Hk.
    rewrite (mapM_map (coords_key sd) dims F) in Hk.
    destruct (mapM_perm _ _ _ _ Hp Hk) as (keys' & Hk' & Hpk).
    exists keys'. split; [|done].
    change (mapM (fun f => coords_key sd (dims f)) G = Ok keys').
    by rewrite (mapM_map (coords_key sd) dims G). }
  destruct Hk as (keys' & Hk' & Hpk).
  assert (HlenK : length keys' = length G) by (by eapply mapM_length).
  unfold combine_along_last_dim. rewrite Hsplit. cbn [bind]. rewrite Hd. cbn [bind].
  rewrite Hk'. cbn [bind].
  set (S0 := sorted_by_key (zip keys' G)).
  assert (HpS : Permutation S0 (zip keys' G)) by apply sorted_by_key_perm.
  rewrite groupby_singletons; cycle 1.
  { rewrite map_map. cbn [fst].
    assert (E : map (fun x : list Z * Dataset V => removelast (fst x)) S0
                = map (removelast (A:=Z)) (map fst S0)) by (by rewrite map_map).
    rewrite E.
    assert (Hpf : Permutation (map fst S0) keys).
    { assert (Hfz : map fst (zip keys' G) = keys') by (apply (fst_zip keys' G); lia).
      etrans; [apply Permutation_map, HpS|]. rewrite Hfz. by symmetry. }
    rewrite Hpf. exact Hgroups. }
  rewrite !map_map. cbn [fst snd].
  assert (E : map (fun x : list Z * Dataset V => [snd x]) S0
              = map (fun g => [g]) (map snd S0)) by (by rewrite map_map).
  rewrite E.
  assert (HpG : Permutation (map snd S0) G).
  { assert (Hsz : map snd (zip keys' G) = G) by (apply (snd_zip keys' G); lia).
    etrans; [apply Permutation_map, HpS|]. by rewrite Hsz. }
  destruct (merge_groups_singletons b d cache (map snd S0) Hb) as (hs & Hhs & Hdims).
  { apply Forall_forall. intros g Hg. apply list_elem_of_In in Hg.
    apply (Permutation_in _ HpG) in Hg.
    rewrite (never_ends_names G g Hp Hg). split; [exact Hns|].
    apply (filter_split_subset F ns sd d never_ends_filter). by apply py_last_In. }
  exists hs. split; [exact Hhs|]. rewrite Hdims, Hp. symmetry. by apply Permutation_map.
Qed.

Lemma never_ends_loop (fuel : nat) :
  forall (cache : gmap string Z) (G : list (Dataset V)),
  Permutation (map dims F) (map dims G) ->
  merge_loop fuel (BufInt b) cache G = None.
Proof.
  induction fuel as [|fuel IH]; intros cache G Hp.
  - assert (HlenG : length G = length F).
    { apply Permutation_length in Hp. by rewrite !length_map in Hp. }
    cbn [merge_loop]. replace (1 <? length G)%nat with true
      by (symmetry; apply Nat.ltb_lt; lia). reflexivity.
  - assert (HlenG : length G = length F).
    { apply Permutation_length in Hp. by rewrite !length_map in Hp. }
    cbn [merge_loop]. replace (1 <? length G)%nat with true
      by (symmetry; apply Nat.ltb_lt; lia).
    destruct (never_ends_pass cache G Hp) as (G' & -> & Hp'). by apply IH.
Qed.

End NeverEnds.

(** X7.  Let two or more fragments have the same dimension names, and let
    no two of them have the same sort key once its last component is
    dropped, so that every group of the first pass has a single member.
    With an integer buffer that is not positive nothing is trimmed, every
    pass returns as many fragments as it was given, with the same
    dimensions, and the loop [while len(merged) > 1] never ends: no number
    [fuel] of passes yields a result. *)
Theorem auto_merge_never_ends {V : Type} (glob : string -> list string) (fs : FS V)
  (F : list (Dataset V)) (ns sd : list string) (d : string) (keys : list (list Z))
  (b : Z) (fuel : nat) :
  b <= 0 ->
  (2 <= length F)%nat ->
  NoDup ns ->
  Forall (fun f => map fst (dims f) = ns) F ->
  split_dims F = Ok sd ->
  py_last sd = Ok d ->
  mapM (first_values sd) F = Ok keys ->
  NoDup (map (removelast (A:=Z)) keys) ->
  auto_merge glob fs fuel (Datasets F) (BufInt b) = None.
Proof.
  intros Hb Hlen Hns Hnames Hsd Hd Hkeys Hgroups.
  unfold auto_merge. cbn [normalize input_length].
  destruct (Nat.eqb_spec (length F) 0) as [E|_]; [lia|].
  by rewrite (never_ends_loop F ns sd d keys b Hb Hlen Hns Hnames Hsd Hd Hkeys Hgroups).
Qed.

Lemma auto_merge_never_ends_witness :
  auto_merge no_glob ∅ 1000 (Datasets [diag_a; diag_b]) (BufInt 0) = None.
Proof.
  apply (auto_merge_never_ends no_glob ∅ [diag_a; diag_b] ["x"; "y"] ["x"; "y"] "y"
           [[0; 0]; [1; 1]] 0 1000).
  - lia.
  - cbn. lia.
  - apply (bool_decide_unpack (NoDup ["x"; "y"])). exact I.
  - repeat constructor.
  - reflexivity.
  - reflexivity.
  - reflexivity.
  - apply (bool_decide_unpack (NoDup (map (removelast (A:=Z)) [[0; 0]; [1; 1]]))).
    exact I.
Defined.

(* ===================================================================== *)
(** * Properties of [map_over_tiles] *)
(* ===================================================================== *)

Lemma str_take_drop (n : nat) (s : string) : str_take n s +:+ str_drop n s = s.
Proof.
  revert s. induction n as [|n IH]; intros [|x s]; try reflexivity.
  cbn [str_take str_drop]. rewrite append_cons. by rewrite IH.
Qed.

Lemma append_nil_r (s : string) : s +:+ "" = s.
Proof. induction s as [|x s IH]; [reflexivity|]. rewrite append_cons. by rewrite IH. Qed.

(** [os.path.splitext] splits: root and extension make up the path. *)
Lemma splitext_join (p r e : string) : os_path_splitext p = (r, e) -> r +:+ e = p.
Proof.
  unfold os_path_splitext. intros H.
  destruct (rfind "/" p <? rfind "." p).
  - destruct (skip_dots _ _ _); inversion H; subst.
    + apply str_take_drop.
    + apply append_nil_r.
  - inversion H; subst. apply append_nil_r.
Qed.


Lemma new_name_ne (p : string) : new_name p <> p.
Proof.
  unfold new_name. destruct (os_path_splitext p) as [r e] eqn:E.
  apply splitext_join in E. rewrite <- E. intros H.
  apply append_cancel_l in H. apply (f_equal String.length) in H.
  rewrite length_append in H. cbn in H. lia.
Qed.

(** X14.  A call of [_wrapper] that succeeds has read the tile, applied
    [fn], and written the result to one file, whose path it returns.
    With [overwrite=False], when a file or directory exists at the output
    path, the result goes to the path with [_new] before the extension,
    which is another path, and what exists at the output path is kept;
    otherwise the result goes to the output path itself. *)
Theorem wrapper_avoids_overwrite {V W : Type}
  (fn : Dataset V -> list W -> list (string * W) -> result (Dataset V))
  (args : list W) (kwargs : list (string * W)) (path : option string) (suffix : string)
  (overwrite : bool) (f : string) (fs fs' : FS V) (out : string) :
  map_wrapper fn args kwargs path suffix overwrite f fs = (Ok out, fs') ->
  (exists data res,
     from_netcdf fs f = Ok data /\ fn data args kwargs = Ok res /\
     fs' = <[out := File res]> fs) /\
  (if negb overwrite && path_exists fs (out_file path suffix f)
   then out = new_name (out_file path suffix f) /\
        out <> out_file path suffix f /\
        fs' !! out_file path suffix f = fs !! out_file path suffix f
   else out = out_file path suffix f).
Proof.
  unfold map_wrapper. intros H.
  destruct (from_netcdf fs f) as [data|] eqn:Ed; [|discriminate].
  destruct (fn data args kwargs) as [res|] eqn:Er; [|discriminate].
  inversion H; subst. clear H. split; [by exists data, res|].
  destruct (negb overwrite && path_exists fs (out_file path suffix f)); [|reflexivity].
  split; [reflexivity|]. split; [apply new_name_ne|].
  unfold to_netcdf. apply lookup_insert_ne, new_name_ne.
Qed.

Lemma wrapper_avoids_overwrite_witness :
  (exists data res,
     from_netcdf one_tile_fs "tiles/part.x_0.nc" = Ok data /\
     keep_tile data [] [] = Ok res /\
     snd (map_wrapper keep_tile [] [] None "" false "tiles/part.x_0.nc" one_tile_fs)
     = <["tiles/part.x_0_new.nc" := File res]> one_tile_fs) /\
  "tiles/part.x_0_new.nc" = new_name "tiles/part.x_0.nc" /\
  "tiles/part.x_0_new.nc" <> "tiles/part.x_0.nc" /\
  snd (map_wrapper keep_tile [] [] None "" false "tiles/part.x_0.nc" one_tile_fs)
    !! "tiles/part.x_0.nc"
  = one_tile_fs !! "tiles/part.x_0.nc".
Proof.
  apply (wrapper_avoids_overwrite keep_tile [] [] None "" false "tiles/part.x_0.nc"
           one_tile_fs
           (snd (map_wrapper keep_tile [] [] None "" false "tiles/part.x_0.nc" one_tile_fs))
           "tiles/part.x_0_new.nc").
  reflexivity.
Defined.

Lemma makedirs_exist_ok_files {V : Type} (fs fs1 : FS V) (path : string) r :
  makedirs_exist_ok fs path = (r, fs1) ->
  forall q d, fs1 !! q = Some (File d) <-> fs !! q = Some (File d).
Proof.
  unfold makedirs_exist_ok. intros H.
  destruct (String.eqb path ""); [by inversion H; subst|].
  destruct (mkdirs (ancestors path) fs) as [[u|e] fs0] eqn:E.
  - pose proof (mkdirs_files _ _ _ _ E) as Hf.
    destruct (fs0 !! path) as [[|d0]|] eqn:Ep; inversion H; subst; try exact Hf.
    intros q d. rewrite <- Hf. destruct (decide (path = q)) as [->|Hne].
    + rewrite lookup_insert_eq, Ep. split; intros; discriminate.
    + by rewrite lookup_insert_ne.
  - inversion H; subst. by eapply mkdirs_files.
Qed.

Lemma run_wrappers_outputs {V W : Type}
  (fn : Dataset V -> list W -> list (string * W) -> result (Dataset V))
  (args : list W) (kwargs : list (string * W)) (path : option string) (suffix : string)
  (overwrite : bool) (files outs : list string) (fs fs' : FS V) :
  run_wrappers (map_wrapper fn args kwargs path suffix overwrite) files fs = (Ok outs, fs') ->
  length outs = length files /\
  forall q, ~ In q outs -> fs' !! q = fs !! q.
Proof.
  revert outs fs. induction files as [|f files IH]; intros outs fs H; cbn [run_wrappers] in H.
  - inversion H; subst. by split.
  - destruct (map_wrapper fn args kwargs path suffix overwrite f fs) as [[out|e] fs1] eqn:Ew;
      [|discriminate].
    destruct (run_wrappers _ files fs1) as [[outs'|e] fs2] eqn:Er; [|discriminate].
    inversion H; subst. destruct (IH outs' fs1 Er) as [Hlen Hq].
    split; [cbn; by rewrite Hlen|].
    intros q Hn. rewrite Hq by (intros Hin; apply Hn; by right).
    unfold map_wrapper in Ew.
    destruct (from_netcdf fs f) as [data|]; [|discriminate].
    destruct (fn data args kwargs) as [res|]; [|discriminate].
    inversion Ew; subst. unfold to_netcdf. apply lookup_insert_ne.
    intros E. apply Hn. left. exact E.
Qed.



(** ** The coordinates of a merged group *)

Lemma py_last_app_one {A : Type} (l : list A) (a : A) : py_last (l ++ [a]) = Ok a.
Proof. unfold py_last. by rewrite last_snoc. Qed.

(** X16.  In a pass with a positive integer buffer [b], a group of two or
    more fragments that can be combined is merged into a dataset whose
    coordinate along the concatenation axis is the coordinate of the first
    member without its last [b] entries, followed by those of the inner
    members without their first and last [b] entries, followed by that of
    the last member without its first [b] entries; the cache is not
    touched. *)
Theorem merge_group_coordinates {V : Type} (b : Z) (d : string)
  (cache cache' : gmap string Z) (g0 gl : Dataset V) (mid : list (Dataset V))
  (m : Dataset V) (c0 cl : list Z) (cmid : list (list Z)) :
  0 < b ->
  assoc d (dims g0) = Some c0 ->
  assoc d (dims gl) = Some cl ->
  Forall2 (fun g c => assoc d (dims g) = Some c) mid cmid ->
  merge_group (BufInt b) d cache (g0 :: mid ++ [gl]) = Ok (m, cache') ->
  cache' = cache /\
  assoc d (dims m)
  = Some (py_slice (Slice None (Some (- b))) c0
          ++ flat_map (py_slice (Slice (Some b) (Some (- b)))) cmid
          ++ py_slice (Slice (Some b) None) cl)%list.
Proof.
  intros Hb H0 Hl Hmid H. unfold merge_group in H. cbn [resolve_buffer bind fst snd] in H.
  apply Z.ltb_lt in Hb as Hb'. rewrite Hb' in H.
  unfold trim_group in H. cbn [py_first bind] in H.
  rewrite app_comm_cons, py_last_app_one in H. cbn [bind] in H.
  change (tail ((g0 :: mid) ++ [gl])%list) with (mid ++ [gl])%list in H.
  rewrite removelast_last in H.
  cbn [app] in H.
  set (a0 := isel g0 (idx_first d b)) in *.
  set (trimmed := a0 :: (map (fun g => isel g (idx_middle d b)) mid
                         ++ [isel gl (idx_end d b)])%list) in *.
  assert (Ha0 : assoc d (dims a0) = Some (py_slice (Slice None (Some (- b))) c0)).
  { unfold a0, idx_first. cbn [isel dims]. by rewrite assoc_dim_select, H0. }
  destruct (auto_combine trimmed d) as [m'|] eqn:Ec; [|discriminate].
  cbn [bind] in H. inversion H; subst. split; [reflexivity|].
  unfold auto_combine in Ec. unfold trimmed in Ec at 1.
  destruct (dim_index d (dims a0)) as [k|]; [|discriminate].
  destruct (forallb _ trimmed); [|discriminate].
  inversion Ec; subst. cbn [dims]. rewrite (assoc_map_replace d _ _ _ Ha0).
  f_equal. unfold trimmed. cbn [flat_map].
  change (assoc d (map (dim_select (idx_first d b)) (dims g0))) with (assoc d (dims a0)).
  rewrite Ha0. cbn [default]. unfold id.
  f_equal. rewrite flat_map_app. cbn [flat_map]. rewrite app_nil_r.
  f_equal.
  - clear -Hmid. induction Hmid as [|g c mid cmid Hg _ IH]; [reflexivity|].
    cbn [map flat_map]. rewrite IH. f_equal.
    unfold idx_middle. cbn [isel dims]. by rewrite assoc_dim_select, Hg.
  - unfold idx_end. cbn [isel dims]. by rewrite assoc_dim_select, Hl.
Qed.

Lemma merge_group_coordinates_witness :
  exists m,
    merge_group (BufInt 1) "x" ∅ sample_tiles = Ok (m, ∅) /\
    assoc "x" (dims m) = Some [0; 10; 20; 30; 40; 50; 60; 70].
Proof.
  destruct (merge_group (BufInt 1) "x" ∅ sample_tiles) as [[m c]|e] eqn:E;
    [|vm_compute in E; discriminate E].
  destruct (merge_group_coordinates 1 "x" ∅ c
              (isel sample_ds [("x", Slice (Some 0) (Some 5))])
              (isel sample_ds [("x", Slice (Some 3) (Some 9))]) [] m
              [0; 10; 20; 30; 40] [30; 40; 50; 60; 70] []) as [Hc Hm].
  - lia.
  - reflexivity.
  - reflexivity.
  - constructor.
  - exact E.
  - exists m. subst c. split; [reflexivity | exact Hm].
Defined.
